(** * cut6_torus: the combinatorial cut analyser of [check.hpp]

    A shallow embedding of [struct Configuration] and of the free function
    [isForbiddenCut], followed by the properties of the specification that
    were checked against it.

    Conventions of the embedding.
    - A vertex is an index into the vectors of the structure and is a [nat];
      every other [int] (lengths, distances, sizes, component identifiers)
      is a [Z].  All of these stay far below the range of a 32-bit [int]
      (the largest constant is [INF = 10000] and sums of two of them).
    - [vector<T>] is [list T]; [v[i]] is [nth i v d]; [v[i] = x] is
      [vset v i x].  An index outside the vector is undefined behaviour in
      the source; here a read gives the default and a write does nothing.
    - [std::set<int>] is the ascending list of its members.
    - A method that can fail an [assert] returns a [res]; [AssertFail] is the
      abort of the run.  Loops whose number of iterations is not bounded
      syntactically get an iteration budget; [OutOfFuel] says the budget of
      the model was too small. *)

From Stdlib Require Import List ZArith Lia Bool Arith PeanoNat.
Import ListNotations.

(** ** Results of fallible code *)

Inductive res (A : Type) : Type :=
| Ok (a : A)
| AssertFail
| OutOfFuel.

Arguments Ok {A} a.
Arguments AssertFail {A}.
Arguments OutOfFuel {A}.

Definition bind {A B : Type} (m : res A) (k : A -> res B) : res B :=
  match m with
  | Ok a => k a
  | AssertFail => AssertFail
  | OutOfFuel => OutOfFuel
  end.

Notation "x <- m ;; k" := (bind m (fun x => k))
  (at level 61, m at next level, right associativity).
Notation "' p <- m ;; k" := (bind m (fun x => let p := x in k))
  (at level 61, p pattern, m at next level, right associativity).

Definition assert (b : bool) : res unit :=
  if b then Ok tt else AssertFail.

(** [for (x : xs) { st = body(st, x) }] where the body can fail. *)
Fixpoint fold_res {S A : Type} (body : S -> A -> res S) (xs : list A) (st : S)
  : res S :=
  match xs with
  | [] => Ok st
  | x :: xs' => st' <- body st x ;; fold_res body xs' st'
  end.

(** [while (cond) body] with a budget of [2 ^ k] iterations. *)
Fixpoint loop_pow {S : Type} (k : nat) (step : S -> S + S) (s : S) : S + S :=
  match k with
  | O => step s
  | S k' =>
      match loop_pow k' step s with
      | inl s' => loop_pow k' step s'
      | inr s' => inr s'
      end
  end.

Definition while_loop {S : Type} (k : nat) (cond : S -> bool) (body : S -> S)
  (s : S) : res S :=
  match loop_pow k (fun s => if cond s then inl (body s) else inr s) s with
  | inl _ => OutOfFuel
  | inr s' => Ok s'
  end.

(** ** Vectors and matrices *)

Fixpoint vset {A : Type} (v : list A) (i : nat) (x : A) : list A :=
  match v, i with
  | [], _ => []
  | _ :: v', O => x :: v'
  | y :: v', S i' => y :: vset v' i' x
  end.

Definition matrix := list (list Z).

Definition mget (m : matrix) (i j : nat) : Z := nth j (nth i m []) 0%Z.

Definition mset (m : matrix) (i j : nat) (x : Z) : matrix :=
  vset m i (vset (nth i m []) j x).

Definition mem (x : nat) (l : list nat) : bool := existsb (Nat.eqb x) l.

Definition mem_path (p : list nat) (ps : list (list nat)) : bool :=
  existsb (fun q => if list_eq_dec Nat.eq_dec p q then true else false) ps.

Definition mem_pair (e : nat * nat) (es : list (nat * nat)) : bool :=
  existsb (fun f => (fst e =? fst f) && (snd e =? snd f)) es.

(** ** [isForbiddenCut] *)

Definition INF : Z := 10000.

Definition isForbiddenCut (cutsize component_size : Z) : bool :=
  if (cutsize <=? 4)%Z then (0 <? component_size)%Z
  else if (cutsize =? 5)%Z then (1 <? component_size)%Z
  else if (cutsize =? 6)%Z then (3 <? component_size)%Z
  else if (cutsize =? 7)%Z then (4 <? component_size)%Z
  else false.

(** The table of section 4.5 of the specification, in its words. *)
Definition forbidden_cut_table (k c : Z) : Prop :=
  (2 <= k <= 4 /\ c > 0)%Z \/ (k = 5 /\ c > 1)%Z \/
  (k = 6 /\ c > 3)%Z \/ (k = 7 /\ c > 4)%Z.

(** What the code computes: the first row has no lower bound. *)
Definition forbidden_cut_code (k c : Z) : Prop :=
  (k <= 4 /\ c > 0)%Z \/ (k = 5 /\ c > 1)%Z \/
  (k = 6 /\ c > 3)%Z \/ (k = 7 /\ c > 4)%Z.

(** [std::set<int>]: insertion keeps the members ascending and distinct. *)
Fixpoint set_insert (x : nat) (s : list nat) : list nat :=
  match s with
  | [] => [x]
  | y :: s' =>
      if x <? y then x :: s
      else if x =? y then s
      else y :: set_insert x s'
  end.

Definition set_of_list (l : list nat) : list nat :=
  fold_left (fun s x => set_insert x s) l [].

Definition set_erase (x : nat) (s : list nat) : list nat :=
  filter (fun y => negb (x =? y)) s.

(** [for (int k = lo; k <= hi; k++)] *)
Definition zrange (lo hi : Z) : list Z :=
  map (fun i => (lo + Z.of_nat i)%Z) (seq 0 (Z.to_nat (hi - lo + 1))).

(** [for (x : xs) if (f x) { flag = true; break; }] *)
Fixpoint exists_res {A : Type} (f : A -> res bool) (xs : list A) : res bool :=
  match xs with
  | [] => Ok false
  | x :: xs' => b <- f x ;; if b then Ok true else exists_res f xs'
  end.

(** The first argument of [assert] in [canBeAlmostMinimal] and
    [getComponent]: [path[0]] and [path.back()] of a path with at least
    one vertex.  On an empty vector the source reads both before its
    assertion, which no value models (here both are 0); the properties
    stated of these methods are properties of their calls on non-empty
    paths. *)
Definition front (path : list nat) : nat := hd 0 path.
Definition back (path : list nat) : nat := last path 0.

(** ** The methods of [Configuration]

    The members a method reads are the variables of the section it is
    defined in; the members it assigns are returned. *)

Section Graph.

Variables (n_ r_ : nat) (VtoV_ : list (list nat)).

(** [VtoV_[v]], iterated in ascending order. *)
Definition adj (v : nat) : list nat := nth v VtoV_ [].

(** *** All-pairs distances (Warshall-Floyd) *)

Definition WF_init : matrix :=
  fold_left
    (fun dist v =>
       fold_left (fun dist u => mset dist v u 1%Z) (adj v) (mset dist v v 0%Z))
    (seq 0 n_) (repeat (repeat INF n_) n_).

Definition WF_contract (contract : list (nat * nat)) (dist : matrix)
  : res matrix :=
  fold_res
    (fun dist e =>
       _ <- assert (mget dist (fst e) (snd e) =? 1)%Z ;;
       Ok (mset (mset dist (fst e) (snd e) 0%Z) (snd e) (fst e) 0%Z))
    contract dist.

Definition WF_relax (dist : matrix) : matrix :=
  fold_left
    (fun dist k =>
       fold_left
         (fun dist i =>
            fold_left
              (fun dist j =>
                 mset dist i j
                   (Z.min (mget dist i j) (mget dist i k + mget dist k j)))
              (seq 0 n_) dist)
         (seq 0 n_) dist)
    (seq 0 n_) dist.

Definition WF (contract_ : list (nat * nat)) (after_contract : bool)
  : res matrix :=
  dist <- (if after_contract then WF_contract contract_ WF_init
           else Ok WF_init) ;;
  Ok (WF_relax dist).

(** *** [shortestPaths] *)

Definition contract_set (contract_ : list (nat * nat)) (after_contract : bool)
  : list (nat * nat) :=
  if after_contract
  then flat_map (fun e => [e; (snd e, fst e)]) contract_
  else [].

Definition loop_budget : nat := (n_ + 1) * (n_ + 1) + 16.

Definition que_nonempty {A : Type} (st : A * list nat) : bool :=
  match snd st with [] => false | _ :: _ => true end.

(** The body of [for (int u : VtoV_[v])] in the first loop. *)
Definition sp_relax (cs : list (nat * nat)) (v : nat)
  (st : list Z * list nat) (u : nat) : list Z * list nat :=
  let '(dist, que) := st in
  if mem_pair (u, v) cs then
    if (nth v dist 0 <? nth u dist 0)%Z
    then (vset dist u (nth v dist 0%Z), u :: que)
    else st
  else
    if (nth v dist 0 + 1 <? nth u dist 0)%Z
    then (vset dist u (nth v dist 0 + 1)%Z, que ++ [u])
    else st.

Definition sp_dist_step (cs : list (nat * nat)) (st : list Z * list nat)
  : list Z * list nat :=
  match snd st with
  | [] => st
  | v :: que => fold_left (sp_relax cs v) (adj v) (fst st, que)
  end.

Definition sp_dist (cs : list (nat * nat)) (s : nat) : res (list Z) :=
  st <- while_loop loop_budget que_nonempty (sp_dist_step cs)
          (vset (repeat INF n_) s 0%Z, [s]) ;;
  Ok (fst st).

(** The body of [for (auto &path : paths[v])]. *)
Definition sp_extend (u : nat) (st : list (list (list nat)) * bool)
  (path : list nat) : list (list (list nat)) * bool :=
  let '(paths, update) := st in
  let upath := path ++ [u] in
  if mem_path upath (nth u paths []) || mem u path then st
  else (vset paths u (nth u paths [] ++ [upath]), true).

(** The body of [for (int u : VtoV_[v])] in the second loop. *)
Definition sp_visit (cs : list (nat * nat)) (dist : list Z) (v : nat)
  (st : list (list (list nat)) * list nat) (u : nat)
  : list (list (list nat)) * list nat :=
  let '(paths, que) := st in
  if (nth u dist 0 =? nth v dist 0 + 1)%Z
     || ((nth u dist 0 =? nth v dist 0)%Z && mem_pair (u, v) cs)
  then
    let '(paths', update) :=
      fold_left (sp_extend u) (nth v paths []) (paths, false) in
    if update then
      if (nth u dist 0 =? nth v dist 0 + 1)%Z
      then (paths', que ++ [u])
      else (paths', u :: que)
    else (paths', que)
  else st.

Definition sp_paths_step (cs : list (nat * nat)) (dist : list Z)
  (st : list (list (list nat)) * list nat)
  : list (list (list nat)) * list nat :=
  match snd st with
  | [] => st
  | v :: que => fold_left (sp_visit cs dist v) (adj v) (fst st, que)
  end.

Definition sp_unique (ps : list (list nat)) : list (list nat) :=
  fold_left (fun unique_paths path =>
               if mem_path path unique_paths then unique_paths
               else unique_paths ++ [path]) ps [].

Definition shortestPaths (contract_ : list (nat * nat)) (s t : nat)
  (after_contract : bool) : res (list (list nat)) :=
  let cs := contract_set contract_ after_contract in
  dist <- sp_dist cs s ;;
  st <- while_loop loop_budget que_nonempty (sp_paths_step cs dist)
          (vset (repeat [] n_) s [[s]], [s]) ;;
  Ok (sp_unique (nth t (fst st) [])).

(** *** [calculatePaths] *)

Fixpoint calculatePaths_dfs (fuel : nat) (q v : nat) (path : list nat)
  (paths : list (list nat)) : list (list nat) :=
  let path := path ++ [v] in
  if v =? q then paths ++ [path]
  else if length path =? 8 then paths
  else
    match fuel with
    | O => paths
    | S fuel' =>
        fold_left
          (fun paths u =>
             if mem u path then paths
             else calculatePaths_dfs fuel' q u path paths)
          (adj v) paths
    end.

Definition calculatePaths (p q : nat) : list (list nat) :=
  calculatePaths_dfs 8 q p [] [].

(** *** Components cut out by a ring-to-ring path *)

(** [for (int v = (p + 1) % r_; v != q; v = (v + 1) % r_)] *)
Fixpoint ring_walk (fuel : nat) (v q : nat) : list nat :=
  match fuel with
  | O => []
  | S fuel' => if v =? q then [] else v :: ring_walk fuel' ((v + 1) mod r_) q
  end.

Definition ring_arc (p q : nat) : list nat :=
  ring_walk r_ ((p + 1) mod r_) q.

Fixpoint getComponent_dfs (fuel : nat) (cutset : list nat) (v : nat) (c : Z)
  (st : list Z * list nat) : res (list Z * list nat) :=
  match fuel with
  | O => OutOfFuel
  | S fuel' =>
      let '(component_id, component) := st in
      if mem v cutset || negb (nth v component_id (-1) =? -1)%Z then Ok st
      else
        fold_res (fun st u => getComponent_dfs fuel' cutset u c st) (adj v)
          (vset component_id v c, component ++ [v])
  end.

Definition getComponent (pqpath : list nat) : res (list nat) :=
  let p := front pqpath in
  let q := back pqpath in
  _ <- assert (negb (p =? q) && (p <? r_) && (q <? r_)) ;;
  let cutset := set_of_list pqpath in
  st <- fold_res (fun st v => getComponent_dfs (S n_) cutset v 0%Z st)
          (ring_arc p q) (repeat (-1)%Z n_, []) ;;
  Ok (snd st).

Definition getComponent_pair (q1p2_path q2p1_path : list nat)
  : res (list nat) :=
  c1 <- getComponent q1p2_path ;;
  let component2 := set_of_list c1 in
  c2 <- getComponent (rev q2p1_path) ;;
  Ok (filter (fun v => negb (mem v component2)) c2).

Definition getComponent2 (q1p2_path q2p1_path : list nat) : res (list nat) :=
  c1 <- getComponent q1p2_path ;;
  let component2 := set_of_list c1 in
  c2 <- getComponent q2p1_path ;;
  let '(component2, component) :=
    fold_left
      (fun '(component2, component) v =>
         if mem v component2 then (set_erase v component2, component)
         else (component2, component ++ [v]))
      c2 (component2, []) in
  Ok (component ++ component2).

Definition count_sides (component : list nat) : Z * Z :=
  fold_left
    (fun '(s, t) v =>
       if v <? r_ then (s + 1, t)%Z
       else if r_ <=? v then (s, t + 1)%Z else (s, t))
    component (0%Z, 0%Z).

Definition sizeOfVertices (pqpath : list nat) : res (Z * Z) :=
  component <- getComponent pqpath ;; Ok (count_sides component).

Definition sizeOfVertices_pair (q1p2_path q2p1_path : list nat)
  : res (Z * Z) :=
  component <- getComponent_pair q1p2_path q2p1_path ;;
  Ok (count_sides component).

Definition sizeOfVertices2 (q1p2_path q2p1_path : list nat) : res (Z * Z) :=
  component <- getComponent2 q1p2_path q2p1_path ;;
  Ok (count_sides component).

(** *** [canBeAlmostMinimal] *)

(** [for (i = 0; i < path.size() - 1; i++)
      if (path[i] < r_ && path[i + 1] < r_) number_in_ring++] *)
Fixpoint number_in_ring (path : list nat) : Z :=
  match path with
  | a :: (b :: _) as path' =>
      ((if ((a <? r_) && (b <? r_))%nat then 1 else 0) + number_in_ring path')%Z
  | _ => 0%Z
  end.

Definition pathlen_of (path : list nat) : Z := (Z.of_nat (length path) - 1)%Z.

Definition canBeAlmostMinimal (path : list nat) (k cutSize : Z) : res bool :=
  _ <- assert ((front path <? r_) && (back path <? r_)) ;;
  let number_in_ring := number_in_ring path in
  let pathlen := pathlen_of path in
  _ <- assert (1 <=? pathlen)%Z ;;
  Ok (((number_in_ring =? pathlen) && (6 <=? pathlen + k))
      || (((pathlen <=? 3) || (pathlen - 3 <=? number_in_ring))
          && (pathlen + k =? 7) && (cutSize =? 6)))%Z.

Definition canBeAlmostMinimal_pair (path1 path2 : list nat)
  (k1 k2 cutSize : Z) : res bool :=
  _ <- assert ((front path1 <? r_) && (back path1 <? r_)) ;;
  let number_in_ring1 := number_in_ring path1 in
  _ <- assert ((front path2 <? r_) && (back path2 <? r_)) ;;
  let number_in_ring2 := number_in_ring path2 in
  let pathlen1 := pathlen_of path1 in
  let pathlen2 := pathlen_of path2 in
  let number_in_ring := (number_in_ring1 + number_in_ring2)%Z in
  let pathlen := (pathlen1 + pathlen2)%Z in
  let k := (k1 + k2)%Z in
  Ok (((number_in_ring =? pathlen) && (6 <=? pathlen + k))
      || (((pathlen <=? 3) || (pathlen - 3 <=? number_in_ring))
          && (pathlen + k =? 7) && (cutSize =? 6)))%Z.

Definition canBeAlmostMinimal2 (path1 path2 : list nat)
  (k1 k2 cutSize : Z) : res bool :=
  _ <- assert ((front path1 <? r_) && (back path1 <? r_)) ;;
  let number_in_ring1 := number_in_ring path1 in
  _ <- assert ((front path2 <? r_) && (back path2 <? r_)) ;;
  let number_in_ring2 := number_in_ring path2 in
  let pathlen1 := pathlen_of path1 in
  let pathlen2 := pathlen_of path2 in
  let num_inside :=
    (k1 + (pathlen1 - number_in_ring1) + (pathlen2 - number_in_ring2))%Z in
  let l := (pathlen1 + pathlen2 + k1 + k2)%Z in
  Ok (((num_inside =? 0) && (6 <=? l))
      || ((num_inside <=? 3) && (l =? 7) && (cutSize =? 6)))%Z.

(** *** Cycles closed by an outer path, against the path cache *)

Section Cache.

Variable all_paths_ : list (list (list (list nat))).

(** [all_paths_[a][b]] *)
Definition all_paths (a b : nat) : list (list nat) :=
  nth b (nth a all_paths_ []) [].

Definition degree_le_4 (v : nat) : bool := (length (adj v) <=? 4)%nat.

Definition checkShortCycle (a b : nat) (k cutSize : Z) : res bool :=
  _ <- assert ((a <? r_) && (b <? r_) && negb (a =? b)) ;;
  exists_res
    (fun R =>
       cm <- canBeAlmostMinimal R k cutSize ;;
       if cm then Ok false
       else
         let m := pathlen_of R in
         ' (s, t) <- sizeOfVertices R ;;
         let sz := (Z.quot (Z.max (s - Z.max (k - 1) 0 + 1) 0) 2 + t)%Z in
         if isForbiddenCut (k + m) sz then Ok true
         else
           Ok ((((k =? 2) && (m =? 3)) || ((k =? 1) && (m =? 4)))%Z
               && (s =? 2)%Z && (t =? 0)%Z
               && degree_le_4 ((a + 1) mod r_)
               && degree_le_4 ((a + 2) mod r_)))
    (all_paths a b).

Definition is6or7 (cutSize : Z) : bool :=
  ((cutSize =? 6) || (cutSize =? 7))%Z.

Definition forbiddenCycle (a b : nat) (k cutSize : Z) : res bool :=
  _ <- assert (is6or7 cutSize) ;;
  _ <- assert (k <=? cutSize)%Z ;;
  let b_ := if a <? b then b else b + r_ in
  let q := (Z.of_nat b_ - Z.of_nat a)%Z in
  if (q =? k)%Z then Ok false
  else if (q <? k)%Z then Ok true
  else checkShortCycle a b k cutSize.

Definition forbiddenCycleOneEdge (a b : nat) (k cutSize : Z) : res bool :=
  _ <- assert (is6or7 cutSize) ;;
  _ <- assert (k <=? cutSize)%Z ;;
  let b_ := if a <? b then b else b + r_ in
  let q := (Z.of_nat b_ - Z.of_nat a)%Z in
  let Q := rev (map (fun v => v mod r_) (seq a (1 + b_ - a))) in
  ' (s, t) <- sizeOfVertices Q ;;
  let sz :=
    (Z.quot (Z.max (s - Z.max (cutSize - k - 1) 0 + 1) 0) 2 + t)%Z in
  let l := (cutSize - k + q + 1)%Z in
  if negb ((l =? 7) && (cutSize =? 6))%Z && isForbiddenCut l sz then Ok true
  else
    _ <- assert (negb (a =? b)) ;;
    exists_res
      (fun R =>
         let m := pathlen_of R in
         let number_in_ring := number_in_ring R in
         if (((m <=? 2) || (m - 2 <=? number_in_ring))
             && (k + m + 1 =? 7) && (cutSize =? 6))%Z
         then Ok false
         else
           ' (s, t) <- sizeOfVertices R ;;
           let sz := (Z.quot (Z.max (s - Z.max (k - 1) 0 + 1) 0) 2 + t)%Z in
           Ok (isForbiddenCut (k + m + 1) sz))
      (all_paths a b).

(** [while (1) { if (k > cutSize || !forbidden(k)) { .. = k; break; } ++k; }] *)
Fixpoint first_allowed (fuel : nat) (forbidden : Z -> res bool)
  (cutSize k : Z) : res Z :=
  match fuel with
  | O => OutOfFuel
  | S fuel' =>
      if (cutSize <? k)%Z then Ok k
      else
        b <- forbidden k ;;
        if negb b then Ok k
        else first_allowed fuel' forbidden cutSize (k + 1)%Z
  end.

Definition ring_successor (p q : nat) : bool :=
  (p + 1 =? q) || ((p =? r_ - 1) && (q =? 0)).

Definition lower_bound_table (forbidden : nat -> nat -> Z -> Z -> res bool)
  (k0 cutSize : Z) : res matrix :=
  fold_res
    (fun length p =>
       fold_res
         (fun length q =>
            if p =? q then Ok length
            else if ring_successor p q then Ok (mset length p q 1%Z)
            else
              k <- first_allowed (Z.to_nat cutSize + 2)
                     (fun k => forbidden p q k cutSize) cutSize k0 ;;
              Ok (mset length p q k))
         (seq 0 r_) length)
    (seq 0 r_) (repeat (repeat 0%Z r_) r_).

Definition calcLowerBoundLengthOuterPath (cutSize : Z) : res matrix :=
  lower_bound_table forbiddenCycle 0%Z cutSize.

Definition calcLowerBoundLengthOuterPathOneEdge (cutSize : Z) : res matrix :=
  lower_bound_table forbiddenCycleOneEdge 1%Z cutSize.

(** *** The contraction state *)

Section Contraction.

Variable contract_ : list (nat * nat).
Variables dist_ dist_contracted_ : matrix.
Variables length6_ length_oneedge6_ length7_ length_oneedge7_ : matrix.

Definition equivalent (u v : nat) : bool :=
  (mget dist_contracted_ v u =? 0)%Z.

Definition calcRepresentative : list Z :=
  fold_left
    (fun representative v =>
       match find (fun u => equivalent v u) (seq 0 n_) with
       | Some u => vset representative v (Z.of_nat u)
       | None => representative
       end)
    (seq 0 n_) (repeat (-1)%Z n_).

(** **** 2- and 3-cuts inside the configuration *)

Definition cut_closure (cut : list nat) : list nat :=
  fold_left
    (fun cutset v =>
       fold_left
         (fun cutset u =>
            if equivalent v u then set_insert u cutset else cutset)
         (seq 0 n_) (set_insert v cutset))
    cut [].

Fixpoint componentId_dfs (fuel : nat) (cutset : list nat) (v : nat)
  (c : Z) (component_id : list Z) : res (list Z) :=
  match fuel with
  | O => OutOfFuel
  | S fuel' =>
      fold_res
        (fun component_id u =>
           if mem u cutset then Ok component_id
           else if negb (nth u component_id (-1) =? -1)%Z
                then Ok component_id
                else componentId_dfs fuel' cutset u c component_id)
        (adj v) (vset component_id v c)
  end.

Definition componentIdEquivalence (cut : list nat) : res (list Z) :=
  let cutset := cut_closure cut in
  component_id <-
    fold_res
      (fun component_id v =>
         if negb (mem v cutset)
         then componentId_dfs (S n_) cutset v 0%Z component_id
         else Ok component_id)
      (seq 0 r_) (repeat (-1)%Z n_) ;;
  st <-
    fold_res
      (fun '(component_id, num_component) v =>
         if negb (mem v cutset) && (nth v component_id (-1) =? -1)%Z
         then
           component_id <-
             componentId_dfs (S n_) cutset v num_component component_id ;;
           Ok (component_id, (num_component + 1)%Z)
         else Ok (component_id, num_component))
      (seq r_ (n_ - r_)) (component_id, 1%Z) ;;
  Ok (fst st).

Definition updateIsReductable (is_reductable : list bool)
  (component_id : list Z) (is_ring : list bool) : list bool :=
  let is_reducing_component :=
    fold_left
      (fun irc v =>
         if negb (nth v component_id (-1) =? -1)%Z && nth v is_ring false
         then vset irc (Z.to_nat (nth v component_id (-1)%Z)) false
         else irc)
      (seq 0 n_) (repeat true n_) in
  fold_left
    (fun is_reductable v =>
       if negb (nth v component_id (-1) =? -1)%Z
          && nth (Z.to_nat (nth v component_id (-1)%Z))
               is_reducing_component false
       then vset is_reductable v true
       else is_reductable)
    (seq 0 n_) is_reductable.

Definition ring_classes : list bool :=
  fold_left
    (fun is_ring v =>
       fold_left
         (fun is_ring u =>
            if equivalent v u then vset is_ring u true else is_ring)
         (seq 0 n_) is_ring)
    (seq 0 r_) (repeat false n_).

Definition calcCutReduction : res (list bool) :=
  let is_ring := ring_classes in
  fold_res
    (fun is_reductable v0 =>
       component_id <- componentIdEquivalence [v0] ;;
       let is_reductable :=
         updateIsReductable is_reductable component_id is_ring in
       fold_res
         (fun is_reductable v1 =>
            component_id <- componentIdEquivalence [v0; v1] ;;
            let is_reductable :=
              updateIsReductable is_reductable component_id is_ring in
            fold_res
              (fun is_reductable v2 =>
                 component_id <- componentIdEquivalence [v0; v1; v2] ;;
                 Ok (updateIsReductable is_reductable component_id
                       is_ring))
              (seq 0 v1) is_reductable)
         (seq 0 v0) is_reductable)
    (seq 0 n_) (repeat false n_).

(** **** 2- and 3-cuts through the outside of the configuration *)

(** [for (int v : reducing_component)]: mark [v] unless it is
    identified with a vertex of the paths. *)
Definition mark_component (reducing_component on_paths : list nat)
  (is_reductable : list bool) : list bool :=
  fold_left
    (fun is_reductable v =>
       let equivalent_path :=
         fold_left
           (fun equivalent_path u =>
              if equivalent v u then true else equivalent_path)
           on_paths false in
       if equivalent_path then is_reductable
       else vset is_reductable v true)
    reducing_component is_reductable.

Definition calcReductableVertices1 (cutSize : Z)
  (is_reductable : list bool) : res (list bool) :=
  fold_res
    (fun is_reductable p =>
       fold_res
         (fun is_reductable q =>
            if p =? q then Ok is_reductable
            else
              let pathlen_min := Z.max 0 (5 - mget dist_ p q) in
              let pathlen_max := (3 - mget dist_contracted_ p q)%Z in
              if (pathlen_max <? pathlen_min)%Z then Ok is_reductable
              else
                contracted_paths <- shortestPaths contract_ p q true ;;
                fold_res
                  (fun is_reductable pathlen =>
                     b <- checkShortCycle p q pathlen cutSize ;;
                     if b then Ok is_reductable
                     else
                       fold_res
                         (fun is_reductable contracted_path =>
                            if (pathlen_of contracted_path
                                =? mget dist_ p q)%Z
                            then Ok is_reductable
                            else
                              reducing_component <-
                                getComponent contracted_path ;;
                              Ok (mark_component reducing_component
                                    contracted_path is_reductable))
                         contracted_paths is_reductable)
                  (zrange pathlen_min pathlen_max) is_reductable)
         (seq 0 r_) is_reductable)
    (seq 0 r_) is_reductable.

(** [for p1; for q1_ in (p1, p1 + r_); for p2_ in (q1_, p1 + r_);
     for q2_ in (p2_, p1 + r_)], in the order of the loops. *)
Definition range (a b : nat) : list nat := seq a (b - a).

Definition ring_quadruples : list (nat * nat * nat * nat) :=
  flat_map
    (fun p1 =>
       flat_map
         (fun q1_ =>
            flat_map
              (fun p2_ =>
                 map (fun q2_ => (p1, q1_, p2_, q2_))
                   (range (p2_ + 1) (p1 + r_)))
              (range (q1_ + 1) (p1 + r_)))
         (range (p1 + 1) (p1 + r_)))
    (seq 0 r_).

(** The marking loops shared by the two-path patterns. *)
Definition mark_pairs
  (component : list nat -> list nat -> res (list nat))
  (q1 p2 q2 p1 : nat) (contracted_path1s contracted_path2s : list (list nat))
  (is_reductable : list bool) : res (list bool) :=
  fold_res
    (fun is_reductable contracted_path1 =>
       fold_res
         (fun is_reductable contracted_path2 =>
            if (pathlen_of contracted_path1 =? mget dist_ q1 p2)%Z
               && (pathlen_of contracted_path2 =? mget dist_ q2 p1)%Z
            then Ok is_reductable
            else
              reducing_component <-
                component contracted_path1 contracted_path2 ;;
              Ok (mark_component reducing_component
                    (contracted_path1 ++ contracted_path2)
                    is_reductable))
         contracted_path2s is_reductable)
    contracted_path1s is_reductable.

Definition outer_size (s t pathlen1 pathlen2 : Z) : Z :=
  (Z.quot (Z.max (s - Z.max (pathlen1 + pathlen2 - 2) 0 + 1) 0) 2 + t)%Z.

(** [calcReductableVertices2] and [calcReductableVertices4] are the
    same loops; they differ in the second call of [checkShortCycle]
    ([p2, q2] against [q2, p2]) and in the variants of
    [canBeAlmostMinimal], [sizeOfVertices] and [getComponent]. *)
Definition two_outer_paths (flipped : bool)
  (almost_minimal : list nat -> list nat -> Z -> Z -> Z -> res bool)
  (size_of : list nat -> list nat -> res (Z * Z))
  (component : list nat -> list nat -> res (list nat))
  (cutSize : Z) (is_reductable : list bool) : res (list bool) :=
  fold_res
    (fun is_reductable '(p1, q1_, p2_, q2_) =>
       let q1 := q1_ mod r_ in
       let p2 := p2_ mod r_ in
       let q2 := q2_ mod r_ in
       let pathlen_min1 := Z.max 0 (5 - mget dist_ p1 q1) in
       let pathlen_min2 := Z.max 0 (5 - mget dist_ p2 q2) in
       let pathlen_max :=
         (3 - mget dist_contracted_ q1 p2 - mget dist_contracted_ q2 p1)%Z in
       if (pathlen_max <? pathlen_min1)%Z || (pathlen_max <? pathlen_min2)%Z
       then Ok is_reductable
       else
         shortest_path1s <- shortestPaths contract_ q1 p2 false ;;
         shortest_path2s <- shortestPaths contract_ q2 p1 false ;;
         contracted_path1s <- shortestPaths contract_ q1 p2 true ;;
         contracted_path2s <- shortestPaths contract_ q2 p1 true ;;
         fold_res
           (fun is_reductable pathlen1 =>
              fold_res
                (fun is_reductable pathlen2 =>
                   if (3 <? pathlen1 + pathlen2
                            + mget dist_contracted_ q1 p2
                            + mget dist_contracted_ q2 p1)%Z
                   then Ok is_reductable
                   else
                     b1 <- checkShortCycle p1 q1 pathlen1 cutSize ;;
                     if b1 then Ok is_reductable
                     else
                     b2 <- (if flipped
                            then checkShortCycle q2 p2 pathlen2 cutSize
                            else checkShortCycle p2 q2 pathlen2 cutSize) ;;
                     if b2 then Ok is_reductable
                     else
                     has_smallcut <-
                       exists_res
                         (fun shortest_path1 =>
                            exists_res
                              (fun shortest_path2 =>
                                 cm <- almost_minimal
                                         shortest_path1 shortest_path2
                                         pathlen1 pathlen2 cutSize ;;
                                 if cm then Ok false
                                 else
                                   ' (s, t) <- size_of
                                                 shortest_path1
                                                 shortest_path2 ;;
                                   let sz :=
                                     outer_size s t pathlen1 pathlen2 in
                                   Ok (isForbiddenCut
                                         (Z.of_nat (length shortest_path1)
                                          + Z.of_nat (length shortest_path2)
                                          - 2 + pathlen1 + pathlen2)%Z
                                         sz))
                              shortest_path2s)
                         shortest_path1s ;;
                     if has_smallcut then Ok is_reductable
                     else
                       mark_pairs component q1 p2 q2 p1
                         contracted_path1s contracted_path2s
                         is_reductable)
                (zrange pathlen_min2 pathlen_max) is_reductable)
           (zrange pathlen_min1 pathlen_max) is_reductable)
    ring_quadruples is_reductable.

Definition calcReductableVertices2 : Z -> list bool -> res (list bool) :=
  two_outer_paths false canBeAlmostMinimal_pair sizeOfVertices_pair
    getComponent_pair.

Definition calcReductableVertices4 : Z -> list bool -> res (list bool) :=
  two_outer_paths true canBeAlmostMinimal2 sizeOfVertices2
    getComponent2.

Definition table_of (cutSize : Z) (t6 t7 : matrix) : matrix :=
  if (cutSize =? 6)%Z then t6 else t7.

Definition calcLowerBoundCycle (p1 q1 p2 q2 : nat)
  (pathlen1 pathlen2 cutSize : Z) : res Z :=
  _ <- assert (pathlen1 + pathlen2 <=? 3)%Z ;;
  let length := mget (table_of cutSize length6_ length7_) in
  let length_oneedge :=
    mget (table_of cutSize length_oneedge6_ length_oneedge7_) in
  let L_vertical :=
    (Z.max (length p1 q1) (2 - pathlen1)
     + Z.max (length p2 q2) (2 - pathlen2))%Z in
  let L_horizontal := (length q1 p2 + length q2 p1)%Z in
  let L :=
    (if (L_vertical + pathlen1 + pathlen2 <=? 5)
        && (L_horizontal + pathlen1 + pathlen2 <=? 5)
     then L_vertical + L_horizontal + 6 - pathlen1 - pathlen2
          - Z.max L_vertical L_horizontal
     else L_vertical + L_horizontal)%Z in
  let L1_horizontal :=
    Z.min (length q2 p1 + length_oneedge q1 p2)
          (length_oneedge q2 p1 + length q1 p2) in
  let L :=
    if (pathlen1 =? 2)%Z then
      let L1_vertical :=
        (Z.max (length_oneedge p1 q1) 1
         + Z.max (length p2 q2) (2 - pathlen2))%Z in
      let L1 :=
        (if (L1_vertical + pathlen2 + 1 <=? 5)
            && (L1_horizontal + pathlen2 + 1 <=? 5)
         then L1_vertical + L1_horizontal + 5 - pathlen2
              - Z.max L1_vertical L1_horizontal
         else L1_vertical + L1_horizontal)%Z in
      let L := Z.min L L1 in
      if (pathlen2 =? 1)%Z then
        let L2_vertical :=
          (Z.max (length p1 q1) (2 - pathlen1)
           + Z.max (length_oneedge p2 q2) 2)%Z in
        let L2_horizontal := L1_horizontal in
        let L2 :=
          (if (L2_vertical + pathlen1 <=? 5)
              && (L2_horizontal + pathlen1 <=? 5)
           then L2_vertical + L2_horizontal + 6 - pathlen1
                - Z.max L2_horizontal L2_vertical
           else L2_vertical + L2_horizontal)%Z in
        Z.min L L2
      else L
    else L in
  let L :=
    if (pathlen2 =? 2)%Z then
      let L1_vertical :=
        (Z.max (length p1 q1) (2 - pathlen1)
         + Z.max (length_oneedge p2 q2) 1)%Z in
      let L1 :=
        (if (L1_vertical + pathlen1 + 1 <=? 5)
            && (L1_horizontal + pathlen1 + 1 <=? 5)
         then L1_vertical + L1_horizontal + 5 - pathlen1
              - Z.max L1_vertical L1_horizontal
         else L1_vertical + L1_horizontal)%Z in
      let L := Z.min L L1 in
      if (pathlen1 =? 1)%Z then
        let L2_vertical :=
          (Z.max (length_oneedge p1 q1) 2
           + Z.max (length p2 q2) (2 - pathlen2))%Z in
        let L2_horizontal := L1_horizontal in
        let L2 :=
          (if (L2_vertical + pathlen2 <=? 5)
              && (L2_horizontal + pathlen2 <=? 5)
           then L2_vertical + L2_horizontal + 6 - pathlen2
                - Z.max L2_vertical L2_horizontal
           else L2_vertical + L2_horizontal)%Z in
        Z.min L L2
      else L
    else L in
  Ok (if (pathlen1 =? 3)%Z || (pathlen2 =? 3)%Z then 0%Z else L).

Definition calcReductableVertices3 (cutSize : Z)
  (is_reductable : list bool) : res (list bool) :=
  fold_res
    (fun is_reductable '(p1, q1_, p2_, q2_) =>
       if (q1_ + 1 =? p2_) && (q2_ + 1 =? p1 + r_) then Ok is_reductable
       else
       let q1 := q1_ mod r_ in
       let p2 := p2_ mod r_ in
       let q2 := q2_ mod r_ in
       let pathlen_min1 := Z.max (2 - mget dist_contracted_ p1 q1) 0 in
       let pathlen_min2 := Z.max (2 - mget dist_contracted_ p2 q2) 0 in
       let pathlen_max :=
         (3 - mget dist_contracted_ q1 p2 - mget dist_contracted_ q2 p1)%Z in
       if (pathlen_max <? pathlen_min1)%Z || (pathlen_max <? pathlen_min2)%Z
       then Ok is_reductable
       else
         _ <- assert (negb (q1 =? p2)) ;;
         let path1s := all_paths q1 p2 in
         _ <- assert (negb (q2 =? p1)) ;;
         let path2s := all_paths q2 p1 in
         contracted_path1s <- shortestPaths contract_ q1 p2 true ;;
         contracted_path2s <- shortestPaths contract_ q2 p1 true ;;
         fold_res
           (fun is_reductable pathlen1 =>
              fold_res
                (fun is_reductable pathlen2 =>
                   if (3 <? pathlen1 + pathlen2
                            + mget dist_contracted_ q1 p2
                            + mget dist_contracted_ q2 p1)%Z
                   then Ok is_reductable
                   else
                     L <- calcLowerBoundCycle p1 q1 p2 q2
                            pathlen1 pathlen2 cutSize ;;
                     if (cutSize <? L)%Z then Ok is_reductable
                     else
                     has_smallcut <-
                       fold_res
                         (fun has_smallcut path1 =>
                            found <-
                              exists_res
                                (fun path2 =>
                                   let l :=
                                     (pathlen1 + pathlen2
                                      + pathlen_of path1
                                      + pathlen_of path2)%Z in
                                   if (5 <? l)%Z then Ok false
                                   else
                                     ' (s, t) <-
                                       sizeOfVertices2 path1 path2 ;;
                                     let sz :=
                                       outer_size s t pathlen1 pathlen2 in
                                     Ok (((l <=? 4) && (0 <? sz))
                                         || ((l =? 5) && (1 <? sz)))%Z)
                                path2s ;;
                            Ok (has_smallcut || found))
                         path1s false ;;
                     if has_smallcut then Ok is_reductable
                     else
                       mark_pairs getComponent2 q1 p2 q2 p1
                         contracted_path1s contracted_path2s
                         is_reductable)
                (zrange pathlen_min2 pathlen_max) is_reductable)
           (zrange pathlen_min1 pathlen_max) is_reductable)
    ring_quadruples is_reductable.

Definition calcReductableVertices (cutSize : Z) : res (list bool) :=
  _ <- assert (is6or7 cutSize) ;;
  let is_reductable := repeat false n_ in
  is_reductable <- calcReductableVertices1 cutSize is_reductable ;;
  is_reductable <- calcReductableVertices2 cutSize is_reductable ;;
  is_reductable <- calcReductableVertices3 cutSize is_reductable ;;
  calcReductableVertices4 cutSize is_reductable.

End Contraction.

End Cache.

End Graph.

(** ** The structure, its constructor and [setContract] *)

Record Configuration : Type := {
  contract_ : list (nat * nat);
  is_reductable_inside_ : list bool;
  is_reductable_outside6_ : list bool;
  is_reductable_outside7_ : list bool;
  dist_contracted_ : matrix;
  representative_ : list Z;
  length6_ : matrix;
  length_oneedge6_ : matrix;
  length7_ : matrix;
  length_oneedge7_ : matrix;
  all_paths_ : list (list (list (list nat)));
  n_ : nat;
  r_ : nat;
  VtoV_ : list (list nat);
  dist_ : matrix
}.

(** [all_paths_.assign(r_, ..)] and the two loops that fill it. *)
Definition build_all_paths (r : nat) (VtoV : list (list nat))
  : list (list (list (list nat))) :=
  map (fun p =>
         map (fun q => if p =? q then [] else calculatePaths VtoV p q)
           (seq 0 r))
    (seq 0 r).

(** [Configuration(n, r, VtoV)] *)
Definition newConfiguration (n r : nat) (VtoV : list (list nat))
  : res Configuration :=
  dist <- WF n VtoV [] false ;;
  let dist_contracted := dist in
  let representative := calcRepresentative n dist_contracted in
  let all_paths := build_all_paths r VtoV in
  length6 <- calcLowerBoundLengthOuterPath n r VtoV all_paths 6 ;;
  length7 <- calcLowerBoundLengthOuterPath n r VtoV all_paths 7 ;;
  length_oneedge6 <- calcLowerBoundLengthOuterPathOneEdge n r VtoV all_paths 6 ;;
  length_oneedge7 <- calcLowerBoundLengthOuterPathOneEdge n r VtoV all_paths 7 ;;
  Ok {| contract_ := [];
        is_reductable_inside_ := repeat false n;
        is_reductable_outside6_ := repeat false n;
        is_reductable_outside7_ := repeat false n;
        dist_contracted_ := dist_contracted;
        representative_ := representative;
        length6_ := length6;
        length_oneedge6_ := length_oneedge6;
        length7_ := length7;
        length_oneedge7_ := length_oneedge7;
        all_paths_ := all_paths;
        n_ := n;
        r_ := r;
        VtoV_ := VtoV;
        dist_ := dist |}.

(** [setContract(contract)]; the log lines it prints are not modelled. *)
Definition setContract (c : Configuration) (contract : list (nat * nat))
  : res Configuration :=
  let outside :=
    fun dist_contracted =>
      calcReductableVertices (n_ c) (r_ c) (VtoV_ c) (all_paths_ c) contract
        (dist_ c) dist_contracted (length6_ c) (length_oneedge6_ c)
        (length7_ c) (length_oneedge7_ c) in
  dist_contracted <- WF (n_ c) (VtoV_ c) contract true ;;
  is_reductable_inside <-
    calcCutReduction (n_ c) (r_ c) (VtoV_ c) dist_contracted ;;
  is_reductable_outside6 <- outside dist_contracted 6%Z ;;
  is_reductable_outside7 <- outside dist_contracted 7%Z ;;
  let representative := calcRepresentative (n_ c) dist_contracted in
  Ok {| contract_ := contract;
        is_reductable_inside_ := is_reductable_inside;
        is_reductable_outside6_ := is_reductable_outside6;
        is_reductable_outside7_ := is_reductable_outside7;
        dist_contracted_ := dist_contracted;
        representative_ := representative;
        length6_ := length6_ c;
        length_oneedge6_ := length_oneedge6_ c;
        length7_ := length7_ c;
        length_oneedge7_ := length_oneedge7_ c;
        all_paths_ := all_paths_ c;
        n_ := n_ c;
        r_ := r_ c;
        VtoV_ := VtoV_ c;
        dist_ := dist_ c |}.

(** ** The statements of the specification, in its words *)

(** An edge of a path is a ring edge when both of its ends are ring
    vertices (index below [r]). *)
Fixpoint all_ring_edges (r : nat) (path : list nat) : Prop :=
  match path with
  | a :: (b :: _) as path' => (a < r /\ b < r) /\ all_ring_edges r path'
  | _ => True
  end.

(** The number of edges of a path that are not ring edges. *)
Fixpoint non_ring_edges (r : nat) (path : list nat) : Z :=
  match path with
  | a :: (b :: _) as path' =>
      ((if ((a <? r) && (b <? r))%nat then 0 else 1) + non_ring_edges r path')%Z
  | _ => 0%Z
  end.

(** "entirely ring-edged with [|R| + k >= 6], or ring-edged up to
    [deviations] edges with [|R| + k = 7] and [C = 6]". *)
Definition almost_minimal_upto (deviations : Z) (r : nat) (R : list nat)
  (k C : Z) : Prop :=
  (all_ring_edges r R /\ (pathlen_of R + k >= 6)%Z)
  \/ ((non_ring_edges r R <= deviations)%Z
      /\ (pathlen_of R + k = 7)%Z /\ C = 6%Z).

(** The number of entries of [component_id] that are still [-1]. *)
Definition unvisited (component_id : list Z) : nat :=
  count_occ Z.eq_dec component_id (-1)%Z.





(** ** Configurations used as examples *)

(** The ring of six vertices with no interior. *)
Definition ring6_adj : list (list nat) :=
  [[1; 5]; [0; 2]; [1; 3]; [2; 4]; [3; 5]; [0; 4]].

(** A matrix with [rows] rows of [cols] entries. *)
Definition mshape (rows cols : nat) (m : matrix) : Prop :=
  length m = rows /\ forall i, i < rows -> length (nth i m []) = cols.

(** "[k] is the smallest [k >= k0] such that [k > C] or [forbidden k] is
    false." *)
Definition least_allowed (forbidden : Z -> res bool) (k0 C k : Z) : Prop :=
  (k0 <= k)%Z
  /\ ((k > C)%Z \/ forbidden k = Ok false)
  /\ forall j, (k0 <= j < k)%Z -> ~ ((j > C)%Z \/ forbidden j = Ok false).

(** The entry the loops of [lower_bound_table] store at [(p, q)]. *)
Definition table_entry (r : nat) (forbidden : nat -> nat -> Z -> Z -> res bool)
  (k0 C : Z) (p q : nat) (v : Z) : Prop :=
  if ring_successor r p q then v = 1%Z
  else first_allowed (Z.to_nat C + 2) (fun k => forbidden p q k C) C k0 = Ok v.

(** A wheel on the ring of six vertices: the hub 6 sees the whole ring and
    vertex 7 sits in the triangle 0, 1, 6. *)
Definition wheel_adj : list (list nat) :=
  [[1; 5; 6; 7]; [0; 2; 6; 7]; [1; 3; 6]; [2; 4; 6]; [3; 5; 6]; [0; 4; 6];
   [0; 1; 2; 3; 4; 5; 7]; [0; 1; 6]].

(** ** Well-formed graphs and contraction lists *)

(** One adjacency set per vertex, holding vertices only. *)
Definition wf_graph (n : nat) (VtoV : list (list nat)) : Prop :=
  length VtoV = n /\ forall v u, In u (adj VtoV v) -> u < n.

Definition undirected (VtoV : list (list nat)) : Prop :=
  forall u v, In v (adj VtoV u) -> In u (adj VtoV v).

Definition loop_free (VtoV : list (list nat)) : Prop :=
  forall v, ~ In v (adj VtoV v).

(** "Every pair of the list names an existing edge." *)
Definition names_edges (VtoV : list (list nat)) (contract : list (nat * nat))
  : Prop :=
  forall e, In e contract -> In (snd e) (adj VtoV (fst e)).

(** Every pair names an existing edge that no earlier pair of the list
    ([done], then the list itself) names in either direction. *)
Fixpoint fresh_edges (VtoV : list (list nat)) (done contract : list (nat * nat))
  : Prop :=
  match contract with
  | [] => True
  | e :: contract' =>
      In (snd e) (adj VtoV (fst e))
      /\ ~ In e done /\ ~ In (snd e, fst e) done
      /\ fresh_edges VtoV (e :: done) contract'
  end.

(** The members [setContract] does not assign. *)
Definition same_graph (c c' : Configuration) : Prop :=
  n_ c' = n_ c /\ r_ c' = r_ c /\ VtoV_ c' = VtoV_ c /\ dist_ c' = dist_ c
  /\ all_paths_ c' = all_paths_ c
  /\ length6_ c' = length6_ c /\ length7_ c' = length7_ c
  /\ length_oneedge6_ c' = length_oneedge6_ c
  /\ length_oneedge7_ c' = length_oneedge7_ c.

(** The matrix [WF] starts from: 1 on the edges, 0 on the diagonal, [INF]
    elsewhere. *)
Definition init_dist (VtoV : list (list nat)) (u v : nat) : Z :=
  if mem v (adj VtoV u) then 1%Z else if u =? v then 0%Z else INF.

(** The pairs [done] name the edge between [u] and [v]. *)
Definition zeroed (done : list (nat * nat)) (u v : nat) : bool :=
  mem_pair (u, v) done || mem_pair (v, u) done.

(** Executable forms of the conditions on the adjacency. *)
Definition wf_graphb (n : nat) (VtoV : list (list nat)) : bool :=
  (length VtoV =? n) && forallb (forallb (fun u => u <? n)) VtoV.

Definition undirectedb (VtoV : list (list nat)) : bool :=
  forallb
    (fun u => forallb (fun v => mem u (adj VtoV v)) (adj VtoV u))
    (seq 0 (length VtoV)).

Definition loop_freeb (VtoV : list (list nat)) : bool :=
  forallb (fun v => negb (mem v (adj VtoV v))) (seq 0 (length VtoV)).

(** The entry [v] of a mask is set. *)
Definition marked (v : nat) (is_reductable : list bool) : Prop :=
  nth v is_reductable false = true.

(** ** Walks, for the distances of [WF] *)

(** The weight of the walk from [u] through [inter] to [v]. *)
Fixpoint walk_weight (w : nat -> nat -> Z) (u : nat) (inter : list nat)
  (v : nat) : Z :=
  match inter with
  | [] => w u v
  | x :: inter' => (w u x + walk_weight w x inter' v)%Z
  end.

(** The innermost assignment of [WF] and one round of its outer loop. *)
Definition relax_cell (k i : nat) (dist : matrix) (j : nat) : matrix :=
  mset dist i j (Z.min (mget dist i j) (mget dist i k + mget dist k j)).

Definition relax_round (n : nat) (dist : matrix) (k : nat) : matrix :=
  fold_left (fun dist i => fold_left (relax_cell k i) (seq 0 n) dist)
    (seq 0 n) dist.

Definition nonneg (n : nat) (d : matrix) : Prop :=
  forall i j, i < n -> j < n -> (0 <= mget d i j)%Z.

Definition pointwise_le (n : nat) (d' d : matrix) : Prop :=
  forall i j, i < n -> j < n -> (mget d' i j <= mget d i j)%Z.

(** Every entry is the weight of a walk in the matrix [d0]. *)
Definition realised (n : nat) (d0 d : matrix) : Prop :=
  forall i j, i < n -> j < n ->
    exists inter, (forall x, In x inter -> x < n)
                  /\ walk_weight (mget d0) i inter j = mget d i j.

(** No walk of [d0] through vertices below [k] is lighter than the entry. *)
Definition shortest_through (n k : nat) (d0 d : matrix) : Prop :=
  forall i j inter, i < n -> j < n -> (forall x, In x inter -> x < k) ->
    (mget d i j <= walk_weight (mget d0) i inter j)%Z.

Definition symmetric (n : nat) (d : matrix) : Prop :=
  forall i j, i < n -> j < n -> mget d i j = mget d j i.

(** The three properties of a distance matrix. *)
Definition is_metric (n : nat) (d : matrix) : Prop :=
  (forall u v, u < n -> v < n -> mget d u v = mget d v u)
  /\ (forall v, v < n -> mget d v v = 0%Z)
  /\ (forall u v w, u < n -> v < n -> w < n ->
        (mget d u w <= mget d u v + mget d v w)%Z).

(** ** Paths, for [shortestPaths] *)

(** The metric selected by the flag: an edge of the contract list, in either
    direction, weighs 0 and every other edge weighs 1. *)
Definition edge_weight (cs : list (nat * nat)) (v u : nat) : Z :=
  if mem_pair (u, v) cs then 0%Z else 1%Z.

(** Consecutive vertices are joined by an edge. *)
Fixpoint is_path (VtoV : list (list nat)) (p : list nat) : Prop :=
  match p with
  | a :: (b :: _) as p' => In b (adj VtoV a) /\ is_path VtoV p'
  | _ => True
  end.

Fixpoint path_weight (cs : list (nat * nat)) (p : list nat) : Z :=
  match p with
  | a :: (b :: _) as p' => (edge_weight cs a b + path_weight cs p')%Z
  | _ => 0%Z
  end.

Definition path_from_to (VtoV : list (list nat)) (s t : nat) (p : list nat)
  : Prop :=
  p <> [] /\ front p = s /\ back p = t /\ is_path VtoV p.

(** A simple path from [s] to [t] whose weight is the distance from [s] to
    [t]: no path from [s] to [t] is lighter. *)
Definition shortest_simple_path (VtoV : list (list nat))
  (cs : list (nat * nat)) (s t : nat) (p : list nat) : Prop :=
  path_from_to VtoV s t p /\ NoDup p
  /\ forall q, path_from_to VtoV s t q ->
               (path_weight cs p <= path_weight cs q)%Z.

(** Every edge of the path is tight for the labels [D]. *)
Fixpoint tight (D : list Z) (cs : list (nat * nat)) (p : list nat) : Prop :=
  match p with
  | a :: (b :: _) as p' =>
      nth b D 0%Z = (nth a D 0 + edge_weight cs a b)%Z /\ tight D cs p'
  | _ => True
  end.

(** The labels are feasible: no edge can lower the label of its head. *)
Definition feasible (n : nat) (VtoV : list (list nat)) (cs : list (nat * nat))
  (D : list Z) : Prop :=
  forall v u, v < n -> In u (adj VtoV v) ->
    (nth u D 0 <= nth v D 0 + edge_weight cs v u)%Z.

(** The test of the second loop of [shortestPaths] on the edge [(v, u)]. *)
Definition admitted (cs : list (nat * nat)) (D : list Z) (v u : nat) : bool :=
  (nth u D 0 =? nth v D 0 + 1)%Z
  || ((nth u D 0 =? nth v D 0)%Z && mem_pair (u, v) cs).

(** The paths the second loop collects at [u]. *)
Definition tight_simple_path (VtoV : list (list nat)) (cs : list (nat * nat))
  (D : list Z) (s u : nat) (p : list nat) : Prop :=
  path_from_to VtoV s u p /\ NoDup p /\ tight D cs p.

Definition sum_dist (dist : list Z) : Z := fold_right Z.add 0%Z dist.

(** Every list of at most [k] vertices below [n]. *)
Fixpoint lists_upto (n k : nat) : list (list nat) :=
  match k with
  | O => [[]]
  | S k' => [] :: flat_map (fun x => map (cons x) (lists_upto n k')) (seq 0 n)
  end.

(** The state of the first loop of [shortestPaths]: the labels are the
    weights of paths from [s], and every vertex outside the queue (and
    outside [skip], the vertex being expanded) has relaxed its edges. *)
Definition dist_inv (n : nat) (VtoV : list (list nat)) (cs : list (nat * nat))
  (s : nat) (skip : list nat) (st : list Z * list nat) : Prop :=
  length (fst st) = n
  /\ (forall u, u < n -> (0 <= nth u (fst st) 0 <= INF)%Z)
  /\ nth s (fst st) 0%Z = 0%Z
  /\ (forall u, u < n -> (nth u (fst st) 0 < INF)%Z ->
        exists q, path_from_to VtoV s u q
                  /\ path_weight cs q = nth u (fst st) 0%Z)
  /\ (forall v, In v (snd st) -> v < n)
  /\ (forall x u, x < n -> ~ In x skip -> ~ In x (snd st) ->
        In u (adj VtoV x) ->
        (nth u (fst st) 0 <= nth x (fst st) 0 + edge_weight cs x u)%Z).

Definition dist_measure (st : list Z * list nat) : Z :=
  (2 * sum_dist (fst st) + Z.of_nat (length (snd st)))%Z.

(** What every state of the second loop satisfies at each vertex: the
    collected paths are distinct tight simple paths from [s]. *)
Definition paths_ok (n : nat) (VtoV : list (list nat)) (cs : list (nat * nat))
  (D : list Z) (s : nat) (paths : list (list (list nat))) : Prop :=
  length paths = n
  /\ (forall u p, u < n -> In p (nth u paths []) ->
        tight_simple_path VtoV cs D s u p)
  /\ (forall u, u < n -> NoDup (nth u paths [])).

(** The state of the second loop of [shortestPaths]: moreover every vertex
    outside the queue (and outside [skip]) has extended all its paths. *)
Definition paths_inv (n : nat) (VtoV : list (list nat)) (cs : list (nat * nat))
  (D : list Z) (s : nat) (skip : list nat)
  (st : list (list (list nat)) * list nat) : Prop :=
  paths_ok n VtoV cs D s (fst st)
  /\ In [s] (nth s (fst st) [])
  /\ (forall v, In v (snd st) -> v < n)
  /\ (forall x p u, x < n -> ~ In x skip -> ~ In x (snd st) ->
        In p (nth x (fst st) []) -> In u (adj VtoV x) ->
        admitted cs D x u = true -> ~ In u p ->
        In (p ++ [u]) (nth u (fst st) [])).

Definition total_paths (paths : list (list (list nat))) : nat :=
  length (concat paths).

Definition paths_measure (bound : nat)
  (st : list (list (list nat)) * list nat) : nat :=
  2 * (bound - total_paths (fst st)) + length (snd st).

(** The weight of the edge [(a, b)] under the metric selected by the flag:
    a contracted edge weighs 0 when the flag is set, every other edge 1. *)
Definition contracted_weight (contract : list (nat * nat)) (flag : bool)
  (a b : nat) : Z :=
  if flag && (mem_pair (a, b) contract || mem_pair (b, a) contract)
  then 0%Z else 1%Z.

(** ** Further notions used to state what the code computes *)

(** The neighbour sets are [std::set<int>]: no vertex is listed twice. *)
Definition adj_distinct (VtoV : list (list nat)) : Prop :=
  forall v, NoDup (adj VtoV v).

Fixpoint nodupb (l : list nat) : bool :=
  match l with
  | [] => true
  | x :: l' => negb (mem x l') && nodupb l'
  end.

Definition adj_distinctb (VtoV : list (list nat)) : bool :=
  forallb nodupb VtoV.

(** A path from [p] to [q] without a repeated vertex and with at most
    eight vertices (seven edges). *)
Definition short_simple_path (VtoV : list (list nat)) (p q : nat)
  (R : list nat) : Prop :=
  path_from_to VtoV p q R /\ NoDup R /\ length R <= 8.

(** [v] can be reached from [a] along edges without meeting [cut]. *)
Definition reaches (VtoV : list (list nat)) (cut : list nat) (a v : nat)
  : Prop :=
  exists w, path_from_to VtoV a v w /\ forall x, In x w -> ~ In x cut.

(** [a] lies on the ring strictly between [p] and [q], walking from [p] in
    the direction of increasing indices. *)
Definition ring_between (r p q a : nat) : Prop :=
  exists i, 0 < i /\ i < (q + r - p) mod r /\ a = (p + i) mod r.






(** The state of the depth-first search of [getComponent]:
    [component_id] marks exactly the members of [component]. *)
Definition component_inv (n : nat) (cutset : list nat)
  (st : list Z * list nat) : Prop :=
  length (fst st) = n
  /\ (forall v, v < n -> (nth v (fst st) (-1)%Z <> (-1)%Z <-> In v (snd st)))
  /\ (forall v, In v (snd st) -> v < n)
  /\ NoDup (snd st)
  /\ (forall v, In v (snd st) -> ~ In v cutset).

(** Every neighbour of [x] is in the cut or in the component. *)
Definition closed_in (VtoV : list (list nat)) (cutset comp : list nat)
  (x : nat) : Prop :=
  forall u, In u (adj VtoV x) -> In u cutset \/ In u comp.

(** The members of a [std::set<int>], as it is iterated. *)
Fixpoint ascending (l : list nat) : Prop :=
  match l with
  | a :: (b :: _) as l' => a < b /\ ascending l'
  | _ => True
  end.

(** The matrix [WF] relaxes: 0 between the ends of a contracted edge when
    the flag is set, otherwise 1 on an edge, 0 on the diagonal and [INF]
    elsewhere. *)
Definition start_weight (VtoV : list (list nat)) (contract : list (nat * nat))
  (flag : bool) (u v : nat) : Z :=
  if flag && zeroed contract u v then 0%Z else init_dist VtoV u v.

(** The number of ring edges walked from [p] to [q] in the direction of
    increasing indices: [b_ - a] in [forbiddenCycle]. *)
Definition ring_gap_of (r p q : nat) : Z :=
  (Z.of_nat (if (p <? q)%nat then q else (q + r)%nat) - Z.of_nat p)%Z.

(** ** The free functions that follow the structure *)

(** [std::sort] and [std::unique] on a vector whose elements are compared
    with [ltb] and [eqb].  The order on tuples of [int] is total, so the
    sorted vector does not depend on the algorithm; it is built here by
    insertion. *)
Section Sorting.

Variable A : Type.
Variables ltb eqb : A -> A -> bool.

Fixpoint insert_sorted (x : A) (l : list A) : list A :=
  match l with
  | [] => [x]
  | y :: l' => if ltb y x then y :: insert_sorted x l' else x :: l
  end.

Definition sort (l : list A) : list A := fold_right insert_sorted [] l.

Fixpoint unique (l : list A) : list A :=
  match l with
  | a :: (b :: _) as l' => if eqb a b then unique l' else a :: unique l'
  | _ => l
  end.

(** Consecutive elements increase strictly. *)
Fixpoint increasing (l : list A) : Prop :=
  match l with
  | a :: (b :: _) as l' => ltb a b = true /\ increasing l'
  | _ => True
  end.

(** Consecutive elements do not decrease. *)
Fixpoint nondecreasing (l : list A) : Prop :=
  match l with
  | a :: (b :: _) as l' => ltb b a = false /\ nondecreasing l'
  | _ => True
  end.

End Sorting.

Arguments nondecreasing {A} ltb l.
Arguments insert_sorted {A} ltb x l.
Arguments sort {A} ltb l.
Arguments unique {A} eqb l.
Arguments increasing {A} ltb l.

(** [operator<] and [operator==] of [std::tuple<int, int, int>]. *)
Definition triple_ltb (x y : nat * nat * nat) : bool :=
  let '(a, b, c) := x in
  let '(a', b', c') := y in
  (a <? a') || ((a =? a') && ((b <? b') || ((b =? b') && (c <? c')))).

Definition triple_eqb (x y : nat * nat * nat) : bool :=
  let '(a, b, c) := x in
  let '(a', b', c') := y in
  (a =? a') && (b =? b') && (c =? c').

(** [find_ab(d0, n, r, contract_dist)] *)
Definition find_ab (d0 : Z) (n r : nat) (contract_dist : matrix)
  : list (nat * nat) :=
  flat_map
    (fun a =>
       flat_map
         (fun b => if (mget contract_dist a b =? d0)%Z then [(a, b)] else [])
         (range (a + 1) r))
    (seq 0 r).

(** [find_ab_bc(d0, d1, n, r, contract_dist)] *)
Definition find_ab_bc (d0 d1 : Z) (n r : nat) (contract_dist : matrix)
  : list (nat * nat * nat) :=
  let abcs :=
    flat_map
      (fun a =>
         flat_map
           (fun b =>
              if (mget contract_dist a b =? d0)%Z then
                flat_map
                  (fun c =>
                     if (mget contract_dist a c =? d1)%Z then [(b, a, c)]
                     else [])
                  (range (a + 1) b)
                ++ flat_map
                     (fun c =>
                        if (mget contract_dist b (c mod r) =? d1)%Z
                        then [(a, b, c mod r)] else [])
                     (range (b + 1) (a + r))
              else [])
           (range (a + 1) r))
      (seq 0 r) in
  unique triple_eqb (sort triple_ltb abcs).

(** [find_ab_ac_bc(d0, d1, d2, n, r, contract_dist)] *)
Definition find_ab_ac_bc (d0 d1 d2 : Z) (n r : nat) (contract_dist : matrix)
  : list (nat * nat * nat) :=
  let abcs :=
    flat_map
      (fun a =>
         flat_map
           (fun b =>
              if (mget contract_dist a b =? d0)%Z then
                flat_map
                  (fun c =>
                     if (mget contract_dist b c =? d1)%Z
                        && (mget contract_dist a c =? d2)%Z
                     then [(b, a, c)] else [])
                  (range (a + 1) b)
                ++ flat_map
                     (fun c =>
                        if (mget contract_dist a (c mod r) =? d1)%Z
                           && (mget contract_dist b (c mod r) =? d2)%Z
                        then [(a, b, c mod r)] else [])
                     (range (b + 1) (a + r))
              else [])
           (range (a + 1) r))
      (seq 0 r) in
  unique triple_eqb (sort triple_ltb abcs).

(** *** [edgeFromId]

    [conf.VtoV_.at(x)] throws [std::out_of_range] when [x] is not an index
    of the vector; [None] is that exception. *)
Definition at_count (VtoV : list (list nat)) (x y : nat) : option bool :=
  match nth_error VtoV x with
  | Some s => Some (mem y s)
  | None => None
  end.

(** The lambda [is3Cycle]; [&&] evaluates its operands from the left and
    stops at the first that is false. *)
Definition is3Cycle (VtoV : list (list nat)) (x y z : nat) : option bool :=
  match at_count VtoV x y with
  | None => None
  | Some false => Some false
  | Some true =>
      match at_count VtoV y z with
      | None => None
      | Some false => Some false
      | Some true => at_count VtoV z x
      end
  end.

(** [for (x : xs) { st = body(st, x) }] where the body can throw. *)
Fixpoint fold_opt {St X : Type} (body : St -> X -> option St) (xs : list X)
  (st : St) : option St :=
  match xs with
  | [] => Some st
  | x :: xs' =>
      match body st x with
      | Some st' => fold_opt body xs' st'
      | None => None
      end
  end.

(** [std::set<tuple<int, int, int>>::insert] *)
Fixpoint triple_set_insert (x : nat * nat * nat) (s : list (nat * nat * nat))
  : list (nat * nat * nat) :=
  match s with
  | [] => [x]
  | y :: s' =>
      if triple_ltb x y then x :: s
      else if triple_eqb x y then s
      else y :: triple_set_insert x s'
  end.

(** The set [triangles] after the three loops. *)
Definition triangles (VtoV : list (list nat)) (n : nat)
  : option (list (nat * nat * nat)) :=
  fold_opt
    (fun tris i =>
       fold_opt
         (fun tris j =>
            fold_opt
              (fun tris k =>
                 match is3Cycle VtoV k j i with
                 | None => None
                 | Some true => Some (triple_set_insert (k, j, i) tris)
                 | Some false => Some tris
                 end)
              (seq 0 j) tris)
         (seq 0 i) tris)
    (seq 0 n) [].

(** [indexOfEdge], [edgeOfIndex] and [counter]. *)
Definition edge_numbering : Type :=
  list ((nat * nat) * nat) * list (nat * nat) * nat.

Definition pair_eqb (e f : nat * nat) : bool :=
  (fst e =? fst f) && (snd e =? snd f).

(** [indexOfEdge.count(key)] *)
Definition map_count (key : nat * nat) (m : list ((nat * nat) * nat)) : bool :=
  existsb (fun kv => pair_eqb (fst kv) key) m.

(** The lambda [addEdge]. *)
Definition addEdge (st : edge_numbering) (x y : nat) : edge_numbering :=
  let '(indexOfEdge, edgeOfIndex, counter) := st in
  let '(x, y) := if y <? x then (y, x) else (x, y) in
  if negb (map_count (x, y) indexOfEdge)
  then (((x, y), counter) :: indexOfEdge, edgeOfIndex ++ [(x, y)], counter + 1)
  else st.

(** The numbering after the ring and the triangles have been added. *)
Definition edge_table (conf : Configuration) : option edge_numbering :=
  match triangles (VtoV_ conf) (n_ conf) with
  | None => None
  | Some tris =>
      let st :=
        fold_left (fun st i => addEdge st i ((i + 1) mod r_ conf))
          (seq 0 (r_ conf)) ([], [], 0) in
      Some (fold_left
              (fun st '(a, b, c) =>
                 addEdge (addEdge (addEdge st a b) b c) c a)
              tris st)
  end.

(** [edgeOfIndex[id]]; an [id] that is not an index is undefined behaviour
    in the source and reads the default here. *)
Definition edge_of_index (edgeOfIndex : list (nat * nat)) (id : Z)
  : nat * nat :=
  if (id <? 0)%Z then (0, 0) else nth (Z.to_nat id) edgeOfIndex (0, 0).

Definition edgeFromId (conf : Configuration) (edgeids : list Z)
  : option (list (nat * nat)) :=
  match edge_table conf with
  | None => None
  | Some (_, edgeOfIndex, _) =>
      Some (map (edge_of_index edgeOfIndex) edgeids)
  end.

(** The number of edges [edgeFromId] has numbered. *)
Definition edge_count (conf : Configuration) : Z :=
  match edge_table conf with
  | Some (_, edgeOfIndex, _) => Z.of_nat (length edgeOfIndex)
  | None => 0%Z
  end.

(** [(k, j, i)] is a triangle that [is3Cycle] accepts. *)
Definition is_triangle (VtoV : list (list nat)) (n k j i : nat) : Prop :=
  k < j /\ j < i /\ i < n
  /\ In j (adj VtoV k) /\ In i (adj VtoV j) /\ In k (adj VtoV i).

(** The pair [addEdge] stores for the edge between [x] and [y]. *)
Definition ordered_pair (x y : nat) : nat * nat :=
  if y <? x then (y, x) else (x, y).

(** Consecutive ring vertices are adjacent. *)
Definition ring_cycle (VtoV : list (list nat)) (r : nat) : Prop :=
  forall i, i < r -> In ((i + 1) mod r) (adj VtoV i).

Definition ring_cycleb (VtoV : list (list nat)) (r : nat) : bool :=
  forallb (fun i => mem ((i + 1) mod r) (adj VtoV i)) (seq 0 r).

(** What [addEdge] keeps: the counter is the size of [edgeOfIndex], which
    lists each key of [indexOfEdge] once, smaller end first. *)
Definition numbering_inv (st : edge_numbering) : Prop :=
  let '(indexOfEdge, edgeOfIndex, counter) := st in
  counter = length edgeOfIndex
  /\ NoDup edgeOfIndex
  /\ (forall e, map_count e indexOfEdge = true <-> In e edgeOfIndex)
  /\ (forall e, In e edgeOfIndex -> fst e <= snd e).

Definition numbered_edges (st : edge_numbering) : list (nat * nat) :=
  snd (fst st).

(** The pair stored for the ring edge that leaves [i]. *)
Definition ring_pair (r i : nat) : nat * nat :=
  ordered_pair i ((i + 1) mod r).

(** ** A constructed configuration used as an example *)

Definition empty_conf : Configuration :=
  {| contract_ := []; is_reductable_inside_ := [];
     is_reductable_outside6_ := []; is_reductable_outside7_ := [];
     dist_contracted_ := []; representative_ := [];
     length6_ := []; length_oneedge6_ := []; length7_ := [];
     length_oneedge7_ := []; all_paths_ := [];
     n_ := 0; r_ := 0; VtoV_ := []; dist_ := [] |}.

(** The configuration [Configuration(8, 6, wheel_adj)]. *)
Definition wheel_conf : Configuration :=
  Eval vm_compute in
    match newConfiguration 8 6 wheel_adj with
    | Ok c => c
    | _ => empty_conf
    end.

(** A vector with one entry per vertex. *)
Definition sized {A : Type} (n : nat) (v : list A) : Prop := length v = n.

(** ** The flood fill of [componentIdEquivalence] *)

(** [v] belongs to the cut set that [componentIdEquivalence] builds: a
    vertex of [cut], or a vertex that the contraction identifies with one
    of them. *)
Definition cut_member (n : nat) (dc : matrix) (cut : list nat) (v : nat)
  : Prop :=
  In v cut \/ (v < n /\ exists c, In c cut /\ mget dc v c = 0%Z).

(** [component_id[v] != -1] *)
Definition labelled (component_id : list Z) (v : nat) : Prop :=
  nth v component_id (-1)%Z <> (-1)%Z.

(** Every neighbour of a labelled vertex is in the cut or carries the
    same label. *)
Definition labels_closed (VtoV : list (list nat)) (cutset : list nat)
  (component_id : list Z) : Prop :=
  forall x u, labelled component_id x -> In u (adj VtoV x) ->
    In u cutset \/ nth u component_id (-1)%Z = nth x component_id (-1)%Z.

(** ** [vertexSizeAfterContract] and [forbiddenVertexSize] *)

(** [vertexSizeAfterContract(component, cutSize)] *)
Definition vertexSizeAfterContract (c : Configuration) (component : list nat)
  (cutSize : Z) : res (Z * Z) :=
  _ <- assert (is6or7 cutSize) ;;
  let is_reductable_outside :=
    if (cutSize =? 6)%Z then is_reductable_outside6_ c
    else is_reductable_outside7_ c in
  Ok (fold_left
        (fun '(s, t) v =>
           if nth v (is_reductable_inside_ c) false
              || nth v is_reductable_outside false
           then (s, t)
           else if (v <? r_ c)
                   && (nth v (representative_ c) (-1) =? Z.of_nat v)%Z
                then (s + 1, t)%Z
                else if (r_ c <=? v)
                        && (nth v (representative_ c) (-1) =? Z.of_nat v)%Z
                     then (s, t + 1)%Z
                     else (s, t))
        component (0%Z, 0%Z)).

(** [forbiddenVertexSize] takes element 0 of the vector that
    [shortestPaths] returns, and the elements of that path after its
    first, without looking at their sizes.  Its outcomes are therefore
    those of [res] and one more: [Undefined], a read in an empty vector. *)
Inductive outcome (A : Type) : Type :=
| Returns (a : A)
| Aborts
| Undefined
| Unfinished.

Arguments Returns {A} a.
Arguments Aborts {A}.
Arguments Undefined {A}.
Arguments Unfinished {A}.

Definition of_res {A : Type} (m : res A) : outcome A :=
  match m with
  | Ok a => Returns a
  | AssertFail => Aborts
  | OutOfFuel => Unfinished
  end.

Definition obind {A B : Type} (m : outcome A) (k : A -> outcome B)
  : outcome B :=
  match m with
  | Returns a => k a
  | Aborts => Aborts
  | Undefined => Undefined
  | Unfinished => Unfinished
  end.

Notation "x <~ m ;; k" := (obind m (fun x => k))
  (at level 61, m at next level, right associativity).
Notation "' p <~ m ;; k" := (obind m (fun x => let p := x in k))
  (at level 61, p pattern, m at next level, right associativity).

Fixpoint fold_outcome {S A : Type} (body : S -> A -> outcome S)
  (xs : list A) (st : S) : outcome S :=
  match xs with
  | [] => Returns st
  | x :: xs' => st' <~ body st x ;; fold_outcome body xs' st'
  end.

(** [(l == 4 && sz > 0) || (l == 5 && sz > 1) || (l == 6 && sz > 2)] *)
Definition forbidden_size (l sz : Z) : bool :=
  (((l =? 4) && (0 <? sz)) || ((l =? 5) && (1 <? sz))
   || ((l =? 6) && (2 <? sz)))%Z.

(** The loop of [forbiddenVertexSize] over [i < vs.size() - 1]: it adds
    [dist_contracted_[vs[i]][vs[i + 1]]] to [l] and appends to [path] the
    first path of [shortestPaths(vs[i], vs[i + 1], true)] without its
    first vertex. *)
Definition join_shortest (c : Configuration) (vs : list nat) (l : Z)
  : outcome (Z * list nat) :=
  fold_outcome
    (fun '(l, path) i =>
       let a := nth i vs 0 in
       let b := nth (i + 1) vs 0 in
       _ <~ of_res (assert (a <? r_ c)) ;;
       _ <~ of_res (assert (mget (dist_contracted_ c) a b <=? 1)%Z) ;;
       let l := (l + mget (dist_contracted_ c) a b)%Z in
       paths <~ of_res (shortestPaths (n_ c) (VtoV_ c) (contract_ c)
                          a b true) ;;
       match paths with
       | [] => Undefined
       | [] :: _ => Undefined
       | (_ :: rest) :: _ => Returns (l, path ++ rest)
       end)
    (seq 0 (length vs - 1)) (l, [nth 0 vs 0]).

(** [forbiddenVertexSize(vs, k, cutSize, rev)] *)
Definition forbiddenVertexSize (c : Configuration) (vs : list nat)
  (k cutSize : Z) (rev_ : bool) : outcome bool :=
  _ <~ of_res (assert (2 <=? length vs)) ;;
  ' (l, path) <~ join_shortest c vs k ;;
  _ <~ of_res (assert (back vs <? r_ c)) ;;
  let path := if rev_ then rev path else path in
  component <~ of_res (getComponent (n_ c) (r_ c) (VtoV_ c) path) ;;
  ' (s, t) <~ of_res (vertexSizeAfterContract c component cutSize) ;;
  let sz := (Z.quot (Z.max (s - (k - 1) + 1) 0) 2 + t)%Z in
  Returns (forbidden_size l sz).

(** [forbiddenVertexSize(vs1, vs2, k1, k2, cutSize)] *)
Definition forbiddenVertexSize_pair (c : Configuration) (vs1 vs2 : list nat)
  (k1 k2 cutSize : Z) : outcome bool :=
  let l := (k1 + k2)%Z in
  _ <~ of_res (assert (2 <=? length vs1)) ;;
  ' (l, path1) <~ join_shortest c vs1 l ;;
  _ <~ of_res (assert (back vs1 <? r_ c)) ;;
  _ <~ of_res (assert (2 <=? length vs2)) ;;
  ' (l, path2) <~ join_shortest c vs2 l ;;
  _ <~ of_res (assert (back vs2 <? r_ c)) ;;
  component <~ of_res (getComponent_pair (n_ c) (r_ c) (VtoV_ c)
                         path1 path2) ;;
  ' (s, t) <~ of_res (vertexSizeAfterContract c component cutSize) ;;
  let sz :=
    (Z.quot (Z.max (s - Z.max (k1 + k2 - 2) 0 + 1) 0) 2 + t)%Z in
  Returns (forbidden_size l sz).

(** Every step of the loop of [forbiddenVertexSize] passes its assertion
    [dist_contracted_[vs[i]][vs[i + 1]] <= 1]. *)
Definition short_steps (c : Configuration) (vs : list nat) : bool :=
  forallb
    (fun i =>
       let a := nth i vs 0 in
       let b := nth (i + 1) vs 0 in
       (mget (dist_contracted_ c) a b <=? 1)%Z)
    (seq 0 (length vs - 1)).

(** The sum that the loop adds to [l]. *)
Definition steps_length (c : Configuration) (vs : list nat) : Z :=
  fold_left
    (fun l i =>
       let a := nth i vs 0 in
       let b := nth (i + 1) vs 0 in
       (l + mget (dist_contracted_ c) a b)%Z)
    (seq 0 (length vs - 1)) 0%Z.

(** The vertices that [vertexSizeAfterContract] counts: not marked
    reductable and equal to their representative. *)
Definition counted (c : Configuration) (cutSize : Z) (v : nat) : bool :=
  negb (nth v (is_reductable_inside_ c) false
        || nth v (if (cutSize =? 6)%Z then is_reductable_outside6_ c
                  else is_reductable_outside7_ c) false)
  && (nth v (representative_ c) (-1) =? Z.of_nat v)%Z.

(** ** The searches for four and five ring vertices *)

(** [operator<] and [operator==] of [std::tuple<int, int, int, int>]. *)
Definition quad_ltb (x y : nat * nat * nat * nat) : bool :=
  let '(a, b, c, d) := x in
  let '(a', b', c', d') := y in
  (a <? a')
  || ((a =? a')
      && ((b <? b')
          || ((b =? b') && ((c <? c') || ((c =? c') && (d <? d')))))).

Definition quad_eqb (x y : nat * nat * nat * nat) : bool :=
  let '(a, b, c, d) := x in
  let '(a', b', c', d') := y in
  (a =? a') && (b =? b') && (c =? c') && (d =? d').

(** [operator<] and [operator==] of [std::tuple<int, int, int, int, int>]. *)
Definition quint_ltb (x y : nat * nat * nat * nat * nat) : bool :=
  let '(a, b, c, d, e) := x in
  let '(a', b', c', d', e') := y in
  (a <? a')
  || ((a =? a')
      && ((b <? b')
          || ((b =? b')
              && ((c <? c')
                  || ((c =? c')
                      && ((d <? d') || ((d =? d') && (e <? e')))))))).

Definition quint_eqb (x y : nat * nat * nat * nat * nat) : bool :=
  let '(a, b, c, d, e) := x in
  let '(a', b', c', d', e') := y in
  (a =? a') && (b =? b') && (c =? c') && (d =? d') && (e =? e').

(** [find_ab_cd(d0, d1, n, r, contract_dist)] *)
Definition find_ab_cd (d0 d1 : Z) (n r : nat) (contract_dist : matrix)
  : list (nat * nat * nat * nat) :=
  let abcds :=
    flat_map
      (fun a =>
         flat_map
           (fun b =>
              if (mget contract_dist a b =? d0)%Z then
                flat_map
                  (fun c =>
                     flat_map
                       (fun d =>
                          if (mget contract_dist (c mod r) (d mod r) =? d1)%Z
                          then [(a, b, c mod r, d mod r)] else [])
                       (range (c + 1) (a + r)))
                  (range (b + 1) (a + r))
                ++ flat_map
                     (fun c =>
                        flat_map
                          (fun d =>
                             if (mget contract_dist c d =? d1)%Z
                             then [(b, a, c, d)] else [])
                          (range (c + 1) b))
                     (range (a + 1) b)
              else [])
           (range (a + 1) r))
      (seq 0 r) in
  unique quad_eqb (sort quad_ltb abcds).

(** [find_ab_bc_cd(d0, d1, d2, n, r, contract_dist)] *)
Definition find_ab_bc_cd (d0 d1 d2 : Z) (n r : nat) (contract_dist : matrix)
  : list (nat * nat * nat * nat) :=
  let abcds :=
    flat_map
      (fun a =>
         flat_map
           (fun b =>
              if (mget contract_dist a b =? d0)%Z then
                flat_map
                  (fun c =>
                     if (mget contract_dist b (c mod r) =? d1)%Z then
                       flat_map
                         (fun d =>
                            if (mget contract_dist (c mod r) (d mod r)
                                =? d2)%Z
                            then [(a, b, c mod r, d mod r)] else [])
                         (range (c + 1) (a + r))
                     else [])
                  (range (b + 1) (a + r))
                ++ flat_map
                     (fun c =>
                        if (mget contract_dist a c =? d1)%Z then
                          flat_map
                            (fun d =>
                               if (mget contract_dist c d =? d2)%Z
                               then [(b, a, c, d)] else [])
                            (range (c + 1) b)
                        else [])
                     (range (a + 1) b)
              else [])
           (range (a + 1) r))
      (seq 0 r) in
  unique quad_eqb (sort quad_ltb abcds).

(** [find_ab_bc_de(d0, d1, d2, n, r, contract_dist)] *)
Definition find_ab_bc_de (d0 d1 d2 : Z) (n r : nat) (contract_dist : matrix)
  : list (nat * nat * nat * nat * nat) :=
  let abcdes :=
    flat_map
      (fun a =>
         flat_map
           (fun b =>
              if (mget contract_dist a b =? d0)%Z then
                flat_map
                  (fun c =>
                     if (mget contract_dist b (c mod r) =? d1)%Z then
                       flat_map
                         (fun d =>
                            flat_map
                              (fun e =>
                                 if (mget contract_dist (d mod r) (e mod r)
                                     =? d2)%Z
                                 then [(a, b, c mod r, d mod r, e mod r)]
                                 else [])
                              (range (d + 1) (a + r)))
                         (range (c + 1) (a + r))
                     else [])
                  (range (b + 1) (a + r))
                ++ flat_map
                     (fun c =>
                        if (mget contract_dist a c =? d1)%Z then
                          flat_map
                            (fun d =>
                               flat_map
                                 (fun e =>
                                    if (mget contract_dist d e =? d2)%Z
                                    then [(b, a, c, d, e)] else [])
                                 (range (d + 1) b))
                            (range (c + 1) b)
                        else [])
                     (range (a + 1) b)
              else [])
           (range (a + 1) r))
      (seq 0 r) in
  unique quint_eqb (sort quint_ltb abcdes).

(** The vertices of [l] follow each other on the ring in the order of the
    list, up to the point where the ring is cut open: some rotation of [l]
    is strictly increasing. *)
Definition ring_order (l : list nat) : Prop :=
  exists k, ascending (skipn k l ++ firstn k l).

(** The call returns a value. *)
Definition returns {A : Type} (o : outcome A) : Prop :=
  exists a, o = Returns a.

(** ** [checkDegree7] *)

(** [is_reductable_inside_[v] || is_reductable_outside7_[v]] *)
Definition removed7 (c : Configuration) (v : nat) : bool :=
  nth v (is_reductable_inside_ c) false
  || nth v (is_reductable_outside7_ c) false.

(** [std::set<int>::insert] *)
Fixpoint int_set_insert (x : Z) (s : list Z) : list Z :=
  match s with
  | [] => [x]
  | y :: s' =>
      if (x <? y)%Z then x :: s
      else if (x =? y)%Z then s
      else y :: int_set_insert x s'
  end.

(** [VtoV_contracted[i].insert(x)], the index [i] being an [int]. *)
Definition insert_at (sets : list (list Z)) (i x : Z) : list (list Z) :=
  if (i <? 0)%Z then sets
  else vset sets (Z.to_nat i) (int_set_insert x (nth (Z.to_nat i) sets [])).

(** The first loop of [checkDegree7]: [VtoV_contracted]. *)
Definition contracted_adjacency (c : Configuration) : list (list Z) :=
  fold_left
    (fun sets v =>
       if removed7 c v then sets
       else
         fold_left
           (fun sets u =>
              if removed7 c u then sets
              else
                let rv := nth v (representative_ c) (-1)%Z in
                let ru := nth u (representative_ c) (-1)%Z in
                insert_at (insert_at sets rv ru) ru rv)
           (adj (VtoV_ c) v) sets)
    (seq 0 (n_ c)) (repeat [] (n_ c)).

(** [checkDegree7()]; the last component of the state of the second loop
    records that the loop was left by [break]. *)
Definition checkDegree7 (c : Configuration) : bool :=
  let VtoV_contracted := contracted_adjacency c in
  let '(n_ring, n_conf, not_deg7, _) :=
    fold_left
      (fun '(n_ring, n_conf, not_deg7, stop) v =>
         if (stop : bool) then (n_ring, n_conf, not_deg7, stop)
         else if removed7 c v then (n_ring, n_conf, not_deg7, stop)
         else
           let own :=
             (nth v (representative_ c) (-1) =? Z.of_nat v)%Z in
           let n_ring :=
             if (v <? r_ c) && own then (n_ring + 1)%Z else n_ring in
           if (r_ c <=? v) && own then
             if negb (length (nth v VtoV_contracted []) =? 7)
             then (n_ring, (n_conf + 1)%Z, true, true)
             else (n_ring, (n_conf + 1)%Z, not_deg7, stop)
           else (n_ring, n_conf, not_deg7, stop))
      (seq 0 (n_ c)) (0%Z, 0%Z, false, false) in
  (2 <=? n_conf)%Z || not_deg7.

(** The vertices, outside the ring, that the second loop of
    [checkDegree7] counts in [n_conf]. *)
Definition inner_counted (c : Configuration) (v : nat) : bool :=
  counted c 7 v && (r_ c <=? v).

(** ** [isValid] *)

(** [isValid(vs, lens, onedge)]: the loop returns false at the first pair
    of consecutive vertices with a forbidden cycle. *)
Definition isValid (c : Configuration) (vs : list nat) (lens : list Z)
  (onedge : list bool) : res bool :=
  _ <- assert (length vs =? length lens) ;;
  _ <- assert (length vs =? length onedge) ;;
  let cutSize := fold_left Z.add lens 0%Z in
  _ <- assert (is6or7 cutSize) ;;
  let m := length vs in
  found <-
    exists_res
      (fun i =>
         let j := (i + 1) mod m in
         let a := nth i vs 0 in
         let b := nth j vs 0 in
         let k := nth i lens 0%Z in
         if nth i onedge false && nth j onedge false then Ok false
         else if nth i onedge false || nth j onedge false then
           f <- forbiddenCycleOneEdge (n_ c) (r_ c) (VtoV_ c) (all_paths_ c)
                  a b k cutSize ;;
           if f then Ok true
           else forbiddenCycleOneEdge (n_ c) (r_ c) (VtoV_ c) (all_paths_ c)
                  b a (cutSize - k)%Z cutSize
         else
           f <- forbiddenCycle (n_ c) (r_ c) (VtoV_ c) (all_paths_ c)
                  a b k cutSize ;;
           if f then Ok true
           else forbiddenCycle (n_ c) (r_ c) (VtoV_ c) (all_paths_ c)
                  b a (cutSize - k)%Z cutSize)
      (seq 0 m) ;;
  Ok (negb found).

(** ** When [setContract] returns *)

(** A path between two distinct ring vertices: what the assertions of
    [getComponent] and [canBeAlmostMinimal] ask of their argument. *)
Definition ring_ends (r : nat) (path : list nat) : Prop :=
  front path <> back path /\ front path < r /\ back path < r.

(** * Properties *)

(** ** [isForbiddenCut] *)

Lemma isForbiddenCut_iff (k c : Z) :
  isForbiddenCut k c = true <-> forbidden_cut_code k c.
Proof.
  unfold isForbiddenCut, forbidden_cut_code.
  destruct (Z.leb_spec k 4).
  - rewrite Z.ltb_lt. lia.
  - destruct (Z.eqb_spec k 5); [rewrite Z.ltb_lt; lia|].
    destruct (Z.eqb_spec k 6); [rewrite Z.ltb_lt; lia|].
    destruct (Z.eqb_spec k 7); [rewrite Z.ltb_lt; lia|].
    split; [discriminate | lia].
Qed.

(** C2, as the specification states it, fails: a cut of size 1 with a
    non-empty component is forbidden by the code, although 1 lies outside
    the range 2..7 of the table. *)
Lemma isForbiddenCut_below_two :
  isForbiddenCut 1 1 = true /\ ~ forbidden_cut_table 1 1.
Proof.
  split; [reflexivity | unfold forbidden_cut_table; lia].
Qed.

(** C2 (amended): [isForbiddenCut k c] is true exactly when [k <= 4] and
    [c > 0], or [k = 5] and [c > 1], or [k = 6] and [c > 3], or [k = 7] and
    [c > 4]; it is false for every [k > 7]; [isForbiddenCut k 0] is false
    for every [k <= 4] and [isForbiddenCut 4 1] is true. *)
Theorem isForbiddenCut_table :
  (forall k c, isForbiddenCut k c = true <-> forbidden_cut_code k c)
  /\ (forall k c, (7 < k)%Z -> isForbiddenCut k c = false)
  /\ (forall k c, (2 <= k <= 7)%Z ->
        (isForbiddenCut k c = true <-> forbidden_cut_table k c))
  /\ (forall k, (k <= 4)%Z -> isForbiddenCut k 0 = false)
  /\ isForbiddenCut 4 1 = true.
Proof.
  split; [exact isForbiddenCut_iff|].
  split; [|split; [|split; [|reflexivity]]].
  - intros k c Hk. destruct (isForbiddenCut k c) eqn:E; [|reflexivity].
    apply isForbiddenCut_iff in E. unfold forbidden_cut_code in E. lia.
  - intros k c Hk. rewrite isForbiddenCut_iff.
    unfold forbidden_cut_code, forbidden_cut_table. lia.
  - intros k Hk. destruct (isForbiddenCut k 0) eqn:E; [|reflexivity].
    apply isForbiddenCut_iff in E. unfold forbidden_cut_code in E. lia.
Qed.

(** ** [canBeAlmostMinimal] *)

Lemma non_ring_edges_nonneg (r : nat) (path : list nat) :
  (0 <= non_ring_edges r path)%Z.
Proof.
  induction path as [|a [|b path] IH]; simpl in *; try lia.
  destruct ((a <? r) && (b <? r)); lia.
Qed.

Lemma number_in_ring_nonneg (r : nat) (path : list nat) :
  (0 <= number_in_ring r path)%Z.
Proof.
  induction path as [|a [|b path] IH]; simpl in *; try lia.
  destruct ((a <? r) && (b <? r)); lia.
Qed.

Lemma number_in_ring_split (r : nat) (path : list nat) :
  path <> [] ->
  (number_in_ring r path + non_ring_edges r path = pathlen_of path)%Z.
Proof.
  unfold pathlen_of.
  induction path as [|a [|b path] IH]; intros Hne; [congruence | simpl; lia |].
  change (number_in_ring r (a :: b :: path))
    with ((if ((a <? r) && (b <? r))%nat then 1 else 0)
          + number_in_ring r (b :: path))%Z.
  change (non_ring_edges r (a :: b :: path))
    with ((if ((a <? r) && (b <? r))%nat then 0 else 1)
          + non_ring_edges r (b :: path))%Z.
  assert (H : (number_in_ring r (b :: path) + non_ring_edges r (b :: path)
               = Z.of_nat (length (b :: path)) - 1)%Z) by (apply IH; congruence).
  change (length (a :: b :: path)) with (S (length (b :: path))).
  destruct ((a <? r) && (b <? r)); lia.
Qed.

Lemma all_ring_edges_iff (r : nat) (path : list nat) :
  all_ring_edges r path <-> non_ring_edges r path = 0%Z.
Proof.
  induction path as [|a [|b path] IH]; [simpl; tauto | simpl; tauto |].
  change (all_ring_edges r (a :: b :: path))
    with ((a < r /\ b < r) /\ all_ring_edges r (b :: path)).
  change (non_ring_edges r (a :: b :: path))
    with ((if ((a <? r) && (b <? r))%nat then 0 else 1)
          + non_ring_edges r (b :: path))%Z.
  pose proof (non_ring_edges_nonneg r (b :: path)) as Hnn.
  destruct (Nat.ltb_spec a r) as [Ha|Ha], (Nat.ltb_spec b r) as [Hb|Hb];
    cbn [andb]; rewrite IH; split; intros Hx.
  all: try (split; [split; assumption|]).
  all: try lia.
  all: destruct Hx as [[? ?] ?]; try lia.
Qed.

Lemma canBeAlmostMinimal_total (r : nat) (R : list nat) (k C : Z) :
  2 <= length R -> front R < r -> back R < r ->
  exists b, canBeAlmostMinimal r R k C = Ok b.
Proof.
  intros Hlen Hf Hb. unfold canBeAlmostMinimal.
  apply Nat.ltb_lt in Hf. apply Nat.ltb_lt in Hb. rewrite Hf, Hb. simpl.
  assert (Hpl : (1 <=? pathlen_of R)%Z = true)
    by (apply Z.leb_le; unfold pathlen_of; lia).
  rewrite Hpl. simpl. eauto.
Qed.

(** C3, as the specification states it, fails: the test of the second
    alternative admits three edges off the ring, not two. *)
Lemma canBeAlmostMinimal_three_deviations :
  canBeAlmostMinimal 6 [0; 6; 7; 3] 4 6 = Ok true
  /\ ~ almost_minimal_upto 2 6 [0; 6; 7; 3] 4 6.
Proof.
  split; [reflexivity|].
  unfold almost_minimal_upto. simpl. unfold pathlen_of. simpl. lia.
Qed.

(** C3 (amended): on a path with at least one edge whose ends are ring
    vertices, [canBeAlmostMinimal] returns (without failing an assertion)
    true exactly when every edge is a ring edge and [|R| + k >= 6], or at
    most 3 edges are not ring edges and [|R| + k = 7] and [C = 6]. *)
Theorem canBeAlmostMinimal_spec (r : nat) (R : list nat) (k C : Z) :
  2 <= length R -> front R < r -> back R < r ->
  exists b, canBeAlmostMinimal r R k C = Ok b
            /\ (b = true <-> almost_minimal_upto 3 r R k C).
Proof.
  intros Hlen Hf Hb.
  unfold canBeAlmostMinimal.
  apply Nat.ltb_lt in Hf. apply Nat.ltb_lt in Hb. rewrite Hf, Hb. simpl.
  assert (Hpl : (1 <= pathlen_of R)%Z) by (unfold pathlen_of; lia).
  apply Z.leb_le in Hpl. rewrite Hpl. simpl.
  eexists; split; [reflexivity|].
  apply Z.leb_le in Hpl.
  assert (Hne : R <> []) by (destruct R; simpl in *; [lia | congruence]).
  pose proof (number_in_ring_split r R Hne) as Hs.
  pose proof (non_ring_edges_nonneg r R) as Hnn.
  pose proof (number_in_ring_nonneg r R) as Hnr.
  unfold almost_minimal_upto. rewrite all_ring_edges_iff.
  rewrite orb_true_iff, !andb_true_iff, orb_true_iff.
  rewrite !Z.eqb_eq, !Z.leb_le. lia.
Qed.

Lemma canBeAlmostMinimal_spec_witness :
  exists b, canBeAlmostMinimal 6 [0; 6; 7; 3] 4 6 = Ok b
            /\ (b = true <-> almost_minimal_upto 3 6 [0; 6; 7; 3] 4 6).
Proof.
  apply canBeAlmostMinimal_spec; unfold front, back; simpl; lia.
Defined.

(** ** Loops *)

Lemma bind_ok {A B : Type} (m : res A) (k : A -> res B) (b : B) :
  bind m k = Ok b -> exists a, m = Ok a /\ k a = Ok b.
Proof.
  destruct m; simpl; intros H; try discriminate. eauto.
Qed.

Lemma assert_ok (b : bool) : assert b = Ok tt -> b = true.
Proof.
  destruct b; simpl; [reflexivity | discriminate].
Qed.

(** A loop whose body keeps an invariant and never fails ends in a state
    that satisfies the invariant. *)
Lemma fold_res_total {S A : Type} (P : S -> Prop) (body : S -> A -> res S)
  (xs : list A) :
  (forall st x, P st -> In x xs -> exists st', body st x = Ok st' /\ P st') ->
  forall st, P st -> exists st', fold_res body xs st = Ok st' /\ P st'.
Proof.
  induction xs as [|x xs IH]; intros Hbody st Hst; simpl.
  - eauto.
  - destruct (Hbody st x Hst) as [st1 [E1 H1]]; [left; reflexivity|].
    rewrite E1. simpl. apply IH; [|assumption].
    intros st2 y H2 Hy. apply Hbody; [assumption | right; assumption].
Qed.

(** The partial-correctness companion. *)
Lemma fold_res_invariant {S A : Type} (P : S -> Prop) (body : S -> A -> res S)
  (xs : list A) :
  (forall st x st', P st -> In x xs -> body st x = Ok st' -> P st') ->
  forall st st', P st -> fold_res body xs st = Ok st' -> P st'.
Proof.
  induction xs as [|x xs IH]; intros Hbody st st' Hst E; simpl in E.
  - injection E as <-. assumption.
  - apply bind_ok in E. destruct E as [st1 [E1 E2]].
    apply IH with (st := st1); [|eapply Hbody; eauto; left; reflexivity|assumption].
    intros st2 y st3 H2 Hy. apply Hbody; [assumption | right; assumption].
Qed.

Lemma fold_left_invariant {S A : Type} (P : S -> Prop) (body : S -> A -> S)
  (xs : list A) :
  (forall st x, P st -> In x xs -> P (body st x)) ->
  forall st, P st -> P (fold_left body xs st).
Proof.
  induction xs as [|x xs IH]; intros Hbody st Hst; simpl.
  - assumption.
  - apply IH.
    + intros st2 y H2 Hy. apply Hbody; [assumption | right; assumption].
    + apply Hbody; [assumption | left; reflexivity].
Qed.

(** A search loop whose test never fails returns whether some element
    passes the test. *)
Lemma exists_res_total {A : Type} (f : A -> res bool) (xs : list A) :
  (forall x, In x xs -> exists b, f x = Ok b) ->
  exists b, exists_res f xs = Ok b
            /\ (b = true <-> exists x, In x xs /\ f x = Ok true).
Proof.
  induction xs as [|x xs IH]; intros Hf; simpl.
  - exists false. split; [reflexivity|].
    split; [discriminate | intros [x [[] _]]].
  - destruct (Hf x) as [b Eb]; [left; reflexivity|]. rewrite Eb. simpl.
    destruct b.
    + exists true. split; [reflexivity|]. split; [|reflexivity].
      intros _. exists x. split; [left; reflexivity | assumption].
    + destruct IH as [b' [E' H']].
      { intros y Hy. apply Hf. right. assumption. }
      exists b'. split; [assumption|]. rewrite H'. split.
      * intros [y [Hy Ey]]. exists y. split; [right; assumption | assumption].
      * intros [y [[<- | Hy] Ey]]; [congruence|]. exists y. split; assumption.
Qed.

(** ** Vectors *)

Lemma length_vset {A : Type} (v : list A) (i : nat) (x : A) :
  length (vset v i x) = length v.
Proof.
  revert i. induction v as [|y v IH]; intros [|i]; simpl; auto.
Qed.

Lemma nth_vset_eq {A : Type} (v : list A) (i : nat) (x d : A) :
  i < length v -> nth i (vset v i x) d = x.
Proof.
  revert i. induction v as [|y v IH]; intros [|i] H; simpl in *; try lia.
  - reflexivity.
  - apply IH. lia.
Qed.

Lemma nth_vset_neq {A : Type} (v : list A) (i j : nat) (x d : A) :
  i <> j -> nth j (vset v i x) d = nth j v d.
Proof.
  revert i j. induction v as [|y v IH]; intros [|i] [|j] H; simpl; auto.
  congruence.
Qed.

Lemma vset_out_of_range {A : Type} (v : list A) (i : nat) (x : A) :
  length v <= i -> vset v i x = v.
Proof.
  revert i. induction v as [|y v IH]; intros [|i] H; simpl in *; auto; try lia.
  f_equal. apply IH. lia.
Qed.

Lemma mem_true_iff (x : nat) (l : list nat) : mem x l = true <-> In x l.
Proof.
  unfold mem. rewrite existsb_exists. split.
  - intros [y [Hy E]]. apply Nat.eqb_eq in E. subst. assumption.
  - intros H. exists x. split; [assumption | apply Nat.eqb_refl].
Qed.

(** ** [calculatePaths]: the cached paths run from [p] to [q] *)

Lemma back_app_cons (l : list nat) (x : nat) : back (l ++ [x]) = x.
Proof. unfold back. apply last_last. Qed.

Lemma calculatePaths_dfs_shape (VtoV : list (list nat)) (fuel : nat) :
  forall q v path paths R,
    In R (calculatePaths_dfs VtoV fuel q v path paths) ->
    In R paths \/ exists rest, R = path ++ v :: rest /\ back R = q.
Proof.
  induction fuel as [|fuel IH]; intros q v path paths R; simpl.
  - destruct (Nat.eqb_spec v q) as [->|Hvq].
    + rewrite in_app_iff. intros [H | [<- | []]]; [left; assumption|].
      right. exists []. split; [reflexivity | apply back_app_cons].
    + destruct (length (path ++ [v]) =? 8); intros H; left; assumption.
  - destruct (Nat.eqb_spec v q) as [->|Hvq].
    + rewrite in_app_iff. intros [H | [<- | []]]; [left; assumption|].
      right. exists []. split; [reflexivity | apply back_app_cons].
    + destruct (length (path ++ [v]) =? 8); [intros H; left; assumption|].
      generalize (adj VtoV v). intros l. revert paths.
      induction l as [|u l IHl]; intros paths; simpl; [intros H; left; assumption|].
      intros H. apply IHl in H. destruct H as [H | H]; [|right; assumption].
      destruct (mem u (path ++ [v])); [left; assumption|].
      apply IH in H. destruct H as [H | [rest [-> Hb]]]; [left; assumption|].
      right. exists (u :: rest). rewrite <- app_assoc in *. simpl in *.
      split; [reflexivity | assumption].
Qed.

Lemma calculatePaths_ends (VtoV : list (list nat)) (p q : nat) (R : list nat) :
  In R (calculatePaths VtoV p q) -> front R = p /\ back R = q.
Proof.
  unfold calculatePaths. intros H.
  apply calculatePaths_dfs_shape in H.
  destruct H as [[] | [rest [-> Hb]]]. split; [reflexivity | assumption].
Qed.

Lemma path_two_vertices (R : list nat) :
  R <> [] -> front R <> back R -> 2 <= length R.
Proof.
  destruct R as [|a [|b R]]; simpl; intros H1 H2; try congruence; try lia.
  unfold front, back in H2. simpl in H2. congruence.
Qed.

Lemma calculatePaths_nonempty (VtoV : list (list nat)) (p q : nat)
  (R : list nat) :
  In R (calculatePaths VtoV p q) -> R <> [].
Proof.
  unfold calculatePaths. intros H.
  apply calculatePaths_dfs_shape in H.
  destruct H as [[] | [rest [-> Hb]]]. simpl. discriminate.
Qed.

Lemma all_paths_build (r : nat) (VtoV : list (list nat)) (a b : nat) :
  a < r -> b < r -> a <> b ->
  all_paths (build_all_paths r VtoV) a b = calculatePaths VtoV a b.
Proof.
  intros Ha Hb Hab. unfold all_paths, build_all_paths.
  rewrite nth_indep with (d' := map (fun q => if 0 =? q then [] else calculatePaths VtoV 0 q) (seq 0 r))
    by (rewrite length_map, length_seq; assumption).
  rewrite (map_nth (fun p => map (fun q => if p =? q then [] else calculatePaths VtoV p q) (seq 0 r)) (seq 0 r) 0 a).
  rewrite seq_nth by assumption. simpl.
  rewrite nth_indep with (d' := (fun q => if a =? q then [] else calculatePaths VtoV a q) 0)
    by (rewrite length_map, length_seq; assumption).
  rewrite (map_nth (fun q => if a =? q then [] else calculatePaths VtoV a q) (seq 0 r) 0 b).
  rewrite seq_nth by assumption. simpl.
  destruct (Nat.eqb_spec a b); [contradiction | reflexivity].
Qed.

(** ** [getComponent] terminates *)

Lemma unvisited_le_length (cid : list Z) : unvisited cid <= length cid.
Proof. apply count_occ_bound. Qed.

Lemma unvisited_vset (cid : list Z) (v : nat) (c : Z) :
  v < length cid -> nth v cid (-1)%Z = (-1)%Z -> c <> (-1)%Z ->
  S (unvisited (vset cid v c)) = unvisited cid.
Proof.
  unfold unvisited. revert v.
  induction cid as [|x cid IH]; intros [|v] Hv Hx Hc; simpl in *; try lia.
  - subst x. destruct (Z.eq_dec (-1) (-1)); [|congruence].
    destruct (Z.eq_dec c (-1)); [congruence | reflexivity].
  - destruct (Z.eq_dec x (-1)); rewrite <- (IH v) by (assumption || lia);
      reflexivity.
Qed.

Lemma unvisited_vset_le (cid : list Z) (v : nat) (c : Z) :
  c <> (-1)%Z -> unvisited (vset cid v c) <= unvisited cid.
Proof.
  unfold unvisited. revert v.
  induction cid as [|x cid IH]; intros [|v] Hc; simpl in *; try lia.
  - destruct (Z.eq_dec c (-1)); [congruence|].
    destruct (Z.eq_dec x (-1)); lia.
  - specialize (IH v Hc). destruct (Z.eq_dec x (-1)); lia.
Qed.

Lemma adj_out_of_range (VtoV : list (list nat)) (v : nat) :
  length VtoV <= v -> adj VtoV v = [].
Proof. intros H. unfold adj. apply nth_overflow. assumption. Qed.

(** With more fuel than unvisited vertices the search returns; it never
    resets a component identifier. *)
Lemma getComponent_dfs_total (VtoV : list (list nat)) (cutset : list nat)
  (c : Z) :
  c <> (-1)%Z ->
  forall fuel v st,
    length (fst st) = length VtoV -> unvisited (fst st) < fuel ->
    exists st', getComponent_dfs VtoV fuel cutset v c st = Ok st'
                /\ length (fst st') = length VtoV
                /\ unvisited (fst st') <= unvisited (fst st).
Proof.
  intros Hc. induction fuel as [|fuel IH]; intros v [cid comp] Hlen Hfuel;
    simpl in *; [lia|].
  destruct (mem v cutset || negb (nth v cid (-1) =? -1)%Z) eqn:E.
  - exists (cid, comp). simpl. auto.
  - apply orb_false_iff in E. destruct E as [_ E].
    apply negb_false_iff, Z.eqb_eq in E.
    destruct (Nat.lt_ge_cases v (length cid)) as [Hv | Hv].
    + pose proof (unvisited_vset cid v c Hv E Hc) as Hdec.
      destruct (fold_res_total
                  (fun st => length (fst st) = length VtoV
                             /\ unvisited (fst st) <= unvisited (vset cid v c))
                  (fun st u => getComponent_dfs VtoV fuel cutset u c st)
                  (adj VtoV v)) with (st := (vset cid v c, comp ++ [v]))
        as [st' [E' [Hl' Hu']]].
      * intros st u [Hl Hu] _.
        destruct (IH u st Hl) as [st1 [E1 [Hl1 Hu1]]]; [lia|].
        exists st1. repeat split; [assumption | assumption | lia].
      * simpl. rewrite length_vset. split; [assumption | lia].
      * exists st'. repeat split; [assumption | assumption | lia].
    + rewrite adj_out_of_range by lia. simpl.
      eexists. split; [reflexivity|]. simpl. rewrite length_vset.
      split; [assumption | apply unvisited_vset_le; assumption].
Qed.

Lemma length_repeat_Z (x : Z) (n : nat) : length (repeat x n) = n.
Proof. apply repeat_length. Qed.

Lemma getComponent_total (n r : nat) (VtoV : list (list nat)) (path : list nat) :
  length VtoV = n -> front path <> back path ->
  front path < r -> back path < r ->
  exists component, getComponent n r VtoV path = Ok component.
Proof.
  intros Hn Hne Hf Hb. unfold getComponent.
  apply Nat.eqb_neq in Hne. apply Nat.ltb_lt in Hf. apply Nat.ltb_lt in Hb.
  rewrite Hne, Hf, Hb. cbn [negb andb assert bind].
  destruct (fold_res_total
              (fun st : list Z * list nat => length (fst st) = length VtoV)
              (fun st v => getComponent_dfs VtoV (S n) (set_of_list path) v 0%Z st)
              (ring_arc r (front path) (back path)))
    with (st := (repeat (-1)%Z n, @nil nat)) as [st' [E' _]].
  - intros st v Hl _.
    assert (Hc : 0%Z <> (-1)%Z) by discriminate.
    destruct (getComponent_dfs_total VtoV (set_of_list path) 0%Z Hc
                (S n) v st Hl) as [st1 [E1 [Hl1 _]]].
    + pose proof (unvisited_le_length (fst st)). lia.
    + exists st1. split; assumption.
  - simpl. rewrite repeat_length. symmetry. assumption.
  - rewrite E'. simpl. eauto.
Qed.

Lemma sizeOfVertices_total (n r : nat) (VtoV : list (list nat))
  (path : list nat) :
  length VtoV = n -> front path <> back path ->
  front path < r -> back path < r ->
  exists s t, sizeOfVertices n r VtoV path = Ok (s, t).
Proof.
  intros Hn Hne Hf Hb. unfold sizeOfVertices.
  destruct (getComponent_total n r VtoV path Hn Hne Hf Hb) as [comp E].
  rewrite E. simpl. destruct (count_sides r comp) as [s t]. eauto.
Qed.

(** ** [checkShortCycle] *)




(** The body of the loop returns on every cached path. *)
Lemma checkShortCycle_path_total (n r : nat) (VtoV : list (list nat))
  (a b : nat) (k C : Z) (R : list nat) :
  length VtoV = n -> a < r -> b < r -> a <> b ->
  In R (all_paths (build_all_paths r VtoV) a b) ->
  exists found,
    (cm <- canBeAlmostMinimal r R k C ;;
     if cm then Ok false
     else
       let m := pathlen_of R in
       ' (s, t) <- sizeOfVertices n r VtoV R ;;
       let sz := (Z.quot (Z.max (s - Z.max (k - 1) 0 + 1) 0) 2 + t)%Z in
       if isForbiddenCut (k + m) sz then Ok true
       else
         Ok ((((k =? 2) && (m =? 3)) || ((k =? 1) && (m =? 4)))%Z
             && (s =? 2)%Z && (t =? 0)%Z
             && degree_le_4 VtoV ((a + 1) mod r)
             && degree_le_4 VtoV ((a + 2) mod r))) = Ok found.
Proof.
  intros Hn Ha Hb Hab HR. rewrite all_paths_build in HR by assumption.
  pose proof (calculatePaths_ends VtoV a b R HR) as [Hfr Hbk].
  pose proof (calculatePaths_nonempty VtoV a b R HR) as Hne.
  assert (Hlen : 2 <= length R)
    by (apply path_two_vertices; [assumption | congruence]).
  destruct (canBeAlmostMinimal_total r R k C Hlen) as [cm Ecm];
    [lia | lia |].
  rewrite Ecm. simpl. destruct cm; [eauto|].
  destruct (sizeOfVertices_total n r VtoV R Hn) as [s [t Est]];
    [congruence | lia | lia |].
  rewrite Est. simpl.
  destruct (isForbiddenCut _ _); eauto.
Qed.

Lemma checkShortCycle_total (n r : nat) (VtoV : list (list nat)) (a b : nat)
  (k C : Z) :
  length VtoV = n -> a < r -> b < r -> a <> b ->
  exists found,
    checkShortCycle n r VtoV (build_all_paths r VtoV) a b k C = Ok found.
Proof.
  intros Hn Ha Hb Hab. unfold checkShortCycle.
  destruct (Nat.ltb_spec a r) as [_|?]; [|lia].
  destruct (Nat.ltb_spec b r) as [_|?]; [|lia].
  destruct (Nat.eqb_spec a b) as [?|_]; [lia|]. cbn [negb andb assert bind].
  match goal with
  | |- exists _, exists_res ?f ?xs = _ =>
      destruct (exists_res_total f xs) as [found [E _]]; [|eauto]
  end.
  intros R HR. apply checkShortCycle_path_total with (b := b); assumption.
Qed.




(** ** Matrices *)

Lemma mshape_mset (rows cols : nat) (m : matrix) (i j : nat) (x : Z) :
  mshape rows cols m -> mshape rows cols (mset m i j x).
Proof.
  intros [Hr Hc]. unfold mset. split.
  - rewrite length_vset. assumption.
  - intros i' Hi'. destruct (Nat.eq_dec i i') as [->|Hne].
    + rewrite nth_vset_eq by lia. rewrite length_vset. apply Hc. assumption.
    + rewrite nth_vset_neq by assumption. apply Hc. assumption.
Qed.

Lemma mget_mset_eq (rows cols : nat) (m : matrix) (i j : nat) (x : Z) :
  mshape rows cols m -> i < rows -> j < cols -> mget (mset m i j x) i j = x.
Proof.
  intros [Hr Hc] Hi Hj. unfold mget, mset.
  rewrite nth_vset_eq by lia. apply nth_vset_eq. rewrite Hc; assumption.
Qed.

Lemma mget_mset_neq (m : matrix) (i j i' j' : nat) (x : Z) :
  i <> i' \/ j <> j' -> mget (mset m i j x) i' j' = mget m i' j'.
Proof.
  intros H. unfold mget, mset.
  destruct (Nat.eq_dec i i') as [<-|Hne].
  - destruct H as [H|H]; [congruence|].
    destruct (Nat.lt_ge_cases i (length m)) as [Hi|Hi].
    + rewrite nth_vset_eq by assumption. apply nth_vset_neq. assumption.
    + rewrite vset_out_of_range by assumption. reflexivity.
  - rewrite nth_vset_neq by assumption. reflexivity.
Qed.

Lemma mshape_repeat (rows cols : nat) (x : Z) :
  mshape rows cols (repeat (repeat x cols) rows).
Proof.
  split; [apply repeat_length|].
  intros i Hi. rewrite nth_repeat_lt by assumption. apply repeat_length.
Qed.

(** ** Loops that fill one cell per iteration *)

Lemma fold_res_each {S A : Type} (P : S -> Prop) (Done : A -> S -> Prop)
  (body : S -> A -> res S) (xs : list A) :
  NoDup xs ->
  (forall st x, P st -> In x xs ->
     exists st', body st x = Ok st' /\ P st' /\ Done x st'
                 /\ forall y, y <> x -> Done y st -> Done y st') ->
  forall st, P st ->
    exists st', fold_res body xs st = Ok st' /\ P st'
                /\ (forall x, In x xs -> Done x st')
                /\ (forall y, ~ In y xs -> Done y st -> Done y st').
Proof.
  induction xs as [|x xs IH]; intros Hnd Hbody st Hst; simpl.
  - exists st. repeat split; auto. intros x [].
  - inversion Hnd as [|? ? Hx Hnd']; subst.
    destruct (Hbody st x Hst) as [st1 [E1 [P1 [D1 K1]]]]; [left; reflexivity|].
    rewrite E1. simpl.
    destruct (IH Hnd') with (st := st1) as [st' [E' [P' [D' K']]]];
      [|assumption|].
    { intros st2 y H2 Hy. apply Hbody; [assumption | right; assumption]. }
    exists st'. repeat split; [assumption | assumption | |].
    + intros y [<- | Hy]; [apply K'; assumption | apply D'; assumption].
    + intros y Hy Dy. apply K'; [tauto|]. apply K1; [|assumption].
      intros ->. apply Hy. left. reflexivity.
Qed.

(** ** The tables of outer-path lengths *)

Lemma first_allowed_spec (forbidden : Z -> res bool) (C : Z) :
  forall fuel k,
    (forall j, (k <= j <= C)%Z -> exists b, forbidden j = Ok b) ->
    Z.to_nat (C + 2 - k) <= fuel -> (k <= C + 1)%Z ->
    exists v, first_allowed fuel forbidden C k = Ok v
              /\ (v <= C + 1)%Z /\ least_allowed forbidden k C v.
Proof.
  unfold least_allowed.
  induction fuel as [|fuel IH]; intros k Hf Hfuel Hk; [lia|]. simpl.
  destruct (Z.ltb_spec C k) as [Hlt | Hge].
  - exists k. repeat split; try lia.
  - destruct (Hf k) as [b Eb]; [lia|]. rewrite Eb. simpl. destruct b; simpl.
    + destruct (IH (k + 1)%Z) as [v [Ev [Hv [Hk1 [Hv2 Hmin]]]]]; [|lia|lia|].
      { intros j Hj. apply Hf. lia. }
      exists v. repeat split; [assumption | lia | lia | assumption |].
      intros j Hj. destruct (Z.eq_dec j k) as [->|Hne].
      * intros [H|H]; [lia | congruence].
      * apply Hmin. lia.
    + exists k. repeat split; try lia. right. assumption.
Qed.

Lemma ring_successor_iff (r p q : nat) :
  p < r -> q < r -> (ring_successor r p q = true <-> q = (p + 1) mod r).
Proof.
  intros Hp Hq. unfold ring_successor.
  rewrite orb_true_iff, andb_true_iff, !Nat.eqb_eq.
  destruct (Nat.eq_dec (p + 1) r) as [E|E].
  - rewrite E, Nat.Div0.mod_same. lia.
  - rewrite Nat.mod_small by lia. lia.
Qed.

(** One row of the table. *)
Lemma lower_bound_row (r : nat) (forbidden : nat -> nat -> Z -> Z -> res bool)
  (k0 C : Z) (p : nat) (tbl : matrix) :
  p < r -> mshape r r tbl ->
  (forall q, q < r -> q <> p -> exists v, table_entry r forbidden k0 C p q v) ->
  exists tbl',
    fold_res
      (fun length q =>
         if p =? q then Ok length
         else if ring_successor r p q then Ok (mset length p q 1%Z)
         else
           k <- first_allowed (Z.to_nat C + 2)
                  (fun k => forbidden p q k C) C k0 ;;
           Ok (mset length p q k))
      (seq 0 r) tbl = Ok tbl'
    /\ mshape r r tbl'
    /\ (forall q, q < r -> q <> p ->
                  table_entry r forbidden k0 C p q (mget tbl' p q))
    /\ (forall i j, i <> p -> mget tbl' i j = mget tbl i j).
Proof.
  intros Hp Hsh Hent.
  match goal with
  | |- exists _, fold_res ?body _ _ = _ /\ _ =>
      destruct (fold_res_each
                  (fun t => mshape r r t
                            /\ forall i j, i <> p -> mget t i j = mget tbl i j)
                  (fun q t => q <> p ->
                              table_entry r forbidden k0 C p q (mget t p q))
                  body (seq 0 r) (seq_NoDup r 0)) with (st := tbl)
        as [tbl' [E [[Hsh' Hrows] [Hdone _]]]]
  end.
  - intros t q [Hsht Hrowst] Hq. apply in_seq in Hq.
    destruct (Nat.eqb_spec p q) as [<-|Hpq].
    { exists t. split; [reflexivity|]. split; [split; assumption|].
      split; [intros H; congruence | auto]. }
    destruct (Hent q) as [v Hv]; [lia | congruence |].
    unfold table_entry in *.
    destruct (ring_successor r p q) eqn:Es.
    + subst v. eexists. split; [reflexivity|].
      split; [split; [apply mshape_mset; assumption|]|split].
      * intros i j Hi. rewrite mget_mset_neq by (left; congruence).
        apply Hrowst. assumption.
      * intros _. apply (mget_mset_eq r r); [assumption | lia | lia].
      * intros y Hy Hdy Hyp. rewrite mget_mset_neq by (right; congruence).
        apply Hdy. assumption.
    + rewrite Hv. simpl. eexists. split; [reflexivity|].
      split; [split; [apply mshape_mset; assumption|]|split].
      * intros i j Hi. rewrite mget_mset_neq by (left; congruence).
        apply Hrowst. assumption.
      * intros _. rewrite (mget_mset_eq r r); [reflexivity | assumption | lia | lia].
      * intros y Hy Hdy Hyp. rewrite mget_mset_neq by (right; congruence).
        specialize (Hdy Hyp). destruct (ring_successor r p y); assumption.
  - split; [assumption | reflexivity].
  - exists tbl'. repeat split; try assumption; try apply Hsh'.
    intros q Hq Hqp. apply Hdone; [apply in_seq; lia | assumption].
Qed.

Lemma lower_bound_table_spec (r : nat)
  (forbidden : nat -> nat -> Z -> Z -> res bool) (k0 C : Z) :
  (forall p q, p < r -> q < r -> q <> p ->
               exists v, table_entry r forbidden k0 C p q v) ->
  exists tbl,
    lower_bound_table r forbidden k0 C = Ok tbl
    /\ forall p q, p < r -> q < r -> q <> p ->
                   table_entry r forbidden k0 C p q (mget tbl p q).
Proof.
  intros Hent. unfold lower_bound_table.
  match goal with
  | |- exists _, fold_res ?body _ _ = _ /\ _ =>
      destruct (fold_res_each
                  (fun t => mshape r r t)
                  (fun p t => forall q, q < r -> q <> p ->
                              table_entry r forbidden k0 C p q (mget t p q))
                  body (seq 0 r) (seq_NoDup r 0))
        with (st := repeat (repeat 0%Z r) r)
        as [tbl' [E [Hsh' [Hdone _]]]]
  end.
  - intros t p Hsht Hp. apply in_seq in Hp.
    destruct (lower_bound_row r forbidden k0 C p t) as [t' [E [Hs [Hrow Hoth]]]];
      [lia | assumption | |].
    { intros q Hq Hqp. apply Hent; [lia | assumption | assumption]. }
    exists t'. repeat split; try assumption; try apply Hs.
    intros y Hy Hdy q Hq Hqy. rewrite Hoth by assumption. apply Hdy; assumption.
  - apply mshape_repeat.
  - exists tbl'. split; [assumption|].
    intros p q Hp Hq Hqp. apply Hdone; [apply in_seq; lia | assumption | assumption].
Qed.

Lemma front_back_ring_path (r a b : nat) :
  a < r -> b < r ->
  let b_ := if a <? b then b else b + r in
  let Q := rev (map (fun v => v mod r) (seq a (1 + b_ - a))) in
  front Q = b /\ back Q = a.
Proof.
  intros Ha Hb b_ Q.
  assert (Hb_ : a <= b_ /\ b_ mod r = b).
  { unfold b_. destruct (Nat.ltb_spec a b).
    - split; [lia | apply Nat.mod_small; assumption].
    - split; [lia|]. rewrite <- (Nat.mul_1_l r) at 1.
      rewrite Nat.Div0.mod_add. apply Nat.mod_small. assumption. }
  destruct Hb_ as [Hle Hmod].
  assert (E : 1 + b_ - a = S (b_ - a)) by lia.
  unfold Q. rewrite E. split.
  - rewrite seq_S, map_app, rev_app_distr. simpl. unfold front. simpl.
    replace (a + (b_ - a)) with b_ by lia. assumption.
  - simpl. unfold back. rewrite last_last. apply Nat.mod_small. assumption.
Qed.

Lemma is6or7_true (C : Z) : C = 6%Z \/ C = 7%Z -> is6or7 C = true.
Proof. intros [-> | ->]; reflexivity. Qed.

Lemma forbiddenCycle_total (n r : nat) (VtoV : list (list nat)) (a b : nat)
  (k C : Z) :
  length VtoV = n -> a < r -> b < r -> a <> b ->
  C = 6%Z \/ C = 7%Z -> (k <= C)%Z ->
  exists found,
    forbiddenCycle n r VtoV (build_all_paths r VtoV) a b k C = Ok found.
Proof.
  intros Hn Ha Hb Hab HC Hk. unfold forbiddenCycle.
  rewrite is6or7_true by assumption.
  apply Z.leb_le in Hk. rewrite Hk. cbn [assert bind].
  destruct (_ =? k)%Z; [eauto|]. destruct (_ <? k)%Z; [eauto|].
  apply checkShortCycle_total; assumption.
Qed.

Lemma forbiddenCycleOneEdge_total (n r : nat) (VtoV : list (list nat))
  (a b : nat) (k C : Z) :
  length VtoV = n -> a < r -> b < r -> a <> b ->
  C = 6%Z \/ C = 7%Z -> (k <= C)%Z ->
  exists found,
    forbiddenCycleOneEdge n r VtoV (build_all_paths r VtoV) a b k C = Ok found.
Proof.
  intros Hn Ha Hb Hab HC Hk. unfold forbiddenCycleOneEdge.
  rewrite is6or7_true by assumption.
  apply Z.leb_le in Hk. rewrite Hk. cbn [assert bind].
  destruct (front_back_ring_path r a b Ha Hb) as [HfQ HbQ].
  match goal with
  | |- context [sizeOfVertices n r VtoV ?Q] =>
      destruct (sizeOfVertices_total n r VtoV Q Hn) as [s [t Est]];
        [congruence | lia | lia | rewrite Est]
  end.
  cbn [bind]. cbv zeta.
  destruct (negb _ && isForbiddenCut _ _); [eauto|].
  destruct (Nat.eqb_spec a b) as [?|_]; [lia|]. cbn [negb assert bind].
  match goal with
  | |- exists _, exists_res ?f ?xs = _ =>
      destruct (exists_res_total f xs) as [found [E _]]; [|eauto]
  end.
  intros R HR. rewrite all_paths_build in HR by assumption.
  pose proof (calculatePaths_ends VtoV a b R HR) as [Hfr Hbk].
  destruct (_ && _ && _)%bool; [eauto|].
  destruct (sizeOfVertices_total n r VtoV R Hn) as [s' [t' Est']];
    [congruence | lia | lia |].
  rewrite Est'. simpl. eauto.
Qed.

Lemma table_entry_exists (r : nat)
  (forbidden : nat -> nat -> Z -> Z -> res bool) (k0 C : Z) (p q : nat) :
  C = 6%Z \/ C = 7%Z -> k0 = 0%Z \/ k0 = 1%Z ->
  (forall j, (j <= C)%Z -> exists b, forbidden p q j C = Ok b) ->
  exists v, table_entry r forbidden k0 C p q v.
Proof.
  intros HC Hk0 Hf. unfold table_entry.
  destruct (ring_successor r p q); [eauto|].
  destruct (first_allowed_spec (fun k => forbidden p q k C) C
              (Z.to_nat C + 2) k0) as [v [E _]]; [| lia | lia | eauto].
  intros j Hj. apply Hf. lia.
Qed.

Lemma table_entry_meaning (r : nat)
  (forbidden : nat -> nat -> Z -> Z -> res bool) (k0 C : Z) (p q : nat)
  (v : Z) :
  p < r -> q < r -> C = 6%Z \/ C = 7%Z -> k0 = 0%Z \/ k0 = 1%Z ->
  (forall j, (j <= C)%Z -> exists b, forbidden p q j C = Ok b) ->
  table_entry r forbidden k0 C p q v ->
  (q = (p + 1) mod r -> v = 1%Z)
  /\ (q <> (p + 1) mod r ->
      least_allowed (fun k => forbidden p q k C) k0 C v)
  /\ (v <= C + 1)%Z.
Proof.
  intros Hp Hq HC Hk0 Hf. unfold table_entry.
  pose proof (ring_successor_iff r p q Hp Hq) as Hs.
  destruct (ring_successor r p q).
  - intros ->. split; [reflexivity|]. split; [|lia].
    intros Hne. exfalso. apply Hne. apply Hs. reflexivity.
  - intros E.
    destruct (first_allowed_spec (fun k => forbidden p q k C) C
                (Z.to_nat C + 2) k0) as [v' [E' [Hle Hleast]]]; [| lia | lia |].
    { intros j Hj. apply Hf. lia. }
    rewrite E in E'. injection E' as <-.
    split; [|split; [intros _; assumption | assumption]].
    intros Hsucc. apply Hs in Hsucc. discriminate.
Qed.

Lemma length_table_total (n r : nat) (VtoV : list (list nat)) (C : Z) :
  length VtoV = n -> C = 6%Z \/ C = 7%Z ->
  exists tbl,
    calcLowerBoundLengthOuterPath n r VtoV (build_all_paths r VtoV) C = Ok tbl
    /\ forall p q, p < r -> q < r -> q <> p ->
         table_entry r (forbiddenCycle n r VtoV (build_all_paths r VtoV))
           0 C p q (mget tbl p q).
Proof.
  intros Hn HC. apply lower_bound_table_spec.
  intros p q Hp Hq Hqp. apply table_entry_exists; [assumption | lia |].
  intros j Hj. apply forbiddenCycle_total; auto.
Qed.

Lemma length_oneedge_table_total (n r : nat) (VtoV : list (list nat)) (C : Z) :
  length VtoV = n -> C = 6%Z \/ C = 7%Z ->
  exists tbl,
    calcLowerBoundLengthOuterPathOneEdge n r VtoV (build_all_paths r VtoV) C
    = Ok tbl
    /\ forall p q, p < r -> q < r -> q <> p ->
         table_entry r (forbiddenCycleOneEdge n r VtoV (build_all_paths r VtoV))
           1 C p q (mget tbl p q).
Proof.
  intros Hn HC. apply lower_bound_table_spec.
  intros p q Hp Hq Hqp. apply table_entry_exists; [assumption | lia |].
  intros j Hj. apply forbiddenCycleOneEdge_total; auto.
Qed.

(** The constructor returns on every adjacency with one entry per vertex,
    and stores the four tables of the loops above. *)
Lemma newConfiguration_total (n r : nat) (VtoV : list (list nat)) :
  length VtoV = n ->
  exists c,
    newConfiguration n r VtoV = Ok c
    /\ n_ c = n /\ r_ c = r /\ VtoV_ c = VtoV
    /\ all_paths_ c = build_all_paths r VtoV
    /\ dist_ c = WF_relax n (WF_init n VtoV)
    /\ dist_contracted_ c = dist_ c
    /\ contract_ c = []
    /\ representative_ c = calcRepresentative n (dist_ c)
    /\ is_reductable_inside_ c = repeat false n
    /\ is_reductable_outside6_ c = repeat false n
    /\ is_reductable_outside7_ c = repeat false n
    /\ (forall C, C = 6%Z \/ C = 7%Z ->
          calcLowerBoundLengthOuterPath n r VtoV (build_all_paths r VtoV) C
          = Ok (table_of C (length6_ c) (length7_ c))
          /\ calcLowerBoundLengthOuterPathOneEdge n r VtoV
               (build_all_paths r VtoV) C
             = Ok (table_of C (length_oneedge6_ c) (length_oneedge7_ c))).
Proof.
  intros Hn. unfold newConfiguration. unfold WF at 1. cbn [bind].
  destruct (length_table_total n r VtoV 6 Hn) as [l6 [E6 _]]; [lia|].
  destruct (length_table_total n r VtoV 7 Hn) as [l7 [E7 _]]; [lia|].
  destruct (length_oneedge_table_total n r VtoV 6 Hn) as [o6 [F6 _]]; [lia|].
  destruct (length_oneedge_table_total n r VtoV 7 Hn) as [o7 [F7 _]]; [lia|].
  rewrite E6, E7, F6, F7. cbn [bind].
  eexists. split; [reflexivity|]. cbn.
  repeat (split; [reflexivity|]).
  intros C [-> | ->]; cbn; split; assumption.
Qed.

(** C4: on every adjacency with one entry per vertex the constructor
    returns, and for every [C] in {6, 7} and every ordered pair of distinct
    ring vertices [(p, q)]: if [q = (p + 1) mod r] then [length_C[p][q]] and
    [lengthOneEdge_C[p][q]] are 1; otherwise [length_C[p][q]] is the
    smallest [k >= 0] such that [k > C] or [forbiddenCycle(p, q, k, C)] is
    false, and [lengthOneEdge_C[p][q]] is the smallest [k >= 1] such that
    [k > C] or [forbiddenCycleOneEdge(p, q, k, C)] is false; both entries
    are at most [C + 1]. *)
Theorem length_tables_spec (n r : nat) (VtoV : list (list nat)) :
  length VtoV = n ->
  exists c,
    newConfiguration n r VtoV = Ok c
    /\ forall C p q,
         C = 6%Z \/ C = 7%Z -> p < r -> q < r -> p <> q ->
         let len := mget (table_of C (length6_ c) (length7_ c)) p q in
         let len1 :=
           mget (table_of C (length_oneedge6_ c) (length_oneedge7_ c)) p q in
         (q = (p + 1) mod r -> len = 1%Z /\ len1 = 1%Z)
         /\ (q <> (p + 1) mod r ->
             least_allowed
               (fun k => forbiddenCycle (n_ c) (r_ c) (VtoV_ c) (all_paths_ c)
                           p q k C) 0 C len
             /\ least_allowed
                  (fun k => forbiddenCycleOneEdge (n_ c) (r_ c) (VtoV_ c)
                              (all_paths_ c) p q k C) 1 C len1)
         /\ (len <= C + 1)%Z /\ (len1 <= C + 1)%Z.
Proof.
  intros Hn.
  destruct (newConfiguration_total n r VtoV Hn)
    as [c [Ec [Hn1 [Hr1 [HV1 [HP1 [_ [_ [_ [_ [_ [_ [_ Htab]]]]]]]]]]]]].
  exists c. split; [assumption|].
  intros C p q HC Hp Hq Hpq len len1.
  rewrite Hn1, Hr1, HV1, HP1.
  destruct (Htab C HC) as [E F].
  destruct (length_table_total n r VtoV C Hn HC) as [tbl [E' Hent]].
  destruct (length_oneedge_table_total n r VtoV C Hn HC) as [tbl1 [F' Hent1]].
  rewrite E in E'. injection E' as <-. rewrite F in F'. injection F' as <-.
  destruct (table_entry_meaning r
              (forbiddenCycle n r VtoV (build_all_paths r VtoV))
              0 C p q len Hp Hq HC)
    as [A1 [A2 A3]];
    [lia | | apply Hent; auto |].
  { intros j Hj. apply forbiddenCycle_total; auto. }
  destruct (table_entry_meaning r
              (forbiddenCycleOneEdge n r VtoV (build_all_paths r VtoV))
              1 C p q len1 Hp Hq HC)
    as [B1 [B2 B3]];
    [lia | | apply Hent1; auto |].
  { intros j Hj. apply forbiddenCycleOneEdge_total; auto. }
  split; [intros Hs; split; [apply A1 | apply B1]; assumption|].
  split; [intros Hs; split; [apply A2 | apply B2]; assumption|].
  split; assumption.
Qed.

Lemma length_tables_spec_witness :
  exists c,
    newConfiguration 6 6 ring6_adj = Ok c
    /\ forall C p q,
         C = 6%Z \/ C = 7%Z -> p < 6 -> q < 6 -> p <> q ->
         let len := mget (table_of C (length6_ c) (length7_ c)) p q in
         let len1 :=
           mget (table_of C (length_oneedge6_ c) (length_oneedge7_ c)) p q in
         (q = (p + 1) mod 6 -> len = 1%Z /\ len1 = 1%Z)
         /\ (q <> (p + 1) mod 6 ->
             least_allowed
               (fun k => forbiddenCycle (n_ c) (r_ c) (VtoV_ c) (all_paths_ c)
                           p q k C) 0 C len
             /\ least_allowed
                  (fun k => forbiddenCycleOneEdge (n_ c) (r_ c) (VtoV_ c)
                              (all_paths_ c) p q k C) 1 C len1)
         /\ (len <= C + 1)%Z /\ (len1 <= C + 1)%Z.
Proof.
  apply (length_tables_spec 6 6 ring6_adj). reflexivity.
Defined.

(** ** [setContract]: what it assigns *)

Lemma setContract_assigns (c : Configuration) (contract : list (nat * nat))
  (c' : Configuration) :
  setContract c contract = Ok c' ->
  same_graph c c'
  /\ contract_ c' = contract
  /\ WF (n_ c) (VtoV_ c) contract true = Ok (dist_contracted_ c')
  /\ representative_ c' = calcRepresentative (n_ c) (dist_contracted_ c')
  /\ calcCutReduction (n_ c) (r_ c) (VtoV_ c) (dist_contracted_ c')
     = Ok (is_reductable_inside_ c').
Proof.
  unfold setContract. intros H.
  apply bind_ok in H. destruct H as [dc [Edc H]].
  apply bind_ok in H. destruct H as [ins [Eins H]].
  apply bind_ok in H. destruct H as [o6 [Eo6 H]].
  apply bind_ok in H. destruct H as [o7 [Eo7 H]].
  injection H as <-. unfold same_graph. cbn. repeat split; assumption.
Qed.

(** C10: when [setContract] returns, the members [n_], [r_], [VtoV_],
    [dist_], [all_paths_] and the four length tables are those of the
    configuration it was called on; what it assigns is the contract list
    (now its argument), [dist_contracted_], [representative_] and the three
    reductable masks. *)
Theorem setContract_frame (c : Configuration) (contract : list (nat * nat))
  (c' : Configuration) :
  setContract c contract = Ok c' ->
  n_ c' = n_ c /\ r_ c' = r_ c /\ VtoV_ c' = VtoV_ c /\ dist_ c' = dist_ c
  /\ all_paths_ c' = all_paths_ c
  /\ length6_ c' = length6_ c /\ length7_ c' = length7_ c
  /\ length_oneedge6_ c' = length_oneedge6_ c
  /\ length_oneedge7_ c' = length_oneedge7_ c
  /\ contract_ c' = contract.
Proof.
  intros H. apply setContract_assigns in H.
  destruct H as [[H1 [H2 [H3 [H4 [H5 [H6 [H7 [H8 H9]]]]]]]] [H10 _]].
  repeat split; assumption.
Qed.

(** The result of [setContract] is a function of the members it does not
    assign and of its argument. *)
Lemma setContract_same_graph (c c' : Configuration)
  (contract : list (nat * nat)) :
  same_graph c c' -> setContract c' contract = setContract c contract.
Proof.
  intros [H1 [H2 [H3 [H4 [H5 [H6 [H7 [H8 H9]]]]]]]].
  unfold setContract. rewrite H1, H2, H3, H4, H5, H6, H7, H8, H9. reflexivity.
Qed.

Lemma setContract_frame_witness :
  exists c c',
    newConfiguration 8 6 wheel_adj = Ok c
    /\ setContract c [(7, 0)] = Ok c'
    /\ (n_ c' = n_ c /\ r_ c' = r_ c /\ VtoV_ c' = VtoV_ c
        /\ dist_ c' = dist_ c /\ all_paths_ c' = all_paths_ c
        /\ length6_ c' = length6_ c /\ length7_ c' = length7_ c
        /\ length_oneedge6_ c' = length_oneedge6_ c
        /\ length_oneedge7_ c' = length_oneedge7_ c
        /\ contract_ c' = [(7, 0)]).
Proof.
  eexists. eexists.
  split; [vm_compute; reflexivity|].
  split; [vm_compute; reflexivity|].
  apply (setContract_frame _ [(7, 0)]). vm_compute. reflexivity.
Defined.

(** ** The matrix [WF] starts from *)

Lemma fold_left_each {S A : Type} (P : S -> Prop) (Done : A -> S -> Prop)
  (body : S -> A -> S) (xs : list A) :
  NoDup xs ->
  (forall st x, P st -> In x xs ->
     P (body st x) /\ Done x (body st x)
     /\ forall y, y <> x -> Done y st -> Done y (body st x)) ->
  forall st, P st ->
    P (fold_left body xs st)
    /\ (forall x, In x xs -> Done x (fold_left body xs st))
    /\ (forall y, ~ In y xs -> Done y st -> Done y (fold_left body xs st)).
Proof.
  induction xs as [|x xs IH]; intros Hnd Hbody st Hst; simpl.
  - repeat split; auto. intros x [].
  - inversion Hnd as [|? ? Hx Hnd']; subst.
    destruct (Hbody st x Hst) as [P1 [D1 K1]]; [left; reflexivity|].
    destruct (IH Hnd') with (st := body st x) as [P' [D' K']]; [|assumption|].
    { intros st2 y H2 Hy. apply Hbody; [assumption | right; assumption]. }
    repeat split; [assumption | |].
    + intros y [<- | Hy]; [apply K'; assumption | apply D'; assumption].
    + intros y Hy Dy. apply K'; [tauto|]. apply K1; [|assumption].
      intros ->. apply Hy. left. reflexivity.
Qed.

Lemma mget_out_of_range (rows cols : nat) (m : matrix) (i j : nat) :
  mshape rows cols m -> rows <= i \/ cols <= j -> mget m i j = 0%Z.
Proof.
  intros [Hr Hc] H. unfold mget.
  destruct (Nat.lt_ge_cases i rows) as [Hi|Hi].
  - apply nth_overflow. rewrite Hc by assumption. lia.
  - rewrite (nth_overflow m) by lia. destruct j; reflexivity.
Qed.

Lemma mget_repeat (rows cols : nat) (x : Z) (i j : nat) :
  i < rows -> j < cols -> mget (repeat (repeat x cols) rows) i j = x.
Proof.
  intros Hi Hj. unfold mget. rewrite nth_repeat_lt by assumption.
  apply nth_repeat_lt. assumption.
Qed.

(** One row of the first loop of [WF]. *)
Lemma WF_init_row (n : nat) (v : nat) (l : list nat) :
  v < n -> (forall u, In u l -> u < n) ->
  forall d, mshape n n d ->
    let d' := fold_left (fun dist u => mset dist v u 1%Z) l d in
    mshape n n d'
    /\ forall i j, i < n -> j < n ->
         mget d' i j = if (i =? v) && mem j l then 1%Z else mget d i j.
Proof.
  intros Hv. induction l as [|u l IH]; intros Hl d Hd; simpl.
  - split; [assumption|]. intros i j _ _. rewrite andb_false_r. reflexivity.
  - destruct (IH (fun w Hw => Hl w (or_intror Hw)) (mset d v u 1%Z))
      as [Hs He]; [apply mshape_mset; assumption|].
    split; [assumption|]. intros i j Hi Hj. rewrite He by assumption.
    unfold mem at 2. simpl. fold (mem j l).
    destruct (Nat.eqb_spec i v) as [->|Hiv]; simpl.
    + destruct (mem j l); [rewrite orb_true_r; reflexivity|].
      rewrite orb_false_r.
      destruct (Nat.eqb_spec j u) as [->|Hju].
      * apply (mget_mset_eq n n); [assumption | assumption |].
        apply Hl. left. reflexivity.
      * apply mget_mset_neq. right. congruence.
    + apply mget_mset_neq. left. congruence.
Qed.

Lemma WF_init_spec (n : nat) (VtoV : list (list nat)) :
  wf_graph n VtoV ->
  mshape n n (WF_init n VtoV)
  /\ forall u v, u < n -> v < n ->
       mget (WF_init n VtoV) u v = init_dist VtoV u v.
Proof.
  intros [Hlen Hadj]. unfold WF_init.
  match goal with
  | |- mshape _ _ (fold_left ?body _ _) /\ _ =>
      destruct (fold_left_each
                  (fun d => mshape n n d
                            /\ forall u v, u < n -> v < n ->
                                 mget d u v = INF
                                 \/ mget d u v = init_dist VtoV u v)
                  (fun u d => forall v, v < n ->
                                mget d u v = init_dist VtoV u v)
                  body (seq 0 n) (seq_NoDup n 0))
        with (st := repeat (repeat INF n) n) as [[Hs _] [Hdone _]]
  end.
  - intros d v [Hd Hcell] Hv. apply in_seq in Hv.
    destruct (WF_init_row n v (adj VtoV v)) with (d := mset d v v 0%Z)
      as [Hs He]; [lia | intros u Hu; eapply Hadj; eassumption
                   | apply mshape_mset; assumption |].
    assert (Hrow : forall j, j < n ->
              mget (fold_left (fun dist u => mset dist v u 1%Z) (adj VtoV v)
                      (mset d v v 0%Z)) v j = init_dist VtoV v j).
    { intros j Hj. rewrite He by lia. rewrite Nat.eqb_refl. simpl.
      unfold init_dist. destruct (mem j (adj VtoV v)) eqn:Em; [reflexivity|].
      destruct (Nat.eqb_spec v j) as [<-|Hvj].
      - apply (mget_mset_eq n n); [assumption | lia | lia].
      - rewrite mget_mset_neq by (right; assumption).
        destruct (Hcell v j) as [E|E]; [lia | lia | assumption |].
        rewrite E. unfold init_dist. rewrite Em.
        destruct (Nat.eqb_spec v j); [contradiction | reflexivity]. }
    assert (Hother : forall u w, u < n -> w < n -> u <> v ->
              mget (fold_left (fun dist u => mset dist v u 1%Z) (adj VtoV v)
                      (mset d v v 0%Z)) u w = mget d u w).
    { intros u w Hu Hw Huv. rewrite He by assumption.
      destruct (Nat.eqb_spec u v); [contradiction|]. simpl.
      apply mget_mset_neq. left. congruence. }
    split; [split; [assumption|] | split].
    + intros u w Hu Hw. destruct (Nat.eq_dec u v) as [->|Huv].
      * right. apply Hrow. assumption.
      * rewrite Hother by assumption. apply Hcell; assumption.
    + assumption.
    + intros y Hy Hdy w Hw.
      destruct (Nat.lt_ge_cases y n) as [Hyn|Hyn].
      * rewrite Hother by assumption. apply Hdy. assumption.
      * rewrite (mget_out_of_range n n) by (assumption || lia).
        rewrite <- (Hdy w Hw). symmetry.
        apply (mget_out_of_range n n); [assumption | lia].
  - split; [apply mshape_repeat|].
    intros u v Hu Hv. left. apply mget_repeat; assumption.
  - split; [assumption|].
    intros u v Hu Hv. apply Hdone; [apply in_seq; lia | assumption].
Qed.

(** ** The assertion of [WF] on the contract list *)

Lemma mem_pair_true_iff (e : nat * nat) (es : list (nat * nat)) :
  mem_pair e es = true <-> In e es.
Proof.
  unfold mem_pair. rewrite existsb_exists. split.
  - intros [f [Hf E]]. apply andb_true_iff in E. destruct E as [E1 E2].
    apply Nat.eqb_eq in E1, E2. destruct e, f. simpl in *. subst. assumption.
  - intros H. exists e. split; [assumption|]. rewrite !Nat.eqb_refl. reflexivity.
Qed.

Lemma zeroed_cons (e : nat * nat) (done : list (nat * nat)) (u v : nat) :
  zeroed (e :: done) u v
  = ((u =? fst e) && (v =? snd e)) || ((v =? fst e) && (u =? snd e))
    || zeroed done u v.
Proof.
  unfold zeroed, mem_pair. simpl.
  destruct ((u =? fst e) && (v =? snd e)), ((v =? fst e) && (u =? snd e));
    simpl; rewrite ?orb_true_r; reflexivity.
Qed.

Lemma init_dist_one_iff (VtoV : list (list nat)) (u v : nat) :
  init_dist VtoV u v = 1%Z <-> In v (adj VtoV u).
Proof.
  unfold init_dist. rewrite <- mem_true_iff.
  destruct (mem v (adj VtoV u)); [tauto|].
  destruct (u =? v); unfold INF; split; discriminate.
Qed.

(** The loop over the contract list either fails its assertion, exactly
    when some pair is not an edge or names an edge again, or returns. *)
Lemma WF_contract_spec (n : nat) (VtoV : list (list nat)) :
  wf_graph n VtoV ->
  forall contract done d,
    mshape n n d ->
    (forall u v, u < n -> v < n ->
       mget d u v = if zeroed done u v then 0%Z else init_dist VtoV u v) ->
    (fresh_edges VtoV done contract
     /\ exists d', WF_contract contract d = Ok d' /\ mshape n n d')
    \/ (~ fresh_edges VtoV done contract
        /\ WF_contract contract d = AssertFail).
Proof.
  intros [Hlen Hadj].
  induction contract as [|[a b] contract IH]; intros done d Hd Hcell.
  - left. split; [exact I|]. exists d. split; [reflexivity | assumption].
  - cbn [fresh_edges fst snd]. unfold WF_contract. cbn [fold_res fst snd].
    fold (WF_contract contract).
    assert (Hpass : mget d a b = 1%Z <->
                    In b (adj VtoV a) /\ ~ In (a, b) done /\ ~ In (b, a) done).
    { destruct (Nat.lt_ge_cases a n) as [Ha|Ha];
        [destruct (Nat.lt_ge_cases b n) as [Hb|Hb]|].
      - rewrite Hcell by assumption. unfold zeroed.
        rewrite <- !mem_pair_true_iff.
        destruct (mem_pair (a, b) done), (mem_pair (b, a) done); simpl;
          try (split; [discriminate | intros [_ [H1 H2]]; congruence]).
        rewrite init_dist_one_iff. intuition congruence.
      - rewrite (mget_out_of_range n n) by (assumption || lia).
        split; [discriminate|]. intros [H _]. apply Hadj in H. lia.
      - rewrite (mget_out_of_range n n) by (assumption || lia).
        split; [discriminate|]. intros [H _].
        rewrite adj_out_of_range in H by lia. destruct H. }
    destruct (Z.eqb_spec (mget d a b) 1) as [E|E]; cbn [assert bind].
    + apply Hpass in E. destruct E as [He [Hn1 Hn2]].
      assert (Ha : a < n).
      { destruct (Nat.lt_ge_cases a n) as [Ha|Ha]; [assumption|].
        rewrite adj_out_of_range in He by lia. destruct He. }
      assert (Hb : b < n) by (eapply Hadj; eassumption).
      destruct (IH ((a, b) :: done) (mset (mset d a b 0%Z) b a 0%Z))
        as [[Hf [d' [E' Hd']]] | [Hf E']].
      * repeat apply mshape_mset. assumption.
      * intros u v Hu Hv. rewrite zeroed_cons. cbn [fst snd].
        destruct (Nat.eqb_spec v a) as [->|Hva];
          [destruct (Nat.eqb_spec u b) as [->|Hub]|].
        -- rewrite orb_true_r. simpl.
           apply (mget_mset_eq n n); [apply mshape_mset| |]; assumption.
        -- rewrite andb_false_r, orb_false_r.
           rewrite mget_mset_neq by (left; congruence).
           destruct (Nat.eqb_spec u a) as [->|Hua]; simpl.
           ++ destruct (Nat.eqb_spec a b) as [->|Hab]; [contradiction|].
              simpl. rewrite mget_mset_neq by (right; congruence).
              apply Hcell; assumption.
           ++ rewrite mget_mset_neq by (left; congruence).
              apply Hcell; assumption.
        -- rewrite andb_false_l, orb_false_r.
           rewrite mget_mset_neq by (right; congruence).
           destruct (Nat.eqb_spec u a) as [->|Hua];
             [destruct (Nat.eqb_spec v b) as [->|Hvb]|]; simpl.
           ++ apply (mget_mset_eq n n); assumption.
           ++ rewrite mget_mset_neq by (right; congruence).
              apply Hcell; assumption.
           ++ rewrite mget_mset_neq by (left; congruence).
              apply Hcell; assumption.
      * left. split; [tauto|]. exists d'. split; assumption.
      * right. split; [tauto | assumption].
    + right. split; [|reflexivity]. intros [H1 [H2 [H3 _]]].
      apply E. apply Hpass. tauto.
Qed.

Lemma zeroed_nil (u v : nat) : zeroed [] u v = false.
Proof. reflexivity. Qed.

Lemma WF_true_spec (n : nat) (VtoV : list (list nat))
  (contract : list (nat * nat)) :
  wf_graph n VtoV ->
  (fresh_edges VtoV [] contract
   /\ exists d, WF n VtoV contract true = Ok d)
  \/ (~ fresh_edges VtoV [] contract
      /\ WF n VtoV contract true = AssertFail).
Proof.
  intros Hwf. destruct (WF_init_spec n VtoV Hwf) as [Hs Hi].
  unfold WF.
  destruct (WF_contract_spec n VtoV Hwf contract [] (WF_init n VtoV) Hs)
    as [[Hf [d' [E' Hd']]] | [Hf E']].
  - intros u v Hu Hv. rewrite zeroed_nil. apply Hi; assumption.
  - left. split; [assumption|]. rewrite E'. simpl. eauto.
  - right. split; [assumption|]. rewrite E'. reflexivity.
Qed.

(** C6, as the specification states it, fails: both pairs of the list
    [(0,1); (0,1)] name an existing edge of the ring of six vertices, and
    [setContract] aborts at the assertion of [WF]. *)
Lemma setContract_repeated_edge_aborts :
  names_edges ring6_adj [(0, 1); (0, 1)]
  /\ exists c,
       newConfiguration 6 6 ring6_adj = Ok c
       /\ WF (n_ c) (VtoV_ c) [(0, 1); (0, 1)] true = AssertFail
       /\ setContract c [(0, 1); (0, 1)] = AssertFail.
Proof.
  split.
  - intros e [<- | [<- | []]]; simpl; auto.
  - eexists. split; [vm_compute; reflexivity|].
    split; vm_compute; reflexivity.
Qed.

(** C6 (amended): on a well-formed adjacency, the call [WF(true)] of
    [setContract] passes its assertion on every pair, and returns, if and
    only if every pair of the list names an existing edge that no earlier
    pair of the list names in either direction; otherwise the assertion of
    [WF] fails and [setContract] aborts there. *)
Theorem setContract_assertion (c : Configuration)
  (contract : list (nat * nat)) :
  wf_graph (n_ c) (VtoV_ c) ->
  (fresh_edges (VtoV_ c) [] contract <->
   exists d, WF (n_ c) (VtoV_ c) contract true = Ok d)
  /\ (~ fresh_edges (VtoV_ c) [] contract ->
      WF (n_ c) (VtoV_ c) contract true = AssertFail
      /\ setContract c contract = AssertFail)
  /\ (forall c', setContract c contract = Ok c' ->
                 fresh_edges (VtoV_ c) [] contract).
Proof.
  intros Hwf.
  destruct (WF_true_spec (n_ c) (VtoV_ c) contract Hwf)
    as [[Hf [d Ed]] | [Hf Ef]].
  - split; [split; [eauto | intros _; assumption]|].
    split; [intros H; contradiction | intros _ _; assumption].
  - split; [split; [intros H; contradiction|]|].
    + intros [d Ed]. rewrite Ef in Ed. discriminate.
    + split.
      * intros _. split; [assumption|]. unfold setContract. rewrite Ef.
        reflexivity.
      * intros c' E. unfold setContract in E. rewrite Ef in E. discriminate.
Qed.

(** ** Checking the conditions on an adjacency *)

Lemma wf_graphb_sound (n : nat) (VtoV : list (list nat)) :
  wf_graphb n VtoV = true -> wf_graph n VtoV.
Proof.
  unfold wf_graphb, wf_graph. rewrite andb_true_iff, Nat.eqb_eq.
  intros [Hlen Hall]. split; [assumption|].
  intros v u Hu. unfold adj in Hu.
  destruct (Nat.lt_ge_cases v (length VtoV)) as [Hv|Hv].
  - rewrite forallb_forall in Hall.
    specialize (Hall (nth v VtoV []) (nth_In VtoV [] Hv)).
    rewrite forallb_forall in Hall. apply Nat.ltb_lt. apply Hall. assumption.
  - rewrite nth_overflow in Hu by assumption. destruct Hu.
Qed.

Lemma loop_freeb_sound (VtoV : list (list nat)) :
  loop_freeb VtoV = true -> loop_free VtoV.
Proof.
  unfold loop_freeb, loop_free. rewrite forallb_forall. intros H v Hv.
  destruct (Nat.lt_ge_cases v (length VtoV)) as [Hlt|Hge].
  - specialize (H v). rewrite in_seq in H.
    apply mem_true_iff in Hv. rewrite Hv in H.
    assert (F : negb true = true) by (apply H; lia). discriminate.
  - rewrite adj_out_of_range in Hv by assumption. destruct Hv.
Qed.

Lemma undirectedb_sound (VtoV : list (list nat)) :
  undirectedb VtoV = true -> undirected VtoV.
Proof.
  unfold undirectedb, undirected. rewrite forallb_forall. intros H u v Hv.
  destruct (Nat.lt_ge_cases u (length VtoV)) as [Hlt|Hge].
  - specialize (H u). rewrite in_seq in H.
    assert (F : forallb (fun v => mem u (adj VtoV v)) (adj VtoV u) = true)
      by (apply H; lia).
    rewrite forallb_forall in F. apply mem_true_iff. apply F. assumption.
  - rewrite adj_out_of_range in Hv by assumption. destruct Hv.
Qed.

Lemma setContract_assertion_witness :
  exists c,
    newConfiguration 6 6 ring6_adj = Ok c
    /\ wf_graph (n_ c) (VtoV_ c)
    /\ ((fresh_edges (VtoV_ c) [] [(0, 1); (0, 1)] <->
         exists d, WF (n_ c) (VtoV_ c) [(0, 1); (0, 1)] true = Ok d)
        /\ (~ fresh_edges (VtoV_ c) [] [(0, 1); (0, 1)] ->
            WF (n_ c) (VtoV_ c) [(0, 1); (0, 1)] true = AssertFail
            /\ setContract c [(0, 1); (0, 1)] = AssertFail)
        /\ (forall c', setContract c [(0, 1); (0, 1)] = Ok c' ->
                       fresh_edges (VtoV_ c) [] [(0, 1); (0, 1)])).
Proof.
  eexists. split; [vm_compute; reflexivity|].
  split; [apply wf_graphb_sound; vm_compute; reflexivity|].
  apply setContract_assertion. apply wf_graphb_sound. vm_compute. reflexivity.
Defined.

(** ** The masks are only ever set *)

Lemma marked_vset (v w : nat) (is_reductable : list bool) :
  marked v is_reductable -> marked v (vset is_reductable w true).
Proof.
  unfold marked. intros H. destruct (Nat.eq_dec w v) as [->|Hne].
  - apply nth_vset_eq.
    destruct (Nat.lt_ge_cases v (length is_reductable)) as [Hv|Hv];
      [assumption|].
    rewrite nth_overflow in H by assumption. discriminate.
  - rewrite nth_vset_neq by assumption. assumption.
Qed.

Lemma updateIsReductable_keeps (n : nat) (is_reductable : list bool)
  (component_id : list Z) (is_ring : list bool) (v : nat) :
  marked v is_reductable ->
  marked v (updateIsReductable n is_reductable component_id is_ring).
Proof.
  intros H. unfold updateIsReductable.
  apply fold_left_invariant; [|assumption].
  intros st w Hst _. destruct (_ && _); [apply marked_vset|]; assumption.
Qed.

Lemma mark_component_keeps (dc : matrix) (component on_paths : list nat)
  (is_reductable : list bool) (v : nat) :
  marked v is_reductable ->
  marked v (mark_component dc component on_paths is_reductable).
Proof.
  intros H. unfold mark_component.
  apply fold_left_invariant; [|assumption].
  intros st w Hst _. destruct (fold_left _ _ _); [|apply marked_vset]; assumption.
Qed.

Lemma fold_res_keeps {S A : Type} (P : S -> Prop) (body : S -> A -> res S)
  (xs : list A) (st st' : S) :
  fold_res body xs st = Ok st' -> P st ->
  (forall st x st', P st -> In x xs -> body st x = Ok st' -> P st') -> P st'.
Proof.
  intros E Hst Hbody. eapply fold_res_invariant; eassumption.
Qed.

Ltac keeps_step v :=
  match goal with
  | H : Ok _ = Ok _ |- _ => injection H as <-
  | H : bind _ _ = Ok _ |- _ =>
      apply bind_ok in H; let a := fresh "a" in let E := fresh "E" in
      destruct H as [a [E H]]
  | H : (if ?b then _ else _) = Ok _ |- _ => destruct b
  | H : (let '(_, _) := ?x in _) = Ok _ |- _ => destruct x
  | H : fold_res _ _ _ = Ok _ |- marked v _ =>
      apply (fold_res_keeps (marked v)) in H;
      [exact H | assumption
       | let st := fresh "st" in let x := fresh "x" in
         let st' := fresh "st'" in let Hst := fresh "Hst" in
         let Hin := fresh "Hin" in let Hb := fresh "Hb" in
         clear H; intros st x st' Hst Hin Hb]
  end.

Ltac keeps v :=
  repeat keeps_step v;
  try assumption; try (apply mark_component_keeps; assumption).

Lemma mark_pairs_keeps (dist dc : matrix)
  (component : list nat -> list nat -> res (list nat)) (q1 p2 q2 p1 : nat)
  (paths1 paths2 : list (list nat)) (is_reductable is_reductable' : list bool)
  (v : nat) :
  mark_pairs dist dc component q1 p2 q2 p1 paths1 paths2 is_reductable
  = Ok is_reductable' ->
  marked v is_reductable -> marked v is_reductable'.
Proof.
  unfold mark_pairs. intros H Hv. keeps v.
Qed.

Lemma calcReductableVertices1_keeps (n r : nat) (VtoV : list (list nat))
  (all_paths : list (list (list (list nat)))) (contract : list (nat * nat))
  (dist dc : matrix) (C : Z) (is_reductable is_reductable' : list bool)
  (v : nat) :
  calcReductableVertices1 n r VtoV all_paths contract dist dc C is_reductable
  = Ok is_reductable' ->
  marked v is_reductable -> marked v is_reductable'.
Proof.
  unfold calcReductableVertices1. intros H Hv. keeps v.
Qed.

Ltac keeps_pairs v :=
  keeps v;
  match goal with
  | H : mark_pairs _ _ _ _ _ _ _ _ _ _ = Ok _ |- _ =>
      apply (mark_pairs_keeps _ _ _ _ _ _ _ _ _ _ _ v H); assumption
  end.

Lemma two_outer_paths_keeps (n r : nat) (VtoV : list (list nat))
  (all_paths : list (list (list (list nat)))) (contract : list (nat * nat))
  (dist dc : matrix) (flipped : bool)
  (almost_minimal : list nat -> list nat -> Z -> Z -> Z -> res bool)
  (size_of : list nat -> list nat -> res (Z * Z))
  (component : list nat -> list nat -> res (list nat))
  (C : Z) (is_reductable is_reductable' : list bool) (v : nat) :
  two_outer_paths n r VtoV all_paths contract dist dc flipped almost_minimal
    size_of component C is_reductable = Ok is_reductable' ->
  marked v is_reductable -> marked v is_reductable'.
Proof.
  unfold two_outer_paths. intros H Hv. keeps_pairs v.
Qed.

Lemma calcReductableVertices3_keeps (n r : nat) (VtoV : list (list nat))
  (all_paths : list (list (list (list nat)))) (contract : list (nat * nat))
  (dist dc l6 o6 l7 o7 : matrix) (C : Z)
  (is_reductable is_reductable' : list bool) (v : nat) :
  calcReductableVertices3 n r VtoV all_paths contract dist dc l6 o6 l7 o7 C
    is_reductable = Ok is_reductable' ->
  marked v is_reductable -> marked v is_reductable'.
Proof.
  unfold calcReductableVertices3. intros H Hv. keeps_pairs v.
Qed.

(** C7, as the specification states it, fails: in the wheel, vertex 7 is
    marked inside-reductable after [setContract([])] and after
    [setContract([(6,3)])] (the cut {0, 1, 6} isolates it), and it is not
    marked once the edge (7, 0) is added to either list, because 7 is then
    identified with the ring vertex 0. *)
Lemma reductable_inside_not_monotone :
  exists c c1 c2 c3 c4,
    newConfiguration 8 6 wheel_adj = Ok c
    /\ setContract c [] = Ok c1
    /\ setContract c [(7, 0)] = Ok c2
    /\ marked 7 (is_reductable_inside_ c1)
    /\ ~ marked 7 (is_reductable_inside_ c2)
    /\ setContract c [(6, 3)] = Ok c3
    /\ setContract c [(6, 3); (7, 0)] = Ok c4
    /\ marked 7 (is_reductable_inside_ c3)
    /\ ~ marked 7 (is_reductable_inside_ c4).
Proof.
  do 5 eexists.
  split; [vm_compute; reflexivity|].
  split; [vm_compute; reflexivity|].
  split; [vm_compute; reflexivity|].
  split; [reflexivity|].
  split; [unfold marked; simpl; discriminate|].
  split; [vm_compute; reflexivity|].
  split; [vm_compute; reflexivity|].
  split; [reflexivity|].
  unfold marked; simpl; discriminate.
Qed.

(** C7 (amended): while one [setContract] recomputes a mask, an entry that
    is set is never cleared again: [updateIsReductable] and the four passes
    [calcReductableVertices1] .. [calcReductableVertices4] return a mask
    that keeps every entry that was true in the mask they were given. *)
Theorem reductable_masks_only_set (n r : nat) (VtoV : list (list nat))
  (all_paths : list (list (list (list nat)))) (contract : list (nat * nat))
  (dist dc l6 o6 l7 o7 : matrix) (C : Z) (component_id : list Z)
  (is_ring is_reductable : list bool) (v : nat) :
  marked v is_reductable ->
  marked v (updateIsReductable n is_reductable component_id is_ring)
  /\ (forall m, calcReductableVertices1 n r VtoV all_paths contract dist dc C
                  is_reductable = Ok m -> marked v m)
  /\ (forall m, calcReductableVertices2 n r VtoV all_paths contract dist dc C
                  is_reductable = Ok m -> marked v m)
  /\ (forall m, calcReductableVertices3 n r VtoV all_paths contract dist dc
                  l6 o6 l7 o7 C is_reductable = Ok m -> marked v m)
  /\ (forall m, calcReductableVertices4 n r VtoV all_paths contract dist dc C
                  is_reductable = Ok m -> marked v m).
Proof.
  intros Hv. split; [apply updateIsReductable_keeps; assumption|].
  split; [intros m E; eapply calcReductableVertices1_keeps; eassumption|].
  split; [intros m E; eapply two_outer_paths_keeps; eassumption|].
  split; [intros m E; eapply calcReductableVertices3_keeps; eassumption|].
  intros m E; eapply two_outer_paths_keeps; eassumption.
Qed.

Lemma reductable_masks_only_set_witness :
  let d := WF_relax 8 (WF_init 8 wheel_adj) in
  let paths := build_all_paths 6 wheel_adj in
  let mask := [false; false; false; false; false; false; false; true] in
  marked 7 mask
  /\ (marked 7 (updateIsReductable 8 mask [] [])
      /\ (forall m, calcReductableVertices1 8 6 wheel_adj paths [] d d 6 mask
                    = Ok m -> marked 7 m)
      /\ (forall m, calcReductableVertices2 8 6 wheel_adj paths [] d d 6 mask
                    = Ok m -> marked 7 m)
      /\ (forall m, calcReductableVertices3 8 6 wheel_adj paths [] d d
                      [] [] [] [] 6 mask = Ok m -> marked 7 m)
      /\ (forall m, calcReductableVertices4 8 6 wheel_adj paths [] d d 6 mask
                    = Ok m -> marked 7 m)).
Proof.
  intros d paths mask. split; [reflexivity|].
  apply reductable_masks_only_set. reflexivity.
Defined.

(** ** Warshall-Floyd *)

Lemma WF_relax_rounds (n : nat) (d : matrix) :
  WF_relax n d = fold_left (relax_round n) (seq 0 n) d.
Proof. reflexivity. Qed.

Lemma mget_relax_cell (n k i j : nat) (d : matrix) (a b : nat) :
  mshape n n d -> i < n -> j < n ->
  mget (relax_cell k i d j) a b
  = if (a =? i) && (b =? j)
    then Z.min (mget d i j) (mget d i k + mget d k j)
    else mget d a b.
Proof.
  intros Hd Hi Hj. unfold relax_cell.
  destruct (Nat.eqb_spec a i) as [->|Ha]; [destruct (Nat.eqb_spec b j) as [->|Hb]|];
    simpl.
  - apply (mget_mset_eq n n); assumption.
  - apply mget_mset_neq. right. congruence.
  - apply mget_mset_neq. left. congruence.
Qed.

Lemma mshape_relax_cell (n k i j : nat) (d : matrix) :
  mshape n n d -> mshape n n (relax_cell k i d j).
Proof. intros H. apply mshape_mset. assumption. Qed.

(** Whatever every single assignment keeps, a round keeps. *)
Lemma relax_round_invariant (n : nat) (P : matrix -> Prop) (k : nat) :
  (forall d i j, i < n -> j < n -> P d -> P (relax_cell k i d j)) ->
  forall d, P d -> P (relax_round n d k).
Proof.
  intros Hcell d Hd. unfold relax_round.
  apply fold_left_invariant; [|assumption].
  intros d1 i H1 Hi. apply in_seq in Hi.
  apply fold_left_invariant; [|assumption].
  intros d2 j H2 Hj. apply in_seq in Hj. apply Hcell; [lia | lia | assumption].
Qed.

Lemma WF_relax_invariant (n : nat) (P : matrix -> Prop) :
  (forall d k i j, k < n -> i < n -> j < n -> P d -> P (relax_cell k i d j)) ->
  forall d, P d -> P (WF_relax n d).
Proof.
  intros Hcell d Hd. rewrite WF_relax_rounds.
  apply fold_left_invariant; [|assumption].
  intros d1 k H1 Hk. apply in_seq in Hk.
  apply relax_round_invariant; [|assumption].
  intros d2 i j Hi Hj. apply Hcell; [lia | assumption | assumption].
Qed.

(** *** Invariants of the single assignment *)

Lemma relax_cell_shape_nonneg (n k i j : nat) (d : matrix) :
  k < n -> i < n -> j < n ->
  mshape n n d /\ nonneg n d ->
  mshape n n (relax_cell k i d j) /\ nonneg n (relax_cell k i d j).
Proof.
  intros Hk Hi Hj [Hs Hn]. split; [apply mshape_relax_cell; assumption|].
  intros a b Ha Hb. rewrite (mget_relax_cell n) by assumption.
  pose proof (Hn i j Hi Hj). pose proof (Hn i k Hi Hk).
  pose proof (Hn k j Hk Hj). pose proof (Hn a b Ha Hb).
  destruct (_ && _); lia.
Qed.

Lemma relax_cell_le (n k i j : nat) (d : matrix) :
  mshape n n d -> i < n -> j < n -> pointwise_le n (relax_cell k i d j) d.
Proof.
  intros Hs Hi Hj a b Ha Hb. rewrite (mget_relax_cell n) by assumption.
  destruct (Nat.eqb_spec a i) as [->|]; [destruct (Nat.eqb_spec b j) as [->|]|];
    simpl; lia.
Qed.

Lemma relax_cell_diag (n k i j : nat) (d : matrix) :
  k < n -> i < n -> j < n ->
  (mshape n n d /\ nonneg n d) /\ (forall v, v < n -> mget d v v = 0%Z) ->
  (mshape n n (relax_cell k i d j) /\ nonneg n (relax_cell k i d j))
  /\ (forall v, v < n -> mget (relax_cell k i d j) v v = 0%Z).
Proof.
  intros Hk Hi Hj [[Hs Hn] Hz].
  split; [apply relax_cell_shape_nonneg; auto|].
  intros v Hv. rewrite (mget_relax_cell n) by assumption.
  destruct (Nat.eqb_spec v i) as [->|]; [destruct (Nat.eqb_spec i j) as [<-|]|];
    simpl; try (apply Hz; assumption).
  rewrite Hz by assumption. pose proof (Hn i k Hi Hk). pose proof (Hn k i Hk Hi).
  lia.
Qed.

Lemma relax_cell_offdiag (n k i j : nat) (d : matrix) :
  k < n -> i < n -> j < n ->
  (mshape n n d /\ nonneg n d)
  /\ (forall u v, u < n -> v < n -> u <> v -> (1 <= mget d u v)%Z) ->
  (mshape n n (relax_cell k i d j) /\ nonneg n (relax_cell k i d j))
  /\ (forall u v, u < n -> v < n -> u <> v ->
        (1 <= mget (relax_cell k i d j) u v)%Z).
Proof.
  intros Hk Hi Hj [[Hs Hn] Hp].
  split; [apply relax_cell_shape_nonneg; auto|].
  intros u v Hu Hv Huv. rewrite (mget_relax_cell n) by assumption.
  destruct (Nat.eqb_spec u i) as [->|]; [destruct (Nat.eqb_spec v j) as [->|]|];
    simpl; try (apply Hp; assumption).
  pose proof (Hp i j Hi Hj Huv).
  pose proof (Hn i k Hi Hk). pose proof (Hn k j Hk Hj).
  destruct (Nat.eq_dec i k) as [<-|Hik].
  - lia.
  - pose proof (Hp i k Hi Hk Hik). lia.
Qed.

(** *** Walks *)

Lemma walk_weight_app (w : nat -> nat -> Z) (u : nat) (l1 : list nat)
  (k : nat) (l2 : list nat) (v : nat) :
  walk_weight w u (l1 ++ k :: l2) v
  = (walk_weight w u l1 k + walk_weight w k l2 v)%Z.
Proof.
  revert u. induction l1 as [|x l1 IH]; intros u; simpl; [reflexivity|].
  rewrite IH. lia.
Qed.

Lemma walk_weight_nonneg (n : nat) (d0 : matrix) :
  nonneg n d0 ->
  forall inter u v, u < n -> v < n -> (forall x, In x inter -> x < n) ->
    (0 <= walk_weight (mget d0) u inter v)%Z.
Proof.
  intros Hn. induction inter as [|x inter IH]; intros u v Hu Hv Hall; simpl.
  - apply Hn; assumption.
  - assert (Hx : x < n) by (apply Hall; left; reflexivity).
    pose proof (Hn u x Hu Hx).
    pose proof (IH x v Hx Hv (fun y Hy => Hall y (or_intror Hy))). lia.
Qed.

Lemma walk_weight_rev (n : nat) (d0 : matrix) :
  symmetric n d0 ->
  forall inter u v, u < n -> v < n -> (forall x, In x inter -> x < n) ->
    walk_weight (mget d0) v (rev inter) u = walk_weight (mget d0) u inter v.
Proof.
  intros Hsym. induction inter as [|x inter IH]; intros u v Hu Hv Hall; simpl.
  - symmetry. apply Hsym; assumption.
  - assert (Hx : x < n) by (apply Hall; left; reflexivity).
    rewrite walk_weight_app. simpl.
    rewrite IH by (auto; intros y Hy; apply Hall; right; assumption).
    rewrite (Hsym u x) by assumption. lia.
Qed.

Lemma relax_cell_realised (n : nat) (d0 : matrix) (k i j : nat) (d : matrix) :
  k < n -> i < n -> j < n ->
  mshape n n d /\ realised n d0 d ->
  mshape n n (relax_cell k i d j) /\ realised n d0 (relax_cell k i d j).
Proof.
  intros Hk Hi Hj [Hs Hr]. split; [apply mshape_relax_cell; assumption|].
  intros a b Ha Hb. rewrite (mget_relax_cell n) by assumption.
  destruct (Nat.eqb_spec a i) as [->|]; [destruct (Nat.eqb_spec b j) as [->|]|];
    simpl; try (apply Hr; assumption).
  destruct (Z.min_spec (mget d i j) (mget d i k + mget d k j)) as [[_ E]|[_ E]];
    rewrite E.
  - apply Hr; assumption.
  - destruct (Hr i k Hi Hk) as [l1 [H1 E1]].
    destruct (Hr k j Hk Hj) as [l2 [H2 E2]].
    exists (l1 ++ k :: l2). split.
    + intros x Hx. apply in_app_iff in Hx.
      destruct Hx as [Hx | [<- | Hx]]; auto.
    + rewrite walk_weight_app. congruence.
Qed.

(** *** One round *)

Lemma pointwise_le_trans (n : nat) (d1 d2 d3 : matrix) :
  pointwise_le n d1 d2 -> pointwise_le n d2 d3 -> pointwise_le n d1 d3.
Proof.
  intros H1 H2 i j Hi Hj. specialize (H1 i j Hi Hj). specialize (H2 i j Hi Hj).
  lia.
Qed.

Lemma pointwise_le_refl (n : nat) (d : matrix) : pointwise_le n d d.
Proof. intros i j _ _. lia. Qed.

Lemma relax_row_spec (n k i : nat) (d d1 : matrix) :
  k < n -> i < n -> mshape n n d1 -> pointwise_le n d1 d ->
  let d2 := fold_left (relax_cell k i) (seq 0 n) d1 in
  mshape n n d2 /\ pointwise_le n d2 d1
  /\ forall j, j < n -> (mget d2 i j <= mget d i k + mget d k j)%Z.
Proof.
  intros Hk Hi Hs1 Hle1 d2.
  destruct (fold_left_each
              (fun d' => mshape n n d' /\ pointwise_le n d' d1)
              (fun j d' => j < n ->
                           (mget d' i j <= mget d i k + mget d k j)%Z)
              (relax_cell k i) (seq 0 n) (seq_NoDup n 0))
    with (st := d1) as [[Hs Hle] [Hdone _]].
  - intros d' j [Hs' Hle'] Hj. apply in_seq in Hj.
    assert (Hcell : pointwise_le n (relax_cell k i d' j) d')
      by (apply relax_cell_le; [assumption | assumption | lia]).
    split; [split; [apply mshape_relax_cell; assumption|]|split].
    + eapply pointwise_le_trans; eassumption.
    + intros _. rewrite (mget_relax_cell n) by (assumption || lia).
      rewrite !Nat.eqb_refl. simpl.
      pose proof (Hle' i k Hi Hk). pose proof (Hle' k j Hk ltac:(lia)).
      pose proof (Hle1 i k Hi Hk). pose proof (Hle1 k j Hk ltac:(lia)). lia.
    + intros y _ Hy Hyn. specialize (Hy Hyn).
      pose proof (Hcell i y Hi Hyn). lia.
  - split; [assumption | apply pointwise_le_refl].
  - split; [assumption|]. split; [assumption|].
    intros j Hj. apply Hdone; [apply in_seq; lia | assumption].
Qed.

Lemma relax_round_spec (n k : nat) (d : matrix) :
  k < n -> mshape n n d ->
  mshape n n (relax_round n d k)
  /\ pointwise_le n (relax_round n d k) d
  /\ forall i j, i < n -> j < n ->
       (mget (relax_round n d k) i j <= mget d i k + mget d k j)%Z.
Proof.
  intros Hk Hs. unfold relax_round.
  destruct (fold_left_each
              (fun d' => mshape n n d' /\ pointwise_le n d' d)
              (fun i d' => i < n -> forall j, j < n ->
                           (mget d' i j <= mget d i k + mget d k j)%Z)
              (fun dist i => fold_left (relax_cell k i) (seq 0 n) dist)
              (seq 0 n) (seq_NoDup n 0))
    with (st := d) as [[Hs' Hle'] [Hdone _]].
  - intros d1 i [Hs1 Hle1] Hi. apply in_seq in Hi.
    destruct (relax_row_spec n k i d d1) as [Hs2 [Hle2 Hrow]];
      [assumption | lia | assumption | assumption |].
    split; [split; [assumption | eapply pointwise_le_trans; eassumption]|].
    split; [intros _; assumption|].
    intros y _ Hy Hyn j Hj. specialize (Hy Hyn j Hj).
    pose proof (Hle2 y j Hyn Hj). lia.
  - split; [assumption | apply pointwise_le_refl].
  - split; [assumption|]. split; [assumption|].
    intros i j Hi Hj. apply Hdone; [apply in_seq; lia | assumption | assumption].
Qed.

Lemma in_split_first (k : nat) (l : list nat) :
  In k l -> exists l1 l2, l = l1 ++ k :: l2 /\ ~ In k l1.
Proof.
  induction l as [|x l IH]; intros H; [destruct H|].
  destruct (Nat.eq_dec x k) as [->|Hne].
  - exists [], l. split; [reflexivity | intros []].
  - destruct H as [H|H]; [contradiction|].
    destruct (IH H) as [l1 [l2 [-> Hn]]].
    exists (x :: l1), l2. split; [reflexivity|].
    intros [E|E]; [contradiction | apply Hn; assumption].
Qed.

(** A walk that leaves [k] and may come back to it is no lighter than
    the entry of row [k]. *)
Lemma shortest_from_pivot (n k : nat) (d0 d : matrix) :
  k < n -> nonneg n d0 -> shortest_through n k d0 d ->
  forall m inter j,
    length inter <= m -> j < n -> (forall x, In x inter -> x < S k) ->
    (mget d k j <= walk_weight (mget d0) k inter j)%Z.
Proof.
  intros Hk Hn0 Hsh. induction m as [|m IH]; intros inter j Hlen Hj Hall.
  - destruct inter; [|simpl in Hlen; lia]. apply Hsh; [assumption..|].
    intros x [].
  - destruct (in_dec Nat.eq_dec k inter) as [Hin|Hnin].
    + apply in_split in Hin. destruct Hin as [l1 [l2 ->]].
      rewrite walk_weight_app.
      assert (H1 : (0 <= walk_weight (mget d0) k l1 k)%Z).
      { apply (walk_weight_nonneg n); try assumption.
        intros x Hx. specialize (Hall x). rewrite in_app_iff in Hall.
        specialize (Hall (or_introl Hx)). lia. }
      assert (H2 : (mget d k j <= walk_weight (mget d0) k l2 j)%Z).
      { apply IH; [|assumption|].
        - rewrite length_app in Hlen. simpl in Hlen. lia.
        - intros x Hx. apply Hall. apply in_app_iff. right. right. assumption. }
      lia.
    + apply Hsh; [assumption..|].
      intros x Hx. specialize (Hall x Hx).
      assert (x <> k) by (intros ->; contradiction). lia.
Qed.

Lemma shortest_through_step (n k : nat) (d0 d : matrix) :
  k < n -> nonneg n d0 -> mshape n n d -> shortest_through n k d0 d ->
  shortest_through n (S k) d0 (relax_round n d k).
Proof.
  intros Hk Hn0 Hs Hsh i j inter Hi Hj Hall.
  destruct (relax_round_spec n k d Hk Hs) as [_ [Hle Hvia]].
  destruct (in_dec Nat.eq_dec k inter) as [Hin|Hnin].
  - apply in_split_first in Hin. destruct Hin as [l1 [l2 [-> Hfirst]]].
    rewrite walk_weight_app.
    assert (H1 : (mget d i k <= walk_weight (mget d0) i l1 k)%Z).
    { apply Hsh; [assumption..|]. intros x Hx.
      assert (x < S k) by (apply Hall; apply in_app_iff; left; assumption).
      assert (x <> k) by (intros ->; contradiction). lia. }
    assert (H2 : (mget d k j <= walk_weight (mget d0) k l2 j)%Z).
    { apply (shortest_from_pivot n k d0 d Hk Hn0 Hsh (length l2));
        [lia | assumption |].
      intros x Hx. apply Hall. apply in_app_iff. right. right. assumption. }
    specialize (Hvia i j Hi Hj). lia.
  - assert (H1 : (mget d i j <= walk_weight (mget d0) i inter j)%Z).
    { apply Hsh; [assumption..|]. intros x Hx. specialize (Hall x Hx).
      assert (x <> k) by (intros ->; contradiction). lia. }
    specialize (Hle i j Hi Hj). lia.
Qed.

Lemma fold_left_seq_ind {St : Type} (Q : nat -> St -> Prop)
  (f : St -> nat -> St) (n : nat) (st : St) :
  Q 0 st -> (forall k s, k < n -> Q k s -> Q (S k) (f s k)) ->
  Q n (fold_left f (seq 0 n) st).
Proof.
  induction n as [|n IH]; intros H0 Hstep; [simpl; assumption|].
  rewrite seq_S, fold_left_app. simpl. apply Hstep; [lia|].
  apply IH; [assumption|]. intros k s Hk. apply Hstep. lia.
Qed.

(** *** The result of the three loops is a shortest-walk matrix *)

Lemma WF_relax_spec (n : nat) (d0 : matrix) :
  mshape n n d0 -> nonneg n d0 ->
  mshape n n (WF_relax n d0) /\ nonneg n (WF_relax n d0)
  /\ realised n d0 (WF_relax n d0)
  /\ shortest_through n n d0 (WF_relax n d0).
Proof.
  intros Hs Hn.
  assert (H1 : mshape n n (WF_relax n d0) /\ nonneg n (WF_relax n d0)).
  { apply (WF_relax_invariant n (fun d => mshape n n d /\ nonneg n d)).
    - intros d k i j Hk Hi Hj. apply relax_cell_shape_nonneg; assumption.
    - split; assumption. }
  assert (H2 : mshape n n (WF_relax n d0) /\ realised n d0 (WF_relax n d0)).
  { apply (WF_relax_invariant n (fun d => mshape n n d /\ realised n d0 d)).
    - intros d k i j Hk Hi Hj. apply relax_cell_realised; assumption.
    - split; [assumption|]. intros i j Hi Hj. exists []. split; [intros x []|].
      reflexivity. }
  split; [apply H1|]. split; [apply H1|]. split; [apply H2|].
  rewrite WF_relax_rounds.
  apply (fold_left_seq_ind
           (fun k d => mshape n n d /\ shortest_through n k d0 d)).
  - split; [assumption|]. intros i j inter Hi Hj Hall.
    destruct inter as [|x inter]; [simpl; lia|].
    specialize (Hall x (or_introl eq_refl)). lia.
  - intros k d Hk [Hsd Hsh]. split.
    + apply (relax_round_spec n k d Hk Hsd).
    + apply shortest_through_step; assumption.
Qed.

(** ** The matrix before the three loops *)

Lemma init_dist_nonneg (VtoV : list (list nat)) (u v : nat) :
  (0 <= init_dist VtoV u v)%Z.
Proof.
  unfold init_dist, INF. destruct (mem _ _); [lia|]. destruct (_ =? _); lia.
Qed.

Lemma init_dist_sym (VtoV : list (list nat)) (u v : nat) :
  undirected VtoV -> init_dist VtoV u v = init_dist VtoV v u.
Proof.
  intros Hu. unfold init_dist.
  assert (E : mem v (adj VtoV u) = mem u (adj VtoV v)).
  { apply eq_true_iff_eq. rewrite !mem_true_iff. split; apply Hu. }
  rewrite E, (Nat.eqb_sym u v). reflexivity.
Qed.

Lemma init_dist_diag (VtoV : list (list nat)) (v : nat) :
  loop_free VtoV -> init_dist VtoV v v = 0%Z.
Proof.
  intros Hl. unfold init_dist.
  destruct (mem v (adj VtoV v)) eqn:E.
  - apply mem_true_iff in E. apply Hl in E. destruct E.
  - rewrite Nat.eqb_refl. reflexivity.
Qed.

Lemma init_dist_offdiag (VtoV : list (list nat)) (u v : nat) :
  u <> v -> (1 <= init_dist VtoV u v)%Z.
Proof.
  intros H. unfold init_dist, INF. destruct (mem _ _); [lia|].
  destruct (Nat.eqb_spec u v); [contradiction | lia].
Qed.

Lemma mget_zero_edge (n : nat) (d : matrix) (a b u v : nat) :
  mshape n n d -> a < n -> b < n ->
  mget (mset (mset d a b 0%Z) b a 0%Z) u v
  = if ((u =? a) && (v =? b)) || ((u =? b) && (v =? a)) then 0%Z
    else mget d u v.
Proof.
  intros Hs Ha Hb.
  destruct (Nat.eqb_spec u b) as [->|Hub]; [destruct (Nat.eqb_spec v a) as [->|Hva]|].
  - rewrite orb_true_r.
    apply (mget_mset_eq n n); [apply mshape_mset| |]; assumption.
  - rewrite orb_false_r. rewrite mget_mset_neq by (right; congruence).
    destruct (Nat.eqb_spec b a) as [->|Hba]; [destruct (Nat.eqb_spec v a) as [->|]|];
      simpl.
    + contradiction.
    + apply mget_mset_neq. right. congruence.
    + apply mget_mset_neq. left. congruence.
  - rewrite orb_false_r. rewrite mget_mset_neq by (left; congruence).
    destruct (Nat.eqb_spec u a) as [->|Hua]; [destruct (Nat.eqb_spec v b) as [->|Hvb]|];
      simpl.
    + apply (mget_mset_eq n n); assumption.
    + apply mget_mset_neq. right. congruence.
    + apply mget_mset_neq. left. congruence.
Qed.

(** What the loop over the contract list keeps. *)
Lemma WF_contract_invariant (n : nat) (P : matrix -> Prop) :
  (forall d a b, a < n -> b < n -> mshape n n d /\ P d ->
     P (mset (mset d a b 0%Z) b a 0%Z)) ->
  forall contract d d',
    mshape n n d /\ P d -> WF_contract contract d = Ok d' ->
    mshape n n d' /\ P d'.
Proof.
  intros Hstep contract d d' Hd E. unfold WF_contract in E.
  apply (fold_res_keeps (fun d => mshape n n d /\ P d) _ _ _ _ E);
    [assumption|].
  clear E Hd d d'. intros d [a b] d' [Hs Hp] _ E. cbn [fst snd] in E.
  apply bind_ok in E. destruct E as [[] [Ea E]]. injection E as <-.
  apply assert_ok, Z.eqb_eq in Ea.
  assert (Hab : a < n /\ b < n).
  { destruct (Nat.lt_ge_cases a n) as [Ha|Ha];
      [destruct (Nat.lt_ge_cases b n) as [Hb|Hb]; [split; assumption|]|];
      rewrite (mget_out_of_range n n) in Ea by (assumption || lia);
      discriminate. }
  destruct Hab as [Ha Hb].
  split; [repeat apply mshape_mset; assumption|].
  apply Hstep; [assumption | assumption | split; assumption].
Qed.

Lemma zero_edge_nonneg (n : nat) (d : matrix) (a b : nat) :
  a < n -> b < n -> mshape n n d /\ nonneg n d ->
  nonneg n (mset (mset d a b 0%Z) b a 0%Z).
Proof.
  intros Ha Hb [Hs Hn] u v Hu Hv. rewrite (mget_zero_edge n) by assumption.
  destruct (_ || _); [lia | apply Hn; assumption].
Qed.

Lemma zero_edge_metric_start (n : nat) (d : matrix) (a b : nat) :
  a < n -> b < n ->
  mshape n n d
  /\ (nonneg n d /\ symmetric n d /\ forall v, v < n -> mget d v v = 0%Z) ->
  nonneg n (mset (mset d a b 0%Z) b a 0%Z)
  /\ symmetric n (mset (mset d a b 0%Z) b a 0%Z)
  /\ forall v, v < n -> mget (mset (mset d a b 0%Z) b a 0%Z) v v = 0%Z.
Proof.
  intros Ha Hb [Hs [Hn [Hsym Hz]]].
  split; [apply zero_edge_nonneg; auto|]. split.
  - intros u v Hu Hv. rewrite !(mget_zero_edge n) by assumption.
    rewrite (orb_comm ((v =? a) && (u =? b))).
    rewrite (andb_comm (v =? b)), (andb_comm (v =? a)).
    destruct (_ || _); [reflexivity | apply Hsym; assumption].
  - intros v Hv. rewrite (mget_zero_edge n) by assumption.
    destruct (_ || _); [reflexivity | apply Hz; assumption].
Qed.

(** The matrix the three loops start from, with or without contraction. *)
Lemma WF_start (n : nat) (VtoV : list (list nat)) (contract : list (nat * nat))
  (after_contract : bool) (d : matrix) :
  wf_graph n VtoV ->
  WF n VtoV contract after_contract = Ok d ->
  exists d0,
    d = WF_relax n d0 /\ mshape n n d0 /\ nonneg n d0
    /\ (undirected VtoV -> loop_free VtoV ->
        symmetric n d0 /\ forall v, v < n -> mget d0 v v = 0%Z).
Proof.
  intros Hwf E. destruct (WF_init_spec n VtoV Hwf) as [Hs Hi].
  assert (Hn0 : nonneg n (WF_init n VtoV)).
  { intros u v Hu Hv. rewrite Hi by assumption. apply init_dist_nonneg. }
  assert (Hm0 : undirected VtoV -> loop_free VtoV ->
                symmetric n (WF_init n VtoV)
                /\ forall v, v < n -> mget (WF_init n VtoV) v v = 0%Z).
  { intros Hu Hl. split.
    - intros u v Hu' Hv'. rewrite !Hi by assumption.
      apply init_dist_sym. assumption.
    - intros v Hv. rewrite Hi by assumption. apply init_dist_diag. assumption. }
  unfold WF in E. apply bind_ok in E. destruct E as [d0 [E0 E]].
  injection E as <-. exists d0. split; [reflexivity|].
  destruct after_contract.
  - destruct (WF_contract_invariant n (nonneg n)) with (1 := zero_edge_nonneg n)
      (contract := contract) (d := WF_init n VtoV) (d' := d0) as [Hs0 Hn];
      [split; assumption | assumption |].
    split; [assumption|]. split; [assumption|].
    intros Hu Hl.
    destruct (WF_contract_invariant n
                (fun d => nonneg n d /\ symmetric n d
                          /\ forall v, v < n -> mget d v v = 0%Z))
      with (1 := zero_edge_metric_start n)
      (contract := contract) (d := WF_init n VtoV) (d' := d0) as [_ [_ H]];
      [|assumption|assumption].
    split; [assumption|]. split; [assumption|]. apply Hm0; assumption.
  - injection E0 as <-. auto.
Qed.

(** ** The contracted distances form a metric *)

Lemma WF_relax_metric (n : nat) (d0 : matrix) :
  mshape n n d0 -> nonneg n d0 -> symmetric n d0 ->
  (forall v, v < n -> mget d0 v v = 0%Z) ->
  is_metric n (WF_relax n d0).
Proof.
  intros Hs Hn Hsym Hz.
  destruct (WF_relax_spec n d0 Hs Hn) as [Hs' [Hn' [Hr Hsh]]].
  assert (Hhalf : forall u v, u < n -> v < n ->
                    (mget (WF_relax n d0) v u <= mget (WF_relax n d0) u v)%Z).
  { intros u v Hu Hv. destruct (Hr u v Hu Hv) as [inter [Hall <-]].
    rewrite <- (walk_weight_rev n d0 Hsym inter u v Hu Hv Hall).
    apply Hsh; [assumption | assumption |].
    intros x Hx. apply Hall. apply in_rev. assumption. }
  split; [|split].
  - intros u v Hu Hv. pose proof (Hhalf u v Hu Hv). pose proof (Hhalf v u Hv Hu).
    lia.
  - refine (proj2 (WF_relax_invariant n
             (fun d => (mshape n n d /\ nonneg n d)
                       /\ forall v, v < n -> mget d v v = 0%Z) _ d0 _)).
    + intros d k i j Hk Hi Hj. apply relax_cell_diag; assumption.
    + split; [split; assumption | assumption].
  - intros u v w Hu Hv Hw.
    destruct (Hr u v Hu Hv) as [l1 [H1 <-]].
    destruct (Hr v w Hv Hw) as [l2 [H2 <-]].
    rewrite <- walk_weight_app. apply Hsh; [assumption | assumption |].
    intros x Hx. apply in_app_iff in Hx. destruct Hx as [Hx | [<- | Hx]]; auto.
Qed.

Lemma WF_metric (n : nat) (VtoV : list (list nat)) (contract : list (nat * nat))
  (after_contract : bool) (d : matrix) :
  wf_graph n VtoV -> undirected VtoV -> loop_free VtoV ->
  WF n VtoV contract after_contract = Ok d -> is_metric n d.
Proof.
  intros Hwf Hu Hl E.
  destruct (WF_start n VtoV contract after_contract d Hwf E)
    as [d0 [-> [Hs [Hn Hm]]]].
  destruct (Hm Hu Hl) as [Hsym Hz].
  apply WF_relax_metric; assumption.
Qed.

(** C8: on an undirected adjacency without loops, after construction and
    after every [setContract] that returns, [distContracted] is symmetric,
    zero on the diagonal, and satisfies the triangle inequality. *)
Theorem distContracted_metric (n r : nat) (VtoV : list (list nat)) :
  wf_graph n VtoV -> undirected VtoV -> loop_free VtoV ->
  (exists c, newConfiguration n r VtoV = Ok c
             /\ is_metric n (dist_contracted_ c))
  /\ (forall c contract c',
        n_ c = n -> VtoV_ c = VtoV -> setContract c contract = Ok c' ->
        is_metric n (dist_contracted_ c')).
Proof.
  intros Hwf Hu Hl. split.
  - destruct (newConfiguration_total n r VtoV (proj1 Hwf))
      as [c [Ec [_ [_ [_ [_ [Ed [Edc _]]]]]]]].
    exists c. split; [assumption|]. rewrite Edc, Ed.
    apply (WF_metric n VtoV [] false); try assumption. reflexivity.
  - intros c contract c' Hn HV E.
    apply setContract_assigns in E. destruct E as [_ [_ [E _]]].
    rewrite Hn, HV in E. apply (WF_metric n VtoV contract true); assumption.
Qed.

Lemma distContracted_metric_witness :
  wf_graph 8 wheel_adj /\ undirected wheel_adj /\ loop_free wheel_adj
  /\ ((exists c, newConfiguration 8 6 wheel_adj = Ok c
                 /\ is_metric 8 (dist_contracted_ c))
      /\ (forall c contract c',
            n_ c = 8 -> VtoV_ c = wheel_adj ->
            setContract c contract = Ok c' ->
            is_metric 8 (dist_contracted_ c'))).
Proof.
  assert (H1 : wf_graph 8 wheel_adj)
    by (apply wf_graphb_sound; vm_compute; reflexivity).
  assert (H2 : undirected wheel_adj)
    by (apply undirectedb_sound; vm_compute; reflexivity).
  assert (H3 : loop_free wheel_adj)
    by (apply loop_freeb_sound; vm_compute; reflexivity).
  split; [assumption|]. split; [assumption|]. split; [assumption|].
  apply distContracted_metric; assumption.
Defined.

(** ** Representatives *)

Lemma calcRepresentative_nth (n : nat) (dc : matrix) (v : nat) :
  v < n ->
  nth v (calcRepresentative n dc) (-1)%Z
  = match find (fun u => equivalent dc v u) (seq 0 n) with
    | Some u => Z.of_nat u
    | None => (-1)%Z
    end.
Proof.
  intros Hv. unfold calcRepresentative.
  match goal with
  | |- nth v (fold_left ?body _ _) _ = _ =>
      destruct (fold_left_each
                  (fun rep => length rep = n
                              /\ forall w, w < n ->
                                   nth w rep (-1)%Z = (-1)%Z
                                   \/ nth w rep (-1)%Z
                                      = match find (fun u => equivalent dc w u)
                                                (seq 0 n) with
                                        | Some u => Z.of_nat u
                                        | None => (-1)%Z
                                        end)
                  (fun w rep => nth w rep (-1)%Z
                                = match find (fun u => equivalent dc w u)
                                          (seq 0 n) with
                                  | Some u => Z.of_nat u
                                  | None => (-1)%Z
                                  end)
                  body (seq 0 n) (seq_NoDup n 0))
        with (st := repeat (-1)%Z n) as [_ [Hdone _]]
  end.
  - intros rep w [Hlen Hcell] Hw. apply in_seq in Hw.
    destruct (find (fun u => equivalent dc w u) (seq 0 n)) as [u|] eqn:Ef.
    + split; [split; [rewrite length_vset; assumption|]|split].
      * intros x Hx. destruct (Nat.eq_dec w x) as [<-|Hne].
        -- right. rewrite Ef. apply nth_vset_eq. lia.
        -- rewrite nth_vset_neq by assumption. apply Hcell. assumption.
      * apply nth_vset_eq. lia.
      * intros y Hy Hdy. rewrite nth_vset_neq by congruence. assumption.
    + split; [split; assumption|]. split; [|intros; assumption].
      destruct (Hcell w) as [E|E]; [lia | assumption |].
      rewrite Ef in E. assumption.
  - split; [apply repeat_length|]. intros w Hw. left.
    apply nth_repeat_lt. assumption.
  - apply Hdone. apply in_seq. lia.
Qed.

Lemma find_first {A : Type} (f : A -> bool) (l1 : list A) (x : A)
  (l2 : list A) :
  (forall y, In y l1 -> f y = false) -> f x = true ->
  find f (l1 ++ x :: l2) = Some x.
Proof.
  induction l1 as [|y l1 IH]; intros Hl Hx; simpl.
  - rewrite Hx. reflexivity.
  - rewrite (Hl y) by (left; reflexivity). apply IH; [|assumption].
    intros z Hz. apply Hl. right. assumption.
Qed.

Lemma seq_split_at (n v : nat) :
  v < n -> seq 0 n = seq 0 v ++ v :: seq (S v) (n - S v).
Proof.
  intros Hv. replace n with (v + S (n - S v)) at 1 by lia.
  rewrite seq_app. reflexivity.
Qed.

(** Without contraction every vertex represents itself. *)
Lemma self_representative (n : nat) (VtoV : list (list nat)) (v : nat) :
  wf_graph n VtoV -> loop_free VtoV -> v < n ->
  nth v (calcRepresentative n (WF_relax n (WF_init n VtoV))) (-1)%Z
  = Z.of_nat v.
Proof.
  intros Hwf Hl Hv. destruct (WF_init_spec n VtoV Hwf) as [Hs Hi].
  assert (Hn0 : nonneg n (WF_init n VtoV)).
  { intros a b Ha Hb. rewrite Hi by assumption. apply init_dist_nonneg. }
  pose proof (WF_relax_invariant n
                (fun d => (mshape n n d /\ nonneg n d)
                          /\ forall v, v < n -> mget d v v = 0%Z)
                (fun d k i j Hk Hi Hj => relax_cell_diag n k i j d Hk Hi Hj)
                (WF_init n VtoV)) as Hdiag.
  pose proof (WF_relax_invariant n
                (fun d => (mshape n n d /\ nonneg n d)
                          /\ forall u v, u < n -> v < n -> u <> v ->
                               (1 <= mget d u v)%Z)
                (fun d k i j Hk Hi Hj => relax_cell_offdiag n k i j d Hk Hi Hj)
                (WF_init n VtoV)) as Hoff.
  destruct Hdiag as [_ Hdiag].
  { split; [split; assumption|]. intros w Hw. rewrite Hi by assumption.
    apply init_dist_diag. assumption. }
  destruct Hoff as [_ Hoff].
  { split; [split; assumption|]. intros a b Ha Hb Hab. rewrite Hi by assumption.
    apply init_dist_offdiag. assumption. }
  rewrite calcRepresentative_nth by assumption.
  rewrite (seq_split_at n v Hv), find_first; [reflexivity | |].
  - intros u Hu. apply in_seq in Hu. unfold equivalent.
    apply Z.eqb_neq. specialize (Hoff u v). lia.
  - unfold equivalent. apply Z.eqb_eq. apply Hdiag. assumption.
Qed.

(** ** [setContract] with the empty list *)

(** C5, as the specification states it, fails: in the wheel, after
    [setContract([(7,0)])] and [setContract([])], vertex 7 is marked
    inside-reductable (the cut {0, 1, 6} isolates it), so the mask is
    neither all-false nor the mask of the freshly constructed
    configuration. *)
Lemma setContract_empty_not_fresh :
  exists c0 c1 c2,
    newConfiguration 8 6 wheel_adj = Ok c0
    /\ setContract c0 [(7, 0)] = Ok c1
    /\ setContract c1 [] = Ok c2
    /\ is_reductable_inside_ c0 = repeat false 8
    /\ marked 7 (is_reductable_inside_ c2)
    /\ is_reductable_inside_ c2 <> is_reductable_inside_ c0.
Proof.
  do 3 eexists.
  split; [vm_compute; reflexivity|].
  split; [vm_compute; reflexivity|].
  split; [vm_compute; reflexivity|].
  split; [reflexivity|]. split; [reflexivity|].
  simpl. discriminate.
Qed.


(** ** [while] loops with a measure *)

Lemma loop_pow_measure {St : Type} (mu : St -> nat) (Inv : St -> Prop)
  (cond : St -> bool) (body : St -> St) :
  (forall s, Inv s -> cond s = true -> Inv (body s) /\ mu (body s) < mu s) ->
  forall k s, Inv s ->
    (exists s', loop_pow k (fun s => if cond s then inl (body s) else inr s) s
                = inr s' /\ Inv s' /\ cond s' = false)
    \/ (exists s', loop_pow k (fun s => if cond s then inl (body s) else inr s) s
                   = inl s' /\ Inv s' /\ mu s' + 2 ^ k <= mu s).
Proof.
  intros Hbody. induction k as [|k IH]; intros s Hs; simpl.
  - destruct (cond s) eqn:Ec.
    + right. exists (body s). destruct (Hbody s Hs Ec) as [Hi Hm].
      split; [reflexivity|]. split; [assumption | lia].
    + left. exists s. auto.
  - destruct (IH s Hs) as [[s1 [E1 [H1 C1]]] | [s1 [E1 [H1 M1]]]]; rewrite E1.
    + left. exists s1. auto.
    + destruct (IH s1 H1) as [[s2 [E2 [H2 C2]]] | [s2 [E2 [H2 M2]]]].
      * left. exists s2. auto.
      * right. exists s2. split; [assumption|]. split; [assumption | lia].
Qed.

Lemma while_loop_total {St : Type} (mu : St -> nat) (Inv : St -> Prop)
  (cond : St -> bool) (body : St -> St) (k : nat) (s : St) :
  (forall s, Inv s -> cond s = true -> Inv (body s) /\ mu (body s) < mu s) ->
  Inv s -> mu s < 2 ^ k ->
  exists s', while_loop k cond body s = Ok s' /\ Inv s' /\ cond s' = false.
Proof.
  intros Hbody Hs Hmu. unfold while_loop.
  destruct (loop_pow_measure mu Inv cond body Hbody k s Hs)
    as [[s' [E [H C]]] | [s' [E [H M]]]]; rewrite E.
  - exists s'. auto.
  - lia.
Qed.

(** ** Paths *)

Lemma mem_path_true_iff (p : list nat) (ps : list (list nat)) :
  mem_path p ps = true <-> In p ps.
Proof.
  unfold mem_path. rewrite existsb_exists. split.
  - intros [q [Hq E]]. destruct (list_eq_dec Nat.eq_dec p q); [|discriminate].
    subst. assumption.
  - intros H. exists p. split; [assumption|].
    destruct (list_eq_dec Nat.eq_dec p p); [reflexivity | contradiction].
Qed.

Lemma edge_weight_range (cs : list (nat * nat)) (v u : nat) :
  (0 <= edge_weight cs v u <= 1)%Z.
Proof. unfold edge_weight. destruct (mem_pair _ _); lia. Qed.

Lemma front_app (p : list nat) (u : nat) : p <> [] -> front (p ++ [u]) = front p.
Proof. destruct p; [congruence | reflexivity]. Qed.

Lemma is_path_snoc (VtoV : list (list nat)) (p : list nat) (u : nat) :
  p <> [] ->
  (is_path VtoV (p ++ [u]) <-> is_path VtoV p /\ In u (adj VtoV (back p))).
Proof.
  induction p as [|a [|b p] IH]; intros Hne; [congruence | |].
  - simpl. unfold back. simpl. tauto.
  - change (is_path VtoV ((a :: b :: p) ++ [u]))
      with (In b (adj VtoV a) /\ is_path VtoV ((b :: p) ++ [u])).
    change (is_path VtoV (a :: b :: p))
      with (In b (adj VtoV a) /\ is_path VtoV (b :: p)).
    rewrite IH by discriminate.
    change (back (a :: b :: p)) with (back (b :: p)). tauto.
Qed.

Lemma path_weight_snoc (cs : list (nat * nat)) (p : list nat) (u : nat) :
  p <> [] ->
  path_weight cs (p ++ [u]) = (path_weight cs p + edge_weight cs (back p) u)%Z.
Proof.
  induction p as [|a [|b p] IH]; intros Hne; [congruence | |].
  - simpl. unfold back. simpl. lia.
  - change (path_weight cs ((a :: b :: p) ++ [u]))
      with (edge_weight cs a b + path_weight cs ((b :: p) ++ [u]))%Z.
    change (path_weight cs (a :: b :: p))
      with (edge_weight cs a b + path_weight cs (b :: p))%Z.
    rewrite IH by discriminate.
    change (back (a :: b :: p)) with (back (b :: p)). lia.
Qed.

Lemma tight_snoc (D : list Z) (cs : list (nat * nat)) (p : list nat) (u : nat) :
  p <> [] ->
  (tight D cs (p ++ [u]) <->
   tight D cs p
   /\ nth u D 0%Z = (nth (back p) D 0 + edge_weight cs (back p) u)%Z).
Proof.
  induction p as [|a [|b p] IH]; intros Hne; [congruence | |].
  - simpl. unfold back. simpl. tauto.
  - change (tight D cs ((a :: b :: p) ++ [u]))
      with (nth b D 0%Z = (nth a D 0 + edge_weight cs a b)%Z
            /\ tight D cs ((b :: p) ++ [u])).
    change (tight D cs (a :: b :: p))
      with (nth b D 0%Z = (nth a D 0 + edge_weight cs a b)%Z
            /\ tight D cs (b :: p)).
    rewrite IH by discriminate.
    change (back (a :: b :: p)) with (back (b :: p)). tauto.
Qed.

Lemma path_weight_nonneg (cs : list (nat * nat)) (p : list nat) :
  (0 <= path_weight cs p)%Z.
Proof.
  induction p as [|a [|b p] IH]; simpl in *; try lia.
  pose proof (edge_weight_range cs a b). lia.
Qed.

Lemma path_weight_le_length (cs : list (nat * nat)) (p : list nat) :
  (path_weight cs p <= Z.of_nat (length p) - 1)%Z \/ p = [].
Proof.
  induction p as [|a [|b p] IH]; [right; reflexivity | left; simpl; lia |].
  left. destruct IH as [IH | IH]; [|discriminate].
  change (path_weight cs (a :: b :: p))
    with (edge_weight cs a b + path_weight cs (b :: p))%Z.
  change (length (a :: b :: p)) with (S (length (b :: p))).
  pose proof (edge_weight_range cs a b). lia.
Qed.

(** A feasible labelling bounds the labels along a path by its weight. *)
Lemma feasible_path (n : nat) (VtoV : list (list nat)) (cs : list (nat * nat))
  (D : list Z) :
  wf_graph n VtoV -> feasible n VtoV cs D ->
  forall p, p <> [] -> front p < n -> is_path VtoV p ->
    (nth (back p) D 0 <= nth (front p) D 0 + path_weight cs p)%Z.
Proof.
  intros [_ Hadj] Hf. induction p as [|a [|b p] IH]; intros Hne Ha Hp;
    [congruence | unfold back, front; simpl; lia |].
  destruct Hp as [Hab Hp].
  assert (Hb : b < n) by (eapply Hadj; eassumption).
  specialize (IH ltac:(discriminate) Hb Hp).
  change (back (a :: b :: p)) with (back (b :: p)).
  change (path_weight cs (a :: b :: p))
    with (edge_weight cs a b + path_weight cs (b :: p))%Z.
  unfold front in *. simpl in *. pose proof (Hf a b Ha Hab). lia.
Qed.

(** A path that meets the bound with equality is tight. *)
Lemma feasible_tight (n : nat) (VtoV : list (list nat)) (cs : list (nat * nat))
  (D : list Z) :
  wf_graph n VtoV -> feasible n VtoV cs D ->
  forall p, p <> [] -> front p < n -> is_path VtoV p ->
    (nth (front p) D 0 + path_weight cs p <= nth (back p) D 0)%Z ->
    tight D cs p.
Proof.
  intros Hwf Hf. pose proof Hwf as [_ Hadj].
  induction p as [|a [|b p] IH]; intros Hne Ha Hp Hle;
    [congruence | exact I |].
  destruct Hp as [Hab Hp].
  assert (Hb : b < n) by (eapply Hadj; eassumption).
  pose proof (feasible_path n VtoV cs D Hwf Hf (b :: p)
                ltac:(discriminate) Hb Hp) as Hrest.
  change (back (a :: b :: p)) with (back (b :: p)) in Hle.
  change (path_weight cs (a :: b :: p))
    with (edge_weight cs a b + path_weight cs (b :: p))%Z in Hle.
  unfold front in *. simpl in Hle, Hrest, Ha. pose proof (Hf a b Ha Hab).
  split; [lia|]. apply IH; [discriminate | assumption | assumption |].
  simpl. lia.
Qed.

Lemma tight_path_weight (D : list Z) (cs : list (nat * nat)) (p : list nat) :
  p <> [] -> tight D cs p ->
  nth (back p) D 0%Z = (nth (front p) D 0 + path_weight cs p)%Z.
Proof.
  induction p as [|a [|b p] IH]; intros Hne Ht;
    [congruence | unfold back, front; simpl; lia |].
  destruct Ht as [Hab Ht]. specialize (IH ltac:(discriminate) Ht).
  change (back (a :: b :: p)) with (back (b :: p)).
  change (path_weight cs (a :: b :: p))
    with (edge_weight cs a b + path_weight cs (b :: p))%Z.
  unfold front in *. simpl in *. lia.
Qed.

(** ** The first loop of [shortestPaths]: the labels *)

Lemma sp_relax_eq (cs : list (nat * nat)) (v : nat) (dist : list Z)
  (que : list nat) (u : nat) :
  sp_relax cs v (dist, que) u
  = if (nth v dist 0 + edge_weight cs v u <? nth u dist 0)%Z
    then (vset dist u (nth v dist 0 + edge_weight cs v u)%Z,
          if mem_pair (u, v) cs then u :: que else que ++ [u])
    else (dist, que).
Proof.
  unfold sp_relax, edge_weight. destruct (mem_pair (u, v) cs).
  - rewrite Z.add_0_r. reflexivity.
  - reflexivity.
Qed.

Lemma sum_dist_vset (dist : list Z) (u : nat) (x : Z) :
  u < length dist ->
  sum_dist (vset dist u x) = (sum_dist dist - nth u dist 0 + x)%Z.
Proof.
  unfold sum_dist. revert u.
  induction dist as [|y dist IH]; intros [|u] Hu; simpl in *; try lia.
  rewrite IH by lia. lia.
Qed.

Lemma sum_dist_bounds (dist : list Z) (hi : Z) :
  (forall u, u < length dist -> (0 <= nth u dist 0 <= hi)%Z) ->
  (0 <= sum_dist dist <= Z.of_nat (length dist) * hi)%Z.
Proof.
  unfold sum_dist. induction dist as [|y dist IH]; intros H; [simpl; lia|].
  assert (Hy : (0 <= y <= hi)%Z) by (apply (H 0); simpl; lia).
  assert (Hrest : (0 <= fold_right Z.add 0 dist
                   <= Z.of_nat (length dist) * hi)%Z).
  { apply IH. intros u Hu. apply (H (S u)). simpl. lia. }
  change (length (y :: dist)) with (S (length dist)).
  rewrite Nat2Z.inj_succ, Z.mul_succ_l. simpl. lia.
Qed.

Lemma in_queue_push (cs : list (nat * nat)) (u v x : nat) (que : list nat) :
  In x (if mem_pair (u, v) cs then u :: que else que ++ [u])
  <-> x = u \/ In x que.
Proof.
  destruct (mem_pair (u, v) cs); simpl.
  - intuition congruence.
  - rewrite in_app_iff. simpl. intuition congruence.
Qed.

Lemma length_queue_push (cs : list (nat * nat)) (u v : nat) (que : list nat) :
  length (if mem_pair (u, v) cs then u :: que else que ++ [u])
  = S (length que).
Proof.
  destruct (mem_pair (u, v) cs); simpl; [reflexivity|].
  rewrite length_app. simpl. lia.
Qed.

(** One relaxation keeps the invariant of the vertex being expanded, does
    not raise the measure, and settles the edge it looks at for good. *)
Lemma sp_relax_step (n : nat) (VtoV : list (list nat)) (cs : list (nat * nat))
  (s v : nat) (st : list Z * list nat) (u : nat) :
  wf_graph n VtoV -> v < n -> In u (adj VtoV v) ->
  dist_inv n VtoV cs s [v] st ->
  dist_inv n VtoV cs s [v] (sp_relax cs v st u)
  /\ (dist_measure (sp_relax cs v st u) <= dist_measure st)%Z
  /\ (nth u (fst (sp_relax cs v st u)) 0
      <= nth v (fst (sp_relax cs v st u)) 0 + edge_weight cs v u)%Z
  /\ (forall y, (nth y (fst st) 0 <= nth v (fst st) 0 + edge_weight cs v y)%Z ->
        (nth y (fst (sp_relax cs v st u)) 0
         <= nth v (fst (sp_relax cs v st u)) 0 + edge_weight cs v y)%Z).
Proof.
  intros [Hlen Hadj] Hv Hu. destruct st as [dist que].
  intros [Hl [Hr [Hs [Hreal [Hq Hcl]]]]]. cbn [fst snd] in *.
  assert (Hun : u < n) by (eapply Hadj; eassumption).
  pose proof (edge_weight_range cs v u) as Hw.
  rewrite sp_relax_eq.
  destruct (Z.ltb_spec (nth v dist 0 + edge_weight cs v u)%Z (nth u dist 0%Z))
    as [Hlt | Hge].
  - pose proof (Hr u Hun) as Hru. pose proof (Hr v Hv) as Hrv.
    assert (Hvu : v <> u) by (intros ->; lia).
    assert (Hnth : forall y, nth y (vset dist u (nth v dist 0
                                                 + edge_weight cs v u)%Z) 0%Z
                             = if y =? u
                               then (nth v dist 0 + edge_weight cs v u)%Z
                               else nth y dist 0%Z).
    { intros y. destruct (Nat.eqb_spec y u) as [->|Hy].
      - apply nth_vset_eq. lia.
      - apply nth_vset_neq. congruence. }
    unfold dist_inv, dist_measure. cbn [fst snd].
    split; [|split; [|split]].
    + split; [rewrite length_vset; assumption|].
      split; [|split; [|split; [|split]]].
      * intros y Hy. rewrite Hnth. destruct (y =? u); [lia | apply Hr; assumption].
      * rewrite Hnth. destruct (Nat.eqb_spec s u) as [->|_]; [lia | assumption].
      * intros y Hy. rewrite Hnth. destruct (Nat.eqb_spec y u) as [->|Hyu].
        -- intros _. destruct (Hreal v Hv) as [q [[Hne [Hf [Hb Hp]]] Hwq]]; [lia|].
           exists (q ++ [u]). split.
           ++ split; [destruct q; discriminate|].
              split; [rewrite front_app; assumption|].
              split; [apply back_app_cons|].
              apply is_path_snoc; [assumption|]. rewrite Hb. split; assumption.
           ++ rewrite path_weight_snoc by assumption. rewrite Hb. lia.
        -- apply Hreal. assumption.
      * intros y Hy. apply in_queue_push in Hy. destruct Hy as [->|Hy]; auto.
      * intros x y Hx Hxv Hxq Hy. rewrite in_queue_push in Hxq.
        rewrite !Hnth. destruct (Nat.eqb_spec x u) as [->|Hxu]; [tauto|].
        assert (H0 : (nth y dist 0 <= nth x dist 0 + edge_weight cs x y)%Z)
          by (apply Hcl; tauto).
        destruct (y =? u) eqn:Ey; [|assumption].
        apply Nat.eqb_eq in Ey. subst y. lia.
    + rewrite sum_dist_vset by lia. rewrite length_queue_push. lia.
    + rewrite !Hnth. rewrite Nat.eqb_refl.
      destruct (Nat.eqb_spec v u); [contradiction | lia].
    + intros y Hy. rewrite !Hnth.
      destruct (Nat.eqb_spec v u); [contradiction|].
      destruct (Nat.eqb_spec y u) as [->|]; lia.
  - split; [|split; [lia | split; [cbn [fst]; lia | auto]]].
    unfold dist_inv. cbn [fst snd]. auto 10.
Qed.

Lemma fold_left_all {St A : Type} (P : St -> Prop) (Done : A -> St -> Prop)
  (body : St -> A -> St) (xs : list A) :
  (forall st x, P st -> In x xs ->
     P (body st x) /\ Done x (body st x)
     /\ forall y, Done y st -> Done y (body st x)) ->
  forall st, P st ->
    P (fold_left body xs st)
    /\ (forall x, In x xs -> Done x (fold_left body xs st))
    /\ (forall y, Done y st -> Done y (fold_left body xs st)).
Proof.
  induction xs as [|x xs IH]; intros Hbody st Hst; simpl.
  - repeat split; auto. intros x [].
  - destruct (Hbody st x Hst) as [P1 [D1 K1]]; [left; reflexivity|].
    destruct (IH (fun st y H Hy => Hbody st y H (or_intror Hy)) (body st x) P1)
      as [P' [D' K']].
    repeat split; [assumption | |].
    + intros y [<- | Hy]; [apply K'; assumption | apply D'; assumption].
    + intros y Dy. apply K'. apply K1. assumption.
Qed.

Lemma dist_measure_nonneg (n : nat) (VtoV : list (list nat))
  (cs : list (nat * nat)) (s : nat) (skip : list nat) (st : list Z * list nat) :
  dist_inv n VtoV cs s skip st -> (0 <= dist_measure st)%Z.
Proof.
  intros [Hl [Hr _]]. unfold dist_measure.
  pose proof (sum_dist_bounds (fst st) INF) as H.
  rewrite Hl in H. specialize (H Hr). lia.
Qed.

(** One iteration of the first loop. *)
Lemma sp_dist_step_inv (n : nat) (VtoV : list (list nat))
  (cs : list (nat * nat)) (s : nat) (st : list Z * list nat) :
  wf_graph n VtoV ->
  dist_inv n VtoV cs s [] st -> que_nonempty st = true ->
  dist_inv n VtoV cs s [] (sp_dist_step VtoV cs st)
  /\ (dist_measure (sp_dist_step VtoV cs st) < dist_measure st)%Z.
Proof.
  intros Hwf Hinv Hne. destruct st as [dist [|v que]]; [discriminate|].
  unfold sp_dist_step. cbn [fst snd].
  destruct Hinv as [Hl [Hr [Hs [Hreal [Hq Hcl]]]]]. cbn [fst snd] in *.
  assert (Hv : v < n) by (apply Hq; left; reflexivity).
  destruct (fold_left_all
              (fun mid => dist_inv n VtoV cs s [v] mid
                          /\ (dist_measure mid
                              <= dist_measure (dist, v :: que) - 1)%Z)
              (fun u mid => (nth u (fst mid) 0
                             <= nth v (fst mid) 0 + edge_weight cs v u)%Z)
              (sp_relax cs v) (adj VtoV v)) with (st := (dist, que))
    as [[Hmid Hmu] [Hdone _]].
  - intros mid u [Hm Hb] Hu.
    destruct (sp_relax_step n VtoV cs s v mid u Hwf Hv Hu Hm)
      as [H1 [H2 [H3 H4]]].
    split; [split; [assumption | lia]|]. split; assumption.
  - split.
    + unfold dist_inv. cbn [fst snd].
      split; [assumption|]. split; [assumption|]. split; [assumption|].
      split; [assumption|]. split; [intros x Hx; apply Hq; right; assumption|].
      intros x u Hx Hxv Hxq Hu. apply Hcl; try assumption.
      * intros [].
      * intros [<- | H]; [apply Hxv; left; reflexivity | contradiction].
    + unfold dist_measure. cbn [fst snd length]. lia.
  - split; [|lia].
    destruct Hmid as [Hl' [Hr' [Hs' [Hreal' [Hq' Hcl']]]]].
    unfold dist_inv.
    split; [assumption|]. split; [assumption|]. split; [assumption|].
    split; [assumption|]. split; [assumption|].
    intros x u Hx _ Hxq Hu. destruct (Nat.eq_dec x v) as [->|Hxv].
    + apply Hdone. assumption.
    + apply Hcl'; try assumption. intros [E | []]. congruence.
Qed.

Lemma vset_repeat_nth (n s : nat) (x y : Z) (u : nat) :
  s < n -> u < n ->
  nth u (vset (repeat x n) s y) 0%Z = if u =? s then y else x.
Proof.
  intros Hs Hu. destruct (Nat.eqb_spec u s) as [->|Hne].
  - apply nth_vset_eq. rewrite repeat_length. assumption.
  - rewrite nth_vset_neq by congruence. apply nth_repeat_lt. assumption.
Qed.

Lemma budget_bound (n : nat) :
  (2 * (Z.of_nat n * INF) + 1 < Z.of_nat (2 ^ loop_budget n))%Z.
Proof.
  unfold loop_budget, INF.
  rewrite Nat2Z.inj_pow, Nat2Z.inj_add, Nat2Z.inj_mul, Nat2Z.inj_add.
  rewrite Z.pow_add_r by lia.
  set (a := ((Z.of_nat n + Z.of_nat 1) * (Z.of_nat n + Z.of_nat 1))%Z).
  assert (Ha : (Z.of_nat n <= a)%Z) by (unfold a; nia).
  assert (H1 : (a < Z.of_nat 2 ^ a)%Z) by (apply Z.pow_gt_lin_r; lia).
  change (Z.of_nat 2 ^ Z.of_nat 16)%Z with 65536%Z. lia.
Qed.

(** The first loop returns feasible labels that are weights of paths. *)
Lemma sp_dist_spec (n : nat) (VtoV : list (list nat)) (cs : list (nat * nat))
  (s : nat) :
  wf_graph n VtoV -> s < n ->
  exists D,
    sp_dist n VtoV cs s = Ok D
    /\ dist_inv n VtoV cs s [] (D, []).
Proof.
  intros Hwf Hs. unfold sp_dist.
  destruct (while_loop_total
              (fun st => Z.to_nat (dist_measure st))
              (dist_inv n VtoV cs s [])
              que_nonempty (sp_dist_step VtoV cs) (loop_budget n)
              (vset (repeat INF n) s 0%Z, [s]))
    as [st' [E [Hinv Hc]]].
  - intros st Hst Hne.
    destruct (sp_dist_step_inv n VtoV cs s st Hwf Hst Hne) as [H1 H2].
    split; [assumption|].
    pose proof (dist_measure_nonneg _ _ _ _ _ _ H1). lia.
  - unfold dist_inv. cbn [fst snd].
    split; [rewrite length_vset; apply repeat_length|].
    split; [|split; [|split; [|split]]].
    + intros u Hu. rewrite vset_repeat_nth by assumption. unfold INF.
      destruct (u =? s); lia.
    + rewrite vset_repeat_nth by assumption. rewrite Nat.eqb_refl. reflexivity.
    + intros u Hu. rewrite vset_repeat_nth by assumption.
      destruct (Nat.eqb_spec u s) as [->|]; [|lia].
      intros _. exists [s]. split; [|reflexivity].
      split; [discriminate|]. repeat split.
    + intros v [<- | []]. assumption.
    + intros x u Hx _ Hxs Hu.
      assert (Hun : u < n) by (eapply (proj2 Hwf); eassumption).
      rewrite !vset_repeat_nth by assumption.
      destruct (Nat.eqb_spec x s) as [->|_]; [exfalso; apply Hxs; left; reflexivity|].
      pose proof (edge_weight_range cs x u). unfold INF. destruct (u =? s); lia.
  - assert (Hb : (dist_measure (vset (repeat INF n) s 0%Z, [s])
                  <= 2 * (Z.of_nat n * INF) + 1)%Z).
    { unfold dist_measure. cbn [fst snd length].
      rewrite sum_dist_vset by (rewrite repeat_length; assumption).
      rewrite nth_repeat_lt by assumption.
      pose proof (sum_dist_bounds (repeat INF n) INF) as H.
      rewrite repeat_length in H.
      assert (H' : (0 <= sum_dist (repeat INF n) <= Z.of_nat n * INF)%Z).
      { apply H. intros u Hu. rewrite nth_repeat_lt by assumption.
        unfold INF. lia. }
      unfold INF in *. lia. }
    pose proof (budget_bound n) as HB. cbv beta.
    set (B := 2 ^ loop_budget n) in *. clearbody B.
    set (m := dist_measure (vset (repeat INF n) s 0%Z, [s])) in *.
    clearbody m. unfold INF in *. lia.
  - rewrite E. cbn [bind]. exists (fst st'). split; [reflexivity|].
    destruct st' as [D que]. cbn [fst].
    unfold que_nonempty in Hc. cbn [snd] in Hc.
    destruct que; [assumption | discriminate].
Qed.

(** ** The second loop of [shortestPaths]: the paths *)

Lemma admitted_iff (n : nat) (VtoV : list (list nat)) (cs : list (nat * nat))
  (D : list Z) (v u : nat) :
  feasible n VtoV cs D -> v < n -> In u (adj VtoV v) ->
  (admitted cs D v u = true
   <-> nth u D 0%Z = (nth v D 0 + edge_weight cs v u)%Z).
Proof.
  intros Hf Hv Hu. specialize (Hf v u Hv Hu). revert Hf.
  unfold admitted, edge_weight.
  rewrite orb_true_iff, andb_true_iff, !Z.eqb_eq.
  destruct (mem_pair (u, v) cs); intros Hf; split; intros H;
    try lia; try (destruct H as [H | [H H']]; try lia; discriminate).
Qed.

Lemma path_vertices_lt (n : nat) (VtoV : list (list nat)) (p : list nat) :
  wf_graph n VtoV -> p <> [] -> front p < n -> is_path VtoV p ->
  forall x, In x p -> x < n.
Proof.
  intros [_ Hadj]. induction p as [|a [|b p] IH]; intros Hne Ha Hp x Hx;
    [congruence | |].
  - destruct Hx as [<- | []]. assumption.
  - destruct Hp as [Hab Hp]. destruct Hx as [<- | Hx]; [assumption|].
    apply IH; try assumption; [discriminate|].
    unfold front. simpl. eapply Hadj. eassumption.
Qed.

Lemma back_in (p : list nat) : p <> [] -> In (back p) p.
Proof.
  intros Hne. unfold back.
  destruct (exists_last Hne) as [l [x ->]]. rewrite last_last.
  apply in_app_iff. right. left. reflexivity.
Qed.

Lemma tight_simple_snoc (n : nat) (VtoV : list (list nat))
  (cs : list (nat * nat)) (D : list Z) (s v u : nat) (p : list nat) :
  feasible n VtoV cs D -> v < n ->
  tight_simple_path VtoV cs D s v p ->
  In u (adj VtoV v) -> admitted cs D v u = true -> ~ In u p ->
  tight_simple_path VtoV cs D s u (p ++ [u]).
Proof.
  intros Hf Hv [[Hne [Hfr [Hbk Hp]]] [Hnd Ht]] Hu Ha Hnu.
  apply (admitted_iff n VtoV cs D v u Hf Hv Hu) in Ha.
  split; [|split].
  - split; [destruct p; discriminate|].
    split; [rewrite front_app; assumption|].
    split; [apply back_app_cons|].
    apply is_path_snoc; [assumption|]. rewrite Hbk. split; assumption.
  - apply NoDup_app; [assumption | repeat constructor; intros [] | ].
    intros x Hx [<- | []]. contradiction.
  - apply tight_snoc; [assumption|]. rewrite Hbk. split; assumption.
Qed.

Lemma tight_simple_prefix (n : nat) (VtoV : list (list nat))
  (cs : list (nat * nat)) (D : list Z) (s u : nat) (p : list nat) :
  feasible n VtoV cs D -> wf_graph n VtoV -> s < n -> p <> [] ->
  tight_simple_path VtoV cs D s u (p ++ [u]) ->
  tight_simple_path VtoV cs D s (back p) p
  /\ back p < n /\ In u (adj VtoV (back p))
  /\ admitted cs D (back p) u = true /\ ~ In u p.
Proof.
  intros Hf Hwf Hs Hne [[_ [Hfr [_ Hp]]] [Hnd Ht]].
  rewrite front_app in Hfr by assumption.
  apply is_path_snoc in Hp; [|assumption]. destruct Hp as [Hp Hu].
  apply tight_snoc in Ht; [|assumption]. destruct Ht as [Ht Hd].
  assert (Hb : back p < n).
  { apply (path_vertices_lt n VtoV p Hwf Hne); [lia | assumption|].
    apply back_in. assumption. }
  apply NoDup_remove in Hnd. rewrite app_nil_r in Hnd. destruct Hnd as [Hnd Hnu].
  split; [|split; [assumption | split; [assumption | split; [|assumption]]]].
  - split; [|split; assumption]. repeat split; assumption.
  - apply (admitted_iff n VtoV cs D (back p) u Hf Hb Hu). assumption.
Qed.

(** *** Counting the collected paths *)

Lemma total_paths_vset (paths : list (list (list nat))) (u : nat)
  (l : list (list nat)) :
  u < length paths ->
  total_paths (vset paths u l) + length (nth u paths [])
  = total_paths paths + length l.
Proof.
  unfold total_paths. revert u.
  induction paths as [|x paths IH]; intros [|u] Hu; simpl in *; try lia.
  - rewrite !length_app. lia.
  - rewrite !length_app. specialize (IH u ltac:(lia)). lia.
Qed.

Lemma in_lists_upto (n k : nat) (p : list nat) :
  length p <= k -> (forall x, In x p -> x < n) -> In p (lists_upto n k).
Proof.
  revert p. induction k as [|k IH]; intros p Hlen Hall.
  - destruct p; [left; reflexivity | simpl in Hlen; lia].
  - destruct p as [|a p]; [left; reflexivity|]. right.
    apply in_flat_map. exists a. split.
    + apply in_seq. specialize (Hall a (or_introl eq_refl)). lia.
    + apply in_map. apply IH; [simpl in Hlen; lia|].
      intros x Hx. apply Hall. right. assumption.
Qed.

Lemma length_flat_map_const {A B : Type} (f : A -> list B) (l : list A)
  (c : nat) :
  (forall x, In x l -> length (f x) = c) ->
  length (flat_map f l) = length l * c.
Proof.
  induction l as [|x l IH]; intros H; simpl; [reflexivity|].
  rewrite length_app, (H x) by (left; reflexivity).
  rewrite IH by (intros y Hy; apply H; right; assumption). reflexivity.
Qed.

Lemma length_lists_upto (n k : nat) :
  length (lists_upto n k) <= (n + 1) ^ k.
Proof.
  induction k as [|k IH]; [simpl; lia|].
  cbn [lists_upto length]. rewrite Nat.pow_succ_r'.
  rewrite (length_flat_map_const _ _ (length (lists_upto n k)))
    by (intros x _; apply length_map).
  rewrite length_seq.
  assert (H1 : 1 <= (n + 1) ^ k)
    by (pose proof (Nat.pow_nonzero (n + 1) k); lia).
  nia.
Qed.

Lemma simple_path_length (n : nat) (p : list nat) :
  NoDup p -> (forall x, In x p -> x < n) -> length p <= n.
Proof.
  intros Hnd Hall.
  assert (H : incl p (seq 0 n)).
  { intros x Hx. apply in_seq. specialize (Hall x Hx). lia. }
  apply (NoDup_incl_length Hnd) in H. rewrite length_seq in H. assumption.
Qed.

Lemma length_concat_le {A : Type} (ls : list (list A)) (c : nat) :
  (forall l, In l ls -> length l <= c) -> length (concat ls) <= length ls * c.
Proof.
  induction ls as [|l ls IH]; intros H; simpl; [lia|].
  rewrite length_app. specialize (H l (or_introl eq_refl)) as Hl.
  specialize (IH (fun l' Hl' => H l' (or_intror Hl'))). lia.
Qed.

Lemma total_paths_bound (n : nat) (VtoV : list (list nat))
  (cs : list (nat * nat)) (D : list Z) (s : nat)
  (paths : list (list (list nat))) :
  wf_graph n VtoV -> s < n -> paths_ok n VtoV cs D s paths ->
  total_paths paths <= n * length (lists_upto n n).
Proof.
  intros Hwf Hs [Hlen [Hall Hnd]]. unfold total_paths. rewrite <- Hlen at 1.
  apply length_concat_le. intros l Hl.
  destruct (In_nth paths l [] Hl) as [u [Hu <-]]. rewrite Hlen in Hu.
  apply NoDup_incl_length; [apply Hnd; assumption|].
  intros p Hp. destruct (Hall u p Hu Hp) as [[Hne [Hf [_ Hpath]]] [Hsimple _]].
  assert (Hlt : forall x, In x p -> x < n).
  { apply (path_vertices_lt n VtoV p Hwf Hne); [lia | assumption]. }
  apply in_lists_upto; [|assumption].
  apply simple_path_length; assumption.
Qed.

Lemma paths_budget_bound (n : nat) :
  2 * (n * length (lists_upto n n)) + 1 < 2 ^ loop_budget n.
Proof.
  pose proof (length_lists_upto n n) as HN.
  assert (H1 : n + 1 <= 2 ^ n) by (pose proof (Nat.pow_gt_lin_r 2 n); lia).
  assert (H2 : (n + 1) ^ n <= 2 ^ (n * n)).
  { rewrite Nat.pow_mul_r. apply Nat.pow_le_mono_l. assumption. }
  assert (H3 : 2 ^ loop_budget n = 2 ^ (n * n) * 2 ^ n * 2 ^ n * 2 ^ 17).
  { unfold loop_budget. rewrite <- !Nat.pow_add_r. f_equal. lia. }
  rewrite H3.
  set (N := length (lists_upto n n)) in *.
  set (a := 2 ^ (n * n)) in *. set (b := 2 ^ n) in *.
  assert (Ha : 1 <= a) by (unfold a; pose proof (Nat.pow_nonzero 2 (n * n)); lia).
  assert (Hb : 1 <= b) by (unfold b; pose proof (Nat.pow_nonzero 2 n); lia).
  assert (H4 : 4 <= 2 ^ 17) by (apply (Nat.pow_le_mono_r 2 2 17); lia).
  set (c := 2 ^ 17) in *. clearbody c.
  assert (H5 : n * N <= a * b) by nia.
  assert (H6 : a * b * 1 <= a * b * b) by (apply Nat.mul_le_mono_l; lia).
  nia.
Qed.

(** *** Extending the paths of [v] along one edge *)

Lemma nth_vset_cases {A : Type} (l : list A) (u x : nat) (a d : A) :
  u < length l -> nth x (vset l u a) d = if x =? u then a else nth x l d.
Proof.
  intros Hu. destruct (Nat.eqb_spec x u) as [->|Hne].
  - apply nth_vset_eq. assumption.
  - apply nth_vset_neq. congruence.
Qed.

Lemma sp_extend_fold (n : nat) (VtoV : list (list nat)) (cs : list (nat * nat))
  (D : list Z) (s v u : nat) (paths0 : list (list (list nat)))
  (l : list (list nat)) :
  feasible n VtoV cs D -> v < n -> u < n ->
  In u (adj VtoV v) -> admitted cs D v u = true ->
  paths_ok n VtoV cs D s paths0 ->
  (forall p, In p l -> tight_simple_path VtoV cs D s v p) ->
  let r := fold_left (sp_extend u) l (paths0, false) in
  paths_ok n VtoV cs D s (fst r)
  /\ (forall x, x <> u -> nth x (fst r) [] = nth x paths0 [])
  /\ incl (nth u paths0 []) (nth u (fst r) [])
  /\ (forall p, In p l -> ~ In u p -> In (p ++ [u]) (nth u (fst r) []))
  /\ (snd r = false -> fst r = paths0)
  /\ ((forall p, In p l -> In u p) -> fst r = paths0)
  /\ total_paths paths0 + (if snd r then 1 else 0) <= total_paths (fst r).
Proof.
  intros Hf Hv Hu Huv Hadm Hok0 Hl r.
  destruct (fold_left_all
              (fun st : list (list (list nat)) * bool =>
                 paths_ok n VtoV cs D s (fst st)
                 /\ (forall x, x <> u -> nth x (fst st) [] = nth x paths0 [])
                 /\ incl (nth u paths0 []) (nth u (fst st) [])
                 /\ (snd st = false -> fst st = paths0)
                 /\ ((forall p, In p l -> In u p) -> fst st = paths0)
                 /\ total_paths paths0 + (if snd st then 1 else 0)
                    <= total_paths (fst st))
              (fun p (st : list (list (list nat)) * bool) =>
                 ~ In u p -> In (p ++ [u]) (nth u (fst st) []))
              (sp_extend u) l) with (st := (paths0, false))
    as [[H1 [H2 [H3 [H4 [H5 H6]]]]] [Hdone _]].
  - intros [paths upd] p [Hok [Hsame [Hincl [Hupd [Hall Htot]]]]] Hp.
    cbn [fst snd] in *. unfold sp_extend.
    destruct (mem_path (p ++ [u]) (nth u paths []) || mem u p) eqn:Em.
    + cbn [fst snd]. split; [auto 10|]. split; [|auto].
      intros Hnu. apply orb_true_iff in Em. destruct Em as [Em | Em].
      * apply mem_path_true_iff. assumption.
      * apply mem_true_iff in Em. contradiction.
    + apply orb_false_iff in Em. destruct Em as [Em1 Em2].
      assert (Hnew : ~ In (p ++ [u]) (nth u paths [])).
      { intros H. apply mem_path_true_iff in H. congruence. }
      assert (Hnu : ~ In u p).
      { intros H. apply mem_true_iff in H. congruence. }
      destruct Hok as [Hlen [Hels Hnd]].
      assert (Hul : u < length paths) by lia.
      cbn [fst snd].
      split; [split; [|split; [|split; [|split; [|split]]]]|split].
      * split; [rewrite length_vset; assumption|]. split.
        -- intros x q Hx Hq. rewrite nth_vset_cases in Hq by assumption.
           destruct (Nat.eqb_spec x u) as [->|Hxu]; [|apply Hels; assumption].
           apply in_app_iff in Hq. destruct Hq as [Hq | [<- | []]].
           ++ apply Hels; assumption.
           ++ apply (tight_simple_snoc n VtoV cs D s v u p); auto.
        -- intros x Hx. rewrite nth_vset_cases by assumption.
           destruct (Nat.eqb_spec x u) as [->|Hxu]; [|apply Hnd; assumption].
           apply NoDup_app; [apply Hnd; assumption
                            | repeat constructor; intros [] |].
           intros q Hq [<- | []]. contradiction.
      * intros x Hx. rewrite nth_vset_neq by congruence. apply Hsame. assumption.
      * intros q Hq. rewrite nth_vset_eq by assumption.
        apply in_app_iff. left. apply Hincl. assumption.
      * discriminate.
      * intros Hallu. exfalso. apply Hnu. apply Hallu. assumption.
      * pose proof (total_paths_vset paths u
                      (nth u paths [] ++ [p ++ [u]]) Hul) as Ht.
        rewrite length_app in Ht. simpl in Ht. destruct upd; lia.
      * intros _. rewrite nth_vset_eq by assumption.
        apply in_app_iff. right. left. reflexivity.
      * intros q Hq Hnq. rewrite nth_vset_eq by assumption.
        apply in_app_iff. left. apply Hq. assumption.
  - cbn [fst snd]. split; [assumption|]. split; [reflexivity|].
    split; [apply incl_refl|]. split; [reflexivity|]. split; [reflexivity | lia].
  - fold r in H1, H2, H3, H4, H5, H6, Hdone.
    repeat (split; [assumption|]). assumption.
Qed.

(** *** One edge of the vertex being expanded *)

Lemma sp_visit_eq (cs : list (nat * nat)) (D : list Z) (v u : nat)
  (paths : list (list (list nat))) (que : list nat) :
  sp_visit cs D v (paths, que) u =
  if admitted cs D v u then
    let r := fold_left (sp_extend u) (nth v paths []) (paths, false) in
    (fst r, if snd r
            then if (nth u D 0 =? nth v D 0 + 1)%Z then que ++ [u] else u :: que
            else que)
  else (paths, que).
Proof.
  unfold sp_visit, admitted.
  destruct ((nth u D 0 =? nth v D 0 + 1)%Z
            || (nth u D 0 =? nth v D 0)%Z && mem_pair (u, v) cs);
    [|reflexivity].
  cbv zeta.
  destruct (fold_left (sp_extend u) (nth v paths []) (paths, false))
    as [paths' upd].
  cbn [fst snd]. destruct upd; [|reflexivity].
  destruct (nth u D 0 =? nth v D 0 + 1)%Z; reflexivity.
Qed.

Lemma sp_visit_step (n : nat) (VtoV : list (list nat)) (cs : list (nat * nat))
  (D : list Z) (s v u : nat) (pv : list (list nat))
  (st : list (list (list nat)) * list nat) :
  wf_graph n VtoV -> feasible n VtoV cs D -> s < n -> v < n ->
  In u (adj VtoV v) ->
  paths_inv n VtoV cs D s [v] st -> nth v (fst st) [] = pv ->
  let st' := sp_visit cs D v st u in
  paths_inv n VtoV cs D s [v] st'
  /\ nth v (fst st') [] = pv
  /\ paths_measure (n * length (lists_upto n n)) st'
     <= paths_measure (n * length (lists_upto n n)) st
  /\ (forall x, incl (nth x (fst st) []) (nth x (fst st') []))
  /\ (admitted cs D v u = true ->
      forall p, In p pv -> ~ In u p -> In (p ++ [u]) (nth u (fst st') [])).
Proof.
  intros Hwf Hf Hs Hv Huv [Hok [Hs0 [Hq Hcl]]] Hpv st'.
  destruct st as [paths que]. cbn [fst snd] in *.
  unfold st'. rewrite sp_visit_eq.
  destruct (admitted cs D v u) eqn:Ea.
  2:{ cbn [fst snd]. split; [exact (conj Hok (conj Hs0 (conj Hq Hcl)))|].
      split; [assumption|]. split; [lia|]. split; [intros x; apply incl_refl|].
      discriminate. }
  assert (Hu : u < n) by (eapply (proj2 Hwf); eassumption).
  assert (Hl : forall p, In p (nth v paths []) ->
                         tight_simple_path VtoV cs D s v p).
  { intros p Hp. apply (proj1 (proj2 Hok)); assumption. }
  destruct (sp_extend_fold n VtoV cs D s v u paths (nth v paths [])
              Hf Hv Hu Huv Ea Hok Hl) as [H1 [H2 [H3 [H4 [H5 [H6 H7]]]]]].
  set (r := fold_left (sp_extend u) (nth v paths []) (paths, false)) in *.
  cbv zeta. destruct r as [paths' upd]. cbn [fst snd] in *.
  set (que' := if upd
               then if (nth u D 0 =? nth v D 0 + 1)%Z then que ++ [u]
                    else u :: que
               else que).
  assert (Hin : forall x, In x que' <-> (upd = true /\ x = u) \/ In x que).
  { intros x. unfold que'. destruct upd.
    - destruct (nth u D 0 =? nth v D 0 + 1)%Z.
      + rewrite in_app_iff. simpl. intuition.
      + simpl. intuition.
    - intuition. discriminate. }
  assert (Hlen : length que' = length que + (if upd then 1 else 0)).
  { unfold que'. destruct upd; [|lia].
    destruct (nth u D 0 =? nth v D 0 + 1)%Z;
      [rewrite length_app|]; simpl; lia. }
  clearbody que'.
  assert (Hmono : forall x, incl (nth x paths []) (nth x paths' [])).
  { intros x. destruct (Nat.eq_dec x u) as [->|Hxu]; [assumption|].
    rewrite H2 by assumption. apply incl_refl. }
  assert (Hv' : nth v paths' [] = pv).
  { destruct (Nat.eq_dec v u) as [E|Hvu]; [|rewrite H2; assumption].
    rewrite H6; [assumption|]. intros p Hp. rewrite <- E.
    destruct (Hl p Hp) as [[Hne [_ [Hb _]]] _]. rewrite <- Hb.
    apply back_in. assumption. }
  split; [|split; [assumption|split; [|split; [assumption|]]]].
  - unfold paths_inv. cbn [fst snd].
    split; [assumption|]. split; [apply Hmono; assumption|]. split.
    + intros x Hx. apply Hin in Hx. destruct Hx as [[_ ->] | Hx]; auto.
    + intros x p y Hx Hskip Hnq Hp Hy Hadm Hny.
      assert (Hxq : ~ In x que) by (intros H; apply Hnq, Hin; right; assumption).
      assert (Hsame : nth x paths' [] = nth x paths []).
      { destruct (Nat.eq_dec x u) as [->|Hxu]; [|apply H2; assumption].
        destruct upd; [|rewrite H5; reflexivity].
        exfalso. apply Hnq, Hin. left. split; reflexivity. }
      rewrite Hsame in Hp. apply Hmono.
      apply (Hcl x p y); assumption.
  - pose proof (total_paths_bound n VtoV cs D s paths' Hwf Hs H1) as Hb.
    unfold paths_measure. cbn [fst snd]. rewrite Hlen.
    destruct upd; lia.
  - intros _ p Hp Hnu. apply H4; [rewrite Hpv|]; assumption.
Qed.

(** *** One round of the second loop *)

Lemma sp_paths_step_inv (n : nat) (VtoV : list (list nat))
  (cs : list (nat * nat)) (D : list Z) (s : nat)
  (st : list (list (list nat)) * list nat) :
  wf_graph n VtoV -> feasible n VtoV cs D -> s < n ->
  paths_inv n VtoV cs D s [] st -> que_nonempty st = true ->
  paths_inv n VtoV cs D s [] (sp_paths_step VtoV cs D st)
  /\ paths_measure (n * length (lists_upto n n)) (sp_paths_step VtoV cs D st)
     < paths_measure (n * length (lists_upto n n)) st.
Proof.
  intros Hwf Hf Hs [Hok [Hs0 [Hq Hcl]]] Hne.
  destruct st as [paths [|v que]]; [discriminate|].
  cbn [fst snd] in *. unfold sp_paths_step. cbn [fst snd].
  assert (Hv : v < n) by (apply Hq; left; reflexivity).
  set (pv := nth v paths []).
  set (B := n * length (lists_upto n n)).
  destruct (fold_left_all
              (fun st : list (list (list nat)) * list nat =>
                 paths_inv n VtoV cs D s [v] st
                 /\ nth v (fst st) [] = pv
                 /\ paths_measure B st <= paths_measure B (paths, que))
              (fun u (st : list (list (list nat)) * list nat) =>
                 admitted cs D v u = true ->
                 forall p, In p pv -> ~ In u p ->
                           In (p ++ [u]) (nth u (fst st) []))
              (sp_visit cs D v) (adj VtoV v)) with (st := (paths, que))
    as [[[Hok' [Hs' [Hq' Hcl']]] [Hpv' Hm']] [Hdone _]].
  - intros st u [Hinv [Hpv Hm]] Hu.
    destruct (sp_visit_step n VtoV cs D s v u pv st Hwf Hf Hs Hv Hu Hinv Hpv)
      as [K1 [K2 [K3 [K4 K5]]]].
    split; [split; [assumption | split; [assumption | fold B in K3; lia]]|].
    split; [assumption|].
    intros y Hy Hadm p Hp Hny. apply K4. apply Hy; assumption.
  - split; [|split; [reflexivity | lia]].
    unfold paths_inv. cbn [fst snd].
    split; [assumption|]. split; [assumption|]. split.
    + intros x Hx. apply Hq. right. assumption.
    + intros x p u Hx Hskip Hnq. apply Hcl; [assumption | intros [] |].
      intros [<- | H]; [apply Hskip; left; reflexivity | contradiction].
  - set (st' := fold_left (sp_visit cs D v) (adj VtoV v) (paths, que)) in *.
    split.
    + unfold paths_inv.
      split; [assumption|]. split; [assumption|]. split; [assumption|].
      intros x p u Hx _ Hnq Hp Hu Hadm Hnu.
      destruct (Nat.eq_dec x v) as [->|Hxv].
      * apply (Hdone u Hu Hadm p); [rewrite <- Hpv'|]; assumption.
      * apply (Hcl' x p u); try assumption.
        intros [E | []]. congruence.
    + unfold paths_measure in *. cbn [fst snd length] in *. lia.
Qed.

Lemma sp_paths_spec (n : nat) (VtoV : list (list nat)) (cs : list (nat * nat))
  (D : list Z) (s : nat) :
  wf_graph n VtoV -> feasible n VtoV cs D -> s < n ->
  exists paths,
    while_loop (loop_budget n) que_nonempty (sp_paths_step VtoV cs D)
      (vset (repeat [] n) s [[s]], [s]) = Ok (paths, [])
    /\ paths_inv n VtoV cs D s [] (paths, []).
Proof.
  intros Hwf Hf Hs.
  assert (Hnth : forall u, u < n ->
            nth u (vset (repeat (@nil (list nat)) n) s [[s]]) []
            = if u =? s then [[s]] else []).
  { intros u Hu. rewrite nth_vset_cases by (rewrite repeat_length; assumption).
    destruct (u =? s); [reflexivity|]. apply nth_repeat_lt. assumption. }
  destruct (while_loop_total
              (paths_measure (n * length (lists_upto n n)))
              (paths_inv n VtoV cs D s [])
              que_nonempty (sp_paths_step VtoV cs D) (loop_budget n)
              (vset (repeat [] n) s [[s]], [s]))
    as [st' [E [Hinv Hc]]].
  - intros st Hst Hne. apply sp_paths_step_inv; assumption.
  - unfold paths_inv. cbn [fst snd].
    split; [split; [|split]|split; [|split]].
    + rewrite length_vset. apply repeat_length.
    + intros u p Hu Hp. rewrite Hnth in Hp by assumption.
      destruct (Nat.eqb_spec u s) as [->|_]; [|destruct Hp].
      destruct Hp as [<- | []].
      split; [|split; [repeat constructor; intros [] | exact I]].
      split; [discriminate|]. repeat split.
    + intros u Hu. rewrite Hnth by assumption.
      destruct (u =? s); repeat constructor. intros [].
    + rewrite Hnth by assumption. rewrite Nat.eqb_refl. left. reflexivity.
    + intros v [<- | []]. assumption.
    + intros x p u Hx _ Hxs Hp. rewrite Hnth in Hp by assumption.
      destruct (Nat.eqb_spec x s) as [->|_]; [|destruct Hp].
      exfalso. apply Hxs. left. reflexivity.
  - pose proof (paths_budget_bound n) as HB.
    unfold paths_measure. cbn [fst snd length]. lia.
  - destruct st' as [paths que]. unfold que_nonempty in Hc. cbn [snd] in Hc.
    destruct que; [|discriminate]. exists paths. split; assumption.
Qed.

(** *** The collected paths are all the tight simple paths *)

Lemma paths_complete (n : nat) (VtoV : list (list nat)) (cs : list (nat * nat))
  (D : list Z) (s : nat) (paths : list (list (list nat))) :
  wf_graph n VtoV -> feasible n VtoV cs D -> s < n ->
  paths_inv n VtoV cs D s [] (paths, []) ->
  forall p u, tight_simple_path VtoV cs D s u p -> In p (nth u paths []).
Proof.
  intros Hwf Hf Hs [_ [Hs0 [_ Hcl]]]. cbn [fst snd] in *.
  induction p as [|x p IH] using rev_ind; intros u Hp.
  - destruct Hp as [[Hne _] _]. congruence.
  - assert (Hx : x = u).
    { destruct Hp as [[_ [_ [Hb _]]] _]. rewrite back_app_cons in Hb.
      assumption. }
    subst x. destruct p as [|a p].
    + destruct Hp as [[_ [Hfr _]] _]. unfold front in Hfr. simpl in Hfr.
      subst u. assumption.
    + destruct (tight_simple_prefix n VtoV cs D s u (a :: p) Hf Hwf Hs
                  ltac:(discriminate) Hp) as [Hp' [Hb [Hu [Hadm Hnu]]]].
      apply (Hcl (back (a :: p)) (a :: p) u); try assumption;
        [intros [] | intros [] |].
      apply IH. assumption.
Qed.

Lemma sp_unique_acc (l acc : list (list nat)) :
  NoDup (acc ++ l) ->
  fold_left (fun unique_paths path =>
               if mem_path path unique_paths then unique_paths
               else unique_paths ++ [path]) l acc = acc ++ l.
Proof.
  revert acc. induction l as [|x l IH]; intros acc Hnd; simpl.
  - rewrite app_nil_r. reflexivity.
  - assert (Hx : mem_path x acc = false).
    { destruct (mem_path x acc) eqn:E; [|reflexivity].
      apply mem_path_true_iff in E. apply NoDup_remove_2 in Hnd.
      exfalso. apply Hnd. apply in_app_iff. left. assumption. }
    rewrite Hx. rewrite IH; rewrite <- app_assoc; [reflexivity | assumption].
Qed.

Lemma sp_unique_nodup (l : list (list nat)) : NoDup l -> sp_unique l = l.
Proof. intros H. unfold sp_unique. apply (sp_unique_acc l []). assumption. Qed.

(** *** Tight simple paths are the shortest simple paths *)

Lemma edge_weight_contract_set (contract : list (nat * nat)) (flag : bool)
  (a b : nat) :
  edge_weight (contract_set contract flag) a b
  = contracted_weight contract flag a b.
Proof.
  unfold edge_weight, contracted_weight, contract_set.
  destruct flag; [|reflexivity]. cbn [andb].
  assert (E : mem_pair (b, a) (flat_map (fun e => [e; (snd e, fst e)]) contract)
              = mem_pair (a, b) contract || mem_pair (b, a) contract).
  { apply eq_true_iff_eq. rewrite orb_true_iff, !mem_pair_true_iff.
    rewrite in_flat_map. split.
    - intros [[x y] [He [H | [H | []]]]]; cbn [fst snd] in H.
      + right. congruence.
      + left. inversion H. subst. assumption.
    - intros [H | H].
      + exists (a, b). split; [assumption|]. right. left. reflexivity.
      + exists (b, a). split; [assumption|]. left. reflexivity. }
  rewrite E. reflexivity.
Qed.

Lemma tight_simple_shortest (n : nat) (VtoV : list (list nat))
  (cs : list (nat * nat)) (D : list Z) (s t : nat) :
  wf_graph n VtoV -> (Z.of_nat n + 1 <= INF)%Z -> s < n -> t < n ->
  dist_inv n VtoV cs s [] (D, []) ->
  forall p, tight_simple_path VtoV cs D s t p
            <-> shortest_simple_path VtoV cs s t p.
Proof.
  intros Hwf Hn Hs Ht [Hlen [Hrange [HDs [Hreal [_ Hrel]]]]].
  cbn [fst snd] in *.
  assert (Hf : feasible n VtoV cs D).
  { intros v u Hv Hu. apply Hrel; [assumption | intros [] | intros [] |].
    assumption. }
  intros p. split.
  - intros [Hp [Hnd Htight]]. split; [assumption|]. split; [assumption|].
    intros q [Hqne [Hqf [Hqb Hq]]].
    destruct Hp as [Hne [Hfr [Hbk _]]].
    pose proof (tight_path_weight D cs p Hne Htight) as E.
    pose proof (feasible_path n VtoV cs D Hwf Hf q Hqne
                  ltac:(rewrite Hqf; assumption) Hq) as L.
    rewrite Hfr, Hbk, HDs in E. rewrite Hqf, Hqb, HDs in L. lia.
  - intros [Hp [Hnd Hmin]]. split; [assumption|]. split; [assumption|].
    destruct Hp as [Hne [Hfr [Hbk Hpath]]].
    apply (feasible_tight n VtoV cs D Hwf Hf p Hne); [lia | assumption|].
    rewrite Hfr, Hbk, HDs.
    destruct (Z_lt_le_dec (nth t D 0%Z) INF) as [Hlt | Hge].
    + destruct (Hreal t Ht Hlt) as [q [Hq Hw]].
      specialize (Hmin q Hq). lia.
    + assert (Hlt : forall x, In x p -> x < n).
      { apply (path_vertices_lt n VtoV p Hwf Hne); [lia | assumption]. }
      pose proof (simple_path_length n p Hnd Hlt) as Hl.
      destruct (path_weight_le_length cs p) as [Hw | Hw]; [|congruence].
      unfold INF in *. lia.
Qed.

(** C9: on a graph with fewer vertices than the sentinel distance, for every
    pair of vertices [s], [t] and every flag, [shortestPaths] returns, and
    the returned collection holds every simple path from [s] to [t] whose
    weight is the least weight of a path from [s] to [t] (a contracted edge
    weighs 0 when the flag is set, every other edge 1), each exactly once,
    and nothing else. *)
Theorem shortestPaths_spec (n : nat) (VtoV : list (list nat))
  (contract : list (nat * nat)) (s t : nat) (flag : bool) :
  wf_graph n VtoV -> (Z.of_nat n + 1 <= INF)%Z -> s < n -> t < n ->
  exists ps,
    shortestPaths n VtoV contract s t flag = Ok ps
    /\ NoDup ps
    /\ (forall p, In p ps
                  <-> shortest_simple_path VtoV (contract_set contract flag)
                        s t p)
    /\ (forall a b, edge_weight (contract_set contract flag) a b
                    = contracted_weight contract flag a b).
Proof.
  intros Hwf Hn Hs Ht. unfold shortestPaths.
  set (cs := contract_set contract flag).
  destruct (sp_dist_spec n VtoV cs s Hwf Hs) as [D [ED HD]].
  assert (Hf : feasible n VtoV cs D).
  { destruct HD as [_ [_ [_ [_ [_ Hrel]]]]]. cbn [fst snd] in Hrel.
    intros v u Hv Hu. apply Hrel; [assumption | intros [] | intros [] |].
    assumption. }
  destruct (sp_paths_spec n VtoV cs D s Hwf Hf Hs) as [paths [EP HP]].
  rewrite ED. cbn [bind]. rewrite EP. cbn [bind fst].
  pose proof HP as [[_ [Hall Hnd]] _]. cbn [fst] in Hall, Hnd.
  rewrite sp_unique_nodup by (apply Hnd; assumption).
  exists (nth t paths []). split; [reflexivity|].
  split; [apply Hnd; assumption|]. split.
  - intros p.
    rewrite <- (tight_simple_shortest n VtoV cs D s t Hwf Hn Hs Ht HD p).
    split.
    + apply Hall. assumption.
    + apply (paths_complete n VtoV cs D s paths Hwf Hf Hs HP).
  - intros a b. apply edge_weight_contract_set.
Qed.

Lemma shortestPaths_spec_witness :
  exists ps,
    shortestPaths 8 wheel_adj [(6, 7)] 2 7 true = Ok ps
    /\ NoDup ps
    /\ (forall p, In p ps
                  <-> shortest_simple_path wheel_adj
                        (contract_set [(6, 7)] true) 2 7 p)
    /\ (forall a b, edge_weight (contract_set [(6, 7)] true) a b
                    = contracted_weight [(6, 7)] true a b).
Proof.
  apply (shortestPaths_spec 8 wheel_adj [(6, 7)] 2 7 true).
  - apply wf_graphb_sound. vm_compute. reflexivity.
  - unfold INF. simpl. lia.
  - lia.
  - lia.
Defined.

Example shortestPaths_wheel :
  shortestPaths 8 wheel_adj [(6, 7)] 2 7 true = Ok [[2; 6; 7]]
  /\ shortestPaths 8 wheel_adj [] 2 7 false = Ok [[2; 1; 7]; [2; 6; 7]]
  /\ shortestPaths 8 wheel_adj [] 4 4 false = Ok [[4]].
Proof. vm_compute. repeat split. Qed.

(** * Further properties of the code *)

(** ** [calculatePaths] enumerates the short simple paths *)

Lemma nodupb_sound (l : list nat) : nodupb l = true -> NoDup l.
Proof.
  induction l as [|x l IH]; simpl; intros H; [constructor|].
  apply andb_true_iff in H. destruct H as [H1 H2].
  constructor; [|apply IH; assumption].
  intros Hin. apply mem_true_iff in Hin. rewrite Hin in H1. discriminate.
Qed.

Lemma adj_distinctb_sound (VtoV : list (list nat)) :
  adj_distinctb VtoV = true -> adj_distinct VtoV.
Proof.
  intros H v. unfold adj. unfold adj_distinctb in H.
  rewrite forallb_forall in H.
  destruct (Nat.lt_ge_cases v (length VtoV)) as [Hv | Hv].
  - apply nodupb_sound, H, nth_In. assumption.
  - rewrite nth_overflow by assumption. constructor.
Qed.

(** The paths that one call of the recursive lambda appends: the
    extensions of [path] through [v] that end in [q]. *)
Definition extension (VtoV : list (list nat)) (q : nat) (path : list nat)
  (v : nat) (w : list nat) : Prop :=
  exists tail, w = path ++ v :: tail
               /\ is_path VtoV (v :: tail)
               /\ back (v :: tail) = q
               /\ NoDup w
               /\ length w <= 8.

Lemma back_cons (a b : nat) (l : list nat) : back (a :: b :: l) = back (b :: l).
Proof. reflexivity. Qed.

Lemma back_in_cons (a : nat) (l : list nat) : In (back (a :: l)) (a :: l).
Proof. apply back_in. discriminate. Qed.

Lemma extension_at_target (VtoV : list (list nat)) (q : nat)
  (path w : list nat) :
  ~ In q path -> NoDup path -> length path <= 7 ->
  (extension VtoV q path q w <-> w = path ++ [q]).
Proof.
  intros Hq Hnd Hlen. split.
  - intros [tail [-> [_ [Hb [Hw _]]]]]. destruct tail as [|b tail]; [reflexivity|].
    exfalso. apply NoDup_remove_2 in Hw. apply Hw. apply in_app_iff. right.
    rewrite back_cons in Hb. rewrite <- Hb. apply back_in_cons.
  - intros ->. exists []. split; [reflexivity|]. split; [exact I|].
    split; [reflexivity|]. split.
    + apply NoDup_app; [assumption | repeat constructor; intros [] |].
      intros x Hx [<- | []]. contradiction.
    + rewrite length_app. simpl. lia.
Qed.

Lemma extension_step (VtoV : list (list nat)) (q : nat) (path : list nat)
  (v : nat) (w : list nat) :
  v <> q ->
  (extension VtoV q path v w
   <-> exists u, In u (adj VtoV v) /\ ~ In u (path ++ [v])
                 /\ extension VtoV q (path ++ [v]) u w).
Proof.
  intros Hvq. split.
  - intros [tail [-> [Hp [Hb [Hw Hl]]]]]. destruct tail as [|u tail].
    + unfold back in Hb. simpl in Hb. congruence.
    + destruct Hp as [Hu Hp]. exists u. split; [assumption|].
      assert (E : path ++ v :: u :: tail = (path ++ [v]) ++ u :: tail)
        by (rewrite <- app_assoc; reflexivity).
      split.
      * rewrite E in Hw. apply NoDup_remove_2 in Hw. intros Hin. apply Hw.
        apply in_app_iff. left. assumption.
      * exists tail. rewrite <- E. repeat split; assumption.
  - intros [u [Hu [Hnu [tail [-> [Hp [Hb [Hw Hl]]]]]]]].
    exists (u :: tail). rewrite <- app_assoc in *. simpl in *.
    split; [reflexivity|]. split; [split; assumption|].
    split; [rewrite back_cons; assumption|]. split; assumption.
Qed.

Lemma calculatePaths_dfs_exact (VtoV : list (list nat)) (q : nat) :
  adj_distinct VtoV ->
  forall fuel v path paths,
    8 <= length path + fuel -> length path <= 7 ->
    NoDup path -> ~ In v path -> ~ In q path ->
    exists R,
      calculatePaths_dfs VtoV fuel q v path paths = paths ++ R
      /\ NoDup R
      /\ forall w, In w R <-> extension VtoV q path v w.
Proof.
  intros Hadj.
  induction fuel as [|fuel IH]; intros v path paths Hfuel Hlen Hnd Hv Hq.
  - lia.
  - cbn [calculatePaths_dfs].
    destruct (Nat.eqb_spec v q) as [->|Hvq].
    + exists [path ++ [q]]. split; [reflexivity|].
      split; [repeat constructor; intros []|].
      intros w. rewrite extension_at_target by assumption.
      simpl. intuition.
    + destruct (Nat.eqb_spec (length (path ++ [v])) 8) as [E8 | E8].
      * exists []. split; [rewrite app_nil_r; reflexivity|].
        split; [constructor|]. intros w. split; [intros []|].
        intros [tail [-> [_ [Hb [_ Hl]]]]]. destruct tail as [|u tail].
        -- unfold back in Hb. simpl in Hb. congruence.
        -- rewrite length_app in E8, Hl. simpl in E8, Hl. lia.
      * rewrite length_app in E8. simpl in E8.
        assert (Hnd' : NoDup (path ++ [v])).
        { apply NoDup_app; [assumption | repeat constructor; intros [] |].
          intros x Hx [<- | []]. contradiction. }
        assert (Hq' : ~ In q (path ++ [v])).
        { rewrite in_app_iff. intros [H | [H | []]]; congruence. }
        assert (Hfold : forall l acc,
                   NoDup l ->
                   exists R,
                     fold_left
                       (fun paths u =>
                          if mem u (path ++ [v]) then paths
                          else calculatePaths_dfs VtoV fuel q u
                                 (path ++ [v]) paths) l acc = acc ++ R
                     /\ NoDup R
                     /\ forall w, In w R <->
                          exists u, In u l /\ ~ In u (path ++ [v])
                                    /\ extension VtoV q (path ++ [v]) u w).
        { induction l as [|u l IHl]; intros acc Hl.
          - exists []. split; [rewrite app_nil_r; reflexivity|].
            split; [constructor|]. intros w. split; [intros []|].
            intros [u [[] _]].
          - inversion Hl as [|? ? Hul Hl']; subst. cbn [fold_left].
            destruct (mem u (path ++ [v])) eqn:Em.
            + destruct (IHl acc Hl') as [R [E [HR HinR]]].
              exists R. split; [assumption|]. split; [assumption|].
              intros w. rewrite HinR. split.
              * intros [u' [H1 H2]]. exists u'. split; [right|]; assumption.
              * intros [u' [[<- | H1] [H2 H3]]].
                -- apply mem_true_iff in Em. contradiction.
                -- exists u'. auto.
            + assert (Hu : ~ In u (path ++ [v])).
              { intros H. apply mem_true_iff in H. congruence. }
              destruct (IH u (path ++ [v]) acc) as [R1 [E1 [HR1 Hin1]]];
                try assumption;
                try (rewrite length_app; simpl; lia).
              rewrite E1.
              destruct (IHl (acc ++ R1) Hl') as [R2 [E2 [HR2 Hin2]]].
              exists (R1 ++ R2). split; [rewrite E2, app_assoc; reflexivity|].
              split.
              * apply NoDup_app; [assumption | assumption |].
                intros w H1 H2. apply Hin1 in H1. apply Hin2 in H2.
                destruct H1 as [t1 [E [_ _]]].
                destruct H2 as [u' [Hu' [_ [t2 [E' _]]]]].
                rewrite E in E'. apply app_inv_head in E'.
                inversion E'. subst. contradiction.
              * intros w. rewrite in_app_iff, Hin1, Hin2. split.
                -- intros [H | [u' [H1 H2]]].
                   ++ exists u. split; [left; reflexivity|]. auto.
                   ++ exists u'. split; [right|]; assumption.
                -- intros [u' [[<- | H1] [H2 H3]]]; [left; assumption|].
                   right. exists u'. auto. }
        destruct (Hfold (adj VtoV v) paths (Hadj v)) as [R [E [HR HinR]]].
        exists R. split; [assumption|]. split; [assumption|].
        intros w. rewrite HinR. symmetry. apply extension_step. assumption.
Qed.

(** X1: on neighbour sets without repetition, [calculatePaths(p, q)]
    returns every path from [p] to [q] that repeats no vertex and has at
    most eight vertices, each exactly once, and nothing else. *)
Theorem calculatePaths_exact (VtoV : list (list nat)) (p q : nat) :
  adj_distinct VtoV ->
  NoDup (calculatePaths VtoV p q)
  /\ forall R, In R (calculatePaths VtoV p q)
               <-> short_simple_path VtoV p q R.
Proof.
  intros Hadj. unfold calculatePaths.
  destruct (calculatePaths_dfs_exact VtoV q Hadj 8 p [] [])
    as [R0 [E [Hnd Hin]]];
    [simpl; lia | simpl; lia | constructor | intros [] | intros [] |].
  rewrite E. cbn [app]. split; [assumption|].
  intros R. rewrite Hin. unfold extension, short_simple_path, path_from_to.
  cbn [app]. split.
  - intros [tail [-> [Hp [Hb [Hw Hl]]]]].
    split; [|split; assumption].
    split; [discriminate|]. split; [reflexivity|]. split; assumption.
  - intros [[Hne [Hf [Hb Hp]]] [Hw Hl]]. destruct R as [|a tail]; [congruence|].
    unfold front in Hf. simpl in Hf. subst a.
    exists tail. repeat split; assumption.
Qed.

Lemma calculatePaths_exact_witness :
  NoDup (calculatePaths wheel_adj 0 3)
  /\ forall R, In R (calculatePaths wheel_adj 0 3)
               <-> short_simple_path wheel_adj 0 3 R.
Proof.
  apply calculatePaths_exact. apply adj_distinctb_sound. reflexivity.
Defined.

(** ** [getComponent]: the side of a ring-to-ring path *)

Lemma in_set_insert (x y : nat) (s : list nat) :
  In y (set_insert x s) <-> y = x \/ In y s.
Proof.
  induction s as [|z s IH]; simpl.
  - intuition.
  - destruct (Nat.ltb_spec x z); [simpl; intuition|].
    destruct (Nat.eqb_spec x z) as [->|Hne]; simpl; [intuition|].
    rewrite IH. intuition.
Qed.

Lemma in_set_of_list (l : list nat) (y : nat) :
  In y (set_of_list l) <-> In y l.
Proof.
  unfold set_of_list.
  assert (H : forall acc, In y (fold_left (fun s x => set_insert x s) l acc)
                          <-> In y l \/ In y acc).
  { induction l as [|x l IH]; intros acc; simpl; [intuition|].
    rewrite IH, in_set_insert. intuition. }
  rewrite H. simpl. intuition.
Qed.

Lemma mod_once (x r : nat) : r <= x -> x < 2 * r -> x mod r = x - r.
Proof.
  intros H1 H2. symmetry. apply (Nat.mod_unique x r 1); lia.
Qed.

(** The ring distance from [p] to [q]. *)
Lemma ring_gap (r p q : nat) :
  p < r -> q < r -> p <> q ->
  0 < (q + r - p) mod r < r
  /\ (p + (q + r - p) mod r) mod r = q
  /\ forall i, i < (q + r - p) mod r -> (p + i) mod r <> q.
Proof.
  intros Hp Hq Hne.
  destruct (Nat.lt_ge_cases p q) as [Hlt | Hge].
  - assert (E : (q + r - p) mod r = q - p) by (rewrite mod_once; lia).
    rewrite E. split; [lia|]. split.
    + rewrite Nat.mod_small; lia.
    + intros i Hi. rewrite Nat.mod_small; lia.
  - assert (E : (q + r - p) mod r = q + r - p) by (apply Nat.mod_small; lia).
    rewrite E. split; [lia|]. split.
    + rewrite mod_once; lia.
    + intros i Hi. destruct (Nat.lt_ge_cases (p + i) r).
      * rewrite Nat.mod_small; lia.
      * rewrite mod_once; lia.
Qed.

Lemma ring_walk_spec (r p q : nat) :
  p < r -> q < r -> p <> q ->
  forall k fuel i,
    i + k = (q + r - p) mod r -> k < fuel ->
    ring_walk r fuel ((p + i) mod r) q
    = map (fun j => (p + j) mod r) (seq i k).
Proof.
  intros Hp Hq Hne.
  destruct (ring_gap r p q Hp Hq Hne) as [Hd [Hend Hin]].
  induction k as [|k IH]; intros fuel i Hi Hfuel;
    (destruct fuel as [|fuel]; [lia|]); cbn [ring_walk seq map].
  - rewrite Nat.add_0_r in Hi. subst i. rewrite Hend, Nat.eqb_refl.
    reflexivity.
  - destruct (Nat.eqb_spec ((p + i) mod r) q) as [E | _].
    + exfalso. apply (Hin i); [lia | assumption].
    + f_equal. rewrite Nat.Div0.add_mod_idemp_l.
      replace (p + i + 1) with (p + S i) by lia.
      apply IH; lia.
Qed.

Lemma in_ring_arc (r p q a : nat) :
  p < r -> q < r -> p <> q ->
  (In a (ring_arc r p q) <-> ring_between r p q a).
Proof.
  intros Hp Hq Hne. unfold ring_arc, ring_between.
  destruct (ring_gap r p q Hp Hq Hne) as [Hd _].
  rewrite (ring_walk_spec r p q Hp Hq Hne ((q + r - p) mod r - 1) r 1)
    by lia.
  rewrite in_map_iff. split.
  - intros [i [<- Hi]]. apply in_seq in Hi. exists i. repeat split; lia.
  - intros [i [H1 [H2 ->]]]. exists i. split; [reflexivity|].
    apply in_seq. lia.
Qed.

Lemma fold_res_all {St A : Type} (P : St -> Prop) (Done : A -> St -> Prop)
  (body : St -> A -> res St) (xs : list A) :
  (forall st x st', P st -> In x xs -> body st x = Ok st' ->
     P st' /\ Done x st' /\ forall y, Done y st -> Done y st') ->
  forall st st', P st -> fold_res body xs st = Ok st' ->
    P st'
    /\ (forall x, In x xs -> Done x st')
    /\ (forall y, Done y st -> Done y st').
Proof.
  induction xs as [|x xs IH]; intros Hbody st st' Hst E; simpl in E.
  - inversion E; subst. repeat split; auto. intros x [].
  - apply bind_ok in E. destruct E as [st1 [E1 E2]].
    destruct (Hbody st x st1 Hst (or_introl eq_refl) E1) as [P1 [D1 K1]].
    destruct (IH (fun st y st' H Hy => Hbody st y st' H (or_intror Hy))
                st1 st' P1 E2) as [P' [D' K']].
    split; [assumption|]. split.
    + intros y [<- | Hy]; [apply K'; assumption | apply D'; assumption].
    + intros y Hy. apply K', K1. assumption.
Qed.

Lemma reaches_refl (VtoV : list (list nat)) (cut : list nat) (v : nat) :
  ~ In v cut -> reaches VtoV cut v v.
Proof.
  intros Hv. exists [v]. split.
  - split; [discriminate|]. repeat split.
  - intros x [<- | []]. assumption.
Qed.

Lemma reaches_step (VtoV : list (list nat)) (cut : list nat) (v u x : nat) :
  ~ In v cut -> In u (adj VtoV v) -> reaches VtoV cut u x ->
  reaches VtoV cut v x.
Proof.
  intros Hv Hu [w [[Hne [Hf [Hb Hp]]] Hav]].
  destruct w as [|a w]; [congruence|].
  unfold front in Hf. simpl in Hf. subst a.
  exists (v :: u :: w). split.
  - split; [discriminate|]. split; [reflexivity|].
    split; [rewrite back_cons; assumption|]. split; assumption.
  - intros y [<- | Hy]; [assumption | apply Hav; assumption].
Qed.

Lemma closed_in_incl (VtoV : list (list nat)) (cutset c1 c2 : list nat)
  (x : nat) :
  incl c1 c2 -> closed_in VtoV cutset c1 x -> closed_in VtoV cutset c2 x.
Proof.
  intros Hi Hc u Hu. destruct (Hc u Hu) as [H | H]; [left | right; apply Hi];
    assumption.
Qed.

Lemma getComponent_dfs_sound (n : nat) (VtoV : list (list nat))
  (cutset : list nat) :
  wf_graph n VtoV ->
  forall fuel v st st',
    getComponent_dfs VtoV fuel cutset v 0%Z st = Ok st' ->
    v < n -> component_inv n cutset st ->
    component_inv n cutset st'
    /\ incl (snd st) (snd st')
    /\ (In v cutset \/ In v (snd st'))
    /\ forall x, In x (snd st') -> ~ In x (snd st) ->
         reaches VtoV cutset v x /\ closed_in VtoV cutset (snd st') x.
Proof.
  intros Hwf.
  induction fuel as [|fuel IH]; intros v [cid comp] st' E Hv Hinv;
    cbn [getComponent_dfs] in E; [discriminate|].
  pose proof Hinv as [Hlen [Hmark [Hlt [Hnd Hcut]]]]. cbn [fst snd] in *.
  destruct (mem v cutset || negb (nth v cid (-1) =? -1)%Z) eqn:Em.
  - inversion E; subst st'. cbn [fst snd].
    split; [assumption|]. split; [apply incl_refl|]. split.
    + apply orb_true_iff in Em. destruct Em as [Em | Em].
      * left. apply mem_true_iff. assumption.
      * right. apply Hmark; [assumption|].
        apply negb_true_iff, Z.eqb_neq in Em. assumption.
    + intros x H1 H2. contradiction.
  - apply orb_false_iff in Em. destruct Em as [Em1 Em2].
    apply negb_false_iff, Z.eqb_eq in Em2.
    assert (Hvc : ~ In v cutset).
    { intros H. apply mem_true_iff in H. congruence. }
    assert (Hvn : ~ In v comp).
    { intros H. apply Hmark in H; [|assumption]. contradiction. }
    assert (Hinv1 : component_inv n cutset (vset cid v 0%Z, comp ++ [v])).
    { unfold component_inv. cbn [fst snd].
      split; [rewrite length_vset; assumption|]. split; [|split; [|split]].
      - intros x Hx. rewrite nth_vset_cases by lia.
        rewrite in_app_iff. simpl.
        destruct (Nat.eqb_spec x v) as [->|Hxv].
        + split; [auto | intros _; discriminate].
        + rewrite Hmark by assumption. intuition. congruence.
      - intros x Hx. apply in_app_iff in Hx.
        destruct Hx as [Hx | [<- | []]]; auto.
      - apply NoDup_app; [assumption | repeat constructor; intros [] |].
        intros x Hx [<- | []]. contradiction.
      - intros x Hx. apply in_app_iff in Hx.
        destruct Hx as [Hx | [<- | []]]; auto. }
    destruct (fold_res_all
                (fun st : list Z * list nat =>
                   component_inv n cutset st
                   /\ incl (comp ++ [v]) (snd st)
                   /\ forall x, In x (snd st) -> ~ In x (comp ++ [v]) ->
                        reaches VtoV cutset v x
                        /\ closed_in VtoV cutset (snd st) x)
                (fun u (st : list Z * list nat) =>
                   In u cutset \/ In u (snd st))
                (fun st u => getComponent_dfs VtoV fuel cutset u 0%Z st)
                (adj VtoV v)) with (st := (vset cid v 0%Z, comp ++ [v]))
                                   (st' := st')
      as [[Hinv' [Hincl' Hnew']] [Hdone _]].
    + intros stc u stn [Hic [Hinc Hnewc]] Hu Eu.
      assert (Hun : u < n) by (eapply (proj2 Hwf); eassumption).
      destruct (IH u stc stn Eu Hun Hic) as [K1 [K2 [K3 K4]]].
      split; [split; [assumption | split]|split].
      * intros x Hx. apply K2, Hinc. assumption.
      * intros x Hx Hnx.
        destruct (in_dec Nat.eq_dec x (snd stc)) as [Hold | Hnew].
        -- destruct (Hnewc x Hold Hnx) as [R C]. split; [assumption|].
           apply (closed_in_incl VtoV cutset (snd stc)); assumption.
        -- destruct (K4 x Hx Hnew) as [R C]. split; [|assumption].
           apply (reaches_step VtoV cutset v u x); assumption.
      * assumption.
      * intros y [Hy | Hy]; [left | right; apply K2]; assumption.
    + split; [assumption|]. split; [apply incl_refl|].
      cbn [snd]. intros x H1 H2. contradiction.
    + assumption.
    + split; [assumption|]. split.
      { intros x Hx. apply Hincl'. apply in_app_iff. left. assumption. }
      assert (Hv' : In v (snd st')).
      { apply Hincl'. apply in_app_iff. right. left. reflexivity. }
      split; [right; assumption|].
      intros x Hx Hnx. destruct (Nat.eq_dec x v) as [->|Hxv].
      * split; [apply reaches_refl; assumption|]. exact Hdone.
      * apply Hnew'; [assumption|]. rewrite in_app_iff.
        intros [H | [H | []]]; [contradiction | congruence].
Qed.

Lemma reaches_closed (VtoV : list (list nat)) (cut comp : list nat) :
  (forall x, In x comp -> closed_in VtoV cut comp x) ->
  forall w a v,
    path_from_to VtoV a v w -> (forall x, In x w -> ~ In x cut) ->
    In a comp -> In v comp.
Proof.
  intros Hclosed. induction w as [|x [|y w] IH]; intros a v [Hne [Hf [Hb Hp]]] Hav Ha.
  - congruence.
  - unfold front, back in *. simpl in *. subst. assumption.
  - unfold front in Hf. simpl in Hf. subst x. destruct Hp as [Hy Hp].
    apply (IH y v).
    + split; [discriminate|]. split; [reflexivity|]. split; assumption.
    + intros z Hz. apply Hav. right. assumption.
    + destruct (Hclosed a Ha y Hy) as [H | H]; [|assumption].
      exfalso. apply (Hav y); [right; left; reflexivity | assumption].
Qed.

Lemma reaches_same_members (VtoV : list (list nat)) (c1 c2 : list nat)
  (a v : nat) :
  (forall x, In x c1 <-> In x c2) ->
  reaches VtoV c1 a v -> reaches VtoV c2 a v.
Proof.
  intros H [w [Hw Hav]]. exists w. split; [assumption|].
  intros x Hx Hc. apply (Hav x Hx). apply H. assumption.
Qed.

Lemma getComponent_sound (n r : nat) (VtoV : list (list nat))
  (path comp : list nat) :
  wf_graph n VtoV -> r <= n ->
  getComponent n r VtoV path = Ok comp ->
  front path <> back path /\ front path < r /\ back path < r
  /\ NoDup comp
  /\ forall v, In v comp
               <-> exists a, ring_between r (front path) (back path) a
                             /\ reaches VtoV path a v.
Proof.
  intros Hwf Hrn E. unfold getComponent in E.
  apply bind_ok in E. destruct E as [[] [Ea E]].
  apply assert_ok in Ea. apply andb_true_iff in Ea. destruct Ea as [Ea Hq].
  apply andb_true_iff in Ea. destruct Ea as [Hne Hp].
  apply negb_true_iff, Nat.eqb_neq in Hne.
  apply Nat.ltb_lt in Hp. apply Nat.ltb_lt in Hq.
  apply bind_ok in E. destruct E as [st' [E Ec]]. inversion Ec; subst comp.
  set (cutset := set_of_list path) in *.
  set (arc := ring_arc r (front path) (back path)) in *.
  assert (Harc : forall a, In a arc -> a < n).
  { intros a Ha. apply in_ring_arc in Ha; try assumption.
    destruct Ha as [i [_ [_ ->]]].
    pose proof (Nat.mod_upper_bound (front path + i) r). lia. }
  destruct (fold_res_all
              (fun st : list Z * list nat =>
                 component_inv n cutset st
                 /\ forall x, In x (snd st) ->
                      (exists a, In a arc /\ reaches VtoV cutset a x)
                      /\ closed_in VtoV cutset (snd st) x)
              (fun a (st : list Z * list nat) =>
                 In a cutset \/ In a (snd st))
              (fun st v => getComponent_dfs VtoV (S n) cutset v 0%Z st)
              arc) with (st := (repeat (-1)%Z n, @nil nat)) (st' := st')
    as [[Hinv Hall] [Hdone _]].
  - intros stc a stn [Hic Hallc] Ha Es.
    destruct (getComponent_dfs_sound n VtoV cutset Hwf (S n) a stc stn Es
                (Harc a Ha) Hic) as [K1 [K2 [K3 K4]]].
    split; [split; [assumption|]|split].
    + intros x Hx. destruct (in_dec Nat.eq_dec x (snd stc)) as [Hold | Hnew].
      * destruct (Hallc x Hold) as [R C]. split; [assumption|].
        apply (closed_in_incl VtoV cutset (snd stc)); assumption.
      * destruct (K4 x Hx Hnew) as [R C]. split; [|assumption].
        exists a. split; assumption.
    + assumption.
    + intros y [Hy | Hy]; [left | right; apply K2]; assumption.
  - split.
    + unfold component_inv. cbn [fst snd].
      split; [apply repeat_length|]. split; [|split; [|split]].
      * intros v Hv. rewrite nth_repeat_lt by assumption. simpl. intuition.
      * intros v [].
      * constructor.
      * intros v [].
    + intros x [].
  - assumption.
  - split; [assumption|]. split; [assumption|]. split; [assumption|].
    split; [apply Hinv|].
    assert (Hsame : forall x, In x cutset <-> In x path)
      by (intros x; apply in_set_of_list).
    intros v. split.
    + intros Hv. destruct (Hall v Hv) as [[a [Ha R]] _]. exists a. split.
      * apply in_ring_arc; assumption.
      * apply (reaches_same_members VtoV cutset path); assumption.
    + intros [a [Ha R]].
      apply (reaches_same_members VtoV path cutset) in R;
        [|intros x; symmetry; apply Hsame].
      apply in_ring_arc in Ha; try assumption.
      destruct R as [w [Hw Hav]].
      apply (reaches_closed VtoV cutset (snd st')
               (fun x Hx => proj2 (Hall x Hx)) w a v Hw Hav).
      destruct (Hdone a Ha) as [Hc | Hc]; [|assumption].
      exfalso. apply (Hav a); [|assumption].
      destruct Hw as [Hne' [Hf _]]. destruct w; [congruence|].
      unfold front in Hf. simpl in Hf. subst. left. reflexivity.
Qed.

(** X2: on a graph whose ring is part of its vertices, [getComponent]
    called on a path with at least one vertex aborts at its assertion
    exactly when the ends of the path coincide or are not ring vertices;
    otherwise it returns, without repetition, exactly the vertices that
    can be reached, without meeting the path, from a ring vertex strictly
    between the first and the last vertex of the path.  (On an empty
    vector the source reads [pqpath[0]] before the assertion; that call
    is outside the statement.) *)
Theorem getComponent_exact (n r : nat) (VtoV : list (list nat))
  (path : list nat) :
  wf_graph n VtoV -> r <= n -> path <> [] ->
  (front path = back path \/ r <= front path \/ r <= back path ->
   getComponent n r VtoV path = AssertFail)
  /\ (front path <> back path -> front path < r -> back path < r ->
      exists comp,
        getComponent n r VtoV path = Ok comp
        /\ NoDup comp
        /\ forall v, In v comp
                     <-> exists a, ring_between r (front path) (back path) a
                                   /\ reaches VtoV path a v).
Proof.
  intros Hwf Hrn _. split.
  - intros H. unfold getComponent.
    assert (Hb : negb (front path =? back path) && (front path <? r)
                 && (back path <? r) = false).
    { destruct (Nat.eqb_spec (front path) (back path));
        destruct (Nat.ltb_spec (front path) r);
        destruct (Nat.ltb_spec (back path) r); try reflexivity.
      exfalso. lia. }
    rewrite Hb. reflexivity.
  - intros Hne Hp Hq.
    destruct (getComponent_total n r VtoV path (proj1 Hwf) Hne Hp Hq)
      as [comp E].
    exists comp. split; [assumption|].
    apply (getComponent_sound n r VtoV path comp Hwf Hrn E).
Qed.

Lemma getComponent_exact_witness :
  getComponent 8 6 wheel_adj [0; 6; 0] = AssertFail
  /\ exists comp,
       getComponent 8 6 wheel_adj [0; 6; 3] = Ok comp
       /\ NoDup comp
       /\ forall v, In v comp
                    <-> exists a, ring_between 6 0 3 a
                                  /\ reaches wheel_adj [0; 6; 3] a v.
Proof.
  assert (Hwf : wf_graph 8 wheel_adj) by (apply wf_graphb_sound; reflexivity).
  split.
  - apply (proj1 (getComponent_exact 8 6 wheel_adj [0; 6; 0] Hwf
                    ltac:(lia) ltac:(discriminate))).
    left. reflexivity.
  - apply (proj2 (getComponent_exact 8 6 wheel_adj [0; 6; 3] Hwf
                    ltac:(lia) ltac:(discriminate)));
      unfold front, back; simpl; lia.
Defined.

Example getComponent_wheel :
  getComponent 8 6 wheel_adj [0; 6; 3] = Ok [1; 2; 7]
  /\ getComponent 8 6 wheel_adj [3; 6; 0] = Ok [4; 5]
  /\ getComponent 8 6 wheel_adj [3] = AssertFail
  /\ getComponent 8 6 wheel_adj [0; 6] = AssertFail.
Proof. repeat split. Qed.

(** ** The sizes [sizeOfVertices] reports *)

Lemma count_sides_acc (r : nat) (comp : list nat) (s t : Z) :
  fold_left
    (fun '(s, t) (v : nat) =>
       if (v <? r)%nat then ((s + 1)%Z, t)
       else if (r <=? v)%nat then (s, (t + 1)%Z) else (s, t))
    comp (s, t)
  = ((s + Z.of_nat (length (filter (fun v => (v <? r)%nat) comp)))%Z,
     (t + Z.of_nat (length (filter (fun v => (r <=? v)%nat) comp)))%Z).
Proof.
  revert s t. induction comp as [|v comp IH]; intros s t; cbn [fold_left filter].
  - simpl. f_equal; lia.
  - destruct (Nat.ltb_spec v r) as [Hlt | Hge].
    + rewrite IH. destruct (Nat.leb_spec r v); [lia|].
      cbn [length]. f_equal; lia.
    + destruct (Nat.leb_spec r v); [|lia].
      rewrite IH. cbn [length]. f_equal; lia.
Qed.

Lemma count_sides_spec (r : nat) (comp : list nat) :
  count_sides r comp
  = (Z.of_nat (length (filter (fun v => v <? r) comp)),
     Z.of_nat (length (filter (fun v => r <=? v) comp))).
Proof. unfold count_sides. rewrite count_sides_acc. reflexivity. Qed.

Lemma length_filter_split (r : nat) (comp : list nat) :
  length (filter (fun v => v <? r) comp)
  + length (filter (fun v => r <=? v) comp) = length comp.
Proof.
  induction comp as [|v comp IH]; [reflexivity|]. cbn [filter].
  destruct (Nat.ltb_spec v r); destruct (Nat.leb_spec r v); try lia;
    cbn [length]; lia.
Qed.

Lemma front_in (p : list nat) : p <> [] -> In (front p) p.
Proof. destruct p; [congruence|]. intros _. left. reflexivity. Qed.

Lemma ends_differ_nonempty (path : list nat) :
  front path <> back path -> path <> [].
Proof. intros H ->. apply H. reflexivity. Qed.

(** The members of a component are vertices off the path. *)
Lemma getComponent_members (n r : nat) (VtoV : list (list nat))
  (path comp : list nat) :
  wf_graph n VtoV -> r <= n ->
  getComponent n r VtoV path = Ok comp ->
  forall v, In v comp -> v < n /\ ~ In v path.
Proof.
  intros Hwf Hrn E v Hv.
  destruct (getComponent_sound n r VtoV path comp Hwf Hrn E)
    as [Hne [Hp [Hq [_ Hin]]]].
  apply Hin in Hv. destruct Hv as [a [[i [_ [_ Ha]]] [w [Hw Hav]]]].
  pose proof Hw as [Hwne [Hf [Hb Hpath]]].
  assert (Hvw : In v w) by (rewrite <- Hb; apply back_in; assumption).
  split; [|apply Hav; assumption].
  apply (path_vertices_lt n VtoV w Hwf Hwne); [|assumption | assumption].
  rewrite Hf, Ha. pose proof (Nat.mod_upper_bound (front path + i) r). lia.
Qed.

(** X3: the pair [(s, t)] that [sizeOfVertices] returns counts the ring
    vertices and the other vertices of the component of [getComponent];
    together they are the whole component, at most [r - 2] ring vertices
    (the two ends of the path are never counted) and at most [n - r]
    others. *)
Theorem sizeOfVertices_bounds (n r : nat) (VtoV : list (list nat))
  (path : list nat) (s t : Z) :
  wf_graph n VtoV -> r <= n ->
  sizeOfVertices n r VtoV path = Ok (s, t) ->
  exists comp,
    getComponent n r VtoV path = Ok comp
    /\ s = Z.of_nat (length (filter (fun v => v <? r) comp))
    /\ t = Z.of_nat (length (filter (fun v => r <=? v) comp))
    /\ (s + t = Z.of_nat (length comp))%Z
    /\ (0 <= s <= Z.of_nat r - 2)%Z
    /\ (0 <= t <= Z.of_nat n - Z.of_nat r)%Z.
Proof.
  intros Hwf Hrn E. unfold sizeOfVertices in E.
  apply bind_ok in E. destruct E as [comp [Ec E]].
  rewrite count_sides_spec in E. inversion E as [[Hs Ht]]. clear E.
  exists comp. split; [assumption|]. split; [reflexivity|].
  split; [reflexivity|].
  pose proof (length_filter_split r comp) as Hsplit.
  split; [lia|].
  destruct (getComponent_sound n r VtoV path comp Hwf Hrn Ec)
    as [Hne [Hp [Hq [Hnd _]]]].
  pose proof (getComponent_members n r VtoV path comp Hwf Hrn Ec) as Hmem.
  pose proof (ends_differ_nonempty path Hne) as Hpath.
  set (ring := filter (fun v => v <? r) comp) in *.
  set (inner := filter (fun v => r <=? v) comp) in *.
  assert (Hring : length (front path :: back path :: ring) <= length (seq 0 r)).
  { apply NoDup_incl_length.
    - constructor; [|constructor; [|apply NoDup_filter; assumption]].
      + intros [H | H]; [congruence|].
        apply filter_In in H. destruct H as [H _].
        apply (proj2 (Hmem _ H)). apply front_in. assumption.
      + intros H. apply filter_In in H. destruct H as [H _].
        apply (proj2 (Hmem _ H)). apply back_in. assumption.
    - intros x [<- | [<- | H]]; apply in_seq; [lia | lia |].
      apply filter_In in H. destruct H as [_ H]. apply Nat.ltb_lt in H. lia. }
  assert (Hinner : length inner <= length (seq r (n - r))).
  { apply NoDup_incl_length; [apply NoDup_filter; assumption|].
    intros x H. apply filter_In in H. destruct H as [H1 H2].
    apply Nat.leb_le in H2. apply in_seq. pose proof (proj1 (Hmem _ H1)). lia. }
  rewrite length_seq in Hring, Hinner. cbn [length] in Hring. lia.
Qed.

Lemma sizeOfVertices_bounds_witness :
  exists comp,
    getComponent 8 6 wheel_adj [0; 6; 3] = Ok comp
    /\ 2%Z = Z.of_nat (length (filter (fun v => v <? 6) comp))
    /\ 1%Z = Z.of_nat (length (filter (fun v => 6 <=? v) comp))
    /\ (2 + 1 = Z.of_nat (length comp))%Z
    /\ (0 <= 2 <= Z.of_nat 6 - 2)%Z
    /\ (0 <= 1 <= Z.of_nat 8 - Z.of_nat 6)%Z.
Proof.
  apply (sizeOfVertices_bounds 8 6 wheel_adj [0; 6; 3] 2 1).
  - apply wf_graphb_sound. reflexivity.
  - lia.
  - reflexivity.
Defined.

(** ** The two-path variants of [getComponent] *)

Lemma ascending_lower (a : nat) (l : list nat) :
  ascending (a :: l) -> forall x, In x l -> a < x.
Proof.
  revert a. induction l as [|b l IH]; intros a H x Hx; [destruct Hx|].
  destruct H as [Hab H]. destruct Hx as [<- | Hx]; [assumption|].
  pose proof (IH b H x Hx). lia.
Qed.

Lemma ascending_tail (a : nat) (l : list nat) :
  ascending (a :: l) -> ascending l.
Proof. destruct l; [intros; exact I | intros [_ H]; assumption]. Qed.

Lemma ascending_NoDup (l : list nat) : ascending l -> NoDup l.
Proof.
  induction l as [|a l IH]; intros H; constructor.
  - intros Hin. pose proof (ascending_lower a l H a Hin). lia.
  - apply IH. apply (ascending_tail a). assumption.
Qed.

Lemma ascending_set_insert (x : nat) (s : list nat) :
  ascending s -> ascending (set_insert x s).
Proof.
  induction s as [|y s IH]; intros H; [exact I|]. cbn [set_insert].
  destruct (Nat.ltb_spec x y) as [Hlt | Hge]; [split; assumption|].
  destruct (Nat.eqb_spec x y) as [->|Hne]; [assumption|].
  pose proof (IH (ascending_tail y s H)) as IH'.
  pose proof (ascending_lower y s H) as Hlow.
  destruct (set_insert x s) as [|z s'] eqn:E; [exact I|].
  split; [|assumption].
  assert (Hz : In z (set_insert x s)) by (rewrite E; left; reflexivity).
  apply in_set_insert in Hz. destruct Hz as [-> | Hz]; [lia | auto].
Qed.

Lemma ascending_set_of_list (l : list nat) : ascending (set_of_list l).
Proof.
  unfold set_of_list.
  apply (fold_left_invariant ascending (fun s x => set_insert x s) l);
    [|exact I].
  intros s x H _. apply ascending_set_insert. assumption.
Qed.

Lemma in_set_erase (x y : nat) (s : list nat) :
  In y (set_erase x s) <-> In y s /\ y <> x.
Proof.
  unfold set_erase. rewrite filter_In.
  destruct (Nat.eqb_spec x y); simpl; intuition congruence.
Qed.

(** The loop of [getComponent2] over the second component, and the loop
    that appends what is left of the first. *)
Lemma getComponent2_loop (c1 c2 : list nat) :
  NoDup c2 ->
  let '(component2, component) :=
    fold_left
      (fun '(component2, component) v =>
         if mem v component2 then (set_erase v component2, component)
         else (component2, component ++ [v]))
      c2 (set_of_list c1, []) in
  NoDup (component ++ component2)
  /\ forall v, In v (component ++ component2)
               <-> (In v c1 /\ ~ In v c2) \/ (In v c2 /\ ~ In v c1).
Proof.
  intros Hnd.
  assert (H : forall l2 l1 s comp,
             NoDup (l1 ++ l2) -> NoDup s -> NoDup comp ->
             (forall v, In v s <-> In v c1 /\ ~ In v l1) ->
             (forall v, In v comp <-> In v l1 /\ ~ In v c1) ->
             let '(component2, component) :=
               fold_left
                 (fun '(component2, component) v =>
                    if mem v component2 then (set_erase v component2, component)
                    else (component2, component ++ [v]))
                 l2 (s, comp) in
             NoDup component2 /\ NoDup component
             /\ (forall v, In v component2
                           <-> In v c1 /\ ~ In v (l1 ++ l2))
             /\ (forall v, In v component
                           <-> In v (l1 ++ l2) /\ ~ In v c1)).
  { induction l2 as [|x l2 IH]; intros l1 s comp Hl Hs Hc Hins Hinc.
    - cbn [fold_left]. rewrite app_nil_r. auto.
    - cbn [fold_left].
      assert (Hx : ~ In x l1).
      { apply NoDup_remove_2 in Hl. intros H. apply Hl.
        apply in_app_iff. left. assumption. }
      assert (E : l1 ++ x :: l2 = (l1 ++ [x]) ++ l2)
        by (rewrite <- app_assoc; reflexivity).
      rewrite E in *.
      destruct (mem x s) eqn:Em.
      + apply mem_true_iff in Em.
        apply (IH (l1 ++ [x])); try assumption.
        * unfold set_erase. apply NoDup_filter. assumption.
        * intros v. rewrite in_set_erase, Hins, in_app_iff. simpl.
          intuition congruence.
        * intros v. rewrite Hinc, in_app_iff. simpl.
          apply Hins in Em. intuition. subst. tauto.
      + assert (Hxs : ~ In x s).
        { intros H. apply mem_true_iff in H. congruence. }
        apply (IH (l1 ++ [x])); try assumption.
        * apply NoDup_app; [assumption | repeat constructor; intros [] |].
          intros v Hv [<- | []]. apply Hinc in Hv. tauto.
        * intros v. rewrite Hins, in_app_iff. simpl.
          split; [|tauto]. intros [H1 H2]. split; [assumption|].
          intros [H | [<- | []]]; [tauto|].
          apply Hxs, Hins. tauto.
        * intros v. rewrite !in_app_iff, Hinc. simpl.
          split; [|tauto].
          intros [[H1 H2] | [<- | []]]; [tauto|].
          split; [tauto|]. intros H. apply Hxs, Hins. tauto. }
  specialize (H c2 [] (set_of_list c1) [] Hnd
                (ascending_NoDup _ (ascending_set_of_list c1))
                (NoDup_nil _)).
  cbn [app] in H.
  destruct (fold_left _ c2 (set_of_list c1, [])) as [component2 component].
  destruct H as [K1 [K2 [K3 K4]]].
  - intros v. rewrite in_set_of_list. tauto.
  - intros v. simpl. tauto.
  - split.
    + apply NoDup_app; [assumption | assumption |].
      intros v Hv Hv'. apply K4 in Hv. apply K3 in Hv'. tauto.
    + intros v. rewrite in_app_iff, K3, K4. tauto.
Qed.

(** X4: the two-path variants combine the components of the single paths.
    [getComponent(path1, path2)] is the component of the reversed [path2]
    without the members of the component of [path1]; [getComponent2] is
    made of the vertices that lie in exactly one of the components of
    [path1] and [path2].  Neither lists a vertex twice. *)
Theorem getComponent_two_paths (n r : nat) (VtoV : list (list nat))
  (path1 path2 : list nat) :
  wf_graph n VtoV -> r <= n ->
  (forall comp,
     getComponent_pair n r VtoV path1 path2 = Ok comp ->
     exists c1 c2,
       getComponent n r VtoV path1 = Ok c1
       /\ getComponent n r VtoV (rev path2) = Ok c2
       /\ NoDup comp
       /\ forall v, In v comp <-> In v c2 /\ ~ In v c1)
  /\ (forall comp,
        getComponent2 n r VtoV path1 path2 = Ok comp ->
        exists c1 c2,
          getComponent n r VtoV path1 = Ok c1
          /\ getComponent n r VtoV path2 = Ok c2
          /\ NoDup comp
          /\ forall v, In v comp
                       <-> (In v c1 /\ ~ In v c2) \/ (In v c2 /\ ~ In v c1)).
Proof.
  intros Hwf Hrn. split; intros comp E.
  - unfold getComponent_pair in E.
    apply bind_ok in E. destruct E as [c1 [E1 E]].
    apply bind_ok in E. destruct E as [c2 [E2 E]].
    inversion E; subst comp. exists c1, c2.
    split; [assumption|]. split; [assumption|].
    pose proof (getComponent_sound n r VtoV _ c2 Hwf Hrn E2)
      as [_ [_ [_ [Hnd _]]]].
    split; [apply NoDup_filter; assumption|].
    intros v. rewrite filter_In, negb_true_iff.
    destruct (mem v (set_of_list c1)) eqn:Em.
    + apply mem_true_iff in Em. apply (proj1 (in_set_of_list c1 v)) in Em.
      split; [intros [_ H]; discriminate | intros [_ H]; contradiction].
    + split; [|tauto]. intros [H _]. split; [assumption|].
      intros Hc. apply (proj2 (in_set_of_list c1 v)) in Hc.
      apply mem_true_iff in Hc. congruence.
  - unfold getComponent2 in E.
    apply bind_ok in E. destruct E as [c1 [E1 E]].
    apply bind_ok in E. destruct E as [c2 [E2 E]].
    pose proof (getComponent_sound n r VtoV _ c2 Hwf Hrn E2)
      as [_ [_ [_ [Hnd _]]]].
    pose proof (getComponent2_loop c1 c2 Hnd) as Hloop.
    destruct (fold_left _ c2 (set_of_list c1, [])) as [component2 component].
    inversion E; subst comp. exists c1, c2.
    split; [assumption|]. split; [assumption|]. exact Hloop.
Qed.

Lemma getComponent_two_paths_witness :
  (forall comp,
     getComponent_pair 8 6 wheel_adj [0; 6; 3] [4; 6; 1] = Ok comp ->
     exists c1 c2,
       getComponent 8 6 wheel_adj [0; 6; 3] = Ok c1
       /\ getComponent 8 6 wheel_adj (rev [4; 6; 1]) = Ok c2
       /\ NoDup comp
       /\ forall v, In v comp <-> In v c2 /\ ~ In v c1)
  /\ (forall comp,
        getComponent2 8 6 wheel_adj [0; 6; 3] [4; 6; 1] = Ok comp ->
        exists c1 c2,
          getComponent 8 6 wheel_adj [0; 6; 3] = Ok c1
          /\ getComponent 8 6 wheel_adj [4; 6; 1] = Ok c2
          /\ NoDup comp
          /\ forall v, In v comp
                       <-> (In v c1 /\ ~ In v c2) \/ (In v c2 /\ ~ In v c1)).
Proof.
  apply getComponent_two_paths.
  - apply wf_graphb_sound. reflexivity.
  - lia.
Defined.

Example getComponent2_wheel :
  getComponent_pair 8 6 wheel_adj [0; 6; 3] [4; 6; 1] = Ok [3]
  /\ getComponent2 8 6 wheel_adj [0; 6; 3] [4; 6; 1] = Ok [5; 0; 1; 2].
Proof. repeat split. Qed.

(** ** [calcRepresentative]: the least vertex of each class *)

Lemma find_seq_least (f : nat -> bool) (n a u : nat) :
  find f (seq a n) = Some u ->
  a <= u < a + n /\ f u = true /\ forall w, a <= w < u -> f w = false.
Proof.
  revert a. induction n as [|n IH]; intros a E; [discriminate|].
  cbn [seq find] in E. destruct (f a) eqn:Ea.
  - inversion E; subst. split; [lia|]. split; [assumption|]. intros w Hw. lia.
  - destruct (IH (S a) E) as [H1 [H2 H3]].
    split; [lia|]. split; [assumption|].
    intros w Hw. destruct (Nat.eq_dec w a) as [->|]; [assumption|].
    apply H3. lia.
Qed.

Lemma representative_least (n : nat) (dc : matrix) (v : nat) :
  v < n -> mget dc v v = 0%Z ->
  exists k,
    nth v (calcRepresentative n dc) (-1)%Z = Z.of_nat k
    /\ k <= v /\ mget dc k v = 0%Z
    /\ forall w, w < k -> mget dc w v <> 0%Z.
Proof.
  intros Hv Hd. rewrite calcRepresentative_nth by assumption.
  destruct (find (fun u => equivalent dc v u) (seq 0 n)) as [k|] eqn:E.
  - apply find_seq_least in E. destruct E as [H1 [H2 H3]].
    unfold equivalent in *. apply Z.eqb_eq in H2.
    exists k. split; [reflexivity|]. split.
    + destruct (Nat.le_gt_cases k v) as [|Hgt]; [assumption|].
      specialize (H3 v ltac:(lia)). apply Z.eqb_neq in H3. contradiction.
    + split; [assumption|]. intros w Hw. apply Z.eqb_neq, H3. lia.
  - exfalso. pose proof (find_none _ _ E v) as H.
    unfold equivalent in H. rewrite Hd in H.
    specialize (H ltac:(apply in_seq; lia)). discriminate.
Qed.

Lemma zero_class (n : nat) (dc : matrix) (u v w : nat) :
  is_metric n dc -> nonneg n dc -> u < n -> v < n -> w < n ->
  mget dc u v = 0%Z -> (mget dc w u = 0%Z <-> mget dc w v = 0%Z).
Proof.
  intros [Hsym [_ Htri]] Hnn Hu Hv Hw Huv.
  pose proof (Hnn w u Hw Hu). pose proof (Hnn w v Hw Hv).
  pose proof (Htri w u v Hw Hu Hv). pose proof (Htri w v u Hw Hv Hu).
  pose proof (Hsym u v Hu Hv). lia.
Qed.

Lemma representative_classes (n : nat) (dc : matrix) :
  is_metric n dc -> nonneg n dc ->
  forall v, v < n ->
    exists k,
      nth v (calcRepresentative n dc) (-1)%Z = Z.of_nat k
      /\ k <= v /\ mget dc k v = 0%Z
      /\ (forall w, w < k -> mget dc w v <> 0%Z)
      /\ nth k (calcRepresentative n dc) (-1)%Z = Z.of_nat k
      /\ forall u, u < n ->
           (nth u (calcRepresentative n dc) (-1)%Z = Z.of_nat k
            <-> mget dc u v = 0%Z).
Proof.
  intros Hm Hnn v Hv. pose proof Hm as [Hsym [Hdiag Htri]].
  destruct (representative_least n dc v Hv (Hdiag v Hv))
    as [k [Ek [Hkv [Hk0 Hkmin]]]].
  assert (Hk : k < n) by lia.
  assert (Hclass : forall u, u < n ->
            (nth u (calcRepresentative n dc) (-1)%Z = Z.of_nat k
             <-> mget dc u v = 0%Z)).
  { intros u Hu.
    destruct (representative_least n dc u Hu (Hdiag u Hu))
      as [j [Ej [Hju [Hj0 Hjmin]]]].
    assert (Hj : j < n) by lia.
    rewrite Ej. split.
    - intros E. apply Nat2Z.inj in E. subst j.
      pose proof (Hsym u k Hu Hk) as S1.
      pose proof (Htri u k v Hu Hk Hv). pose proof (Hnn u v Hu Hv). lia.
    - intros Huv. f_equal.
      destruct (Nat.lt_trichotomy j k) as [Hlt | [E | Hgt]]; [|assumption|].
      + exfalso. apply (Hkmin j Hlt).
        apply (zero_class n dc u v j Hm Hnn Hu Hv Hj Huv). assumption.
      + exfalso. apply (Hjmin k Hgt).
        apply (zero_class n dc u v k Hm Hnn Hu Hv Hk Huv). assumption. }
  exists k. split; [assumption|]. split; [assumption|].
  split; [assumption|]. split; [assumption|]. split; [|assumption].
  apply Hclass; assumption.
Qed.

Lemma WF_nonneg (n : nat) (VtoV : list (list nat)) (contract : list (nat * nat))
  (flag : bool) (d : matrix) :
  wf_graph n VtoV -> WF n VtoV contract flag = Ok d -> nonneg n d.
Proof.
  intros Hwf E.
  destruct (WF_start n VtoV contract flag d Hwf E) as [d0 [-> [Hs [Hnn _]]]].
  apply (WF_relax_spec n d0 Hs Hnn).
Qed.

(** X5: for the distances [WF] returns on an undirected graph without
    loops, [calcRepresentative] gives every vertex [v] the least vertex
    [k] at distance 0 from it; [k] is at most [v], is its own
    representative, and the vertices with representative [k] are exactly
    those at distance 0 from [v]. *)
Theorem representative_canonical (n : nat) (VtoV : list (list nat))
  (contract : list (nat * nat)) (flag : bool) (d : matrix) :
  wf_graph n VtoV -> undirected VtoV -> loop_free VtoV ->
  WF n VtoV contract flag = Ok d ->
  forall v, v < n ->
    exists k,
      nth v (calcRepresentative n d) (-1)%Z = Z.of_nat k
      /\ k <= v /\ mget d k v = 0%Z
      /\ (forall w, w < k -> mget d w v <> 0%Z)
      /\ nth k (calcRepresentative n d) (-1)%Z = Z.of_nat k
      /\ forall u, u < n ->
           (nth u (calcRepresentative n d) (-1)%Z = Z.of_nat k
            <-> mget d u v = 0%Z).
Proof.
  intros Hwf Hu Hl E.
  apply representative_classes.
  - apply (WF_metric n VtoV contract flag d); assumption.
  - apply (WF_nonneg n VtoV contract flag d); assumption.
Qed.

Lemma representative_canonical_witness :
  exists d,
    WF 8 wheel_adj [(7, 0); (6, 3)] true = Ok d
    /\ forall v, v < 8 ->
         exists k,
           nth v (calcRepresentative 8 d) (-1)%Z = Z.of_nat k
           /\ k <= v /\ mget d k v = 0%Z
           /\ (forall w, w < k -> mget d w v <> 0%Z)
           /\ nth k (calcRepresentative 8 d) (-1)%Z = Z.of_nat k
           /\ forall u, u < 8 ->
                (nth u (calcRepresentative 8 d) (-1)%Z = Z.of_nat k
                 <-> mget d u v = 0%Z).
Proof.
  eexists. split; [vm_compute; reflexivity|].
  apply (representative_canonical 8 wheel_adj [(7, 0); (6, 3)] true).
  - apply wf_graphb_sound. vm_compute. reflexivity.
  - apply undirectedb_sound. vm_compute. reflexivity.
  - apply loop_freeb_sound. vm_compute. reflexivity.
  - vm_compute. reflexivity.
Defined.

Example calcRepresentative_wheel :
  exists d,
    WF 8 wheel_adj [(7, 0); (6, 3)] true = Ok d
    /\ calcRepresentative 8 d = [0; 1; 2; 3; 4; 5; 3; 0]%Z.
Proof. eexists. split; vm_compute; reflexivity. Qed.

(** ** [WF]: the entries are the weights of the lightest walks *)

Lemma WF_contract_entries (n : nat) :
  forall contract d d',
    mshape n n d -> WF_contract contract d = Ok d' ->
    mshape n n d'
    /\ forall u v, u < n -> v < n ->
         mget d' u v = if zeroed contract u v then 0%Z else mget d u v.
Proof.
  induction contract as [|e contract IH]; intros d d' Hs E.
  - inversion E; subst. split; [assumption|]. intros u v _ _.
    rewrite zeroed_nil. reflexivity.
  - unfold WF_contract in E. cbn [fold_res] in E.
    apply bind_ok in E. destruct E as [d1 [E1 E]].
    apply bind_ok in E1. destruct E1 as [[] [Ea E1]].
    apply assert_ok, Z.eqb_eq in Ea. inversion E1; subst d1. clear E1.
    destruct e as [a b]. cbn [fst snd] in *.
    assert (Hab : a < n /\ b < n).
    { destruct (Nat.lt_ge_cases a n) as [Ha | Ha];
        destruct (Nat.lt_ge_cases b n) as [Hb | Hb]; [auto | | |];
        rewrite (mget_out_of_range n n d a b Hs) in Ea by lia; discriminate. }
    destruct Hab as [Ha Hb].
    assert (Hs1 : mshape n n (mset (mset d a b 0%Z) b a 0%Z))
      by (apply mshape_mset, mshape_mset; assumption).
    destruct (IH _ d' Hs1 E) as [Hs' Hent]. split; [assumption|].
    intros u v Hu Hv. rewrite Hent by assumption.
    rewrite zeroed_cons. cbn [fst snd].
    rewrite (mget_zero_edge n d a b u v Hs Ha Hb).
    destruct (zeroed contract u v); [rewrite orb_true_r; reflexivity|].
    rewrite orb_false_r.
    destruct (u =? a), (v =? b), (u =? b), (v =? a); reflexivity.
Qed.

Lemma walk_weight_ext (n : nat) (w1 w2 : nat -> nat -> Z) :
  (forall u v, u < n -> v < n -> w1 u v = w2 u v) ->
  forall inter u v, u < n -> v < n -> (forall x, In x inter -> x < n) ->
    walk_weight w1 u inter v = walk_weight w2 u inter v.
Proof.
  intros Hext. induction inter as [|x inter IH]; intros u v Hu Hv Hin;
    cbn [walk_weight].
  - apply Hext; assumption.
  - rewrite Hext, IH; auto using in_eq, in_cons.
Qed.

Lemma WF_start_weight (n : nat) (VtoV : list (list nat))
  (contract : list (nat * nat)) (flag : bool) (d : matrix) :
  wf_graph n VtoV -> WF n VtoV contract flag = Ok d ->
  exists d0,
    d = WF_relax n d0 /\ mshape n n d0 /\ nonneg n d0
    /\ forall u v, u < n -> v < n ->
         mget d0 u v = start_weight VtoV contract flag u v.
Proof.
  intros Hwf E. destruct (WF_init_spec n VtoV Hwf) as [Hs Hi].
  destruct (WF_start n VtoV contract flag d Hwf E) as [d0' [E0 [_ [Hnn _]]]].
  unfold WF in E. apply bind_ok in E. destruct E as [d0 [E1 E]].
  inversion E; subst d. clear E.
  assert (Hnn0 : nonneg n d0).
  { destruct flag.
    - destruct (WF_contract_invariant n (nonneg n)) with (1 := zero_edge_nonneg n)
        (contract := contract) (d := WF_init n VtoV) (d' := d0) as [_ H];
        [split; [assumption|] | assumption | assumption].
      intros u v Hu Hv. rewrite Hi by assumption. apply init_dist_nonneg.
    - inversion E1; subst. intros u v Hu Hv. rewrite Hi by assumption.
      apply init_dist_nonneg. }
  exists d0. split; [reflexivity|]. unfold start_weight. destruct flag.
  - destruct (WF_contract_entries n contract _ d0 Hs E1) as [Hs0 Hent].
    split; [assumption|]. split; [assumption|].
    intros u v Hu Hv. rewrite Hent by assumption. cbn [andb].
    rewrite Hi by assumption. reflexivity.
  - inversion E1; subst. split; [assumption|]. split; [assumption|].
    intros u v Hu Hv. cbn [andb]. apply Hi; assumption.
Qed.

(** X6: every entry [dist[i][j]] that [WF] returns is the weight of a
    walk from [i] to [j], and no walk from [i] to [j] is lighter, where a
    step between the ends of a contracted edge weighs 0 when the flag is
    set, and otherwise a step weighs 1 along an edge, 0 from a vertex to
    itself and [INF] between two other vertices. *)
Theorem WF_shortest_walks (n : nat) (VtoV : list (list nat))
  (contract : list (nat * nat)) (flag : bool) (d : matrix) :
  wf_graph n VtoV -> WF n VtoV contract flag = Ok d ->
  (forall i j, i < n -> j < n ->
     exists inter,
       (forall x, In x inter -> x < n)
       /\ walk_weight (start_weight VtoV contract flag) i inter j
          = mget d i j)
  /\ (forall i j inter, i < n -> j < n -> (forall x, In x inter -> x < n) ->
        (mget d i j
         <= walk_weight (start_weight VtoV contract flag) i inter j)%Z).
Proof.
  intros Hwf E.
  destruct (WF_start_weight n VtoV contract flag d Hwf E)
    as [d0 [-> [Hs [Hnn Hw]]]].
  destruct (WF_relax_spec n d0 Hs Hnn) as [_ [_ [Hreal Hshort]]].
  split.
  - intros i j Hi Hj. destruct (Hreal i j Hi Hj) as [inter [Hin Ew]].
    exists inter. split; [assumption|]. rewrite <- Ew. symmetry.
    apply (walk_weight_ext n); assumption.
  - intros i j inter Hi Hj Hin.
    rewrite <- (walk_weight_ext n (mget d0)) by assumption.
    apply Hshort; assumption.
Qed.

Lemma WF_shortest_walks_witness :
  exists d,
    WF 8 wheel_adj [(7, 0); (6, 3)] true = Ok d
    /\ (forall i j, i < 8 -> j < 8 ->
          exists inter,
            (forall x, In x inter -> x < 8)
            /\ walk_weight (start_weight wheel_adj [(7, 0); (6, 3)] true)
                 i inter j = mget d i j)
    /\ (forall i j inter, i < 8 -> j < 8 ->
          (forall x, In x inter -> x < 8) ->
          (mget d i j
           <= walk_weight
                (start_weight wheel_adj [(7, 0); (6, 3)]%nat true)
                i inter j)%Z).
Proof.
  eexists. split; [vm_compute; reflexivity|].
  apply (WF_shortest_walks 8 wheel_adj [(7, 0); (6, 3)] true).
  - apply wf_graphb_sound. vm_compute. reflexivity.
  - vm_compute. reflexivity.
Defined.

(** ** [isForbiddenCut] is monotone *)

(** X7: a cut that is forbidden stays forbidden when the component grows
    and when the cut shrinks. *)
Theorem isForbiddenCut_monotone (k k' c c' : Z) :
  (k' <= k)%Z -> (c <= c')%Z ->
  isForbiddenCut k c = true -> isForbiddenCut k' c' = true.
Proof.
  intros Hk Hc. rewrite !isForbiddenCut_iff. unfold forbidden_cut_code.
  intros H.
  destruct (Z_le_gt_dec k' 4); [left; lia|].
  destruct (Z.eq_dec k' 5); [right; left; lia|].
  destruct (Z.eq_dec k' 6); [right; right; left; lia|].
  right; right; right; lia.
Qed.

Lemma isForbiddenCut_monotone_witness : isForbiddenCut 5 9 = true.
Proof.
  apply (isForbiddenCut_monotone 6 5 4 9); [lia | lia | reflexivity].
Defined.

(** ** [calcCutReduction] never erases the ring *)

Lemma nth_vset_false (l : list bool) (i j : nat) :
  i = j \/ nth i l false = false -> nth i (vset l j false) false = false.
Proof.
  intros H. destruct (Nat.lt_ge_cases j (length l)) as [Hj | Hj].
  - rewrite nth_vset_cases by assumption.
    destruct (Nat.eqb_spec i j); [reflexivity|]. destruct H; congruence.
  - rewrite vset_out_of_range by assumption.
    destruct H as [-> | H]; [apply nth_overflow|]; assumption.
Qed.

(** [for (u : l) if (cond u) mask[u] = true] *)
Lemma mark_where_spec (cond : nat -> bool) (l : list nat) :
  forall st,
    let st' := fold_left (fun s u => if cond u then vset s u true else s) l st in
    length st' = length st
    /\ (forall u, nth u st false = true -> nth u st' false = true)
    /\ (forall u, In u l -> u < length st -> cond u = true ->
                  nth u st' false = true).
Proof.
  induction l as [|x l IH]; intros st; cbn [fold_left].
  - split; [reflexivity|]. split; [auto|]. intros u [].
  - set (st1 := if cond x then vset st x true else st).
    assert (H1 : length st1 = length st)
      by (unfold st1; destruct (cond x); [apply length_vset | reflexivity]).
    assert (H2 : forall u, nth u st false = true -> nth u st1 false = true).
    { intros u Hu. unfold st1. destruct (cond x); [|assumption].
      apply marked_vset. assumption. }
    destruct (IH st1) as [K1 [K2 K3]]. cbv zeta in *.
    split; [lia|]. split; [auto|].
    intros u [<- | Hu] Hlen Hc.
    + apply K2. unfold st1. rewrite Hc. apply nth_vset_eq. assumption.
    + apply K3; [assumption | lia | assumption].
Qed.

Lemma ring_classes_spec (n r : nat) (dc : matrix) (u v : nat) :
  v < r -> u < n -> mget dc u v = 0%Z ->
  nth u (ring_classes n r dc) false = true.
Proof.
  intros Hv Hu Hd. unfold ring_classes.
  assert (H : forall vs st,
             length st = n ->
             let st' :=
               fold_left
                 (fun is_ring v =>
                    fold_left
                      (fun is_ring u =>
                         if equivalent dc v u then vset is_ring u true
                         else is_ring)
                      (seq 0 n) is_ring) vs st in
             length st' = n
             /\ (forall x, nth x st false = true -> nth x st' false = true)
             /\ (In v vs -> nth u st' false = true)).
  { induction vs as [|y vs IH]; intros st Hlen; cbn [fold_left].
    - split; [assumption|]. split; [auto|]. intros [].
    - destruct (mark_where_spec (equivalent dc y) (seq 0 n) st)
        as [K1 [K2 K3]]. cbv zeta in *.
      set (st1 := fold_left
                    (fun s u => if equivalent dc y u then vset s u true else s)
                    (seq 0 n) st) in *.
      destruct (IH st1 ltac:(lia)) as [J1 [J2 J3]].
      split; [assumption|]. split; [auto|].
      intros [<- | Hin]; [|auto].
      apply J2, K3; [apply in_seq; lia | lia |].
      unfold equivalent. apply Z.eqb_eq. assumption. }
  apply (H (seq 0 r) (repeat false n) (repeat_length _ _)).
  apply in_seq. lia.
Qed.

Lemma updateIsReductable_spares (n : nat) (is_reductable : list bool)
  (component_id : list Z) (is_ring : list bool) (x : nat) :
  nth x is_ring false = true ->
  nth x (updateIsReductable n is_reductable component_id is_ring) false
  = nth x is_reductable false.
Proof.
  intros Hx. unfold updateIsReductable.
  set (irc := fold_left _ (seq 0 n) (repeat true n)).
  assert (Hirc : In x (seq 0 n) ->
                 nth x component_id (-1)%Z <> (-1)%Z ->
                 nth (Z.to_nat (nth x component_id (-1)%Z)) irc false = false).
  { intros Hin Hc.
    destruct (fold_left_all
                (fun _ : list bool => True)
                (fun v (irc : list bool) =>
                   nth v component_id (-1)%Z <> (-1)%Z ->
                   nth v is_ring false = true ->
                   nth (Z.to_nat (nth v component_id (-1)%Z)) irc false = false)
                (fun irc v =>
                   if negb (nth v component_id (-1) =? -1)%Z
                      && nth v is_ring false
                   then vset irc (Z.to_nat (nth v component_id (-1)%Z)) false
                   else irc)
                (seq 0 n)) with (st := repeat true n) as [_ [Hdone _]].
    - intros st v _ _. split; [exact I|].
      destruct (Z.eqb_spec (nth v component_id (-1)%Z) (-1)) as [E | E];
        cbn [negb andb]; [split; [intros; contradiction | auto]|].
      destruct (nth v is_ring false) eqn:Er;
        [|split; [intros; discriminate | auto]].
      split.
      + intros _ _. apply nth_vset_false. left. reflexivity.
      + intros y Hy H1 H2. apply nth_vset_false. right. auto.
    - exact I.
    - apply (Hdone x Hin Hc Hx). }
  apply (fold_left_invariant
           (fun m => nth x m false = nth x is_reductable false));
    [|reflexivity].
  intros m v Hm Hv.
  destruct (Z.eqb_spec (nth v component_id (-1)%Z) (-1)) as [E | E];
    cbn [negb andb]; [assumption|].
  destruct (nth (Z.to_nat (nth v component_id (-1)%Z)) irc false) eqn:Ei;
    [|assumption].
  destruct (Nat.eq_dec v x) as [->|Hne].
  - rewrite Hirc in Ei by assumption. discriminate.
  - rewrite nth_vset_neq by assumption. assumption.
Qed.

Lemma calcCutReduction_spares (n r : nat) (VtoV : list (list nat))
  (dc : matrix) (mask : list bool) (x v : nat) :
  calcCutReduction n r VtoV dc = Ok mask ->
  v < r -> x < n -> mget dc x v = 0%Z ->
  nth x mask false = false.
Proof.
  intros E Hv Hx Hd.
  pose proof (ring_classes_spec n r dc x v Hv Hx Hd) as Hring.
  unfold calcCutReduction in E.
  set (P := fun m : list bool => nth x m false = false).
  assert (Hup : forall m cid, P m ->
                  P (updateIsReductable n m cid (ring_classes n r dc))).
  { intros m cid Hm. unfold P.
    rewrite updateIsReductable_spares; assumption. }
  apply (fold_res_keeps P _ _ _ _ E).
  - unfold P. apply nth_repeat.
  - intros m0 v0 m0' H0 _ E0.
    apply bind_ok in E0. destruct E0 as [cid0 [_ E0]].
    apply (fold_res_keeps P _ _ _ _ E0); [apply Hup; assumption|].
    intros m1 v1 m1' H1 _ E1.
    apply bind_ok in E1. destruct E1 as [cid1 [_ E1]].
    apply (fold_res_keeps P _ _ _ _ E1); [apply Hup; assumption|].
    intros m2 v2 m2' H2 _ E2.
    apply bind_ok in E2. destruct E2 as [cid2 [_ E2]].
    inversion E2; subst. apply Hup. assumption.
Qed.

(** X8: after a [setContract] that returns, [is_reductable_inside_] is
    false at every vertex at contracted distance 0 from a ring vertex: the
    cut reduction inside the configuration never erases a ring vertex nor
    a vertex contracted into the ring. *)
Theorem reductable_inside_spares_ring (c : Configuration)
  (contract : list (nat * nat)) (c' : Configuration) (x v : nat) :
  setContract c contract = Ok c' ->
  v < r_ c -> x < n_ c -> mget (dist_contracted_ c') x v = 0%Z ->
  nth x (is_reductable_inside_ c') false = false.
Proof.
  intros E Hv Hx Hd.
  destruct (setContract_assigns c contract c' E) as [_ [_ [_ [_ Ecut]]]].
  apply (calcCutReduction_spares _ _ _ _ _ x v Ecut); assumption.
Qed.

Lemma reductable_inside_spares_ring_witness :
  exists c c',
    newConfiguration 8 6 wheel_adj = Ok c
    /\ setContract c [(7, 0)] = Ok c'
    /\ nth 7 (is_reductable_inside_ c') false = false.
Proof.
  eexists ?[c0], ?[c1].
  split; [|split; [|apply (reductable_inside_spares_ring ?c0 [(7, 0)] ?c1 7 0)]].
  all: try (vm_compute; reflexivity).
  all: vm_compute; lia.
Defined.

(** ** The table [length] against the ring *)

Lemma forbiddenCycle_at_gap (n r : nat) (VtoV : list (list nat))
  (all_paths : list (list (list (list nat)))) (p q : nat) (C : Z) :
  C = 6%Z \/ C = 7%Z -> (ring_gap_of r p q <= C)%Z ->
  forbiddenCycle n r VtoV all_paths p q (ring_gap_of r p q) C = Ok false.
Proof.
  intros HC Hg. unfold forbiddenCycle.
  rewrite (is6or7_true C HC). cbn [assert bind].
  apply Z.leb_le in Hg. rewrite Hg. cbn [assert bind].
  fold (ring_gap_of r p q). rewrite Z.eqb_refl. reflexivity.
Qed.

Lemma ring_gap_of_pos (r p q : nat) :
  p < r -> q < r -> p <> q -> (1 <= ring_gap_of r p q)%Z.
Proof.
  intros Hp Hq Hne. unfold ring_gap_of.
  destruct (Nat.ltb_spec p q); lia.
Qed.

Lemma ring_gap_of_successor (r p q : nat) :
  p < r -> q < r -> q = (p + 1) mod r -> p <> q -> ring_gap_of r p q = 1%Z.
Proof.
  intros Hp Hq E Hne. unfold ring_gap_of.
  destruct (Nat.lt_ge_cases (p + 1) r) as [H | H].
  - rewrite Nat.mod_small in E by assumption.
    destruct (Nat.ltb_spec p q); lia.
  - rewrite mod_once in E by lia.
    destruct (Nat.ltb_spec p q); lia.
Qed.

(** X9: in the tables the constructor stores, the entry [length[p][q]] of
    two distinct ring vertices is never negative and never exceeds the
    number of ring edges from [p] to [q]; the entry of the one-edge table
    is at least 1. *)
Theorem length_table_below_gap (n r : nat) (VtoV : list (list nat)) :
  length VtoV = n ->
  exists c,
    newConfiguration n r VtoV = Ok c
    /\ forall C p q,
         C = 6%Z \/ C = 7%Z -> p < r -> q < r -> p <> q ->
         (0 <= mget (table_of C (length6_ c) (length7_ c)) p q
          <= ring_gap_of r p q)%Z
         /\ (1 <= mget (table_of C (length_oneedge6_ c) (length_oneedge7_ c))
                    p q)%Z.
Proof.
  intros Hn.
  destruct (newConfiguration_total n r VtoV Hn)
    as [c [Ec [Hn1 [Hr1 [HV1 [HP1 [_ [_ [_ [_ [_ [_ [_ Htab]]]]]]]]]]]]].
  exists c. split; [assumption|].
  intros C p q HC Hp Hq Hpq.
  destruct (Htab C HC) as [E F].
  destruct (length_table_total n r VtoV C Hn HC) as [tbl [E' Hent]].
  destruct (length_oneedge_table_total n r VtoV C Hn HC) as [tbl1 [F' Hent1]].
  rewrite E in E'. injection E' as <-. rewrite F in F'. injection F' as <-.
  set (len := mget (table_of C (length6_ c) (length7_ c)) p q).
  set (len1 := mget (table_of C (length_oneedge6_ c) (length_oneedge7_ c)) p q).
  destruct (table_entry_meaning r
              (forbiddenCycle n r VtoV (build_all_paths r VtoV))
              0 C p q len Hp Hq HC)
    as [A1 [A2 A3]];
    [lia | | apply Hent; auto |].
  { intros j Hj. apply forbiddenCycle_total; auto. }
  destruct (table_entry_meaning r
              (forbiddenCycleOneEdge n r VtoV (build_all_paths r VtoV))
              1 C p q len1 Hp Hq HC)
    as [B1 [B2 B3]];
    [lia | | apply Hent1; auto |].
  { intros j Hj. apply forbiddenCycleOneEdge_total; auto. }
  pose proof (ring_gap_of_pos r p q Hp Hq Hpq) as Hgap.
  destruct (Nat.eq_dec q ((p + 1) mod r)) as [Hs | Hs].
  - rewrite (A1 Hs), (B1 Hs).
    rewrite (ring_gap_of_successor r p q Hp Hq Hs Hpq). lia.
  - destruct (A2 Hs) as [L1 [L2 L3]]. destruct (B2 Hs) as [M1 _].
    split; [split; [assumption|] | assumption].
    destruct (Z_le_gt_dec len (ring_gap_of r p q)) as [|Hgt]; [assumption|].
    exfalso. apply (L3 (ring_gap_of r p q)); [lia|].
    destruct (Z_le_gt_dec (ring_gap_of r p q) C) as [Hle | Hgt'];
      [right | left; assumption].
    apply forbiddenCycle_at_gap; assumption.
Qed.

Lemma length_table_below_gap_witness :
  exists c,
    newConfiguration 8 6 wheel_adj = Ok c
    /\ forall C p q,
         C = 6%Z \/ C = 7%Z -> p < 6 -> q < 6 -> p <> q ->
         (0 <= mget (table_of C (length6_ c) (length7_ c)) p q
          <= ring_gap_of 6 p q)%Z
         /\ (1 <= mget (table_of C (length_oneedge6_ c) (length_oneedge7_ c))
                    p q)%Z.
Proof. apply (length_table_below_gap 8 6 wheel_adj). reflexivity. Defined.

(** ** Sorting and removing duplicates *)

Section SortFacts.

Variable A : Type.
Variables ltb eqb : A -> A -> bool.
Hypothesis ltb_irrefl : forall x, ltb x x = false.
Hypothesis ltb_trans :
  forall x y z, ltb x y = true -> ltb y z = true -> ltb x z = true.
Hypothesis ltb_total :
  forall x y, ltb x y = false -> ltb y x = false -> x = y.
Hypothesis eqb_eq : forall x y, eqb x y = true <-> x = y.

Lemma ltb_asym (x y : A) : ltb x y = true -> ltb y x = false.
Proof.
  intros H. destruct (ltb y x) eqn:E; [|reflexivity].
  pose proof (ltb_trans x y x H E) as C. rewrite ltb_irrefl in C. discriminate.
Qed.

Lemma in_insert_sorted (x y : A) (l : list A) :
  In y (insert_sorted ltb x l) <-> y = x \/ In y l.
Proof.
  induction l as [|z l IH]; simpl; [intuition|].
  destruct (ltb z x); simpl; [rewrite IH|]; intuition.
Qed.

Lemma in_sort (y : A) (l : list A) : In y (sort ltb l) <-> In y l.
Proof.
  induction l as [|x l IH]; simpl; [reflexivity|].
  rewrite in_insert_sorted, IH. intuition.
Qed.

Lemma nondecreasing_tail (a : A) (l : list A) :
  nondecreasing ltb (a :: l) -> nondecreasing ltb l.
Proof. destruct l; [intros; exact I | intros [_ H]; assumption]. Qed.

Lemma nondecreasing_insert (x : A) (l : list A) :
  nondecreasing ltb l -> nondecreasing ltb (insert_sorted ltb x l).
Proof.
  induction l as [|y l IH]; intros H; [exact I|]. cbn [insert_sorted].
  destruct (ltb y x) eqn:E.
  - pose proof (IH (nondecreasing_tail y l H)) as IH'.
    destruct l as [|z l]; cbn [insert_sorted] in *.
    + split; [apply ltb_asym; assumption | exact I].
    + destruct H as [Hzy H]. destruct (ltb z x).
      * split; assumption.
      * split; [apply ltb_asym; assumption | assumption].
  - split; assumption.
Qed.

Lemma nondecreasing_sort (l : list A) : nondecreasing ltb (sort ltb l).
Proof.
  induction l as [|x l IH]; [exact I|]. simpl.
  apply nondecreasing_insert. assumption.
Qed.

Lemma unique_head (b : A) (l : list A) :
  exists t, unique eqb (b :: l) = b :: t.
Proof.
  revert b. induction l as [|c l IH]; intros b; [exists []; reflexivity|].
  change (unique eqb (b :: c :: l))
    with (if eqb b c then unique eqb (c :: l) else b :: unique eqb (c :: l)).
  destruct (eqb b c) eqn:E.
  - apply eqb_eq in E. subst c. apply IH.
  - eexists. reflexivity.
Qed.

Lemma in_unique_cons (y : A) (l : list A) :
  forall a, In y (unique eqb (a :: l)) <-> In y (a :: l).
Proof.
  induction l as [|b l IH]; intros a; [reflexivity|].
  change (unique eqb (a :: b :: l))
    with (if eqb a b then unique eqb (b :: l) else a :: unique eqb (b :: l)).
  destruct (eqb a b) eqn:E.
  - apply eqb_eq in E. subst b. rewrite IH. simpl. intuition.
  - change (y = a \/ In y (unique eqb (b :: l)) <-> In y (a :: b :: l))
      || change (a = y \/ In y (unique eqb (b :: l)) <-> In y (a :: b :: l)).
    rewrite IH. reflexivity.
Qed.

Lemma in_unique (y : A) (l : list A) : In y (unique eqb l) <-> In y l.
Proof. destruct l; [reflexivity | apply in_unique_cons]. Qed.

Lemma increasing_unique_cons (l : list A) :
  forall a, nondecreasing ltb (a :: l) -> increasing ltb (unique eqb (a :: l)).
Proof.
  induction l as [|b l IH]; intros a H; [exact I|].
  destruct H as [Hba H].
  change (unique eqb (a :: b :: l))
    with (if eqb a b then unique eqb (b :: l) else a :: unique eqb (b :: l)).
  destruct (eqb a b) eqn:E.
  - apply IH. assumption.
  - specialize (IH b H). destruct (unique_head b l) as [t Et].
    rewrite Et in *. split; [|assumption].
    destruct (ltb a b) eqn:Eab; [reflexivity|].
    pose proof (ltb_total a b Eab Hba) as C. apply eqb_eq in C. congruence.
Qed.

Lemma increasing_unique (l : list A) :
  nondecreasing ltb l -> increasing ltb (unique eqb l).
Proof. destruct l; [intros; exact I | apply increasing_unique_cons]. Qed.

Lemma increasing_lower (a : A) (l : list A) :
  increasing ltb (a :: l) -> forall x, In x l -> ltb a x = true.
Proof.
  revert a. induction l as [|b l IH]; intros a H x Hx; [destruct Hx|].
  destruct H as [Hab H]. destruct Hx as [<- | Hx]; [assumption|].
  apply (ltb_trans a b x Hab). apply IH; assumption.
Qed.

Lemma increasing_NoDup (l : list A) : increasing ltb l -> NoDup l.
Proof.
  induction l as [|a l IH]; intros H; constructor.
  - intros Hin. pose proof (increasing_lower a l H a Hin) as C.
    rewrite ltb_irrefl in C. discriminate.
  - apply IH. destruct l; [exact I | apply H].
Qed.

Lemma sort_unique_spec (l : list A) :
  increasing ltb (unique eqb (sort ltb l))
  /\ NoDup (unique eqb (sort ltb l))
  /\ forall y, In y (unique eqb (sort ltb l)) <-> In y l.
Proof.
  assert (H : increasing ltb (unique eqb (sort ltb l)))
    by (apply increasing_unique, nondecreasing_sort).
  split; [assumption|]. split; [apply increasing_NoDup; assumption|].
  intros y. rewrite in_unique, in_sort. reflexivity.
Qed.

End SortFacts.

Lemma triple_ltb_iff (a b c a' b' c' : nat) :
  triple_ltb (a, b, c) (a', b', c') = true
  <-> a < a' \/ (a = a' /\ (b < b' \/ (b = b' /\ c < c'))).
Proof.
  unfold triple_ltb.
  rewrite !orb_true_iff, !andb_true_iff, !orb_true_iff, !andb_true_iff,
    !Nat.ltb_lt, !Nat.eqb_eq. reflexivity.
Qed.

Lemma triple_ltb_false_iff (a b c a' b' c' : nat) :
  triple_ltb (a, b, c) (a', b', c') = false
  <-> ~ (a < a' \/ (a = a' /\ (b < b' \/ (b = b' /\ c < c')))).
Proof.
  rewrite <- triple_ltb_iff. destruct (triple_ltb _ _); intuition congruence.
Qed.

Lemma triple_eqb_eq (x y : nat * nat * nat) :
  triple_eqb x y = true <-> x = y.
Proof.
  destruct x as [[a b] c], y as [[a' b'] c']. unfold triple_eqb.
  rewrite !andb_true_iff, !Nat.eqb_eq. split.
  - intros [[-> ->] ->]. reflexivity.
  - intros E. inversion E. auto.
Qed.

Lemma triple_sort_unique (l : list (nat * nat * nat)) :
  increasing triple_ltb (unique triple_eqb (sort triple_ltb l))
  /\ NoDup (unique triple_eqb (sort triple_ltb l))
  /\ forall y, In y (unique triple_eqb (sort triple_ltb l)) <-> In y l.
Proof.
  apply sort_unique_spec.
  - intros [[a b] c]. apply triple_ltb_false_iff. lia.
  - intros [[a b] c] [[a' b'] c'] [[a'' b''] c''].
    rewrite !triple_ltb_iff. lia.
  - intros [[a b] c] [[a' b'] c']. rewrite !triple_ltb_false_iff.
    intros H1 H2. assert (a = a' /\ b = b' /\ c = c') as [-> [-> ->]] by lia.
    reflexivity.
  - apply triple_eqb_eq.
Qed.

(** ** [find_ab] and its relatives *)

Lemma NoDup_flat_map {X Y : Type} (f : X -> list Y) (l : list X) :
  NoDup l -> (forall x, In x l -> NoDup (f x)) ->
  (forall x x' y, In x l -> In x' l -> In y (f x) -> In y (f x') -> x = x') ->
  NoDup (flat_map f l).
Proof.
  induction l as [|a l IH]; intros Hl Hf Hd; [constructor|]. simpl.
  inversion Hl as [|? ? Ha Hl']; subst.
  apply NoDup_app.
  - apply Hf. left. reflexivity.
  - apply IH; [assumption | intros; apply Hf; right; assumption|].
    intros x x' y Hx Hx'. apply Hd; right; assumption.
  - intros y Hy Hy'. apply in_flat_map in Hy'. destruct Hy' as [x [Hx Hyx]].
    assert (a = x) by (apply (Hd a x y); auto using in_eq, in_cons).
    subst. contradiction.
Qed.

Lemma in_range (a b x : nat) : In x (range a b) <-> a <= x < b.
Proof. unfold range. rewrite in_seq. lia. Qed.

Lemma NoDup_range (a b : nat) : NoDup (range a b).
Proof. apply seq_NoDup. Qed.

Lemma in_guarded {Y : Type} (c : bool) (y z : Y) :
  In z (if c then [y] else []) <-> c = true /\ z = y.
Proof. destruct c; simpl; intuition congruence. Qed.

Lemma NoDup_guarded {Y : Type} (c : bool) (y : Y) :
  NoDup (if c then [y] else []).
Proof. destruct c; repeat constructor. intros []. Qed.

(** The pairs of [find_ab]. *)
Lemma find_ab_members (d0 : Z) (n r : nat) (contract_dist : matrix) :
  NoDup (find_ab d0 n r contract_dist)
  /\ forall a b, In (a, b) (find_ab d0 n r contract_dist)
                 <-> a < b /\ b < r /\ mget contract_dist a b = d0.
Proof.
  unfold find_ab. split.
  - apply NoDup_flat_map; [apply seq_NoDup | |].
    + intros a _. apply NoDup_flat_map; [apply NoDup_range | |].
      * intros b _. apply NoDup_guarded.
      * intros b b' y _ _ H1 H2.
        apply in_guarded in H1. apply in_guarded in H2.
        destruct H1 as [_ ->]. destruct H2 as [_ E]. congruence.
    + intros a a' y _ _ H1 H2.
      apply in_flat_map in H1. destruct H1 as [b [_ H1]].
      apply in_flat_map in H2. destruct H2 as [b' [_ H2]].
      apply in_guarded in H1. apply in_guarded in H2.
      destruct H1 as [_ ->]. destruct H2 as [_ E]. congruence.
  - intros a b. rewrite in_flat_map. split.
    + intros [a' [Ha H]]. apply in_flat_map in H. destruct H as [b' [Hb H]].
      apply in_guarded in H. destruct H as [Hd E]. inversion E; subst.
      apply in_range in Hb. apply Z.eqb_eq in Hd. lia.
    + intros [Hab [Hb Hd]]. exists a. split; [apply in_seq; lia|].
      apply in_flat_map. exists b. split; [apply in_range; lia|].
      apply in_guarded. split; [apply Z.eqb_eq; assumption | reflexivity].
Qed.

(** X10: [find_ab(d0, n, r, dist)] returns, each exactly once, the pairs
    [(a, b)] of ring vertices with [a < b] and [dist[a][b] = d0]. *)
Theorem find_ab_exact (d0 : Z) (n r : nat) (contract_dist : matrix) :
  NoDup (find_ab d0 n r contract_dist)
  /\ forall a b, In (a, b) (find_ab d0 n r contract_dist)
                 <-> a < b /\ b < r /\ mget contract_dist a b = d0.
Proof. apply find_ab_members. Qed.

Lemma mod_ring (r a b c : nat) :
  a < b -> b < r -> b < c -> c < a + r ->
  c mod r < r /\ (b < c mod r \/ c mod r < a)
  /\ (c < r -> c mod r = c) /\ (r <= c -> c mod r = c - r).
Proof.
  intros Hab Hb Hbc Hc. destruct (Nat.lt_ge_cases c r) as [H | H].
  - rewrite Nat.mod_small by assumption. repeat split; lia.
  - rewrite mod_once by lia. repeat split; lia.
Qed.

(** The triples of [find_ab_bc]. *)
Lemma find_ab_bc_members (d0 d1 : Z) (n r : nat) (contract_dist : matrix) :
  increasing triple_ltb (find_ab_bc d0 d1 n r contract_dist)
  /\ NoDup (find_ab_bc d0 d1 n r contract_dist)
  /\ forall x y z,
       In (x, y, z) (find_ab_bc d0 d1 n r contract_dist)
       <-> x < r /\ y < r /\ z < r
           /\ mget contract_dist y z = d1
           /\ ((x < y /\ mget contract_dist x y = d0 /\ (y < z \/ z < x))
               \/ (y < x /\ mget contract_dist y x = d0 /\ y < z /\ z < x)).
Proof.
  unfold find_ab_bc. cbv zeta.
  match goal with
  | |- increasing _ (unique _ (sort _ ?l)) /\ _ => set (abcs := l)
  end.
  destruct (triple_sort_unique abcs) as [Hinc [Hnd Hin]].
  split; [assumption|]. split; [assumption|].
  intros x y z. rewrite Hin. unfold abcs. clear Hinc Hnd Hin abcs.
  rewrite in_flat_map. split.
  - intros [a [Ha H]]. apply in_seq in Ha.
    apply in_flat_map in H. destruct H as [b [Hb H]]. apply in_range in Hb.
    destruct (Z.eqb_spec (mget contract_dist a b) d0) as [Hd | Hd];
      [|destruct H].
    apply in_app_iff in H. destruct H as [H | H];
      apply in_flat_map in H; destruct H as [c [Hc H]];
      apply in_range in Hc; apply in_guarded in H; destruct H as [H1 E];
      apply Z.eqb_eq in H1; inversion E; subst; clear E.
    + repeat split; lia.
    + destruct (mod_ring r a b c) as [M1 [M2 _]]; lia.
  - intros [Hx [Hy [Hz [Hd1 [[Hxy [Hd0 Hzz]] | [Hyx [Hd0 [Hyz Hzx]]]]]]]].
    + exists x. split; [apply in_seq; lia|].
      apply in_flat_map. exists y. split; [apply in_range; lia|].
      apply Z.eqb_eq in Hd0. rewrite Hd0. apply in_app_iff. right.
      apply in_flat_map.
      destruct Hzz as [Hzz | Hzz].
      * exists z. split; [apply in_range; lia|].
        rewrite Nat.mod_small by assumption.
        apply in_guarded. split; [apply Z.eqb_eq; assumption | reflexivity].
      * exists (z + r). split; [apply in_range; lia|].
        rewrite mod_once by lia. replace (z + r - r) with z by lia.
        apply in_guarded. split; [apply Z.eqb_eq; assumption | reflexivity].
    + exists y. split; [apply in_seq; lia|].
      apply in_flat_map. exists x. split; [apply in_range; lia|].
      apply Z.eqb_eq in Hd0. rewrite Hd0. apply in_app_iff. left.
      apply in_flat_map. exists z. split; [apply in_range; lia|].
      apply in_guarded. split; [apply Z.eqb_eq; assumption | reflexivity].
Qed.

(** X11: [find_ab_bc(d0, d1, n, r, dist)] returns, in strictly increasing
    lexicographic order and without repetition, exactly the triples
    [(x, y, z)] of ring vertices that follow each other on the ring in this
    cyclic order, with [dist[y][z] = d1] and with [d0] the entry of [dist]
    at the pair [x], [y] read from the smaller to the larger index. *)
Theorem find_ab_bc_exact (d0 d1 : Z) (n r : nat) (contract_dist : matrix) :
  increasing triple_ltb (find_ab_bc d0 d1 n r contract_dist)
  /\ NoDup (find_ab_bc d0 d1 n r contract_dist)
  /\ forall x y z,
       In (x, y, z) (find_ab_bc d0 d1 n r contract_dist)
       <-> x < r /\ y < r /\ z < r
           /\ mget contract_dist y z = d1
           /\ ((x < y /\ mget contract_dist x y = d0 /\ (y < z \/ z < x))
               \/ (y < x /\ mget contract_dist y x = d0 /\ y < z /\ z < x)).
Proof. apply find_ab_bc_members. Qed.

(** The triples of [find_ab_ac_bc]. *)
Lemma find_ab_ac_bc_members (d0 d1 d2 : Z) (n r : nat)
  (contract_dist : matrix) :
  increasing triple_ltb (find_ab_ac_bc d0 d1 d2 n r contract_dist)
  /\ NoDup (find_ab_ac_bc d0 d1 d2 n r contract_dist)
  /\ forall x y z,
       In (x, y, z) (find_ab_ac_bc d0 d1 d2 n r contract_dist)
       <-> x < r /\ y < r /\ z < r
           /\ mget contract_dist x z = d1
           /\ mget contract_dist y z = d2
           /\ ((x < y /\ mget contract_dist x y = d0 /\ (y < z \/ z < x))
               \/ (y < x /\ mget contract_dist y x = d0 /\ y < z /\ z < x)).
Proof.
  unfold find_ab_ac_bc. cbv zeta.
  match goal with
  | |- increasing _ (unique _ (sort _ ?l)) /\ _ => set (abcs := l)
  end.
  destruct (triple_sort_unique abcs) as [Hinc [Hnd Hin]].
  split; [assumption|]. split; [assumption|].
  intros x y z. rewrite Hin. unfold abcs. clear Hinc Hnd Hin abcs.
  rewrite in_flat_map. split.
  - intros [a [Ha H]]. apply in_seq in Ha.
    apply in_flat_map in H. destruct H as [b [Hb H]]. apply in_range in Hb.
    destruct (Z.eqb_spec (mget contract_dist a b) d0) as [Hd | Hd];
      [|destruct H].
    apply in_app_iff in H. destruct H as [H | H];
      apply in_flat_map in H; destruct H as [c [Hc H]];
      apply in_range in Hc; apply in_guarded in H; destruct H as [H1 E];
      apply andb_true_iff in H1; destruct H1 as [H1 H2];
      apply Z.eqb_eq in H1; apply Z.eqb_eq in H2;
      inversion E; subst; clear E.
    + repeat split; lia.
    + destruct (mod_ring r a b c) as [M1 [M2 _]]; lia.
  - intros [Hx [Hy [Hz [Hd1 [Hd2 [[Hxy [Hd0 Hzz]] | [Hyx [Hd0 [Hyz Hzx]]]]]]]]].
    + exists x. split; [apply in_seq; lia|].
      apply in_flat_map. exists y. split; [apply in_range; lia|].
      apply Z.eqb_eq in Hd0. rewrite Hd0. apply in_app_iff. right.
      apply in_flat_map.
      destruct Hzz as [Hzz | Hzz].
      * exists z. split; [apply in_range; lia|].
        rewrite Nat.mod_small by assumption.
        apply in_guarded. split; [|reflexivity].
        apply andb_true_iff. split; apply Z.eqb_eq; assumption.
      * exists (z + r). split; [apply in_range; lia|].
        rewrite mod_once by lia. replace (z + r - r) with z by lia.
        apply in_guarded. split; [|reflexivity].
        apply andb_true_iff. split; apply Z.eqb_eq; assumption.
    + exists y. split; [apply in_seq; lia|].
      apply in_flat_map. exists x. split; [apply in_range; lia|].
      apply Z.eqb_eq in Hd0. rewrite Hd0. apply in_app_iff. left.
      apply in_flat_map. exists z. split; [apply in_range; lia|].
      apply in_guarded. split; [|reflexivity].
      apply andb_true_iff. split; apply Z.eqb_eq; assumption.
Qed.

(** X12: [find_ab_ac_bc(d0, d1, d2, n, r, dist)] returns, in strictly
    increasing lexicographic order and without repetition, exactly the
    triples [(x, y, z)] of ring vertices in cyclic order with
    [dist[x][z] = d1], [dist[y][z] = d2] and with [d0] the entry of [dist]
    at the pair [x], [y] read from the smaller to the larger index. *)
Theorem find_ab_ac_bc_exact (d0 d1 d2 : Z) (n r : nat)
  (contract_dist : matrix) :
  increasing triple_ltb (find_ab_ac_bc d0 d1 d2 n r contract_dist)
  /\ NoDup (find_ab_ac_bc d0 d1 d2 n r contract_dist)
  /\ forall x y z,
       In (x, y, z) (find_ab_ac_bc d0 d1 d2 n r contract_dist)
       <-> x < r /\ y < r /\ z < r
           /\ mget contract_dist x z = d1
           /\ mget contract_dist y z = d2
           /\ ((x < y /\ mget contract_dist x y = d0 /\ (y < z \/ z < x))
               \/ (y < x /\ mget contract_dist y x = d0 /\ y < z /\ z < x)).
Proof. apply find_ab_ac_bc_members. Qed.

Example find_ab_bc_ring :
  exists d,
    WF 6 ring6_adj [(0, 1)] true = Ok d
    /\ find_ab 0 6 6 d = [(0, 1)]
    /\ find_ab_bc 0 1 6 6 d = [(0, 1, 2); (0, 1, 5)].
Proof. eexists. split; [vm_compute; reflexivity|]. split; reflexivity. Qed.

(** ** [edgeFromId]: numbering the edges *)

Lemma fold_opt_mono {St X : Type} (R : St -> St -> Prop) (P : St -> Prop)
  (Done : X -> St -> Prop) (body : St -> X -> option St) (xs : list X) :
  (forall s, R s s) ->
  (forall a b c, R a b -> R b c -> R a c) ->
  (forall y a b, R a b -> Done y a -> Done y b) ->
  (forall st x, P st -> In x xs ->
     exists st', body st x = Some st' /\ P st' /\ Done x st' /\ R st st') ->
  forall st, P st ->
    exists st', fold_opt body xs st = Some st' /\ P st'
                /\ (forall x, In x xs -> Done x st') /\ R st st'.
Proof.
  intros Rrefl Rtrans Rdone.
  induction xs as [|x xs IH]; intros Hbody st Hst; cbn [fold_opt].
  - exists st. split; [reflexivity|]. split; [assumption|].
    split; [intros x []|apply Rrefl].
  - destruct (Hbody st x Hst (or_introl eq_refl)) as [st1 [E1 [P1 [D1 R1]]]].
    rewrite E1.
    destruct (IH (fun st y H Hy => Hbody st y H (or_intror Hy)) st1 P1)
      as [st' [E' [P' [D' R']]]].
    exists st'. split; [assumption|]. split; [assumption|]. split.
    + intros y [<- | Hy]; [apply (Rdone _ st1); assumption | auto].
    + apply (Rtrans _ st1); assumption.
Qed.

Lemma in_triple_set_insert (x e : nat * nat * nat)
  (s : list (nat * nat * nat)) :
  In e (triple_set_insert x s) <-> e = x \/ In e s.
Proof.
  induction s as [|y s IH]; simpl; [intuition|].
  destruct (triple_ltb x y); [simpl; intuition|].
  destruct (triple_eqb x y) eqn:E.
  - apply triple_eqb_eq in E. subst. simpl. intuition.
  - simpl. rewrite IH. intuition.
Qed.

Lemma at_count_some (VtoV : list (list nat)) (x y : nat) :
  x < length VtoV -> at_count VtoV x y = Some (mem y (adj VtoV x)).
Proof.
  intros Hx. unfold at_count, adj.
  rewrite (nth_error_nth' VtoV [] Hx). reflexivity.
Qed.

Lemma is3Cycle_some (VtoV : list (list nat)) (k j i : nat) :
  k < length VtoV -> j < length VtoV -> i < length VtoV ->
  exists b, is3Cycle VtoV k j i = Some b
            /\ (b = true <-> In j (adj VtoV k) /\ In i (adj VtoV j)
                             /\ In k (adj VtoV i)).
Proof.
  intros Hk Hj Hi. unfold is3Cycle.
  rewrite !at_count_some by assumption.
  destruct (mem j (adj VtoV k)) eqn:E1.
  - destruct (mem i (adj VtoV j)) eqn:E2.
    + eexists. split; [reflexivity|]. rewrite <- !mem_true_iff.
      rewrite E1, E2. intuition.
    + exists false. split; [reflexivity|]. rewrite <- !mem_true_iff.
      rewrite E2. intuition discriminate.
  - exists false. split; [reflexivity|]. rewrite <- !mem_true_iff.
    rewrite E1. intuition discriminate.
Qed.

Lemma triangles_spec (VtoV : list (list nat)) (n : nat) :
  n <= length VtoV ->
  exists tris,
    triangles VtoV n = Some tris
    /\ forall k j i, In (k, j, i) tris <-> is_triangle VtoV n k j i.
Proof.
  intros Hn. unfold triangles.
  set (sound := fun tris : list (nat * nat * nat) =>
                  forall k j i, In (k, j, i) tris -> is_triangle VtoV n k j i).
  destruct (fold_opt_mono (@incl (nat * nat * nat)) sound
              (fun i tris => forall k j, is_triangle VtoV n k j i ->
                                         In (k, j, i) tris)
              (fun tris i =>
                 fold_opt
                   (fun tris j =>
                      fold_opt
                        (fun tris k =>
                           match is3Cycle VtoV k j i with
                           | None => None
                           | Some true => Some (triple_set_insert (k, j, i) tris)
                           | Some false => Some tris
                           end)
                        (seq 0 j) tris)
                   (seq 0 i) tris)
              (seq 0 n)) with (st := @nil (nat * nat * nat))
    as [tris [E [Hs [Hd _]]]].
  - apply incl_refl.
  - intros a b c. apply incl_tran.
  - intros i a b Hab H k j T. apply Hab. auto.
  - intros st i Hst Hi. apply in_seq in Hi.
    destruct (fold_opt_mono (@incl (nat * nat * nat)) sound
                (fun j tris => forall k, is_triangle VtoV n k j i ->
                                         In (k, j, i) tris)
                (fun tris j =>
                   fold_opt
                     (fun tris k =>
                        match is3Cycle VtoV k j i with
                        | None => None
                        | Some true => Some (triple_set_insert (k, j, i) tris)
                        | Some false => Some tris
                        end)
                     (seq 0 j) tris)
                (seq 0 i)) with (st := st) as [st' [E' [Hs' [Hd' Hi']]]].
    + apply incl_refl.
    + intros a b c. apply incl_tran.
    + intros j a b Hab H k T. apply Hab. auto.
    + intros st1 j Hst1 Hj. apply in_seq in Hj.
      destruct (fold_opt_mono (@incl (nat * nat * nat)) sound
                  (fun k tris => is_triangle VtoV n k j i -> In (k, j, i) tris)
                  (fun tris k =>
                     match is3Cycle VtoV k j i with
                     | None => None
                     | Some true => Some (triple_set_insert (k, j, i) tris)
                     | Some false => Some tris
                     end)
                  (seq 0 j)) with (st := st1) as [st2 [E2 [Hs2 [Hd2 Hi2]]]].
      * apply incl_refl.
      * intros a b c. apply incl_tran.
      * intros k a b Hab H T. apply Hab. auto.
      * intros st3 k Hst3 Hk. apply in_seq in Hk.
        destruct (is3Cycle_some VtoV k j i) as [b [Eb Hb]]; try lia.
        rewrite Eb. destruct b.
        -- eexists. split; [reflexivity|]. split; [|split].
           ++ intros k' j' i' H. apply in_triple_set_insert in H.
              destruct H as [H | H]; [|apply Hst3; assumption].
              inversion H; subst. unfold is_triangle.
              destruct (proj1 Hb eq_refl) as [B1 [B2 B3]].
              repeat split; try assumption; lia.
           ++ intros _. apply in_triple_set_insert. left. reflexivity.
           ++ intros e He. apply in_triple_set_insert. right. assumption.
        -- exists st3. split; [reflexivity|]. split; [assumption|]. split.
           ++ intros [_ [_ [_ [T1 [T2 T3]]]]].
              assert (C : false = true) by (apply Hb; auto). discriminate.
           ++ apply incl_refl.
      * assumption.
      * exists st2. split; [assumption|]. split; [assumption|]. split.
        -- intros k T. apply Hd2; [|assumption].
           apply in_seq. destruct T as [T _]. lia.
        -- assumption.
    + assumption.
    + exists st'. split; [assumption|]. split; [assumption|]. split.
      * intros k j T. apply Hd'; [|assumption].
        apply in_seq. destruct T as [_ [T _]]. lia.
      * assumption.
  - intros k j i [].
  - exists tris. split; [assumption|]. intros k j i. split; [apply Hs|].
    intros T. apply Hd; [|assumption].
    apply in_seq. destruct T as [_ [_ [T _]]]. lia.
Qed.

Lemma pair_eqb_eq (e f : nat * nat) : pair_eqb e f = true <-> e = f.
Proof.
  destruct e as [a b], f as [c d]. unfold pair_eqb. cbn [fst snd].
  rewrite andb_true_iff, !Nat.eqb_eq. split.
  - intros [-> ->]. reflexivity.
  - intros E. inversion E. auto.
Qed.

Lemma ordered_pair_le (x y : nat) :
  fst (ordered_pair x y) <= snd (ordered_pair x y).
Proof. unfold ordered_pair. destruct (Nat.ltb_spec y x); simpl; lia. Qed.

Lemma addEdge_spec (st : edge_numbering) (x y : nat) :
  numbering_inv st ->
  numbering_inv (addEdge st x y)
  /\ (forall e, In e (numbered_edges (addEdge st x y))
                <-> In e (numbered_edges st) \/ e = ordered_pair x y)
  /\ (exists suffix,
        numbered_edges (addEdge st x y) = numbered_edges st ++ suffix)
  /\ (~ In (ordered_pair x y) (numbered_edges st) ->
      numbered_edges (addEdge st x y)
      = numbered_edges st ++ [ordered_pair x y]).
Proof.
  destruct st as [[idx tbl] cnt]. intros [Hc [Hnd [Hidx Hle]]].
  unfold addEdge, numbered_edges. cbn [fst snd].
  fold (ordered_pair x y). pose proof (ordered_pair_le x y) as Hop.
  destruct (ordered_pair x y) as [a b] eqn:Eop.
  destruct (map_count (a, b) idx) eqn:Em; cbn [negb fst snd].
  - apply Hidx in Em.
    split; [exact (conj Hc (conj Hnd (conj Hidx Hle)))|]. split.
    + intros e. split; [auto|]. intros [H | ->]; assumption.
    + split; [exists []; rewrite app_nil_r; reflexivity|].
      intros H. contradiction.
  - assert (Hn : ~ In (a, b) tbl).
    { intros H. apply Hidx in H. congruence. }
    split; [|split; [|split]].
    + split; [rewrite length_app; simpl; lia|]. split; [|split].
      * apply NoDup_app; [assumption | repeat constructor; intros [] |].
        intros e He [<- | []]. contradiction.
      * intros e. unfold map_count. cbn [existsb fst].
        fold (map_count e idx). rewrite orb_true_iff, pair_eqb_eq, Hidx.
        rewrite in_app_iff. simpl. intuition.
      * intros e He. apply in_app_iff in He.
        destruct He as [He | [<- | []]]; [apply Hle; assumption | exact Hop].
    + intros e. rewrite in_app_iff. simpl. intuition.
    + eexists. reflexivity.
    + intros _. reflexivity.
Qed.

(** [addEdge] along a list of pairs of ends. *)
Lemma add_edges_spec (ps : list (nat * nat)) :
  forall st,
    numbering_inv st ->
    let st' := fold_left (fun st p => addEdge st (fst p) (snd p)) ps st in
    numbering_inv st'
    /\ (forall e, In e (numbered_edges st')
                  <-> In e (numbered_edges st)
                      \/ exists p, In p ps /\ e = ordered_pair (fst p) (snd p))
    /\ (exists suffix, numbered_edges st' = numbered_edges st ++ suffix)
    /\ (NoDup (map (fun p => ordered_pair (fst p) (snd p)) ps) ->
        (forall p, In p ps ->
                   ~ In (ordered_pair (fst p) (snd p)) (numbered_edges st)) ->
        numbered_edges st'
        = numbered_edges st ++ map (fun p => ordered_pair (fst p) (snd p)) ps).
Proof.
  induction ps as [|p ps IH]; intros st Hst; cbn [fold_left].
  - split; [assumption|]. split; [|split].
    + intros e. split; [auto|]. intros [H | [p [[] _]]]. assumption.
    + exists []. rewrite app_nil_r. reflexivity.
    + intros _ _. simpl. rewrite app_nil_r. reflexivity.
  - destruct (addEdge_spec st (fst p) (snd p) Hst) as [H1 [H2 [[s1 H3] H4]]].
    destruct (IH _ H1) as [K1 [K2 [[s2 K3] K4]]]. cbv zeta in *.
    split; [assumption|]. split; [|split].
    + intros e. rewrite K2, H2. split.
      * intros [[H | ->] | [q [Hq ->]]]; [left; assumption | |].
        -- right. exists p. split; [left|]; reflexivity.
        -- right. exists q. split; [right; assumption | reflexivity].
      * intros [H | [q [[<- | Hq] ->]]]; [left; left; assumption | |].
        -- left. right. reflexivity.
        -- right. exists q. split; [assumption | reflexivity].
    + exists (s1 ++ s2). rewrite K3, H3, app_assoc. reflexivity.
    + intros Hnd Hnew. cbn [map] in *.
      inversion Hnd as [|? ? Hp Hnd']; subst.
      rewrite K4; [| assumption |].
      * rewrite H4 by (apply Hnew; left; reflexivity).
        rewrite <- app_assoc. reflexivity.
      * intros q Hq Hin. apply H2 in Hin. destruct Hin as [Hin | Hin].
        -- apply (Hnew q); [right|]; assumption.
        -- apply Hp. rewrite <- Hin.
           apply (in_map (fun p => ordered_pair (fst p) (snd p))). assumption.
Qed.

Lemma fold_left_flat_map {St X Y : Type} (f : St -> Y -> St)
  (g : X -> list Y) (l : list X) (st : St) :
  fold_left f (flat_map g l) st
  = fold_left (fun st x => fold_left f (g x) st) l st.
Proof.
  revert st. induction l as [|x l IH]; intros st; [reflexivity|].
  simpl. rewrite fold_left_app. apply IH.
Qed.

Lemma fold_left_map {St X Y : Type} (f : St -> Y -> St) (g : X -> Y)
  (l : list X) (st : St) :
  fold_left f (map g l) st = fold_left (fun st x => f st (g x)) l st.
Proof.
  revert st. induction l as [|x l IH]; intros st; [reflexivity|].
  simpl. apply IH.
Qed.

Lemma fold_left_ext {St X : Type} (f g : St -> X -> St) (l : list X) :
  (forall st x, f st x = g st x) ->
  forall st, fold_left f l st = fold_left g l st.
Proof.
  intros H. induction l as [|x l IH]; intros st; [reflexivity|].
  simpl. rewrite H. apply IH.
Qed.

Lemma ring_pair_cases (r i : nat) :
  i < r ->
  (i + 1 < r /\ ring_pair r i = (i, i + 1))
  \/ (i = r - 1 /\ ring_pair r i = (0, r - 1)).
Proof.
  intros Hi. unfold ring_pair, ordered_pair.
  destruct (Nat.lt_ge_cases (i + 1) r) as [H | H].
  - left. split; [assumption|]. rewrite Nat.mod_small by assumption.
    destruct (Nat.ltb_spec (i + 1) i); [lia | reflexivity].
  - right. split; [lia|]. assert (E : i + 1 = r) by lia.
    rewrite E, Nat.Div0.mod_same.
    destruct (Nat.ltb_spec 0 i) as [H0 | H0]; f_equal; lia.
Qed.

Lemma NoDup_map_on {X Y : Type} (f : X -> Y) (l : list X) :
  NoDup l -> (forall x y, In x l -> In y l -> f x = f y -> x = y) ->
  NoDup (map f l).
Proof.
  induction l as [|a l IH]; intros Hl Hinj; [constructor|].
  inversion Hl as [|? ? Ha Hl']; subst. cbn [map]. constructor.
  - intros Hin. apply in_map_iff in Hin. destruct Hin as [x [E Hx]].
    assert (x = a) by (apply Hinj; auto using in_eq, in_cons). subst.
    contradiction.
  - apply IH; [assumption|]. intros x y Hx Hy. apply Hinj; right; assumption.
Qed.

Lemma ring_pairs_distinct (r : nat) :
  3 <= r -> NoDup (map (ring_pair r) (seq 0 r)).
Proof.
  intros Hr. apply NoDup_map_on; [apply seq_NoDup|].
  intros i j Hi Hj E. apply in_seq in Hi. apply in_seq in Hj.
  destruct (ring_pair_cases r i) as [[A1 A2] | [A1 A2]]; [lia | |];
    destruct (ring_pair_cases r j) as [[B1 B2] | [B1 B2]]; try lia;
    rewrite A2, B2 in E; inversion E; lia.
Qed.

Lemma edge_table_spec (conf : Configuration) :
  n_ conf <= length (VtoV_ conf) ->
  exists st,
    edge_table conf = Some st
    /\ numbering_inv st
    /\ (forall e,
          In e (numbered_edges st)
          <-> (exists i, i < r_ conf /\ e = ring_pair (r_ conf) i)
              \/ (exists k j i,
                    is_triangle (VtoV_ conf) (n_ conf) k j i
                    /\ (e = (k, j) \/ e = (j, i) \/ e = (k, i))))
    /\ (3 <= r_ conf ->
        forall i, i < r_ conf ->
                  nth i (numbered_edges st) (0, 0) = ring_pair (r_ conf) i).
Proof.
  intros Hn. unfold edge_table.
  destruct (triangles_spec (VtoV_ conf) (n_ conf) Hn) as [tris [Et Htris]].
  rewrite Et. eexists. split; [reflexivity|].
  set (r := r_ conf).
  set (ring := map (fun i => (i, (i + 1) mod r)) (seq 0 r)).
  set (sides := flat_map
                  (fun t : nat * nat * nat =>
                     let '(a, b, c) := t in [(a, b); (b, c); (c, a)]) tris).
  set (add := fun (st : edge_numbering) (p : nat * nat) =>
                addEdge st (fst p) (snd p)).
  assert (E1 : fold_left (fun st i => addEdge st i ((i + 1) mod r))
                 (seq 0 r) ([], [], 0)
               = fold_left add ring ([], [], 0)).
  { unfold ring. rewrite fold_left_map. reflexivity. }
  assert (E2 : forall st,
             fold_left
               (fun st '(a, b, c) => addEdge (addEdge (addEdge st a b) b c) c a)
               tris st
             = fold_left add sides st).
  { intros st. unfold sides. rewrite fold_left_flat_map.
    apply fold_left_ext. intros s [[a b] c]. reflexivity. }
  rewrite E1, E2.
  assert (H0 : numbering_inv ([], [], 0)).
  { split; [reflexivity|]. split; [constructor|].
    split; [intros e; simpl; intuition discriminate | intros e []]. }
  destruct (add_edges_spec ring _ H0) as [R1 [R2 [_ R4]]].
  destruct (add_edges_spec sides _ R1) as [S1 [S2 [[suffix S3] _]]].
  cbv zeta in *. fold add in R1, R2, R4, S1, S2, S3.
  set (st1 := fold_left add ring ([], [], 0)) in *.
  set (st2 := fold_left add sides st1) in *.
  split; [assumption|]. split.
  - intros e. rewrite S2, R2. unfold numbered_edges at 1. cbn [fst snd In].
    split.
    + intros [[[] | [p [Hp ->]]] | [p [Hp ->]]].
      * left. unfold ring in Hp. apply in_map_iff in Hp.
        destruct Hp as [i [<- Hi]]. apply in_seq in Hi.
        exists i. split; [lia | reflexivity].
      * right. unfold sides in Hp. apply in_flat_map in Hp.
        destruct Hp as [[[k j] i] [Ht Hp]]. pose proof Ht as T.
        apply Htris in T. exists k, j, i. split; [assumption|].
        destruct T as [T1 [T2 _]]. unfold ordered_pair.
        destruct Hp as [<- | [<- | [<- | []]]]; cbn [fst snd].
        -- left. destruct (Nat.ltb_spec j k); [lia | reflexivity].
        -- right. left. destruct (Nat.ltb_spec i j); [lia | reflexivity].
        -- right. right. destruct (Nat.ltb_spec k i); [reflexivity | lia].
    + intros [[i [Hi ->]] | [k [j [i [T He]]]]].
      * left. right. exists (i, (i + 1) mod r). split; [|reflexivity].
        unfold ring. apply in_map_iff. exists i. split; [reflexivity|].
        apply in_seq. lia.
      * right. pose proof T as [T1 [T2 _]]. apply Htris in T.
        unfold sides, ordered_pair.
        destruct He as [-> | [-> | ->]].
        -- exists (k, j). split.
           ++ apply in_flat_map. exists (k, j, i). split; [assumption|].
              left. reflexivity.
           ++ cbn [fst snd]. destruct (Nat.ltb_spec j k); [lia | reflexivity].
        -- exists (j, i). split.
           ++ apply in_flat_map. exists (k, j, i). split; [assumption|].
              right. left. reflexivity.
           ++ cbn [fst snd]. destruct (Nat.ltb_spec i j); [lia | reflexivity].
        -- exists (i, k). split.
           ++ apply in_flat_map. exists (k, j, i). split; [assumption|].
              right. right. left. reflexivity.
           ++ cbn [fst snd]. destruct (Nat.ltb_spec k i); [reflexivity | lia].
  - intros Hr i Hi. rewrite S3.
    assert (Ering : map (fun p => ordered_pair (fst p) (snd p)) ring
                    = map (ring_pair r) (seq 0 r)).
    { unfold ring. rewrite map_map. reflexivity. }
    rewrite R4.
    + unfold numbered_edges at 1. cbn [fst snd app]. rewrite Ering.
      rewrite app_nth1 by (rewrite length_map, length_seq; assumption).
      rewrite (nth_indep _ (0, 0) (ring_pair r 0))
        by (rewrite length_map, length_seq; assumption).
      rewrite map_nth, seq_nth by assumption. reflexivity.
    + rewrite Ering. apply ring_pairs_distinct. assumption.
    + intros p _ [].
Qed.

Lemma edge_table_from_id (conf : Configuration) (st : edge_numbering)
  (edgeids : list Z) :
  edge_table conf = Some st ->
  edgeFromId conf edgeids
  = Some (map (edge_of_index (numbered_edges st)) edgeids)
  /\ edge_count conf = Z.of_nat (length (numbered_edges st)).
Proof.
  intros E. unfold edgeFromId, edge_count. rewrite E.
  destruct st as [[idx tbl] cnt]. split; reflexivity.
Qed.



Lemma fresh_edges_distinct (VtoV : list (list nat)) :
  forall l done,
    NoDup l ->
    (forall e, In e l -> fst e <= snd e /\ In (snd e) (adj VtoV (fst e))) ->
    (forall e, In e done -> fst e <= snd e) ->
    (forall e, In e l -> ~ In e done) ->
    fresh_edges VtoV done l.
Proof.
  induction l as [|e l IH]; intros done Hnd Hl Hdone Hnew; [exact I|].
  inversion Hnd as [|? ? He Hnd']; subst.
  destruct (Hl e (or_introl eq_refl)) as [Hle Hedge].
  cbn [fresh_edges]. split; [assumption|].
  split; [apply Hnew; left; reflexivity|]. split.
  - intros Hin. pose proof (Hdone _ Hin) as H. cbn [fst snd] in H.
    assert (E : e = (snd e, fst e)).
    { destruct e as [a b]. cbn [fst snd] in *. f_equal; lia. }
    rewrite <- E in Hin. apply (Hnew e); [left; reflexivity | assumption].
  - apply IH; [assumption | | |].
    + intros f Hf. apply Hl. right. assumption.
    + intros f [<- | Hf]; [assumption | apply Hdone; assumption].
    + intros f Hf [<- | Hin]; [contradiction|].
      apply (Hnew f); [right|]; assumption.
Qed.

Lemma ordered_pair_edge (VtoV : list (list nat)) (x y : nat) :
  undirected VtoV -> In y (adj VtoV x) ->
  In (snd (ordered_pair x y)) (adj VtoV (fst (ordered_pair x y))).
Proof.
  intros Hu Hxy. unfold ordered_pair.
  destruct (y <? x); cbn [fst snd]; [apply Hu|]; assumption.
Qed.

Lemma NoDup_map_nth (tbl : list (nat * nat)) (ids : list Z) :
  NoDup tbl -> NoDup ids ->
  (forall id, In id ids -> (0 <= id < Z.of_nat (length tbl))%Z) ->
  NoDup (map (edge_of_index tbl) ids)
  /\ forall e, In e (map (edge_of_index tbl) ids) -> In e tbl.
Proof.
  intros Ht Hi Hr.
  assert (Hread : forall id, In id ids ->
            edge_of_index tbl id = nth (Z.to_nat id) tbl (0, 0)
            /\ Z.to_nat id < length tbl).
  { intros id Hid. specialize (Hr id Hid). unfold edge_of_index.
    destruct (Z.ltb_spec id 0); [lia|]. split; [reflexivity | lia]. }
  split.
  - apply NoDup_map_on; [assumption|].
    intros a b Ha Hb E.
    destruct (Hread a Ha) as [Ea La]. destruct (Hread b Hb) as [Eb Lb].
    rewrite Ea, Eb in E.
    apply (proj1 (NoDup_nth tbl (0, 0)) Ht) in E; [|assumption..].
    pose proof (Hr a Ha). pose proof (Hr b Hb). lia.
  - intros e He. apply in_map_iff in He. destruct He as [id [<- Hid]].
    destruct (Hread id Hid) as [-> L]. apply nth_In. assumption.
Qed.

(** X14: on an undirected adjacency that contains the ring, distinct ids
    below the number of numbered edges give [edgeFromId] a list of
    distinct existing edges, and the assertion of [WF] accepts this list:
    the contracted distances of [setContract] are computed. *)
Theorem edgeFromId_contractible (conf : Configuration) (edgeids : list Z) :
  wf_graph (n_ conf) (VtoV_ conf) -> undirected (VtoV_ conf) ->
  ring_cycle (VtoV_ conf) (r_ conf) ->
  NoDup edgeids ->
  (forall id, In id edgeids -> (0 <= id < edge_count conf)%Z) ->
  exists edges d,
    edgeFromId conf edgeids = Some edges
    /\ NoDup edges
    /\ fresh_edges (VtoV_ conf) [] edges
    /\ WF (n_ conf) (VtoV_ conf) edges true = Ok d.
Proof.
  intros Hwf Hu Hring Hids Hrange.
  destruct (edge_table_spec conf) as [st [E [Hinv [Hmem _]]]];
    [rewrite (proj1 Hwf); lia|].
  destruct (edge_table_from_id conf st edgeids E) as [E1 E2].
  rewrite E2 in Hrange.
  set (tbl := numbered_edges st) in *.
  assert (Htbl : NoDup tbl /\ forall e, In e tbl -> fst e <= snd e).
  { destruct st as [[idx t] cnt]. destruct Hinv as [_ [H1 [_ H2]]].
    split; assumption. }
  destruct Htbl as [Hnd Hle].
  assert (Hedge : forall e, In e tbl -> In (snd e) (adj (VtoV_ conf) (fst e))).
  { intros e He. apply Hmem in He.
    destruct He as [[i [Hi ->]] | [k [j [i [T He]]]]].
    - apply ordered_pair_edge; [assumption | apply Hring; assumption].
    - destruct T as [_ [_ [_ [T1 [T2 T3]]]]].
      destruct He as [-> | [-> | ->]]; cbn [fst snd];
        [assumption | assumption | apply Hu; assumption]. }
  destruct (NoDup_map_nth tbl edgeids Hnd Hids Hrange) as [Hnd' Hin'].
  assert (Hfresh : fresh_edges (VtoV_ conf) []
                     (map (edge_of_index tbl) edgeids)).
  { apply fresh_edges_distinct; [assumption | | intros e [] | intros e _ []].
    intros e He. split; [apply Hle | apply Hedge]; apply Hin'; assumption. }
  destruct (WF_true_spec (n_ conf) (VtoV_ conf)
              (map (edge_of_index tbl) edgeids) Hwf)
    as [[_ [d Ed]] | [Hno _]]; [|contradiction].
  exists (map (edge_of_index tbl) edgeids), d.
  split; [assumption|]. split; [assumption|]. split; assumption.
Qed.

Lemma ring_cycleb_sound (VtoV : list (list nat)) (r : nat) :
  ring_cycleb VtoV r = true -> ring_cycle VtoV r.
Proof.
  unfold ring_cycleb, ring_cycle. rewrite forallb_forall.
  intros H i Hi. apply mem_true_iff, H, in_seq. lia.
Qed.

Example edgeFromId_wheel :
  exists c,
    newConfiguration 8 6 wheel_adj = Ok c
    /\ edge_count c = 15%Z
    /\ edgeFromId c [0; 7; 12]%Z = Some [(0, 1); (0, 6); (2, 6)].
Proof. eexists. split; [vm_compute; reflexivity|]. split; reflexivity. Qed.

Lemma wheel_conf_built : newConfiguration 8 6 wheel_adj = Ok wheel_conf.
Proof. vm_compute. reflexivity. Qed.

Lemma edgeFromId_contractible_witness :
  exists edges d,
    edgeFromId wheel_conf [0; 7; 12]%Z = Some edges
    /\ NoDup edges
    /\ fresh_edges (VtoV_ wheel_conf) [] edges
    /\ WF (n_ wheel_conf) (VtoV_ wheel_conf) edges true = Ok d.
Proof.
  apply edgeFromId_contractible.
  - apply wf_graphb_sound. reflexivity.
  - apply undirectedb_sound. reflexivity.
  - apply ring_cycleb_sound. reflexivity.
  - repeat constructor; simpl; intuition discriminate.
  - intros id [<- | [<- | [<- | []]]];
      change (edge_count wheel_conf) with 15%Z; lia.
Defined.

(** ** [shortestPaths] against the distances of [WF] *)

Lemma is_path_tail (VtoV : list (list nat)) (a : nat) (l : list nat) :
  is_path VtoV (a :: l) -> is_path VtoV l.
Proof. destruct l; [intros; exact I | intros [_ H]; exact H]. Qed.

Lemma tight_tail (D : list Z) (cs : list (nat * nat)) (a : nat)
  (l : list nat) :
  tight D cs (a :: l) -> tight D cs l.
Proof. destruct l; [intros; exact I | intros [_ H]; exact H]. Qed.

Lemma is_path_suffix (VtoV : list (list nat)) (l1 l2 : list nat) :
  is_path VtoV (l1 ++ l2) -> is_path VtoV l2.
Proof.
  induction l1 as [|x l1 IH]; [auto|]. intros H.
  apply IH. apply (is_path_tail VtoV x). assumption.
Qed.

Lemma tight_suffix (D : list Z) (cs : list (nat * nat)) (l1 l2 : list nat) :
  tight D cs (l1 ++ l2) -> tight D cs l2.
Proof.
  induction l1 as [|x l1 IH]; [auto|]. intros H.
  apply IH. apply (tight_tail D cs x). assumption.
Qed.

Lemma back_suffix (l1 : list nat) (a : nat) (l2 : list nat) :
  back (l1 ++ a :: l2) = back (a :: l2).
Proof.
  induction l1 as [|x l1 IH]; [reflexivity|].
  change ((x :: l1) ++ a :: l2) with (x :: (l1 ++ a :: l2)).
  destruct (l1 ++ a :: l2) as [|y l] eqn:E.
  - destruct l1; discriminate.
  - rewrite back_cons. assumption.
Qed.

(** A tight path can be cut down to a simple one. *)
Lemma simple_tight_path (VtoV : list (list nat)) (D : list Z)
  (cs : list (nat * nat)) :
  forall p, p <> [] -> is_path VtoV p -> tight D cs p ->
    exists p', p' <> [] /\ front p' = front p /\ back p' = back p
               /\ is_path VtoV p' /\ tight D cs p' /\ NoDup p'.
Proof.
  induction p as [|a [|b q] IH]; intros Hne Hp Ht; [congruence | |].
  - exists [a]. repeat split; try assumption; try discriminate.
    repeat constructor. intros [].
  - destruct Hp as [Hab Hp]. destruct Ht as [Htab Ht].
    destruct (IH ltac:(discriminate) Hp Ht)
      as [q' [Hq1 [Hq2 [Hq3 [Hq4 [Hq5 Hq6]]]]]].
    destruct (in_dec Nat.eq_dec a q') as [Hin | Hnotin].
    + apply in_split in Hin. destruct Hin as [l1 [l2 E]]. subst q'.
      exists (a :: l2). split; [discriminate|]. split; [reflexivity|].
      split; [rewrite back_cons, <- Hq3; symmetry; apply back_suffix|].
      split; [apply (is_path_suffix VtoV l1); assumption|].
      split; [apply (tight_suffix D cs l1); assumption|].
      apply NoDup_app_remove_l in Hq6. assumption.
    + destruct q' as [|b' q']; [congruence|].
      unfold front in Hq2. simpl in Hq2. subst b'.
      exists (a :: b :: q'). split; [discriminate|]. split; [reflexivity|].
      split; [rewrite !back_cons; assumption|].
      split; [split; assumption|]. split; [split; assumption|].
      constructor; assumption.
Qed.

Lemma fresh_edges_names (VtoV : list (list nat)) :
  forall contract done,
    fresh_edges VtoV done contract -> names_edges VtoV contract.
Proof.
  induction contract as [|e contract IH]; intros done H f Hf; [destruct Hf|].
  destruct H as [He [_ [_ H]]]. destruct Hf as [<- | Hf]; [assumption|].
  apply (IH _ H). assumption.
Qed.

Lemma start_weight_nonneg (VtoV : list (list nat))
  (contract : list (nat * nat)) (flag : bool) (u v : nat) :
  (0 <= start_weight VtoV contract flag u v)%Z.
Proof.
  unfold start_weight. destruct (flag && zeroed contract u v); [lia|].
  apply init_dist_nonneg.
Qed.

Lemma sw_walk_nonneg (VtoV : list (list nat)) (contract : list (nat * nat))
  (flag : bool) (inter : list nat) :
  forall u v, (0 <= walk_weight (start_weight VtoV contract flag) u inter v)%Z.
Proof.
  induction inter as [|x inter IH]; intros u v; cbn [walk_weight].
  - apply start_weight_nonneg.
  - pose proof (start_weight_nonneg VtoV contract flag u x).
    pose proof (IH x v). lia.
Qed.

Lemma zeroed_contract_set (contract : list (nat * nat)) (flag : bool)
  (u v : nat) :
  mem_pair (v, u) (contract_set contract flag) = flag && zeroed contract u v.
Proof.
  pose proof (edge_weight_contract_set contract flag u v) as H.
  unfold edge_weight, contracted_weight, zeroed in *.
  destruct (mem_pair (v, u) (contract_set contract flag));
    destruct (flag && (mem_pair (u, v) contract || mem_pair (v, u) contract));
    [reflexivity | discriminate | discriminate | reflexivity].
Qed.

(** On an edge the two weights agree. *)
Lemma start_weight_edge (VtoV : list (list nat)) (contract : list (nat * nat))
  (flag : bool) (u v : nat) :
  In v (adj VtoV u) ->
  start_weight VtoV contract flag u v
  = edge_weight (contract_set contract flag) u v.
Proof.
  intros H. unfold start_weight, edge_weight.
  rewrite zeroed_contract_set.
  destruct (flag && zeroed contract u v); [reflexivity|].
  apply init_dist_one_iff. assumption.
Qed.

(** A light step is an edge or stays where it is. *)
Lemma light_step (VtoV : list (list nat)) (contract : list (nat * nat))
  (flag : bool) (u v : nat) :
  undirected VtoV -> (flag = true -> names_edges VtoV contract) ->
  (start_weight VtoV contract flag u v < INF)%Z ->
  In v (adj VtoV u) \/ u = v.
Proof.
  intros Hu Hnames Hw. unfold start_weight in Hw.
  destruct flag; cbn [andb] in Hw.
  - destruct (zeroed contract u v) eqn:Ez.
    + left. unfold zeroed in Ez. apply orb_true_iff in Ez.
      destruct Ez as [Ez | Ez]; apply mem_pair_true_iff in Ez;
        apply (Hnames eq_refl) in Ez; cbn [fst snd] in Ez;
        [|apply Hu]; assumption.
    + unfold init_dist in Hw. destruct (mem v (adj VtoV u)) eqn:Em.
      * left. apply mem_true_iff. assumption.
      * destruct (Nat.eqb_spec u v); [right; assumption | lia].
  - unfold init_dist in Hw. destruct (mem v (adj VtoV u)) eqn:Em.
    + left. apply mem_true_iff. assumption.
    + destruct (Nat.eqb_spec u v); [right; assumption | lia].
Qed.

Lemma walk_to_path (VtoV : list (list nat)) (contract : list (nat * nat))
  (flag : bool) :
  undirected VtoV -> (flag = true -> names_edges VtoV contract) ->
  forall inter u v,
    (walk_weight (start_weight VtoV contract flag) u inter v < INF)%Z ->
    exists q,
      path_from_to VtoV u v q
      /\ (path_weight (contract_set contract flag) q
          <= walk_weight (start_weight VtoV contract flag) u inter v)%Z.
Proof.
  intros Hu Hnames.
  assert (Hstep : forall u v,
             (start_weight VtoV contract flag u v < INF)%Z ->
             forall q, path_from_to VtoV v (back q) q ->
               exists q', path_from_to VtoV u (back q) q'
                          /\ (path_weight (contract_set contract flag) q'
                              <= start_weight VtoV contract flag u v
                                 + path_weight (contract_set contract flag) q)%Z).
  { intros u v Hw q [Hne [Hf [_ Hp]]].
    destruct q as [|a q]; [congruence|].
    unfold front in Hf. simpl in Hf. subst a.
    destruct (light_step VtoV contract flag u v Hu Hnames Hw) as [He | ->].
    - exists (u :: v :: q). split.
      + split; [discriminate|]. split; [reflexivity|].
        split; [apply back_cons | split; assumption].
      + change (path_weight (contract_set contract flag) (u :: v :: q))
          with (edge_weight (contract_set contract flag) u v
                + path_weight (contract_set contract flag) (v :: q))%Z.
        rewrite (start_weight_edge VtoV contract flag u v He). lia.
    - exists (v :: q). split.
      + split; [discriminate|]. split; [reflexivity|].
        split; [reflexivity | assumption].
      + pose proof (start_weight_nonneg VtoV contract flag v v). lia. }
  induction inter as [|x inter IH]; intros u v Hw; cbn [walk_weight] in *.
  - destruct (Hstep u v Hw [v]) as [q' [Hq' Hle]].
    + split; [discriminate|]. repeat split.
    + exists q'. split; [exact Hq'|]. simpl in Hle. lia.
  - pose proof (start_weight_nonneg VtoV contract flag u x) as H1.
    pose proof (sw_walk_nonneg VtoV contract flag inter x v) as H2.
    destruct (IH x v ltac:(lia)) as [q [Hq Hle]].
    pose proof Hq as [Hne [Hf [Hb Hp]]].
    destruct (Hstep u x ltac:(lia) q) as [q' [Hq' Hle']].
    + rewrite Hb. exact Hq.
    + rewrite Hb in Hq'. exists q'. split; [assumption | lia].
Qed.

Lemma path_as_walk (n : nat) (VtoV : list (list nat))
  (contract : list (nat * nat)) (flag : bool) :
  wf_graph n VtoV ->
  forall p u,
    u < n -> is_path VtoV (u :: p) -> p <> [] ->
    exists inter,
      (forall x, In x inter -> x < n)
      /\ walk_weight (start_weight VtoV contract flag) u inter (back (u :: p))
         = path_weight (contract_set contract flag) (u :: p).
Proof.
  intros Hwf. induction p as [|x p IH]; intros u Hu Hp Hne; [congruence|].
  destruct Hp as [Hux Hp].
  assert (Hx : x < n) by (eapply (proj2 Hwf); eassumption).
  destruct p as [|y p].
  - exists []. split; [intros z []|]. cbn [walk_weight].
    unfold back. simpl.
    rewrite (start_weight_edge VtoV contract flag u x Hux). lia.
  - destruct (IH x Hx Hp ltac:(discriminate)) as [inter [Hin Hw]].
    exists (x :: inter). split.
    + intros z [<- | Hz]; auto.
    + cbn [walk_weight]. rewrite back_cons. rewrite Hw.
      rewrite (start_weight_edge VtoV contract flag u x Hux).
      reflexivity.
Qed.

Lemma shortestPaths_internals (n : nat) (VtoV : list (list nat))
  (contract : list (nat * nat)) (s t : nat) (flag : bool) :
  wf_graph n VtoV -> s < n -> t < n ->
  exists D paths,
    dist_inv n VtoV (contract_set contract flag) s [] (D, [])
    /\ paths_inv n VtoV (contract_set contract flag) D s [] (paths, [])
    /\ shortestPaths n VtoV contract s t flag = Ok (nth t paths []).
Proof.
  intros Hwf Hs Ht. unfold shortestPaths.
  set (cs := contract_set contract flag).
  destruct (sp_dist_spec n VtoV cs s Hwf Hs) as [D [ED HD]].
  assert (Hf : feasible n VtoV cs D).
  { destruct HD as [_ [_ [_ [_ [_ Hrel]]]]]. cbn [fst snd] in Hrel.
    intros v u Hv Hu. apply Hrel; [assumption | intros [] | intros [] |].
    assumption. }
  destruct (sp_paths_spec n VtoV cs D s Hwf Hf Hs) as [paths [EP HP]].
  exists D, paths. split; [assumption|]. split; [assumption|].
  rewrite ED. cbn [bind]. rewrite EP. cbn [bind fst].
  pose proof HP as [[_ [_ Hnd]] _]. cbn [fst] in Hnd.
  rewrite sp_unique_nodup by (apply Hnd; assumption). reflexivity.
Qed.

(** [shortestPaths] against the matrix of [WF]. *)
Lemma shortestPaths_agree_WF (n : nat) (VtoV : list (list nat))
  (contract : list (nat * nat)) (flag : bool) (s t : nat) (d : matrix) :
  wf_graph n VtoV -> undirected VtoV -> loop_free VtoV ->
  (Z.of_nat n + 1 <= INF)%Z -> s < n -> t < n ->
  WF n VtoV contract flag = Ok d ->
  exists ps,
    shortestPaths n VtoV contract s t flag = Ok ps
    /\ (forall p, In p ps -> path_from_to VtoV s t p)
    /\ (forall p, In p ps ->
          path_weight (contract_set contract flag) p = mget d s t)
    /\ (ps = [] <-> (INF <= mget d s t)%Z).
Proof.
  intros Hwf Hu Hl Hn Hs Ht Ed.
  set (cs := contract_set contract flag).
  assert (Hnames : flag = true -> names_edges VtoV contract).
  { intros ->. destruct (WF_true_spec n VtoV contract Hwf)
      as [[Hf _] | [_ E]]; [|rewrite E in Ed; discriminate].
    apply (fresh_edges_names VtoV contract []). assumption. }
  destruct (WF_start_weight n VtoV contract flag d Hwf Ed)
    as [d0 [Ed0 [Hs0 [Hnn0 Hw0]]]].
  destruct (WF_relax_spec n d0 Hs0 Hnn0) as [_ [_ [Hreal Hshort]]].
  rewrite <- Ed0 in Hreal, Hshort.
  pose proof (WF_metric n VtoV contract flag d Hwf Hu Hl Ed) as [_ [Hd0 _]].
  assert (Hle : forall p, path_from_to VtoV s t p ->
                  (mget d s t <= path_weight cs p)%Z).
  { intros p [Hne [Hf [Hb Hp]]]. destruct p as [|a p]; [congruence|].
    unfold front in Hf. simpl in Hf. subst a.
    destruct p as [|x p].
    - unfold back in Hb. simpl in Hb. subst t. rewrite Hd0 by assumption.
      simpl. lia.
    - destruct (path_as_walk n VtoV contract flag Hwf (x :: p) s Hs Hp
                  ltac:(discriminate)) as [inter [Hin Hw]].
      rewrite Hb in Hw. fold cs in Hw. rewrite <- Hw.
      rewrite <- (walk_weight_ext n (mget d0)) by assumption.
      apply Hshort; assumption. }
  assert (Hge : (mget d s t < INF)%Z ->
                exists q, path_from_to VtoV s t q
                          /\ (path_weight cs q <= mget d s t)%Z).
  { intros Hfin. destruct (Hreal s t Hs Ht) as [inter [Hin Hw]].
    rewrite (walk_weight_ext n (mget d0) (start_weight VtoV contract flag))
      in Hw by assumption.
    rewrite <- Hw in Hfin |- *.
    apply (walk_to_path VtoV contract flag Hu Hnames). assumption. }
  destruct (shortestPaths_internals n VtoV contract s t flag Hwf Hs Ht)
    as [D [paths [HD [HP E]]]].
  fold cs in HD, HP.
  pose proof (tight_simple_shortest n VtoV cs D s t Hwf Hn Hs Ht HD) as Hiff.
  pose proof HD as [_ [_ [HDs [HDreal [_ Hrel]]]]]. cbn [fst snd] in *.
  assert (Hf : feasible n VtoV cs D).
  { intros v u Hv Hu'. apply Hrel; [assumption | intros [] | intros [] |].
    assumption. }
  pose proof HP as [[_ [Hall _]] _]. cbn [fst] in Hall.
  assert (Hweight : forall p, In p (nth t paths []) ->
            path_weight cs p = mget d s t).
  { intros p Hp. pose proof (Hall t p Ht Hp) as Htsp.
    pose proof (proj1 (Hiff p) Htsp) as [Hpath [Hnd Hmin]].
    pose proof (Hle p Hpath) as H1.
    assert (Hlen : (path_weight cs p < INF)%Z).
    { destruct Hpath as [Hne [Hf' [_ Hpp]]].
      assert (Hlt : forall x, In x p -> x < n).
      { apply (path_vertices_lt n VtoV p Hwf Hne); [lia | assumption]. }
      pose proof (simple_path_length n p Hnd Hlt).
      destruct (path_weight_le_length cs p) as [Hw | Hw]; [|congruence].
      unfold INF in *. lia. }
    destruct (Hge ltac:(lia)) as [q [Hq Hqw]].
    pose proof (Hmin q Hq). lia. }
  exists (nth t paths []). split; [assumption|].
  split; [intros p Hp; apply (Hall t p Ht Hp)|]. split; [assumption|].
  split.
  - intros Hempty.
    destruct (Z_lt_le_dec (mget d s t) INF) as [Hfin | Hinf]; [|assumption].
    exfalso. destruct (Hge Hfin) as [q [Hq Hqw]].
    pose proof Hq as [Hqne [Hqf [Hqb Hqp]]].
    pose proof (feasible_path n VtoV cs D Hwf Hf q Hqne
                  ltac:(rewrite Hqf; assumption) Hqp) as HDt.
    rewrite Hqf, Hqb, HDs in HDt.
    destruct (HDreal t Ht ltac:(lia)) as [q' [Hq' Hq'w]].
    pose proof Hq' as [Hq'ne [Hq'f [Hq'b Hq'p]]].
    assert (Htight : tight D cs q').
    { apply (feasible_tight n VtoV cs D Hwf Hf q' Hq'ne); [lia | assumption|].
      rewrite Hq'f, Hq'b, HDs. lia. }
    destruct (simple_tight_path VtoV D cs q' Hq'ne Hq'p Htight)
      as [p' [P1 [P2 [P3 [P4 [P5 P6]]]]]].
    assert (Hin : In p' (nth t paths [])).
    { apply (paths_complete n VtoV cs D s paths Hwf Hf Hs HP).
      split; [|split; assumption].
      split; [assumption|]. split; [congruence|]. split; [congruence|].
      assumption. }
    rewrite Hempty in Hin. destruct Hin.
  - intros Hinf. destruct (nth t paths []) as [|p ps] eqn:Ep; [reflexivity|].
    exfalso.
    assert (Hp : In p (nth t paths [])) by (rewrite Ep; left; reflexivity).
    pose proof (Hweight p ltac:(rewrite <- Ep; exact Hp)) as Hw.
    pose proof (Hall t p Ht Hp) as [Hpath [Hnd _]].
    destruct Hpath as [Hne [Hf' [_ Hpp]]].
    assert (Hlt : forall x, In x p -> x < n).
    { apply (path_vertices_lt n VtoV p Hwf Hne); [lia | assumption]. }
    pose proof (simple_path_length n p Hnd Hlt).
    destruct (path_weight_le_length cs p) as [Hw' | Hw']; [|congruence].
    unfold INF in *. lia.
Qed.

(** X15: on an undirected graph without loops and with fewer vertices than
    the sentinel, [shortestPaths(s, t, flag)] and [WF(flag)] agree: every
    returned path weighs [dist[s][t]], and the returned list is empty
    exactly when [dist[s][t]] is the sentinel [INF] or more. *)
Theorem shortestPaths_matches_WF (n : nat) (VtoV : list (list nat))
  (contract : list (nat * nat)) (flag : bool) (s t : nat) (d : matrix) :
  wf_graph n VtoV -> undirected VtoV -> loop_free VtoV ->
  (Z.of_nat n + 1 <= INF)%Z -> s < n -> t < n ->
  WF n VtoV contract flag = Ok d ->
  exists ps,
    shortestPaths n VtoV contract s t flag = Ok ps
    /\ (forall p, In p ps ->
          path_weight (contract_set contract flag) p = mget d s t)
    /\ (ps = [] <-> (INF <= mget d s t)%Z).
Proof.
  intros Hwf Hu Hl Hn Hs Ht Ed.
  destruct (shortestPaths_agree_WF n VtoV contract flag s t d Hwf Hu Hl Hn
              Hs Ht Ed) as [ps [E [_ [Hw He]]]].
  exists ps. split; [assumption|]. split; assumption.
Qed.

Lemma shortestPaths_matches_WF_witness :
  exists d ps,
    WF 8 wheel_adj [(6, 7)] true = Ok d
    /\ shortestPaths 8 wheel_adj [(6, 7)] 2 7 true = Ok ps
    /\ (forall p, In p ps ->
          path_weight (contract_set [(6, 7)] true) p = mget d 2 7)
    /\ (ps = [] <-> (INF <= mget d 2 7)%Z).
Proof.
  eexists ?[d].
  assert (E : WF 8 wheel_adj [(6, 7)] true = Ok ?d)
    by (vm_compute; reflexivity).
  destruct (shortestPaths_matches_WF 8 wheel_adj [(6, 7)] true 2 7 _
              ltac:(apply wf_graphb_sound; reflexivity)
              ltac:(apply undirectedb_sound; reflexivity)
              ltac:(apply loop_freeb_sound; reflexivity)
              ltac:(unfold INF; simpl; lia) ltac:(lia) ltac:(lia) E)
    as [ps Hps].
  exists ps. split; assumption.
Defined.

(** ** The vectors of the structure keep their size *)

Lemma sized_vset {A : Type} (n : nat) (v : list A) (i : nat) (x : A) :
  sized n v -> sized n (vset v i x).
Proof. unfold sized. rewrite length_vset. auto. Qed.

Lemma updateIsReductable_sized (n m : nat) (is_reductable : list bool)
  (component_id : list Z) (is_ring : list bool) :
  sized m is_reductable ->
  sized m (updateIsReductable n is_reductable component_id is_ring).
Proof.
  intros H. unfold updateIsReductable.
  apply fold_left_invariant; [|assumption].
  intros st w Hst _. destruct (_ && _); [apply sized_vset|]; assumption.
Qed.

Lemma mark_component_sized (m : nat) (dc : matrix)
  (component on_paths : list nat) (is_reductable : list bool) :
  sized m is_reductable ->
  sized m (mark_component dc component on_paths is_reductable).
Proof.
  intros H. unfold mark_component.
  apply fold_left_invariant; [|assumption].
  intros st w Hst _. destruct (fold_left _ _ _); [|apply sized_vset]; assumption.
Qed.

Ltac sized_step m :=
  match goal with
  | H : Ok _ = Ok _ |- _ => injection H as <-
  | H : bind _ _ = Ok _ |- _ =>
      apply bind_ok in H; let a := fresh "a" in let E := fresh "E" in
      destruct H as [a [E H]]
  | H : (if ?b then _ else _) = Ok _ |- _ => destruct b
  | H : (let '(_, _) := ?x in _) = Ok _ |- _ => destruct x
  | H : fold_res _ _ _ = Ok _ |- sized m _ =>
      apply (fold_res_keeps (sized m)) in H;
      [exact H | assumption
       | let st := fresh "st" in let x := fresh "x" in
         let st' := fresh "st'" in let Hst := fresh "Hst" in
         let Hin := fresh "Hin" in let Hb := fresh "Hb" in
         clear H; intros st x st' Hst Hin Hb]
  end.

Ltac sized_all m :=
  repeat sized_step m;
  try assumption; try (apply mark_component_sized; assumption).

Lemma mark_pairs_sized (m : nat) (dist dc : matrix)
  (component : list nat -> list nat -> res (list nat)) (q1 p2 q2 p1 : nat)
  (paths1 paths2 : list (list nat)) (is_reductable is_reductable' : list bool) :
  mark_pairs dist dc component q1 p2 q2 p1 paths1 paths2 is_reductable
  = Ok is_reductable' ->
  sized m is_reductable -> sized m is_reductable'.
Proof.
  unfold mark_pairs. intros H Hv. sized_all m.
Qed.

Lemma calcReductableVertices1_sized (m n r : nat) (VtoV : list (list nat))
  (all_paths : list (list (list (list nat)))) (contract : list (nat * nat))
  (dist dc : matrix) (C : Z) (is_reductable is_reductable' : list bool) :
  calcReductableVertices1 n r VtoV all_paths contract dist dc C is_reductable
  = Ok is_reductable' ->
  sized m is_reductable -> sized m is_reductable'.
Proof.
  unfold calcReductableVertices1. intros H Hv. sized_all m.
Qed.

Ltac sized_pairs m :=
  sized_all m;
  match goal with
  | H : mark_pairs _ _ _ _ _ _ _ _ _ _ = Ok _ |- _ =>
      apply (mark_pairs_sized m _ _ _ _ _ _ _ _ _ _ _ H); assumption
  end.

Lemma two_outer_paths_sized (m n r : nat) (VtoV : list (list nat))
  (all_paths : list (list (list (list nat)))) (contract : list (nat * nat))
  (dist dc : matrix) (flipped : bool)
  (almost_minimal : list nat -> list nat -> Z -> Z -> Z -> res bool)
  (size_of : list nat -> list nat -> res (Z * Z))
  (component : list nat -> list nat -> res (list nat))
  (C : Z) (is_reductable is_reductable' : list bool) :
  two_outer_paths n r VtoV all_paths contract dist dc flipped almost_minimal
    size_of component C is_reductable = Ok is_reductable' ->
  sized m is_reductable -> sized m is_reductable'.
Proof.
  unfold two_outer_paths. intros H Hv. sized_pairs m.
Qed.

Lemma calcReductableVertices3_sized (m n r : nat) (VtoV : list (list nat))
  (all_paths : list (list (list (list nat)))) (contract : list (nat * nat))
  (dist dc l6 o6 l7 o7 : matrix) (C : Z)
  (is_reductable is_reductable' : list bool) :
  calcReductableVertices3 n r VtoV all_paths contract dist dc l6 o6 l7 o7 C
    is_reductable = Ok is_reductable' ->
  sized m is_reductable -> sized m is_reductable'.
Proof.
  unfold calcReductableVertices3. intros H Hv. sized_pairs m.
Qed.

Lemma calcReductableVertices_sized (n r : nat) (VtoV : list (list nat))
  (all_paths : list (list (list (list nat)))) (contract : list (nat * nat))
  (dist dc l6 o6 l7 o7 : matrix) (C : Z) (mask : list bool) :
  calcReductableVertices n r VtoV all_paths contract dist dc l6 o6 l7 o7 C
  = Ok mask ->
  sized n mask.
Proof.
  unfold calcReductableVertices. intros H.
  apply bind_ok in H. destruct H as [[] [_ H]].
  apply bind_ok in H. destruct H as [m1 [E1 H]].
  apply bind_ok in H. destruct H as [m2 [E2 H]].
  apply bind_ok in H. destruct H as [m3 [E3 H]].
  assert (H0 : sized n (repeat false n)) by apply repeat_length.
  assert (H1 : sized n m1)
    by (eapply calcReductableVertices1_sized; eassumption).
  assert (H2 : sized n m2)
    by (eapply two_outer_paths_sized; eassumption).
  assert (H3 : sized n m3)
    by (eapply calcReductableVertices3_sized; eassumption).
  eapply two_outer_paths_sized; eassumption.
Qed.

Lemma calcCutReduction_sized (n r : nat) (VtoV : list (list nat))
  (dc : matrix) (mask : list bool) :
  calcCutReduction n r VtoV dc = Ok mask -> sized n mask.
Proof.
  intros E. unfold calcCutReduction in E.
  assert (Hup : forall m cid is_ring, sized n m ->
                  sized n (updateIsReductable n m cid is_ring))
    by (intros; apply updateIsReductable_sized; assumption).
  apply (fold_res_keeps (sized n) _ _ _ _ E); [apply repeat_length|].
  intros m0 v0 m0' H0 _ E0.
  apply bind_ok in E0. destruct E0 as [cid0 [_ E0]].
  apply (fold_res_keeps (sized n) _ _ _ _ E0); [apply Hup; assumption|].
  intros m1 v1 m1' H1 _ E1.
  apply bind_ok in E1. destruct E1 as [cid1 [_ E1]].
  apply (fold_res_keeps (sized n) _ _ _ _ E1); [apply Hup; assumption|].
  intros m2 v2 m2' H2 _ E2.
  apply bind_ok in E2. destruct E2 as [cid2 [_ E2]].
  inversion E2; subst. apply Hup. assumption.
Qed.

Lemma calcRepresentative_sized (n : nat) (dc : matrix) :
  sized n (calcRepresentative n dc).
Proof.
  unfold calcRepresentative.
  apply fold_left_invariant; [|apply repeat_length].
  intros st v Hst _. destruct (find _ _); [apply sized_vset|]; assumption.
Qed.

Lemma WF_shape (n : nat) (VtoV : list (list nat)) (contract : list (nat * nat))
  (flag : bool) (d : matrix) :
  wf_graph n VtoV -> WF n VtoV contract flag = Ok d -> mshape n n d.
Proof.
  intros Hwf E.
  destruct (WF_start n VtoV contract flag d Hwf E) as [d0 [-> [Hs [Hnn _]]]].
  apply (WF_relax_spec n d0 Hs Hnn).
Qed.

(** X16: a [setContract] that returns leaves every vector it assigns with
    one entry per vertex: the three masks and [representative_] have [n]
    entries and [dist_contracted_] is an [n] by [n] matrix. *)
Theorem setContract_shapes (c : Configuration) (contract : list (nat * nat))
  (c' : Configuration) :
  wf_graph (n_ c) (VtoV_ c) ->
  setContract c contract = Ok c' ->
  sized (n_ c') (is_reductable_inside_ c')
  /\ sized (n_ c') (is_reductable_outside6_ c')
  /\ sized (n_ c') (is_reductable_outside7_ c')
  /\ sized (n_ c') (representative_ c')
  /\ mshape (n_ c') (n_ c') (dist_contracted_ c').
Proof.
  intros Hwf E. unfold setContract in E.
  apply bind_ok in E. destruct E as [dc [Ed E]].
  apply bind_ok in E. destruct E as [inside [Ei E]].
  apply bind_ok in E. destruct E as [out6 [E6 E]].
  apply bind_ok in E. destruct E as [out7 [E7 E]].
  inversion E; subst c'. cbn [n_ is_reductable_inside_ is_reductable_outside6_
                              is_reductable_outside7_ representative_
                              dist_contracted_].
  split; [apply (calcCutReduction_sized _ _ _ _ _ Ei)|].
  split; [apply (calcReductableVertices_sized _ _ _ _ _ _ _ _ _ _ _ _ _ E6)|].
  split; [apply (calcReductableVertices_sized _ _ _ _ _ _ _ _ _ _ _ _ _ E7)|].
  split; [apply calcRepresentative_sized|].
  apply (WF_shape _ _ _ _ _ Hwf Ed).
Qed.

Lemma setContract_shapes_witness :
  exists c',
    setContract wheel_conf [(7, 0)] = Ok c'
    /\ sized (n_ c') (is_reductable_inside_ c')
    /\ sized (n_ c') (is_reductable_outside6_ c')
    /\ sized (n_ c') (is_reductable_outside7_ c')
    /\ sized (n_ c') (representative_ c')
    /\ mshape (n_ c') (n_ c') (dist_contracted_ c').
Proof.
  eexists. split; [vm_compute; reflexivity|].
  apply (setContract_shapes wheel_conf [(7, 0)]).
  - apply wf_graphb_sound. reflexivity.
  - vm_compute. reflexivity.
Defined.

(** ** [componentIdEquivalence] labels the components left by a cut *)

Lemma in_insert_where (cond : nat -> bool) (l : list nat) (x : nat) :
  forall s,
    In x (fold_left (fun s u => if cond u then set_insert u s else s) l s)
    <-> In x s \/ (In x l /\ cond x = true).
Proof.
  induction l as [|u l IH]; intros s; simpl.
  - intuition.
  - rewrite IH. destruct (cond u) eqn:Eu.
    + rewrite in_set_insert. split.
      * intros [[-> | H] | [H1 H2]]; auto.
      * intros [H | [[-> | H1] H2]]; auto.
    + split.
      * intros [H | [H1 H2]]; auto.
      * intros [H | [[-> | H1] H2]]; auto. congruence.
Qed.

Lemma in_cut_closure (n : nat) (dc : matrix) (cut : list nat) (x : nat) :
  In x (cut_closure n dc cut) <-> cut_member n dc cut x.
Proof.
  unfold cut_closure, cut_member.
  assert (H : forall s,
             In x (fold_left
                     (fun cutset v =>
                        fold_left
                          (fun cutset u =>
                             if equivalent dc v u then set_insert u cutset
                             else cutset)
                          (seq 0 n) (set_insert v cutset))
                     cut s)
             <-> In x s \/ In x cut
                 \/ (x < n /\ exists c, In c cut /\ mget dc x c = 0%Z)).
  { induction cut as [|v cut IH]; intros s; simpl.
    - split; [auto|]. intros [H | [[] | [_ [c [[] _]]]]]. assumption.
    - rewrite IH, in_insert_where, in_set_insert, in_seq.
      unfold equivalent. rewrite Z.eqb_eq. split.
      + intros [[[-> | H] | [H1 H2]] | [H | [H1 [c [H2 H3]]]]]; auto.
        * right. right. split; [lia|]. exists v. auto.
        * right. right. split; [lia|]. exists c. auto.
      + intros [H | [[-> | H] | [H1 [c [[-> | H2] H3]]]]]; auto.
        * left. right. split; [lia | assumption].
        * right. right. split; [assumption|]. exists c. auto. }
  rewrite H. split; [intros [[] | H']; assumption | auto].
Qed.

Lemma labelled_lt (cid : list Z) (x : nat) : labelled cid x -> x < length cid.
Proof.
  unfold labelled. intros H. destruct (Nat.lt_ge_cases x (length cid)) as [L|L];
    [assumption|]. rewrite nth_overflow in H by assumption. congruence.
Qed.

Lemma unvisited_vset_lt (cid : list Z) (v : nat) (c : Z) :
  v < length cid -> nth v cid (-1)%Z = (-1)%Z -> c <> (-1)%Z ->
  unvisited (vset cid v c) < unvisited cid.
Proof.
  intros Hv Hx Hc. pose proof (unvisited_vset cid v c Hv Hx Hc). lia.
Qed.

(** With more fuel than unlabelled vertices the search returns. *)
Lemma componentId_dfs_total (n : nat) (VtoV : list (list nat))
  (cutset : list nat) (c : Z) :
  wf_graph n VtoV -> c <> (-1)%Z ->
  forall fuel v cid,
    length cid = n -> unvisited (vset cid v c) < fuel ->
    exists cid', componentId_dfs VtoV fuel cutset v c cid = Ok cid'
                 /\ length cid' = n
                 /\ unvisited cid' <= unvisited (vset cid v c).
Proof.
  intros Hwf Hc. induction fuel as [|fuel IH]; intros v cid Hlen Hfuel;
    [lia|]. cbn [componentId_dfs].
  destruct (fold_res_total
              (fun st => length st = n
                         /\ unvisited st <= unvisited (vset cid v c))
              (fun component_id u =>
                 if mem u cutset then Ok component_id
                 else if negb (nth u component_id (-1) =? -1)%Z
                      then Ok component_id
                      else componentId_dfs VtoV fuel cutset u c component_id)
              (adj VtoV v)) with (st := vset cid v c)
    as [st' [E' [Hl' Hu']]].
  - intros st u [Hl Hu] Hin.
    destruct (mem u cutset); [exists st; auto|].
    destruct (nth u st (-1) =? -1)%Z eqn:El; cbn [negb]; [|exists st; auto].
    apply Z.eqb_eq in El.
    assert (Hun : u < n) by (eapply (proj2 Hwf); eassumption).
    pose proof (unvisited_vset_lt st u c ltac:(lia) El Hc) as Hdec.
    destruct (IH u st Hl ltac:(lia)) as [st1 [E1 [Hl1 Hu1]]].
    exists st1. repeat split; [assumption | assumption | lia].
  - rewrite length_vset. split; [assumption | lia].
  - exists st'. auto.
Qed.

Lemma closed_mono (VtoV : list (list nat)) (cutset : list nat)
  (st st' : list Z) (x : nat) :
  (forall u, labelled st u -> labelled st' u) ->
  (forall u, In u (adj VtoV x) -> In u cutset \/ labelled st u) ->
  forall u, In u (adj VtoV x) -> In u cutset \/ labelled st' u.
Proof.
  intros Hm Hc u Hu. destruct (Hc u Hu); auto.
Qed.

(** What one call of the search does to the labels. *)
Lemma componentId_dfs_sound (n : nat) (VtoV : list (list nat))
  (cutset : list nat) (c : Z) :
  wf_graph n VtoV -> c <> (-1)%Z ->
  forall fuel v cid cid',
    componentId_dfs VtoV fuel cutset v c cid = Ok cid' ->
    v < n -> ~ In v cutset -> length cid = n ->
    length cid' = n
    /\ (forall x, x <> v -> labelled cid x ->
          nth x cid' (-1)%Z = nth x cid (-1)%Z)
    /\ nth v cid' (-1)%Z = c
    /\ (forall x, ~ labelled cid x -> labelled cid' x ->
          nth x cid' (-1)%Z = c /\ ~ In x cutset
          /\ reaches VtoV cutset v x)
    /\ (forall x, x = v \/ ~ labelled cid x -> labelled cid' x ->
          forall u, In u (adj VtoV x) -> In u cutset \/ labelled cid' u).
Proof.
  intros Hwf Hc.
  induction fuel as [|fuel IH]; intros v cid cid' E Hv Hvc Hlen;
    cbn [componentId_dfs] in E; [discriminate|].
  set (cid1 := vset cid v c) in *.
  assert (Hl1 : length cid1 = n) by (unfold cid1; rewrite length_vset; assumption).
  assert (Hv1 : nth v cid1 (-1)%Z = c)
    by (unfold cid1; apply nth_vset_eq; lia).
  assert (Hx1 : forall x, x <> v -> nth x cid1 (-1)%Z = nth x cid (-1)%Z)
    by (intros x Hx; unfold cid1; apply nth_vset_neq; congruence).
  destruct (fold_res_all
              (fun st : list Z =>
                 length st = n
                 /\ (forall x, labelled cid1 x ->
                       nth x st (-1)%Z = nth x cid1 (-1)%Z)
                 /\ (forall x, ~ labelled cid1 x -> labelled st x ->
                       nth x st (-1)%Z = c /\ ~ In x cutset
                       /\ reaches VtoV cutset v x
                       /\ forall u, In u (adj VtoV x) ->
                            In u cutset \/ labelled st u))
              (fun u (st : list Z) => In u cutset \/ labelled st u)
              (fun component_id u =>
                 if mem u cutset then Ok component_id
                 else if negb (nth u component_id (-1) =? -1)%Z
                      then Ok component_id
                      else componentId_dfs VtoV fuel cutset u c component_id)
              (adj VtoV v)) with (st := cid1) (st' := cid')
    as [[Hlen' [Hold' Hnew']] [Hdone _]].
  - intros st u st1 [Hl [Hold Hnew]] Hu Eu.
    destruct (mem u cutset) eqn:Emu.
    { inversion Eu; subst st1. split; [auto|]. split; [|auto].
      left. apply mem_true_iff. assumption. }
    destruct (nth u st (-1) =? -1)%Z eqn:El; cbn [negb] in Eu.
    2:{ inversion Eu; subst st1. split; [auto|]. split; [|auto].
        right. unfold labelled. apply Z.eqb_neq. assumption. }
    apply Z.eqb_eq in El.
    assert (Hun : u < n) by (eapply (proj2 Hwf); eassumption).
    assert (Huc : ~ In u cutset).
    { intros H. apply mem_true_iff in H. congruence. }
    destruct (IH u st st1 Eu Hun Huc Hl) as [K1 [K2 [K3 [K4 K5]]]].
    assert (Hmono : forall y, labelled st y -> labelled st1 y).
    { intros y Hy. unfold labelled in *.
      destruct (Nat.eq_dec y u) as [->|Hne]; [congruence|].
      rewrite K2; assumption. }
    split; [split; [assumption | split]|split].
    + intros x Hx. pose proof (Hold x Hx) as Hs.
      assert (Hxs : labelled st x) by (unfold labelled in *; congruence).
      assert (x <> u) by (intros ->; unfold labelled in Hxs; congruence).
      rewrite K2; assumption.
    + intros x Hx Hxl.
      destruct (Z.eq_dec (nth x st (-1)%Z) (-1)%Z) as [Hun' | Hlab].
      * assert (Hnl : ~ labelled st x) by (unfold labelled; congruence).
        destruct (K4 x Hnl Hxl) as [L1 [L2 L3]].
        split; [assumption|]. split; [assumption|]. split.
        -- apply (reaches_step VtoV cutset v u x); assumption.
        -- apply K5; [right|]; assumption.
      * destruct (Hnew x Hx Hlab) as [L1 [L2 [L3 L4]]].
        assert (x <> u) by (intros ->; congruence).
        split; [rewrite K2; assumption|]. split; [assumption|].
        split; [assumption|].
        apply (closed_mono VtoV cutset st st1 x Hmono L4).
    + right. unfold labelled. congruence.
    + intros y [Hy | Hy]; [left; assumption | right; apply Hmono; assumption].
  - split; [assumption|]. split; [reflexivity|].
    intros x H1 H2. contradiction.
  - assumption.
  - assert (Hlv : labelled cid1 v) by (unfold labelled; congruence).
    split; [assumption|]. split; [|split; [|split]].
    + intros x Hx Hlx. rewrite Hold'; [apply Hx1; assumption|].
      unfold labelled. rewrite Hx1; assumption.
    + rewrite Hold'; assumption.
    + intros x Hx Hx'. destruct (Nat.eq_dec x v) as [->|Hne].
      * split; [rewrite Hold'; assumption|]. split; [assumption|].
        apply reaches_refl. assumption.
      * destruct (Hnew' x) as [L1 [L2 [L3 _]]]; [|assumption|auto].
        unfold labelled. rewrite Hx1; assumption.
    + intros x Hx Hx' u Hu. destruct (Nat.eq_dec x v) as [->|Hne].
      * apply Hdone. assumption.
      * destruct Hx as [Hx | Hx]; [congruence|].
        destruct (Hnew' x) as [_ [_ [_ L4]]]; [|assumption|auto].
        unfold labelled. rewrite Hx1; assumption.
Qed.

(** A search started between two searches, on labels that are closed. *)
Lemma componentId_dfs_top (n : nat) (VtoV : list (list nat))
  (cutset : list nat) (c : Z) :
  wf_graph n VtoV -> undirected VtoV -> c <> (-1)%Z ->
  forall v cid cid',
    componentId_dfs VtoV (S n) cutset v c cid = Ok cid' ->
    v < n -> ~ In v cutset -> length cid = n ->
    (forall x, labelled cid x -> ~ In x cutset) ->
    labels_closed VtoV cutset cid ->
    (~ labelled cid v \/ nth v cid (-1)%Z = c) ->
    length cid' = n
    /\ (forall x, labelled cid x -> nth x cid' (-1)%Z = nth x cid (-1)%Z)
    /\ nth v cid' (-1)%Z = c
    /\ (forall x, ~ labelled cid x -> labelled cid' x ->
          nth x cid' (-1)%Z = c /\ reaches VtoV cutset v x)
    /\ (forall x, labelled cid' x -> ~ In x cutset)
    /\ labels_closed VtoV cutset cid'.
Proof.
  intros Hwf Hund Hc v cid cid' E Hv Hvc Hlen Hcut Hclosed Hvl.
  destruct (componentId_dfs_sound n VtoV cutset c Hwf Hc (S n) v cid cid' E
              Hv Hvc Hlen) as [K1 [K2 [K3 [K4 K5]]]].
  assert (Hold : forall x, labelled cid x ->
                   nth x cid' (-1)%Z = nth x cid (-1)%Z).
  { intros x Hx. destruct (Nat.eq_dec x v) as [->|Hne]; [|auto].
    destruct Hvl as [Hvl | Hvl]; [contradiction | congruence]. }
  assert (Hmono : forall x, labelled cid x -> labelled cid' x).
  { intros x Hx. unfold labelled. rewrite Hold; assumption. }
  split; [assumption|]. split; [assumption|]. split; [assumption|].
  split; [|split].
  - intros x Hx Hx'. destruct (K4 x Hx Hx') as [L1 [_ L3]]. auto.
  - intros x Hx.
    destruct (Z.eq_dec (nth x cid (-1)%Z) (-1)%Z) as [Hun | Hlab].
    + apply (K4 x); [unfold labelled; congruence | assumption].
    + apply Hcut. assumption.
  - intros x u Hx Hu.
    destruct (Z.eq_dec (nth x cid (-1)%Z) (-1)%Z) as [Hun | Hlab].
    + assert (Hnx : ~ labelled cid x) by (unfold labelled; congruence).
      destruct (K4 x Hnx Hx) as [L1 [L2 _]].
      destruct (K5 x (or_intror Hnx) Hx u Hu) as [Huc | Hul];
        [left; assumption|].
      right. rewrite L1.
      destruct (Z.eq_dec (nth u cid (-1)%Z) (-1)%Z) as [Hun' | Hlab'].
      * apply (K4 u); [unfold labelled; congruence | assumption].
      * exfalso. destruct (Hclosed u x Hlab' (Hund x u Hu)) as [H | H];
          [contradiction | congruence].
    + destruct (Hclosed x u Hlab Hu) as [H | H]; [left; assumption|].
      right. rewrite (Hold x Hlab). rewrite Hold; [assumption|].
      unfold labelled. congruence.
Qed.

Lemma componentIdEquivalence_total (n r : nat) (VtoV : list (list nat))
  (dc : matrix) (cut : list nat) :
  wf_graph n VtoV ->
  exists cid, componentIdEquivalence n r VtoV dc cut = Ok cid.
Proof.
  intros Hwf. unfold componentIdEquivalence.
  assert (Hdfs : forall v c cid, c <> (-1)%Z -> length cid = n ->
            exists cid', componentId_dfs VtoV (S n) (cut_closure n dc cut)
                           v c cid = Ok cid' /\ length cid' = n).
  { intros v c cid Hc Hl.
    destruct (componentId_dfs_total n VtoV (cut_closure n dc cut) c Hwf Hc
                (S n) v cid Hl) as [cid' [E [Hl' _]]]; [|eauto].
    pose proof (unvisited_le_length (vset cid v c)) as H.
    rewrite length_vset in H. lia. }
  destruct (fold_res_total
              (fun st : list Z => length st = n)
              (fun component_id v =>
                 if negb (mem v (cut_closure n dc cut))
                 then componentId_dfs VtoV (S n) (cut_closure n dc cut) v 0%Z
                        component_id
                 else Ok component_id)
              (seq 0 r)) with (st := repeat (-1)%Z n) as [cid1 [E1 Hl1]].
  - intros st v Hl _. destruct (negb _); [|eauto].
    apply Hdfs; [discriminate | assumption].
  - apply repeat_length.
  - rewrite E1. cbn [bind].
    destruct (fold_res_total
                (fun st : list Z * Z => length (fst st) = n /\ (1 <= snd st)%Z)
                (fun '(component_id, num_component) v =>
                   if negb (mem v (cut_closure n dc cut))
                      && (nth v component_id (-1) =? -1)%Z
                   then
                     component_id <-
                       componentId_dfs VtoV (S n) (cut_closure n dc cut) v
                         num_component component_id ;;
                     Ok (component_id, (num_component + 1)%Z)
                   else Ok (component_id, num_component))
                (seq r (n - r))) with (st := (cid1, 1%Z))
      as [st2 [E2 _]].
    + intros [cid num] v [Hl Hnum] _. cbn [fst snd] in *.
      destruct (_ && _); [|exists (cid, num); auto].
      destruct (Hdfs v num cid ltac:(lia) Hl) as [cid' [E' Hl']].
      rewrite E'. cbn [bind]. eexists. split; [reflexivity|].
      cbn [fst snd]. split; [assumption | lia].
    + cbn [fst snd]. split; [assumption | lia].
    + rewrite E2. cbn [bind]. eauto.
Qed.

Lemma componentIdEquivalence_sound (n r : nat) (VtoV : list (list nat))
  (dc : matrix) (cut : list nat) (cid : list Z) :
  wf_graph n VtoV -> undirected VtoV -> r <= n ->
  componentIdEquivalence n r VtoV dc cut = Ok cid ->
  let cutset := cut_closure n dc cut in
  length cid = n
  /\ (forall v, v < n -> (nth v cid (-1)%Z = (-1)%Z <-> In v cutset))
  /\ (forall v, v < r -> ~ In v cutset -> nth v cid (-1)%Z = 0%Z)
  /\ labels_closed VtoV cutset cid
  /\ (forall v, nth v cid (-1)%Z = 0%Z ->
        exists a, a < r /\ reaches VtoV cutset a v)
  /\ (forall k, (1 <= k)%Z ->
        exists a, forall v, nth v cid (-1)%Z = k -> reaches VtoV cutset a v).
Proof.
  intros Hwf Hund Hrn E cutset. unfold componentIdEquivalence in E.
  fold cutset in E.
  apply bind_ok in E. destruct E as [cid1 [E1 E]].
  apply bind_ok in E. destruct E as [[cid2 num2] [E2 E]].
  cbn [fst] in E. inversion E; subst cid2. clear E.
  (* the ring *)
  destruct (fold_res_all
              (fun st : list Z =>
                 length st = n
                 /\ (forall x, labelled st x -> ~ In x cutset)
                 /\ labels_closed VtoV cutset st
                 /\ (forall x, labelled st x ->
                       nth x st (-1)%Z = 0%Z
                       /\ exists a, a < r /\ reaches VtoV cutset a x))
              (fun v (st : list Z) =>
                 In v cutset \/ nth v st (-1)%Z = 0%Z)
              (fun component_id v =>
                 if negb (mem v cutset)
                 then componentId_dfs VtoV (S n) cutset v 0%Z component_id
                 else Ok component_id)
              (seq 0 r)) with (st := repeat (-1)%Z n) (st' := cid1)
    as [[Hl1 [Hc1 [Hcl1 Hz1]]] [Hd1 _]].
  - intros st v st' [Hl [Hc [Hcl Hz]]] Hv Es. apply in_seq in Hv.
    destruct (mem v cutset) eqn:Em; cbn [negb] in Es.
    { inversion Es; subst st'. split; [auto|]. split; [|auto].
      left. apply mem_true_iff. assumption. }
    assert (Hvc : ~ In v cutset).
    { intros H. apply mem_true_iff in H. congruence. }
    assert (Hvl : ~ labelled st v \/ nth v st (-1)%Z = 0%Z).
    { destruct (Z.eq_dec (nth v st (-1)%Z) (-1)%Z) as [H | H].
      - left. unfold labelled. congruence.
      - right. apply Hz. assumption. }
    destruct (componentId_dfs_top n VtoV cutset 0%Z Hwf Hund ltac:(discriminate)
                v st st' Es ltac:(lia) Hvc Hl Hc Hcl Hvl)
      as [K1 [K2 [K3 [K4 [K5 K6]]]]].
    split; [split; [assumption | split; [assumption | split; [assumption|]]]
           | split].
    + intros x Hx.
      destruct (Z.eq_dec (nth x st (-1)%Z) (-1)%Z) as [Hun | Hlab].
      * destruct (K4 x) as [L1 L2];
          [unfold labelled; congruence | assumption |].
        split; [assumption|]. exists v. split; [lia | assumption].
      * destruct (Hz x Hlab) as [L1 L2]. rewrite K2 by assumption. auto.
    + right. assumption.
    + intros y [Hy | Hy]; [left; assumption|]. right.
      rewrite K2; [assumption|]. unfold labelled. congruence.
  - split; [apply repeat_length|].
    assert (Hno : forall x, ~ labelled (repeat (-1)%Z n) x).
    { intros x. unfold labelled.
      destruct (Nat.lt_ge_cases x n) as [Hx | Hx].
      - rewrite nth_repeat_lt by assumption. congruence.
      - rewrite nth_overflow by (rewrite repeat_length; assumption).
        congruence. }
    split; [intros x Hx; destruct (Hno x Hx)|].
    split; [intros x u Hx; destruct (Hno x Hx)|].
    intros x Hx; destruct (Hno x Hx).
  - assumption.
  - (* the vertices inside *)
    destruct (fold_res_all
                (fun st : list Z * Z =>
                   length (fst st) = n
                   /\ (forall x, labelled (fst st) x -> ~ In x cutset)
                   /\ labels_closed VtoV cutset (fst st)
                   /\ (1 <= snd st)%Z
                   /\ (forall x, labelled (fst st) x ->
                         (0 <= nth x (fst st) (-1) < snd st)%Z)
                   /\ (forall x, nth x (fst st) (-1)%Z = 0%Z ->
                         exists a, a < r /\ reaches VtoV cutset a x)
                   /\ (forall k, (1 <= k)%Z ->
                         exists a, forall x, nth x (fst st) (-1)%Z = k ->
                                     reaches VtoV cutset a x)
                   /\ (forall v, v < r -> ~ In v cutset ->
                         nth v (fst st) (-1)%Z = 0%Z))
                (fun v (st : list Z * Z) =>
                   In v cutset \/ labelled (fst st) v)
                (fun '(component_id, num_component) v =>
                   if negb (mem v cutset)
                      && (nth v component_id (-1) =? -1)%Z
                   then
                     component_id <-
                       componentId_dfs VtoV (S n) cutset v num_component
                         component_id ;;
                     Ok (component_id, (num_component + 1)%Z)
                   else Ok (component_id, num_component))
                (seq r (n - r))) with (st := (cid1, 1%Z)) (st' := (cid, num2))
      as [[Hl [Hc [Hcl [Hn [Hrange [Hzero [Hk Hring]]]]]]] [Hd2 _]].
    + intros [st num] v [st' num'] [Hl [Hc [Hcl [Hn [Hrange [Hzero [Hk Hring]]]]]]]
        Hv Es.
      cbn [fst snd] in *. apply in_seq in Hv.
      destruct (mem v cutset) eqn:Em; cbn [negb andb] in Es.
      { inversion Es; subst st' num'.
        split; [repeat split; auto; apply Hrange; assumption|].
        split; [|auto]. left. apply mem_true_iff. assumption. }
      destruct (nth v st (-1) =? -1)%Z eqn:El.
      2:{ inversion Es; subst st' num'.
          split; [repeat split; auto; apply Hrange; assumption|].
          split; [|auto]. right. unfold labelled. apply Z.eqb_neq.
          assumption. }
      apply Z.eqb_eq in El.
      apply bind_ok in Es. destruct Es as [st1 [Es Eq]].
      inversion Eq; subst st' num'. clear Eq.
      assert (Hvc : ~ In v cutset).
      { intros H. apply mem_true_iff in H. congruence. }
      assert (Hvl : ~ labelled st v \/ nth v st (-1)%Z = num).
      { left. unfold labelled. congruence. }
      destruct (componentId_dfs_top n VtoV cutset num Hwf Hund ltac:(lia)
                  v st st1 Es ltac:(lia) Hvc Hl Hc Hcl Hvl)
        as [K1 [K2 [K3 [K4 [K5 K6]]]]].
      assert (Hcases : forall x,
                (labelled st x /\ nth x st1 (-1)%Z = nth x st (-1)%Z)
                \/ (~ labelled st x /\ ~ labelled st1 x)
                \/ (~ labelled st x /\ nth x st1 (-1)%Z = num
                    /\ reaches VtoV cutset v x)).
      { intros x.
        destruct (Z.eq_dec (nth x st (-1)%Z) (-1)%Z) as [Hun | Hlab].
        - assert (Hnx : ~ labelled st x) by (unfold labelled; congruence).
          destruct (Z.eq_dec (nth x st1 (-1)%Z) (-1)%Z) as [Hun1 | Hlab1].
          + right. left. split; [assumption|]. unfold labelled. congruence.
          + right. right. split; [assumption|]. apply K4; assumption.
        - left. split; [assumption|]. apply K2. assumption. }
      split; [|split].
      * split; [assumption|]. split; [assumption|]. split; [assumption|].
        split; [lia|]. split; [|split; [|split]].
        -- intros x Hx.
           destruct (Hcases x) as [[L1 L2] | [[L1 L2] | [L1 [L2 L3]]]].
           ++ rewrite L2. specialize (Hrange x L1). lia.
           ++ contradiction.
           ++ lia.
        -- intros x Hx.
           destruct (Hcases x) as [[L1 L2] | [[L1 L2] | [L1 [L2 L3]]]].
           ++ apply Hzero. congruence.
           ++ exfalso. apply L2. unfold labelled. congruence.
           ++ lia.
        -- intros k Hk1. destruct (Z.eq_dec k num) as [->|Hne].
           ++ exists v. intros x Hx.
              destruct (Hcases x) as [[L1 L2] | [[L1 L2] | [L1 [L2 L3]]]].
              ** specialize (Hrange x L1). lia.
              ** exfalso. apply L2. unfold labelled. lia.
              ** assumption.
           ++ destruct (Hk k Hk1) as [a Ha]. exists a. intros x Hx.
              destruct (Hcases x) as [[L1 L2] | [[L1 L2] | [L1 [L2 L3]]]].
              ** apply Ha. congruence.
              ** exfalso. apply L2. unfold labelled. lia.
              ** congruence.
        -- intros x Hx Hxc. specialize (Hring x Hx Hxc).
           rewrite K2; [assumption|]. unfold labelled. lia.
      * right. unfold labelled. lia.
      * intros y [Hy | Hy]; [left; assumption|]. right.
        unfold labelled. rewrite K2; assumption.
    + cbn [fst snd]. split; [assumption|]. split; [assumption|].
      split; [assumption|]. split; [lia|]. split; [|split; [|split]].
      * intros x Hx. destruct (Hz1 x Hx) as [-> _]. lia.
      * intros x Hx. apply Hz1. unfold labelled. lia.
      * intros k Hk1. exists 0. intros x Hx. exfalso.
        assert (Hxl : labelled cid1 x) by (unfold labelled; lia).
        destruct (Hz1 x Hxl) as [L _]. lia.
      * intros v Hv Hvc. destruct (Hd1 v) as [H | H];
          [apply in_seq; lia | contradiction | assumption].
    + assumption.
    + cbn [fst snd] in *.
      split; [assumption|]. split; [|split; [assumption|]].
      * intros v Hv. split.
        -- intros Hun. destruct (Nat.lt_ge_cases v r) as [Hvr | Hvr].
           ++ destruct (in_dec Nat.eq_dec v cutset) as [H | H];
                [assumption|].
              specialize (Hring v Hvr H). lia.
           ++ destruct (Hd2 v) as [H | H];
                [apply in_seq; lia | assumption |].
              unfold labelled in H. contradiction.
        -- intros Hvc.
           destruct (Z.eq_dec (nth v cid (-1)%Z) (-1)%Z) as [H | H];
             [assumption|]. exfalso. apply (Hc v); assumption.
      * split; [assumption|]. split; assumption.
Qed.

(** X17: on an undirected graph whose ring is part of its vertices,
    [componentIdEquivalence] returns one label for each of the [n]
    vertices.  The label is -1 exactly on the vertices of the cut and on
    those the contraction identifies with one of them; a ring vertex
    outside the cut is labelled 0; two adjacent vertices outside the cut
    carry the same label; every vertex labelled 0 can be reached from a
    ring vertex without meeting the cut, and for each label [k >= 1] all
    the vertices labelled [k] can be reached from one vertex without
    meeting the cut. *)
Theorem componentIdEquivalence_components (n r : nat)
  (VtoV : list (list nat)) (dc : matrix) (cut : list nat) :
  wf_graph n VtoV -> undirected VtoV -> r <= n ->
  exists cid,
    componentIdEquivalence n r VtoV dc cut = Ok cid
    /\ length cid = n
    /\ (forall v, In v (cut_closure n dc cut) <-> cut_member n dc cut v)
    /\ (forall v, v < n ->
          (nth v cid (-1)%Z = (-1)%Z <-> cut_member n dc cut v))
    /\ (forall v, v < r -> ~ cut_member n dc cut v ->
          nth v cid (-1)%Z = 0%Z)
    /\ (forall v u, v < n -> In u (adj VtoV v) ->
          ~ cut_member n dc cut v -> ~ cut_member n dc cut u ->
          nth u cid (-1)%Z = nth v cid (-1)%Z)
    /\ (forall v, nth v cid (-1)%Z = 0%Z ->
          exists a, a < r /\ reaches VtoV (cut_closure n dc cut) a v)
    /\ (forall k, (1 <= k)%Z ->
          exists a, forall v, nth v cid (-1)%Z = k ->
                      reaches VtoV (cut_closure n dc cut) a v).
Proof.
  intros Hwf Hund Hrn.
  destruct (componentIdEquivalence_total n r VtoV dc cut Hwf) as [cid E].
  destruct (componentIdEquivalence_sound n r VtoV dc cut cid Hwf Hund Hrn E)
    as [Hl [Hcut [Hring [Hcl [Hzero Hk]]]]].
  exists cid. split; [assumption|]. split; [assumption|].
  split; [intros v; apply in_cut_closure|].
  split; [intros v Hv; rewrite <- in_cut_closure; apply Hcut; assumption|].
  split; [intros v Hv Hc; apply Hring; [|rewrite in_cut_closure]; assumption|].
  split; [|split; assumption].
  intros v u Hv Hu Hvc Huc.
  destruct (Hcl v u) as [H | H]; [| assumption | | assumption].
  - unfold labelled. rewrite Hcut by assumption. rewrite in_cut_closure.
    assumption.
  - exfalso. apply Huc. apply in_cut_closure. assumption.
Qed.

Lemma componentIdEquivalence_components_witness :
  exists cid,
    componentIdEquivalence 8 6 wheel_adj (dist_ wheel_conf) [6] = Ok cid
    /\ length cid = 8
    /\ (forall v, In v (cut_closure 8 (dist_ wheel_conf) [6])
                  <-> cut_member 8 (dist_ wheel_conf) [6] v)
    /\ (forall v, v < 8 ->
          (nth v cid (-1)%Z = (-1)%Z
           <-> cut_member 8 (dist_ wheel_conf) [6] v))
    /\ (forall v, v < 6 -> ~ cut_member 8 (dist_ wheel_conf) [6] v ->
          nth v cid (-1)%Z = 0%Z)
    /\ (forall v u, v < 8 -> In u (adj wheel_adj v) ->
          ~ cut_member 8 (dist_ wheel_conf) [6] v ->
          ~ cut_member 8 (dist_ wheel_conf) [6] u ->
          nth u cid (-1)%Z = nth v cid (-1)%Z)
    /\ (forall v, nth v cid (-1)%Z = 0%Z ->
          exists a, a < 6
                    /\ reaches wheel_adj
                         (cut_closure 8 (dist_ wheel_conf) [6]) a v)
    /\ (forall k, (1 <= k)%Z ->
          exists a, forall v, nth v cid (-1)%Z = k ->
                      reaches wheel_adj
                        (cut_closure 8 (dist_ wheel_conf) [6]) a v).
Proof.
  apply (componentIdEquivalence_components 8 6 wheel_adj (dist_ wheel_conf) [6]).
  - apply wf_graphb_sound. reflexivity.
  - apply undirectedb_sound. reflexivity.
  - lia.
Defined.

Example componentIdEquivalence_wheel :
  componentIdEquivalence 8 6 wheel_adj (dist_ wheel_conf) [6]
  = Ok [0; 0; 0; 0; 0; 0; -1; 0]%Z.
Proof. reflexivity. Qed.

(** ** [forbiddenVertexSize] reads no empty vector *)

Lemma back_nth (l : list nat) : back l = nth (length l - 1) l 0.
Proof.
  unfold back. induction l as [|a [|b l] IH]; try reflexivity.
  change (last (a :: b :: l) 0) with (last (b :: l) 0). rewrite IH.
  simpl. rewrite Nat.sub_0_r. reflexivity.
Qed.

Lemma front_rev (l : list nat) : front (rev l) = back l.
Proof.
  unfold front, back. destruct l as [|a l] using rev_ind; [reflexivity|].
  rewrite rev_app_distr, last_last. reflexivity.
Qed.

Lemma back_rev (l : list nat) : back (rev l) = front l.
Proof.
  unfold front, back. destruct l as [|a l]; [reflexivity|].
  simpl. apply last_last.
Qed.

Lemma front_app_l (p q : list nat) : p <> [] -> front (p ++ q) = front p.
Proof. destruct p; [congruence | reflexivity]. Qed.

(** What the members of a contracted configuration are, for the proofs
    below. *)
Lemma setContract_state (c : Configuration) (contract : list (nat * nat))
  (c' : Configuration) :
  setContract c contract = Ok c' ->
  n_ c' = n_ c /\ r_ c' = r_ c /\ VtoV_ c' = VtoV_ c
  /\ WF (n_ c') (VtoV_ c') (contract_ c') true = Ok (dist_contracted_ c').
Proof.
  intros E. apply setContract_assigns in E.
  destruct E as [[H1 [H2 [H3 _]]] [H4 [H5 _]]].
  rewrite H1, H3, H4. auto.
Qed.

Section Joined.

Variable c : Configuration.
Hypothesis Hwf : wf_graph (n_ c) (VtoV_ c).
Hypothesis Hund : undirected (VtoV_ c).
Hypothesis Hloop : loop_free (VtoV_ c).
Hypothesis Hn : (Z.of_nat (n_ c) + 1 <= INF)%Z.
Hypothesis Hrn : r_ c <= n_ c.
Hypothesis Hdc :
  WF (n_ c) (VtoV_ c) (contract_ c) true = Ok (dist_contracted_ c).

Variable vs : list nat.
Hypothesis Hvs : forall v, In v vs -> v < r_ c.

Lemma join_loop (m : nat) :
  forall j l path,
    j + m < length vs -> path <> [] -> back path = nth j vs 0 ->
    let step_ok := fun i =>
       let a := nth i vs 0 in
       let b := nth (i + 1) vs 0 in
       (mget (dist_contracted_ c) a b <=? 1)%Z in
    let body := fun '(l, path) i =>
       let a := nth i vs 0 in
       let b := nth (i + 1) vs 0 in
       _ <~ of_res (assert (a <? r_ c)) ;;
       _ <~ of_res (assert (mget (dist_contracted_ c) a b <=? 1)%Z) ;;
       let l := (l + mget (dist_contracted_ c) a b)%Z in
       paths <~ of_res (shortestPaths (n_ c) (VtoV_ c) (contract_ c)
                          a b true) ;;
       match paths with
       | [] => Undefined
       | [] :: _ => Undefined
       | (_ :: rest) :: _ => Returns (l, path ++ rest)
       end in
    if forallb step_ok (seq j m)
    then exists path',
           fold_outcome body (seq j m) (l, path)
           = Returns (fold_left
                        (fun l i =>
                           let a := nth i vs 0 in
                           let b := nth (i + 1) vs 0 in
                           (l + mget (dist_contracted_ c) a b)%Z)
                        (seq j m) l, path')
           /\ path' <> [] /\ front path' = front path
           /\ back path' = nth (j + m) vs 0
    else fold_outcome body (seq j m) (l, path) = Aborts.
Proof.
  induction m as [|m IH]; intros j l path Hj Hne Hb step_ok body.
  - simpl. exists path. rewrite Nat.add_0_r. auto.
  - cbn [seq forallb fold_outcome].
    assert (Ha : nth j vs 0 < r_ c) by (apply Hvs, nth_In; lia).
    assert (Hb' : nth (j + 1) vs 0 < r_ c) by (apply Hvs, nth_In; lia).
    set (a := nth j vs 0) in *. set (b := nth (j + 1) vs 0) in *.
    change (step_ok j) with (mget (dist_contracted_ c) a b <=? 1)%Z.
    assert (Hbody :
              body (l, path) j
              = (_ <~ of_res (assert (mget (dist_contracted_ c) a b <=? 1)%Z) ;;
                 paths <~ of_res (shortestPaths (n_ c) (VtoV_ c) (contract_ c)
                                    a b true) ;;
                 match paths with
                 | [] => Undefined
                 | [] :: _ => Undefined
                 | (_ :: rest) :: _ =>
                     Returns ((l + mget (dist_contracted_ c) a b)%Z,
                              path ++ rest)
                 end)).
    { unfold body. cbn zeta. fold a b.
      rewrite (proj2 (Nat.ltb_lt a (r_ c)) Ha). reflexivity. }
    rewrite Hbody. clear Hbody.
    destruct (mget (dist_contracted_ c) a b <=? 1)%Z eqn:Ed;
      cbn [assert of_res obind andb]; [|reflexivity].
    apply Z.leb_le in Ed.
    destruct (shortestPaths_agree_WF (n_ c) (VtoV_ c) (contract_ c) true
                a b (dist_contracted_ c)
                Hwf Hund Hloop Hn ltac:(lia) ltac:(lia) Hdc)
      as [ps [E [Hpath [_ Hempty]]]].
    rewrite E. cbn [of_res obind].
    destruct ps as [|p ps].
    { exfalso. pose proof (proj1 Hempty eq_refl). unfold INF in *. lia. }
    destruct (Hpath p (or_introl eq_refl)) as [Hpne [Hpf [Hpb _]]].
    destruct p as [|a' rest]; [congruence|].
    unfold front in Hpf. simpl in Hpf. subst a'.
    assert (Hback : back (path ++ rest) = nth (S j) vs 0).
    { replace (S j) with (j + 1) by lia. fold b. destruct rest as [|x rest].
      - rewrite app_nil_r. unfold back in Hpb. simpl in Hpb. congruence.
      - rewrite back_suffix. rewrite back_cons in Hpb. assumption. }
    assert (Hne' : path ++ rest <> []).
    { destruct path; [congruence | discriminate]. }
    specialize (IH (S j) (l + mget (dist_contracted_ c) a b)%Z
                  (path ++ rest) ltac:(lia) Hne' Hback).
    cbn zeta in IH. fold step_ok in IH. fold body in IH.
    destruct (forallb step_ok (seq (S j) m)); [|assumption].
    destruct IH as [path' [E' [H1 [H2 H3]]]].
    exists path'. split; [exact E'|]. split; [assumption|].
    split; [rewrite H2; apply front_app_l; assumption|].
    rewrite H3. f_equal. lia.
Qed.

Lemma fold_left_add_from (f : nat -> Z) (xs : list nat) (l : Z) :
  fold_left (fun l i => (l + f i)%Z) xs l
  = (l + fold_left (fun l i => (l + f i)%Z) xs 0)%Z.
Proof.
  revert l. induction xs as [|x xs IH]; intros l; simpl; [lia|].
  rewrite IH. rewrite (IH (f x)). lia.
Qed.

Lemma join_shortest_outcome (l0 : Z) :
  2 <= length vs ->
  if short_steps c vs
  then exists path,
         join_shortest c vs l0 = Returns ((l0 + steps_length c vs)%Z, path)
         /\ path <> [] /\ front path = front vs /\ back path = back vs
  else join_shortest c vs l0 = Aborts.
Proof.
  intros Hlen. unfold short_steps, join_shortest, steps_length.
  pose proof (join_loop (length vs - 1) 0 l0 [nth 0 vs 0] ltac:(lia)
                ltac:(discriminate) eq_refl) as H.
  cbn zeta in H.
  destruct (forallb _ (seq 0 (length vs - 1))); [|assumption].
  destruct H as [path [E [H1 [H2 H3]]]].
  exists path. split.
  - rewrite E. f_equal. f_equal.
    apply (fold_left_add_from
             (fun i => mget (dist_contracted_ c) (nth i vs 0)
                         (nth (i + 1) vs 0))).
  - split; [assumption|]. split.
    + rewrite H2. unfold front. destruct vs; reflexivity.
    + rewrite H3. rewrite back_nth. reflexivity.
Qed.

End Joined.

(** ** [vertexSizeAfterContract] *)

Lemma vertexSize_acc (c : Configuration) (cutSize : Z) (comp : list nat) :
  forall s t,
    fold_left
      (fun '(s, t) v =>
         if nth v (is_reductable_inside_ c) false
            || nth v (if (cutSize =? 6)%Z then is_reductable_outside6_ c
                      else is_reductable_outside7_ c) false
         then (s, t)
         else if (v <? r_ c)
                 && (nth v (representative_ c) (-1) =? Z.of_nat v)%Z
              then (s + 1, t)%Z
              else if (r_ c <=? v)
                      && (nth v (representative_ c) (-1) =? Z.of_nat v)%Z
                   then (s, t + 1)%Z
                   else (s, t))
      comp (s, t)
    = ((s + Z.of_nat (length (filter (fun v => counted c cutSize v
                                               && (v <? r_ c)%nat) comp)))%Z,
       (t + Z.of_nat (length (filter (fun v => counted c cutSize v
                                               && (r_ c <=? v)%nat) comp)))%Z).
Proof.
  induction comp as [|v comp IH]; intros s t; cbn [fold_left filter].
  - simpl. f_equal; lia.
  - destruct (nth v (is_reductable_inside_ c) false
              || nth v (if (cutSize =? 6)%Z then is_reductable_outside6_ c
                        else is_reductable_outside7_ c) false) eqn:E1.
    + assert (Hc : counted c cutSize v = false)
        by (unfold counted; rewrite E1; reflexivity).
      rewrite Hc. cbn [andb]. apply IH.
    + destruct (nth v (representative_ c) (-1) =? Z.of_nat v)%Z eqn:E2.
      * assert (Hc : counted c cutSize v = true)
          by (unfold counted; rewrite E1, E2; reflexivity).
        rewrite Hc. cbn [andb]. rewrite !andb_true_r.
        destruct (Nat.ltb_spec v (r_ c)); destruct (Nat.leb_spec (r_ c) v);
          try lia; cbn [length]; rewrite IH; f_equal; lia.
      * assert (Hc : counted c cutSize v = false)
          by (unfold counted; rewrite E1, E2; reflexivity).
        rewrite Hc. rewrite !andb_false_r. cbn [andb]. apply IH.
Qed.

Lemma length_filter_and (f g : nat -> bool) (l : list nat) :
  length (filter (fun v => f v && g v) l) <= length (filter g l).
Proof.
  induction l as [|v l IH]; [reflexivity|]. cbn [filter].
  destruct (f v); destruct (g v); cbn [andb length]; lia.
Qed.

Lemma filter_and_all (f g : nat -> bool) (l : list nat) :
  (forall v, In v l -> f v = true) ->
  filter (fun v => f v && g v) l = filter g l.
Proof.
  intros H. apply filter_ext_in. intros v Hv. rewrite (H v Hv). reflexivity.
Qed.

Lemma vertexSize_returns (c : Configuration) (cutSize : Z) (comp : list nat) :
  is6or7 cutSize = true ->
  vertexSizeAfterContract c comp cutSize
  = Ok (Z.of_nat (length (filter (fun v => counted c cutSize v
                                           && (v <? r_ c)) comp)),
        Z.of_nat (length (filter (fun v => counted c cutSize v
                                           && (r_ c <=? v)) comp))).
Proof.
  intros H. unfold vertexSizeAfterContract. rewrite H. cbn [assert bind].
  rewrite vertexSize_acc. reflexivity.
Qed.

(** X18: [vertexSizeAfterContract] aborts unless the cut size is 6 or 7.
    Otherwise it returns a pair [(s, t)] of numbers that are not negative
    and not above the numbers of ring vertices and of other vertices in
    the component (the pair [sizeOfVertices] counts); the two pairs are
    equal when no vertex of the component is marked reductable and each is
    its own representative. *)
Theorem vertexSizeAfterContract_bounds (c : Configuration)
  (comp : list nat) (cutSize : Z) :
  (is6or7 cutSize = false ->
   vertexSizeAfterContract c comp cutSize = AssertFail)
  /\ (is6or7 cutSize = true ->
      exists s t,
        vertexSizeAfterContract c comp cutSize = Ok (s, t)
        /\ (0 <= s <= fst (count_sides (r_ c) comp))%Z
        /\ (0 <= t <= snd (count_sides (r_ c) comp))%Z
        /\ ((forall v, In v comp -> counted c cutSize v = true) ->
            (s, t) = count_sides (r_ c) comp)).
Proof.
  split.
  - intros H. unfold vertexSizeAfterContract. rewrite H. reflexivity.
  - intros H. rewrite (vertexSize_returns c cutSize comp H).
    eexists. eexists. split; [reflexivity|].
    rewrite count_sides_spec. cbn [fst snd].
    pose proof (length_filter_and (counted c cutSize) (fun v => v <? r_ c)
                  comp).
    pose proof (length_filter_and (counted c cutSize) (fun v => r_ c <=? v)
                  comp).
    split; [lia|]. split; [lia|].
    intros Hall. rewrite !filter_and_all by assumption. reflexivity.
Qed.

Lemma vertexSizeAfterContract_bounds_witness :
  exists s t,
    vertexSizeAfterContract wheel_conf [2; 6; 7] 6 = Ok (s, t)
    /\ (0 <= s <= fst (count_sides (r_ wheel_conf) [2; 6; 7]%nat))%Z
    /\ (0 <= t <= snd (count_sides (r_ wheel_conf) [2; 6; 7]%nat))%Z
    /\ (s, t) = count_sides (r_ wheel_conf) [2; 6; 7].
Proof.
  destruct (vertexSizeAfterContract_bounds wheel_conf [2; 6; 7] 6) as [_ H].
  destruct (H eq_refl) as [s [t [E [Hs [Ht Heq]]]]].
  exists s, t. split; [assumption|]. split; [assumption|].
  split; [assumption|]. apply Heq.
  intros v [<- | [<- | [<- | []]]]; reflexivity.
Defined.

Example vertexSizeAfterContract_wheel :
  vertexSizeAfterContract wheel_conf [2; 6; 7] 6 = Ok (1, 2)%Z
  /\ vertexSizeAfterContract wheel_conf [2; 6; 7] 5 = AssertFail.
Proof. split; reflexivity. Qed.

(** ** The outcomes of [forbiddenVertexSize] *)

Lemma getComponent_same_ends (n r : nat) (VtoV : list (list nat))
  (path : list nat) :
  front path = back path -> getComponent n r VtoV path = AssertFail.
Proof.
  intros H. unfold getComponent. rewrite H, Nat.eqb_refl. reflexivity.
Qed.

Lemma size_nonneg (s t d : Z) :
  (0 <= t)%Z -> (0 <= Z.quot (Z.max (s - d + 1) 0) 2 + t)%Z.
Proof.
  intros Ht. pose proof (Z.quot_pos (Z.max (s - d + 1) 0) 2). lia.
Qed.

Lemma vertexSize_outcome (c : Configuration) (comp : list nat) (cutSize : Z) :
  if is6or7 cutSize
  then exists s t, vertexSizeAfterContract c comp cutSize = Ok (s, t)
                   /\ (0 <= t)%Z
  else vertexSizeAfterContract c comp cutSize = AssertFail.
Proof.
  destruct (is6or7 cutSize) eqn:E.
  - rewrite (vertexSize_returns c cutSize comp E). eexists. eexists.
    split; [reflexivity | lia].
  - unfold vertexSizeAfterContract. rewrite E. reflexivity.
Qed.

(** The path joined by the loop, and what [getComponent] makes of it. *)
Lemma joined_component (c : Configuration) (vs path : list nat) (rev_ : bool) :
  wf_graph (n_ c) (VtoV_ c) ->
  (forall v, In v vs -> v < r_ c) -> vs <> [] ->
  front path = front vs -> back path = back vs ->
  if front vs =? back vs
  then getComponent (n_ c) (r_ c) (VtoV_ c) (if rev_ then rev path else path)
       = AssertFail
  else exists comp,
         getComponent (n_ c) (r_ c) (VtoV_ c) (if rev_ then rev path else path)
         = Ok comp.
Proof.
  intros Hwf Hvs Hne Hf Hb.
  assert (Hfr : front vs < r_ c) by (apply Hvs, front_in; assumption).
  assert (Hbr : back vs < r_ c) by (apply Hvs, back_in; assumption).
  destruct (Nat.eqb_spec (front vs) (back vs)) as [He | Hd].
  - apply getComponent_same_ends. destruct rev_.
    + rewrite front_rev, back_rev. congruence.
    + congruence.
  - apply (getComponent_total (n_ c) (r_ c) (VtoV_ c) _ (proj1 Hwf));
      destruct rev_; rewrite ?front_rev, ?back_rev; congruence.
Qed.

(** The outcomes of the one-list [forbiddenVertexSize]. *)
Lemma forbiddenVertexSize_cases (c : Configuration)
  (contract : list (nat * nat)) (c' : Configuration) (vs : list nat)
  (k cutSize : Z) (rev_ : bool) :
  wf_graph (n_ c) (VtoV_ c) -> undirected (VtoV_ c) ->
  loop_free (VtoV_ c) -> (Z.of_nat (n_ c) + 1 <= INF)%Z ->
  r_ c <= n_ c ->
  setContract c contract = Ok c' ->
  (forall v, In v vs -> v < r_ c) ->
  if (2 <=? length vs) && short_steps c' vs
     && negb (front vs =? back vs) && is6or7 cutSize
  then exists sz,
         (0 <= sz)%Z
         /\ forbiddenVertexSize c' vs k cutSize rev_
            = Returns (forbidden_size (k + steps_length c' vs) sz)
  else forbiddenVertexSize c' vs k cutSize rev_ = Aborts.
Proof.
  intros Hwf Hund Hloop Hn Hrn E Hvs.
  destruct (setContract_state c contract c' E) as [En [Er [Ev Hdc]]].
  rewrite <- En, <- Ev in Hwf. rewrite <- En in Hn.
  rewrite <- Ev in Hund, Hloop. rewrite <- En, <- Er in Hrn.
  assert (Hvs' : forall v, In v vs -> v < r_ c')
    by (intros v Hv; rewrite Er; apply Hvs; assumption).
  unfold forbiddenVertexSize.
  destruct (2 <=? length vs) eqn:Elen;
    cbn [assert of_res obind andb]; [|reflexivity].
  apply Nat.leb_le in Elen.
  assert (Hne : vs <> []) by (intros ->; simpl in Elen; lia).
  pose proof (join_shortest_outcome c' Hwf Hund Hloop Hn Hrn Hdc vs Hvs' k
                Elen) as Hjoin.
  destruct (short_steps c' vs); cbn [andb];
    [|rewrite Hjoin; reflexivity].
  destruct Hjoin as [path [Ej [Hpne [Hpf Hpb]]]].
  rewrite Ej. cbn [obind].
  assert (Hbr : back vs < r_ c') by (apply Hvs', back_in; assumption).
  rewrite (proj2 (Nat.ltb_lt _ _) Hbr). cbn [assert of_res obind].
  pose proof (joined_component c' vs path rev_ Hwf Hvs' Hne Hpf Hpb) as Hcomp.
  destruct (front vs =? back vs); cbn [negb andb];
    [rewrite Hcomp; reflexivity|].
  destruct Hcomp as [comp Ec]. rewrite Ec. cbn [of_res obind].
  pose proof (vertexSize_outcome c' comp cutSize) as Hsize.
  destruct (is6or7 cutSize); [|rewrite Hsize; reflexivity].
  destruct Hsize as [s [t [Es Ht]]]. rewrite Es. cbn [of_res obind].
  eexists. split; [|reflexivity]. apply size_nonneg. assumption.
Qed.

(** X19: in a configuration that [setContract] has returned, on an
    undirected graph without loops and with fewer vertices than the
    sentinel, [forbiddenVertexSize(vs, k, cutSize, rev)] called on ring
    vertices never reads an empty vector: it returns when [vs] has two
    vertices or more, every two consecutive ones are at contracted
    distance 1 or less, the first differs from the last and the cut size is
    6 or 7, and it aborts at an assertion otherwise.  The value it returns
    is the test [(l == 4 && sz > 0) || (l == 5 && sz > 1) ||
    (l == 6 && sz > 2)] for [l] equal to [k] plus the contracted distances
    between consecutive vertices, and some [sz >= 0]. *)
Theorem forbiddenVertexSize_outcome (c : Configuration)
  (contract : list (nat * nat)) (c' : Configuration) (vs : list nat)
  (k cutSize : Z) (rev_ : bool) :
  wf_graph (n_ c) (VtoV_ c) -> undirected (VtoV_ c) ->
  loop_free (VtoV_ c) -> (Z.of_nat (n_ c) + 1 <= INF)%Z ->
  r_ c <= n_ c ->
  setContract c contract = Ok c' ->
  (forall v, In v vs -> v < r_ c) ->
  if (2 <=? length vs) && short_steps c' vs
     && negb (front vs =? back vs) && is6or7 cutSize
  then exists sz,
         (0 <= sz)%Z
         /\ forbiddenVertexSize c' vs k cutSize rev_
            = Returns (forbidden_size (k + steps_length c' vs) sz)
  else forbiddenVertexSize c' vs k cutSize rev_ = Aborts.
Proof. exact (forbiddenVertexSize_cases c contract c' vs k cutSize rev_). Qed.

Lemma forbiddenVertexSize_outcome_witness :
  exists c' sz,
    setContract wheel_conf [(6, 0)] = Ok c'
    /\ (0 <= sz)%Z
    /\ forbiddenVertexSize c' [0; 2] 4 6 false
       = Returns (forbidden_size (4 + steps_length c' [0; 2]) sz).
Proof.
  eexists ?[c0].
  assert (E : setContract wheel_conf [(6, 0)] = Ok ?c0)
    by (vm_compute; reflexivity).
  pose proof (forbiddenVertexSize_outcome wheel_conf [(6, 0)] _ [0; 2] 4 6
                false
                ltac:(apply wf_graphb_sound; reflexivity)
                ltac:(apply undirectedb_sound; reflexivity)
                ltac:(apply loop_freeb_sound; reflexivity)
                ltac:(unfold INF; simpl; lia) ltac:(simpl; lia) E
                ltac:(intros v [<- | [<- | []]]; simpl; lia)) as H.
  match type of H with
  | if ?b then _ else _ =>
      assert (Hc : b = true) by (vm_compute; reflexivity); rewrite Hc in H
  end.
  destruct H as [sz [H1 H2]]. exists sz. split; [exact E|]. split; assumption.
Defined.

Example forbiddenVertexSize_wheel :
  match setContract wheel_conf [(6, 0)] with
  | Ok c' =>
      forbiddenVertexSize c' [0; 2] 4 6 false = Returns false
      /\ forbiddenVertexSize c' [0; 2] 3 6 true = Returns true
      /\ forbiddenVertexSize c' [0; 0] 4 6 false = Aborts
  | _ => False
  end.
Proof. vm_compute. repeat split. Qed.

(** The outcomes of the two-list [forbiddenVertexSize]. *)
Lemma forbiddenVertexSize_pair_cases (c : Configuration)
  (contract : list (nat * nat)) (c' : Configuration) (vs1 vs2 : list nat)
  (k1 k2 cutSize : Z) :
  wf_graph (n_ c) (VtoV_ c) -> undirected (VtoV_ c) ->
  loop_free (VtoV_ c) -> (Z.of_nat (n_ c) + 1 <= INF)%Z ->
  r_ c <= n_ c ->
  setContract c contract = Ok c' ->
  (forall v, In v vs1 \/ In v vs2 -> v < r_ c) ->
  if (2 <=? length vs1) && short_steps c' vs1
     && ((2 <=? length vs2) && short_steps c' vs2)
     && (negb (front vs1 =? back vs1) && negb (front vs2 =? back vs2))
     && is6or7 cutSize
  then exists sz,
         (0 <= sz)%Z
         /\ forbiddenVertexSize_pair c' vs1 vs2 k1 k2 cutSize
            = Returns (forbidden_size
                         (k1 + k2 + steps_length c' vs1
                          + steps_length c' vs2) sz)
  else forbiddenVertexSize_pair c' vs1 vs2 k1 k2 cutSize = Aborts.
Proof.
  intros Hwf Hund Hloop Hn Hrn E Hvs.
  destruct (setContract_state c contract c' E) as [En [Er [Ev Hdc]]].
  rewrite <- En, <- Ev in Hwf. rewrite <- En in Hn.
  rewrite <- Ev in Hund, Hloop. rewrite <- En, <- Er in Hrn.
  assert (Hvs1 : forall v, In v vs1 -> v < r_ c')
    by (intros v Hv; rewrite Er; apply Hvs; left; assumption).
  assert (Hvs2 : forall v, In v vs2 -> v < r_ c')
    by (intros v Hv; rewrite Er; apply Hvs; right; assumption).
  unfold forbiddenVertexSize_pair. cbn zeta.
  destruct (2 <=? length vs1) eqn:Elen1;
    cbn [assert of_res obind andb]; [|reflexivity].
  apply Nat.leb_le in Elen1.
  assert (Hne1 : vs1 <> []) by (intros ->; simpl in Elen1; lia).
  pose proof (join_shortest_outcome c' Hwf Hund Hloop Hn Hrn Hdc vs1 Hvs1
                (k1 + k2)%Z Elen1) as Hjoin1.
  destruct (short_steps c' vs1); cbn [andb];
    [|rewrite Hjoin1; reflexivity].
  destruct Hjoin1 as [path1 [Ej1 [Hpne1 [Hpf1 Hpb1]]]].
  rewrite Ej1. cbn [obind].
  assert (Hbr1 : back vs1 < r_ c') by (apply Hvs1, back_in; assumption).
  rewrite (proj2 (Nat.ltb_lt _ _) Hbr1). cbn [assert of_res obind].
  destruct (2 <=? length vs2) eqn:Elen2;
    cbn [assert of_res obind andb]; [|reflexivity].
  apply Nat.leb_le in Elen2.
  assert (Hne2 : vs2 <> []) by (intros ->; simpl in Elen2; lia).
  pose proof (join_shortest_outcome c' Hwf Hund Hloop Hn Hrn Hdc vs2 Hvs2
                (k1 + k2 + steps_length c' vs1)%Z Elen2) as Hjoin2.
  destruct (short_steps c' vs2); cbn [andb];
    [|rewrite Hjoin2; reflexivity].
  destruct Hjoin2 as [path2 [Ej2 [Hpne2 [Hpf2 Hpb2]]]].
  rewrite Ej2. cbn [obind].
  assert (Hbr2 : back vs2 < r_ c') by (apply Hvs2, back_in; assumption).
  rewrite (proj2 (Nat.ltb_lt _ _) Hbr2). cbn [assert of_res obind].
  unfold getComponent_pair.
  pose proof (joined_component c' vs1 path1 false Hwf Hvs1 Hne1 Hpf1 Hpb1)
    as Hcomp1.
  pose proof (joined_component c' vs2 path2 true Hwf Hvs2 Hne2 Hpf2 Hpb2)
    as Hcomp2.
  cbv iota in Hcomp1, Hcomp2.
  destruct (front vs1 =? back vs1); cbn [negb andb];
    [rewrite Hcomp1; reflexivity|].
  destruct Hcomp1 as [comp1 Ec1]. rewrite Ec1. cbn [bind].
  destruct (front vs2 =? back vs2); cbn [negb andb];
    [rewrite Hcomp2; reflexivity|].
  destruct Hcomp2 as [comp2 Ec2]. rewrite Ec2. cbn [bind of_res obind].
  match goal with
  | |- context [vertexSizeAfterContract c' ?comp cutSize] =>
      pose proof (vertexSize_outcome c' comp cutSize) as Hsize
  end.
  destruct (is6or7 cutSize); [|rewrite Hsize; reflexivity].
  destruct Hsize as [s [t [Es Ht]]]. rewrite Es. cbn [of_res obind].
  eexists. split; [|reflexivity]. apply size_nonneg. assumption.
Qed.

(** X20: under the same conditions the two-list
    [forbiddenVertexSize(vs1, vs2, k1, k2, cutSize)] never reads an empty
    vector either: it returns when each list has two ring vertices or
    more, consecutive vertices are at contracted distance 1 or less, the
    first vertex of each list differs from its last and the cut size is 6
    or 7, and it aborts at an assertion otherwise; [l] is [k1 + k2] plus
    the contracted distances between consecutive vertices of both lists. *)
Theorem forbiddenVertexSize_pair_outcome (c : Configuration)
  (contract : list (nat * nat)) (c' : Configuration) (vs1 vs2 : list nat)
  (k1 k2 cutSize : Z) :
  wf_graph (n_ c) (VtoV_ c) -> undirected (VtoV_ c) ->
  loop_free (VtoV_ c) -> (Z.of_nat (n_ c) + 1 <= INF)%Z ->
  r_ c <= n_ c ->
  setContract c contract = Ok c' ->
  (forall v, In v vs1 \/ In v vs2 -> v < r_ c) ->
  if (2 <=? length vs1) && short_steps c' vs1
     && ((2 <=? length vs2) && short_steps c' vs2)
     && (negb (front vs1 =? back vs1) && negb (front vs2 =? back vs2))
     && is6or7 cutSize
  then exists sz,
         (0 <= sz)%Z
         /\ forbiddenVertexSize_pair c' vs1 vs2 k1 k2 cutSize
            = Returns (forbidden_size
                         (k1 + k2 + steps_length c' vs1
                          + steps_length c' vs2) sz)
  else forbiddenVertexSize_pair c' vs1 vs2 k1 k2 cutSize = Aborts.
Proof. exact (forbiddenVertexSize_pair_cases c contract c' vs1 vs2 k1 k2 cutSize). Qed.

Lemma forbiddenVertexSize_pair_outcome_witness :
  exists c' sz,
    setContract wheel_conf [(6, 0)] = Ok c'
    /\ (0 <= sz)%Z
    /\ forbiddenVertexSize_pair c' [0; 2] [3; 4] 1 1 6
       = Returns (forbidden_size
                    (1 + 1 + steps_length c' [0; 2] + steps_length c' [3; 4])
                    sz).
Proof.
  eexists ?[c0].
  assert (E : setContract wheel_conf [(6, 0)] = Ok ?c0)
    by (vm_compute; reflexivity).
  pose proof (forbiddenVertexSize_pair_outcome wheel_conf [(6, 0)] _ [0; 2]
                [3; 4] 1 1 6
                ltac:(apply wf_graphb_sound; reflexivity)
                ltac:(apply undirectedb_sound; reflexivity)
                ltac:(apply loop_freeb_sound; reflexivity)
                ltac:(unfold INF; simpl; lia) ltac:(simpl; lia) E
                ltac:(intros v [[<- | [<- | []]] | [<- | [<- | []]]];
                      simpl; lia)) as H.
  match type of H with
  | if ?b then _ else _ =>
      assert (Hc : b = true) by (vm_compute; reflexivity); rewrite Hc in H
  end.
  destruct H as [sz [H1 H2]]. exists sz. split; [exact E|]. split; assumption.
Defined.

(** ** The searches for four and five ring vertices *)

Lemma quad_ltb_iff (a b c d a' b' c' d' : nat) :
  quad_ltb (a, b, c, d) (a', b', c', d') = true
  <-> a < a'
      \/ (a = a' /\ (b < b' \/ (b = b' /\ (c < c' \/ (c = c' /\ d < d'))))).
Proof.
  unfold quad_ltb.
  rewrite !orb_true_iff, !andb_true_iff, !orb_true_iff, !andb_true_iff,
    !orb_true_iff, !andb_true_iff, !Nat.ltb_lt, !Nat.eqb_eq. reflexivity.
Qed.

Lemma quad_ltb_false_iff (a b c d a' b' c' d' : nat) :
  quad_ltb (a, b, c, d) (a', b', c', d') = false
  <-> ~ (a < a'
         \/ (a = a'
             /\ (b < b' \/ (b = b' /\ (c < c' \/ (c = c' /\ d < d')))))).
Proof.
  rewrite <- quad_ltb_iff. destruct (quad_ltb _ _); intuition congruence.
Qed.

Lemma quad_eqb_eq (x y : nat * nat * nat * nat) :
  quad_eqb x y = true <-> x = y.
Proof.
  destruct x as [[[a b] c] d], y as [[[a' b'] c'] d']. unfold quad_eqb.
  rewrite !andb_true_iff, !Nat.eqb_eq. split.
  - intros [[[-> ->] ->] ->]. reflexivity.
  - intros E. inversion E. auto.
Qed.

Lemma quad_sort_unique (l : list (nat * nat * nat * nat)) :
  increasing quad_ltb (unique quad_eqb (sort quad_ltb l))
  /\ NoDup (unique quad_eqb (sort quad_ltb l))
  /\ forall y, In y (unique quad_eqb (sort quad_ltb l)) <-> In y l.
Proof.
  apply sort_unique_spec.
  - intros [[[a b] c] d]. apply quad_ltb_false_iff. lia.
  - intros [[[a b] c] d] [[[a' b'] c'] d'] [[[a'' b''] c''] d''].
    rewrite !quad_ltb_iff. lia.
  - intros [[[a b] c] d] [[[a' b'] c'] d']. rewrite !quad_ltb_false_iff.
    intros H1 H2.
    assert (a = a' /\ b = b' /\ c = c' /\ d = d') as [-> [-> [-> ->]]] by lia.
    reflexivity.
  - apply quad_eqb_eq.
Qed.

Lemma quint_ltb_iff (a b c d e a' b' c' d' e' : nat) :
  quint_ltb (a, b, c, d, e) (a', b', c', d', e') = true
  <-> a < a'
      \/ (a = a'
          /\ (b < b'
              \/ (b = b'
                  /\ (c < c'
                      \/ (c = c' /\ (d < d' \/ (d = d' /\ e < e'))))))).
Proof.
  unfold quint_ltb.
  rewrite !orb_true_iff, !andb_true_iff, !orb_true_iff, !andb_true_iff,
    !orb_true_iff, !andb_true_iff, !orb_true_iff, !andb_true_iff,
    !Nat.ltb_lt, !Nat.eqb_eq. reflexivity.
Qed.

Lemma quint_ltb_false_iff (a b c d e a' b' c' d' e' : nat) :
  quint_ltb (a, b, c, d, e) (a', b', c', d', e') = false
  <-> ~ (a < a'
         \/ (a = a'
             /\ (b < b'
                 \/ (b = b'
                     /\ (c < c'
                         \/ (c = c' /\ (d < d' \/ (d = d' /\ e < e')))))))).
Proof.
  rewrite <- quint_ltb_iff. destruct (quint_ltb _ _); intuition congruence.
Qed.

Lemma quint_eqb_eq (x y : nat * nat * nat * nat * nat) :
  quint_eqb x y = true <-> x = y.
Proof.
  destruct x as [[[[a b] c] d] e], y as [[[[a' b'] c'] d'] e'].
  unfold quint_eqb. rewrite !andb_true_iff, !Nat.eqb_eq. split.
  - intros [[[[-> ->] ->] ->] ->]. reflexivity.
  - intros E. inversion E. auto.
Qed.

Lemma quint_sort_unique (l : list (nat * nat * nat * nat * nat)) :
  increasing quint_ltb (unique quint_eqb (sort quint_ltb l))
  /\ NoDup (unique quint_eqb (sort quint_ltb l))
  /\ forall y, In y (unique quint_eqb (sort quint_ltb l)) <-> In y l.
Proof.
  apply sort_unique_spec.
  - intros [[[[a b] c] d] e]. apply quint_ltb_false_iff. lia.
  - intros [[[[a b] c] d] e] [[[[a' b'] c'] d'] e']
      [[[[a'' b''] c''] d''] e''].
    rewrite !quint_ltb_iff. lia.
  - intros [[[[a b] c] d] e] [[[[a' b'] c'] d'] e'].
    rewrite !quint_ltb_false_iff. intros H1 H2.
    assert (a = a' /\ b = b' /\ c = c' /\ d = d' /\ e = e')
      as [-> [-> [-> [-> ->]]]] by lia.
    reflexivity.
  - apply quint_eqb_eq.
Qed.

Lemma ring_order3 (x y z : nat) :
  ring_order [x; y; z]
  <-> (x < y /\ y < z) \/ (y < z /\ z < x) \/ (z < x /\ x < y).
Proof.
  unfold ring_order. split.
  - intros [k H]. do 3 (destruct k as [|k]; [simpl in H; lia|]).
    simpl in H. rewrite skipn_nil, firstn_nil in H. simpl in H. lia.
  - intros [H | [H | H]]; [exists 0 | exists 1 | exists 2]; simpl; lia.
Qed.

Lemma ring_order4 (w x y z : nat) :
  ring_order [w; x; y; z]
  <-> (w < x /\ x < y /\ y < z) \/ (x < y /\ y < z /\ z < w)
      \/ (y < z /\ z < w /\ w < x) \/ (z < w /\ w < x /\ x < y).
Proof.
  unfold ring_order. split.
  - intros [k H]. do 4 (destruct k as [|k]; [simpl in H; lia|]).
    simpl in H. rewrite skipn_nil, firstn_nil in H. simpl in H. lia.
  - intros [H | [H | [H | H]]];
      [exists 0 | exists 1 | exists 2 | exists 3]; simpl; lia.
Qed.

Lemma ring_order5 (v w x y z : nat) :
  ring_order [v; w; x; y; z]
  <-> (v < w /\ w < x /\ x < y /\ y < z)
      \/ (w < x /\ x < y /\ y < z /\ z < v)
      \/ (x < y /\ y < z /\ z < v /\ v < w)
      \/ (y < z /\ z < v /\ v < w /\ w < x)
      \/ (z < v /\ v < w /\ w < x /\ x < y).
Proof.
  unfold ring_order. split.
  - intros [k H]. do 5 (destruct k as [|k]; [simpl in H; lia|]).
    simpl in H. rewrite skipn_nil, firstn_nil in H. simpl in H. lia.
  - intros [H | [H | [H | [H | H]]]];
      [exists 0 | exists 1 | exists 2 | exists 3 | exists 4]; simpl; lia.
Qed.

Lemma mod_shift (r z : nat) : z < r -> (z + r) mod r = z.
Proof. intros H. rewrite mod_once by lia. lia. Qed.

Lemma mod_cases (r a b c : nat) :
  a < b -> b < r -> b < c -> c < a + r ->
  exists m, c mod r = m /\ ((c < r /\ m = c) \/ (r <= c /\ m + r = c)).
Proof.
  intros Hab Hb Hbc Hc. exists (c mod r). split; [reflexivity|].
  destruct (Nat.lt_ge_cases c r) as [H | H].
  - left. rewrite Nat.mod_small by assumption. auto.
  - right. rewrite mod_once by lia. lia.
Qed.

(** Names the residue of the loop variable [c]. *)
Ltac residue r a b c :=
  let m := fresh "m" in
  let Em := fresh "Em" in
  let Hm := fresh "Hm" in
  destruct (mod_cases r a b c) as [m [Em Hm]]; [lia | lia | lia | lia |];
  rewrite ?Em in *; clear Em.

Lemma in_guarded_intro {Y : Type} (c : bool) (y : Y) :
  c = true -> In y (if c then [y] else []).
Proof. intros ->. left. reflexivity. Qed.

(** Picks the loop variable [c] of a search, shifted by [r] or not. *)
Ltac pick c r :=
  apply in_flat_map;
  first [ exists c; split; [apply in_range; lia|];
          rewrite ?(Nat.mod_small c r) by lia
        | exists (c + r); split; [apply in_range; lia|];
          rewrite ?(mod_shift r c) by lia ].

Ltac pass_guards :=
  repeat match goal with
         | H : ?d = ?d0 |- context [(?d =? ?d0)%Z] =>
             rewrite (proj2 (Z.eqb_eq d d0) H)
         end.

(** The quadruples of [find_ab_cd]. *)
Lemma find_ab_cd_members (d0 d1 : Z) (n r : nat) (contract_dist : matrix) :
  increasing quad_ltb (find_ab_cd d0 d1 n r contract_dist)
  /\ NoDup (find_ab_cd d0 d1 n r contract_dist)
  /\ forall w x y z,
       In (w, x, y, z) (find_ab_cd d0 d1 n r contract_dist)
       <-> w < r /\ x < r /\ y < r /\ z < r
           /\ ring_order [w; x; y; z]
           /\ mget contract_dist (Nat.min w x) (Nat.max w x) = d0
           /\ mget contract_dist y z = d1.
Proof.
  unfold find_ab_cd. cbv zeta.
  match goal with
  | |- increasing _ (unique _ (sort _ ?l)) /\ _ => set (abcds := l)
  end.
  destruct (quad_sort_unique abcds) as [Hinc [Hnd Hin]].
  split; [assumption|]. split; [assumption|].
  intros w x y z. rewrite Hin. unfold abcds. clear Hinc Hnd Hin abcds.
  rewrite ring_order4, in_flat_map. split.
  - intros [a [Ha H]]. apply in_seq in Ha.
    apply in_flat_map in H. destruct H as [b [Hb H]]. apply in_range in Hb.
    destruct (Z.eqb_spec (mget contract_dist a b) d0) as [Hd | Hd];
      [|destruct H].
    apply in_app_iff in H. destruct H as [H | H];
      apply in_flat_map in H; destruct H as [c [Hc H]];
      apply in_range in Hc;
      apply in_flat_map in H; destruct H as [d [Hdd H]];
      apply in_range in Hdd; apply in_guarded in H; destruct H as [H1 E];
      apply Z.eqb_eq in H1; inversion E; subst; clear E.
    + destruct (mod_ring r a b c) as [M1 [M2 [M3 M4]]]; try lia.
      destruct (mod_ring r a b d) as [N1 [N2 [N3 N4]]]; try lia.
      rewrite Nat.min_l, Nat.max_r by lia.
      repeat split; try lia; try reflexivity.
    + rewrite Nat.min_r, Nat.max_l by lia.
      repeat split; try lia; try reflexivity.
  - intros [Hw [Hx [Hy [Hz [Hord [Hd0 Hd1]]]]]].
    destruct (Nat.lt_ge_cases w x) as [Hwx | Hxw].
    + rewrite Nat.min_l, Nat.max_r in Hd0 by lia.
      exists w. split; [apply in_seq; lia|].
      apply in_flat_map. exists x. split; [apply in_range; lia|].
      pass_guards. apply in_app_iff. left.
      destruct Hord as [H | [H | [H | H]]]; try lia.
      * pick y r. pick z r. pass_guards. left. reflexivity.
      * pick y r. pick z r. pass_guards. left. reflexivity.
      * pick y r. pick z r. pass_guards. left. reflexivity.
    + rewrite Nat.min_r, Nat.max_l in Hd0 by lia.
      exists x. split; [apply in_seq; lia|].
      apply in_flat_map. exists w. split; [apply in_range; lia|].
      pass_guards. apply in_app_iff. right.
      destruct Hord as [H | [H | [H | H]]]; try lia.
      apply in_flat_map. exists y. split; [apply in_range; lia|].
      apply in_flat_map. exists z. split; [apply in_range; lia|].
      pass_guards. left. reflexivity.
Qed.

(** X21: [find_ab_cd(d0, d1, n, r, dist)] returns, in strictly increasing
    lexicographic order and without repetition, exactly the quadruples
    [(w, x, y, z)] of ring vertices that follow each other on the ring in
    this cyclic order, with [dist[y][z] = d1] and with [d0] the entry of
    [dist] at the pair [w], [x] read from the smaller to the larger
    index. *)
Theorem find_ab_cd_exact (d0 d1 : Z) (n r : nat) (contract_dist : matrix) :
  increasing quad_ltb (find_ab_cd d0 d1 n r contract_dist)
  /\ NoDup (find_ab_cd d0 d1 n r contract_dist)
  /\ forall w x y z,
       In (w, x, y, z) (find_ab_cd d0 d1 n r contract_dist)
       <-> w < r /\ x < r /\ y < r /\ z < r
           /\ ring_order [w; x; y; z]
           /\ mget contract_dist (Nat.min w x) (Nat.max w x) = d0
           /\ mget contract_dist y z = d1.
Proof. apply find_ab_cd_members. Qed.

(** The quadruples of [find_ab_bc_cd]. *)
Lemma find_ab_bc_cd_members (d0 d1 d2 : Z) (n r : nat)
  (contract_dist : matrix) :
  increasing quad_ltb (find_ab_bc_cd d0 d1 d2 n r contract_dist)
  /\ NoDup (find_ab_bc_cd d0 d1 d2 n r contract_dist)
  /\ forall w x y z,
       In (w, x, y, z) (find_ab_bc_cd d0 d1 d2 n r contract_dist)
       <-> w < r /\ x < r /\ y < r /\ z < r
           /\ ring_order [w; x; y; z]
           /\ mget contract_dist (Nat.min w x) (Nat.max w x) = d0
           /\ mget contract_dist x y = d1
           /\ mget contract_dist y z = d2.
Proof.
  unfold find_ab_bc_cd. cbv zeta.
  match goal with
  | |- increasing _ (unique _ (sort _ ?l)) /\ _ => set (abcds := l)
  end.
  destruct (quad_sort_unique abcds) as [Hinc [Hnd Hin]].
  split; [assumption|]. split; [assumption|].
  intros w x y z. rewrite Hin. unfold abcds. clear Hinc Hnd Hin abcds.
  rewrite ring_order4, in_flat_map. split.
  - intros [a [Ha H]]. apply in_seq in Ha.
    apply in_flat_map in H. destruct H as [b [Hb H]]. apply in_range in Hb.
    destruct (Z.eqb_spec (mget contract_dist a b) d0) as [Hd | Hd];
      [|destruct H].
    apply in_app_iff in H. destruct H as [H | H];
      apply in_flat_map in H; destruct H as [c [Hc H]];
      apply in_range in Hc.
    + destruct (Z.eqb_spec (mget contract_dist b (c mod r)) d1) as [Hc1 | Hc1];
        [|destruct H].
      apply in_flat_map in H; destruct H as [d [Hdd H]];
        apply in_range in Hdd; apply in_guarded in H; destruct H as [H1 E];
        apply Z.eqb_eq in H1; inversion E; subst; clear E.
      rewrite Nat.min_l, Nat.max_r by lia.
      residue r a b c. residue r a b d.
      repeat split; try lia; try reflexivity.
    + destruct (Z.eqb_spec (mget contract_dist a c) d1) as [Hc1 | Hc1];
        [|destruct H].
      apply in_flat_map in H; destruct H as [d [Hdd H]];
        apply in_range in Hdd; apply in_guarded in H; destruct H as [H1 E];
        apply Z.eqb_eq in H1; inversion E; subst; clear E.
      rewrite Nat.min_r, Nat.max_l by lia.
      repeat split; try lia; try reflexivity.
  - intros [Hw [Hx [Hy [Hz [Hord [Hd0 [Hd1 Hd2]]]]]]].
    destruct (Nat.lt_ge_cases w x) as [Hwx | Hxw].
    + rewrite Nat.min_l, Nat.max_r in Hd0 by lia.
      exists w. split; [apply in_seq; lia|].
      apply in_flat_map. exists x. split; [apply in_range; lia|].
      pass_guards. apply in_app_iff. left.
      destruct Hord as [H | [H | [H | H]]]; try lia.
      * pick y r. pass_guards. pick z r. pass_guards. left. reflexivity.
      * pick y r. pass_guards. pick z r. pass_guards. left. reflexivity.
      * pick y r. pass_guards. pick z r. pass_guards. left. reflexivity.
    + rewrite Nat.min_r, Nat.max_l in Hd0 by lia.
      exists x. split; [apply in_seq; lia|].
      apply in_flat_map. exists w. split; [apply in_range; lia|].
      pass_guards. apply in_app_iff. right.
      destruct Hord as [H | [H | [H | H]]]; try lia.
      apply in_flat_map. exists y. split; [apply in_range; lia|].
      pass_guards.
      apply in_flat_map. exists z. split; [apply in_range; lia|].
      pass_guards. left. reflexivity.
Qed.

(** X22: [find_ab_bc_cd(d0, d1, d2, n, r, dist)] returns, in strictly
    increasing lexicographic order and without repetition, exactly the
    quadruples [(w, x, y, z)] of ring vertices in this cyclic order with
    [dist[x][y] = d1], [dist[y][z] = d2] and with [d0] the entry of [dist]
    at the pair [w], [x] read from the smaller to the larger index. *)
Theorem find_ab_bc_cd_exact (d0 d1 d2 : Z) (n r : nat)
  (contract_dist : matrix) :
  increasing quad_ltb (find_ab_bc_cd d0 d1 d2 n r contract_dist)
  /\ NoDup (find_ab_bc_cd d0 d1 d2 n r contract_dist)
  /\ forall w x y z,
       In (w, x, y, z) (find_ab_bc_cd d0 d1 d2 n r contract_dist)
       <-> w < r /\ x < r /\ y < r /\ z < r
           /\ ring_order [w; x; y; z]
           /\ mget contract_dist (Nat.min w x) (Nat.max w x) = d0
           /\ mget contract_dist x y = d1
           /\ mget contract_dist y z = d2.
Proof. apply find_ab_bc_cd_members. Qed.

(** The quintuples of [find_ab_bc_de]. *)
Lemma find_ab_bc_de_members (d0 d1 d2 : Z) (n r : nat)
  (contract_dist : matrix) :
  increasing quint_ltb (find_ab_bc_de d0 d1 d2 n r contract_dist)
  /\ NoDup (find_ab_bc_de d0 d1 d2 n r contract_dist)
  /\ forall v w x y z,
       In (v, w, x, y, z) (find_ab_bc_de d0 d1 d2 n r contract_dist)
       <-> v < r /\ w < r /\ x < r /\ y < r /\ z < r
           /\ ring_order [v; w; x; y; z]
           /\ mget contract_dist (Nat.min v w) (Nat.max v w) = d0
           /\ mget contract_dist w x = d1
           /\ mget contract_dist y z = d2.
Proof.
  unfold find_ab_bc_de. cbv zeta.
  match goal with
  | |- increasing _ (unique _ (sort _ ?l)) /\ _ => set (abcdes := l)
  end.
  destruct (quint_sort_unique abcdes) as [Hinc [Hnd Hin]].
  split; [assumption|]. split; [assumption|].
  intros v w x y z. rewrite Hin. unfold abcdes. clear Hinc Hnd Hin abcdes.
  rewrite ring_order5, in_flat_map. split.
  - intros [a [Ha H]]. apply in_seq in Ha.
    apply in_flat_map in H. destruct H as [b [Hb H]]. apply in_range in Hb.
    destruct (Z.eqb_spec (mget contract_dist a b) d0) as [Hd | Hd];
      [|destruct H].
    apply in_app_iff in H. destruct H as [H | H];
      apply in_flat_map in H; destruct H as [c [Hc H]];
      apply in_range in Hc.
    + destruct (Z.eqb_spec (mget contract_dist b (c mod r)) d1) as [Hc1 | Hc1];
        [|destruct H].
      apply in_flat_map in H; destruct H as [d [Hdd H]];
        apply in_range in Hdd;
        apply in_flat_map in H; destruct H as [e [He H]];
        apply in_range in He; apply in_guarded in H; destruct H as [H1 E];
        apply Z.eqb_eq in H1; inversion E; subst; clear E.
      rewrite Nat.min_l, Nat.max_r by lia.
      residue r a b c. residue r a b d. residue r a b e.
      repeat split; try lia; try reflexivity.
    + destruct (Z.eqb_spec (mget contract_dist a c) d1) as [Hc1 | Hc1];
        [|destruct H].
      apply in_flat_map in H; destruct H as [d [Hdd H]];
        apply in_range in Hdd;
        apply in_flat_map in H; destruct H as [e [He H]];
        apply in_range in He; apply in_guarded in H; destruct H as [H1 E];
        apply Z.eqb_eq in H1; inversion E; subst; clear E.
      rewrite Nat.min_r, Nat.max_l by lia.
      repeat split; try lia; try reflexivity.
  - intros [Hv [Hw [Hx [Hy [Hz [Hord [Hd0 [Hd1 Hd2]]]]]]]].
    destruct (Nat.lt_ge_cases v w) as [Hvw | Hwv].
    + rewrite Nat.min_l, Nat.max_r in Hd0 by lia.
      exists v. split; [apply in_seq; lia|].
      apply in_flat_map. exists w. split; [apply in_range; lia|].
      pass_guards. apply in_app_iff. left.
      destruct Hord as [H | [H | [H | [H | H]]]]; try lia.
      * pick x r. pass_guards. pick y r. pick z r. pass_guards.
        left. reflexivity.
      * pick x r. pass_guards. pick y r. pick z r. pass_guards.
        left. reflexivity.
      * pick x r. pass_guards. pick y r. pick z r. pass_guards.
        left. reflexivity.
      * pick x r. pass_guards. pick y r. pick z r. pass_guards.
        left. reflexivity.
    + rewrite Nat.min_r, Nat.max_l in Hd0 by lia.
      exists w. split; [apply in_seq; lia|].
      apply in_flat_map. exists v. split; [apply in_range; lia|].
      pass_guards. apply in_app_iff. right.
      destruct Hord as [H | [H | [H | [H | H]]]]; try lia.
      apply in_flat_map. exists x. split; [apply in_range; lia|].
      pass_guards.
      apply in_flat_map. exists y. split; [apply in_range; lia|].
      apply in_flat_map. exists z. split; [apply in_range; lia|].
      pass_guards. left. reflexivity.
Qed.

(** X23: [find_ab_bc_de(d0, d1, d2, n, r, dist)] returns, in strictly
    increasing lexicographic order and without repetition, exactly the
    quintuples [(v, w, x, y, z)] of ring vertices in this cyclic order with
    [dist[w][x] = d1], [dist[y][z] = d2] and with [d0] the entry of [dist]
    at the pair [v], [w] read from the smaller to the larger index. *)
Theorem find_ab_bc_de_exact (d0 d1 d2 : Z) (n r : nat)
  (contract_dist : matrix) :
  increasing quint_ltb (find_ab_bc_de d0 d1 d2 n r contract_dist)
  /\ NoDup (find_ab_bc_de d0 d1 d2 n r contract_dist)
  /\ forall v w x y z,
       In (v, w, x, y, z) (find_ab_bc_de d0 d1 d2 n r contract_dist)
       <-> v < r /\ w < r /\ x < r /\ y < r /\ z < r
           /\ ring_order [v; w; x; y; z]
           /\ mget contract_dist (Nat.min v w) (Nat.max v w) = d0
           /\ mget contract_dist w x = d1
           /\ mget contract_dist y z = d2.
Proof. apply find_ab_bc_de_members. Qed.

Example find_ab_cd_ring :
  exists d,
    WF 6 ring6_adj [(0, 1); (3, 4)] true = Ok d
    /\ find_ab_cd 0 0 6 6 d = [(0, 1, 3, 4); (3, 4, 0, 1)]
    /\ find_ab_bc_cd 0 1 0 6 6 d = []
    /\ find_ab_bc_de 0 1 0 6 6 d = [(0, 1, 2, 3, 4); (3, 4, 5, 0, 1)].
Proof. eexists. split; [vm_compute; reflexivity|]. repeat split. Qed.

(** ** The calls of [forbiddenVertexSize] in [check] *)

Lemma short_direct (dc : matrix) (u v : nat) (d0 : Z) :
  (d0 <= 1)%Z -> mget dc u v = d0 -> (mget dc u v <=? 1)%Z = true.
Proof. intros Hd0 H. apply Z.leb_le. lia. Qed.

Lemma differ (u v : nat) : u <> v -> negb (u =? v) = true.
Proof. intros H. apply negb_true_iff, Nat.eqb_neq. assumption. Qed.

Section Calls.

Variables (c : Configuration) (contract : list (nat * nat)).
Variable c' : Configuration.
Hypothesis Hwf : wf_graph (n_ c) (VtoV_ c).
Hypothesis Hund : undirected (VtoV_ c).
Hypothesis Hloop : loop_free (VtoV_ c).
Hypothesis Hn : (Z.of_nat (n_ c) + 1 <= INF)%Z.
Hypothesis Hrn : r_ c <= n_ c.
Hypothesis Hset : setContract c contract = Ok c'.

Variable cutSize : Z.
Hypothesis Hcut : is6or7 cutSize = true.

Lemma contracted_symmetric (u v : nat) :
  u < r_ c' -> v < r_ c' ->
  mget (dist_contracted_ c') u v = mget (dist_contracted_ c') v u.
Proof.
  intros Hu Hv.
  destruct (setContract_state c contract c' Hset) as [En [Er [Ev Hdc]]].
  rewrite En, Ev in Hdc.
  destruct (WF_metric (n_ c) (VtoV_ c) (contract_ c') true
              (dist_contracted_ c') Hwf Hund Hloop Hdc) as [Hsym _].
  apply Hsym; lia.
Qed.

Lemma short_either (u v : nat) (d0 : Z) :
  u < r_ c' -> v < r_ c' -> (d0 <= 1)%Z ->
  mget (dist_contracted_ c') (Nat.min u v) (Nat.max u v) = d0 ->
  (mget (dist_contracted_ c') u v <=? 1)%Z = true.
Proof.
  intros Hu Hv Hd0 H. apply Z.leb_le.
  destruct (Nat.le_ge_cases u v) as [L | L].
  - rewrite Nat.min_l, Nat.max_r in H by assumption. lia.
  - rewrite Nat.min_r, Nat.max_l in H by assumption.
    rewrite contracted_symmetric by assumption. lia.
Qed.

Lemma short_back (u v : nat) (d0 : Z) :
  u < r_ c' -> v < r_ c' -> (d0 <= 1)%Z ->
  mget (dist_contracted_ c') u v = d0 ->
  (mget (dist_contracted_ c') v u <=? 1)%Z = true.
Proof.
  intros Hu Hv Hd0 H. apply Z.leb_le.
  rewrite contracted_symmetric by assumption. lia.
Qed.

Lemma one_list_returns (vs : list nat) (k : Z) (rev_ : bool) :
  (forall v, In v vs -> v < r_ c') ->
  (2 <=? length vs) && short_steps c' vs && negb (front vs =? back vs) = true ->
  returns (forbiddenVertexSize c' vs k cutSize rev_).
Proof.
  intros Hvs Hc.
  destruct (setContract_state c contract c' Hset) as [_ [Er _]].
  pose proof (forbiddenVertexSize_cases c contract c' vs k cutSize rev_
                Hwf Hund Hloop Hn Hrn Hset
                ltac:(rewrite <- Er; assumption)) as H.
  rewrite Hc, Hcut in H. cbn [andb] in H.
  destruct H as [sz [_ H]]. eexists. exact H.
Qed.

Lemma two_lists_return (vs1 vs2 : list nat) (k1 k2 : Z) :
  (forall v, In v vs1 \/ In v vs2 -> v < r_ c') ->
  (2 <=? length vs1) && short_steps c' vs1
  && ((2 <=? length vs2) && short_steps c' vs2)
  && (negb (front vs1 =? back vs1) && negb (front vs2 =? back vs2)) = true ->
  returns (forbiddenVertexSize_pair c' vs1 vs2 k1 k2 cutSize).
Proof.
  intros Hvs Hc.
  destruct (setContract_state c contract c' Hset) as [_ [Er _]].
  pose proof (forbiddenVertexSize_pair_cases c contract c' vs1 vs2 k1 k2
                cutSize Hwf Hund Hloop Hn Hrn Hset
                ltac:(rewrite <- Er; assumption)) as H.
  rewrite Hc, Hcut in H. cbn [andb] in H.
  destruct H as [sz [_ H]]. eexists. exact H.
Qed.

End Calls.

(** Splits the condition under which [forbiddenVertexSize] returns. *)
Ltac conditions :=
  unfold short_steps, front, back; cbn -[mget Z.leb Nat.eqb];
  repeat (apply andb_true_iff; split);
  try reflexivity; try assumption; try (apply differ; lia).

(** X24: [check] calls [forbiddenVertexSize] on the tuples that its
    searches return for distances 0 and 1 in the matrix [WF(true)] of the
    contracted configuration.  On an undirected graph without loops and
    with fewer vertices than the sentinel every such call returns, for
    each of the argument shapes [check] uses: the pairs of [find_ab] in
    both orders, the triples of [find_ab_bc], the triples of
    [find_ab_ac_bc] in their three rotations, the quadruples of
    [find_ab_bc_cd], and, for the two-list variant, the quadruples of
    [find_ab_cd] and the quintuples of [find_ab_bc_de].  No call aborts at
    an assertion or reads an empty vector. *)
Theorem check_calls_return (c : Configuration) (contract : list (nat * nat))
  (c' : Configuration) (d : matrix) (d0 d1 d2 k k' cutSize : Z)
  (rev_ : bool) :
  wf_graph (n_ c) (VtoV_ c) -> undirected (VtoV_ c) ->
  loop_free (VtoV_ c) -> (Z.of_nat (n_ c) + 1 <= INF)%Z ->
  r_ c <= n_ c ->
  setContract c contract = Ok c' ->
  WF (n_ c') (VtoV_ c') (contract_ c') true = Ok d ->
  (d0 <= 1)%Z -> (d1 <= 1)%Z -> (d2 <= 1)%Z ->
  is6or7 cutSize = true ->
  (forall a b, In (a, b) (find_ab d0 (n_ c') (r_ c') d) ->
     returns (forbiddenVertexSize c' [a; b] k cutSize rev_)
     /\ returns (forbiddenVertexSize c' [b; a] k cutSize rev_))
  /\ (forall a b e, In (a, b, e) (find_ab_bc d0 d1 (n_ c') (r_ c') d) ->
        returns (forbiddenVertexSize c' [a; b; e] k cutSize rev_))
  /\ (forall a b e,
        In (a, b, e) (find_ab_ac_bc d0 d1 d2 (n_ c') (r_ c') d) ->
        returns (forbiddenVertexSize c' [a; b; e] k cutSize rev_)
        /\ returns (forbiddenVertexSize c' [b; e; a] k cutSize rev_)
        /\ returns (forbiddenVertexSize c' [e; a; b] k cutSize rev_))
  /\ (forall a b e f,
        In (a, b, e, f) (find_ab_bc_cd d0 d1 d2 (n_ c') (r_ c') d) ->
        returns (forbiddenVertexSize c' [a; b; e; f] k cutSize rev_))
  /\ (forall a b e f, In (a, b, e, f) (find_ab_cd d0 d1 (n_ c') (r_ c') d) ->
        returns (forbiddenVertexSize_pair c' [a; b] [e; f] k k' cutSize))
  /\ (forall a b e f g,
        In (a, b, e, f, g) (find_ab_bc_de d0 d1 d2 (n_ c') (r_ c') d) ->
        returns (forbiddenVertexSize_pair c' [a; b; e] [f; g] k k'
                   cutSize)).
Proof.
  intros Hwf Hund Hloop Hn Hrn Hset Hd Hd0 Hd1 Hd2 Hcut.
  destruct (setContract_state c contract c' Hset) as [_ [_ [_ Hdc]]].
  rewrite Hd in Hdc. injection Hdc as ->.
  pose proof (one_list_returns c contract c' Hwf Hund Hloop Hn Hrn Hset
                cutSize Hcut) as Hone.
  pose proof (two_lists_return c contract c' Hwf Hund Hloop Hn Hrn Hset
                cutSize Hcut) as Htwo.
  pose proof (short_either c contract c' Hwf Hund Hloop Hrn Hset) as Heither.
  pose proof (short_back c contract c' Hwf Hund Hloop Hrn Hset) as Hback.
  pose proof (short_direct (dist_contracted_ c')) as Hdirect.
  split; [|split; [|split; [|split; [|split]]]].
  - intros a b H. apply find_ab_members in H. destruct H as [Hab [Hb H]].
    pose proof (Hdirect a b d0 Hd0 H) as S1.
    pose proof (Hback a b d0 ltac:(lia) Hb Hd0 H) as S2.
    split; apply Hone;
      try (intros v [<- | [<- | []]]; lia); conditions.
  - intros x y z H. apply find_ab_bc_members in H.
    destruct H as [Hx [Hy [Hz [H1 H]]]].
    pose proof (Hdirect y z d1 Hd1 H1) as S2.
    assert (S1 : (mget (dist_contracted_ c') x y <=? 1)%Z = true).
    { destruct H as [[L [H _]] | [L [H _]]];
        [apply (Hdirect x y d0) | apply (Hback y x d0)]; assumption. }
    apply Hone; [intros v [<- | [<- | [<- | []]]]; lia|]. conditions.
  - intros x y z H. apply find_ab_ac_bc_members in H.
    destruct H as [Hx [Hy [Hz [H1 [H2 H]]]]].
    pose proof (Hdirect x z d1 Hd1 H1) as S1.
    pose proof (Hback x z d1 Hx Hz Hd1 H1) as S1'.
    pose proof (Hdirect y z d2 Hd2 H2) as S2.
    assert (S0 : (mget (dist_contracted_ c') x y <=? 1)%Z = true).
    { destruct H as [[L [H _]] | [L [H _]]];
        [apply (Hdirect x y d0) | apply (Hback y x d0)]; assumption. }
    split; [|split]; apply Hone;
      try (intros v [<- | [<- | [<- | []]]]; lia); conditions.
  - intros w x y z H. apply find_ab_bc_cd_members in H.
    destruct H as [Hw [Hx [Hy [Hz [Hord [H0 [H1 H2]]]]]]].
    apply ring_order4 in Hord.
    pose proof (Heither w x d0 Hw Hx Hd0 H0) as S0.
    pose proof (Hdirect x y d1 Hd1 H1) as S1.
    pose proof (Hdirect y z d2 Hd2 H2) as S2.
    apply Hone; [intros v [<- | [<- | [<- | [<- | []]]]]; lia|]. conditions.
  - intros w x y z H. apply find_ab_cd_members in H.
    destruct H as [Hw [Hx [Hy [Hz [Hord [H0 H1]]]]]].
    apply ring_order4 in Hord.
    pose proof (Heither w x d0 Hw Hx Hd0 H0) as S0.
    pose proof (Hdirect y z d1 Hd1 H1) as S1.
    apply Htwo; [intros v [[<- | [<- | []]] | [<- | [<- | []]]]; lia|].
    conditions.
  - intros v w x y z H. apply find_ab_bc_de_members in H.
    destruct H as [Hv [Hw [Hx [Hy [Hz [Hord [H0 [H1 H2]]]]]]]].
    apply ring_order5 in Hord.
    pose proof (Heither v w d0 Hv Hw Hd0 H0) as S0.
    pose proof (Hdirect w x d1 Hd1 H1) as S1.
    pose proof (Hdirect y z d2 Hd2 H2) as S2.
    apply Htwo;
      [intros u [[<- | [<- | [<- | []]]] | [<- | [<- | []]]]; lia|].
    conditions.
Qed.

Lemma check_calls_return_witness :
  exists c' d,
    setContract wheel_conf [(6, 0)] = Ok c'
    /\ WF (n_ c') (VtoV_ c') (contract_ c') true = Ok d
    /\ In (0, 2) (find_ab 1 (n_ c') (r_ c') d)
    /\ returns (forbiddenVertexSize c' [0; 2] 4 6 false)
    /\ returns (forbiddenVertexSize c' [2; 0] 4 6 false).
Proof.
  eexists. eexists.
  split; [vm_compute; reflexivity|]. split; [vm_compute; reflexivity|].
  split; [vm_compute; auto|].
  refine (proj1 (check_calls_return wheel_conf [(6, 0)] _ _ 1 1 1 4 1 6 false
                   _ _ _ _ _ _ _ _ _ _ _) 0 2 _).
  - apply wf_graphb_sound. reflexivity.
  - apply undirectedb_sound. reflexivity.
  - apply loop_freeb_sound. reflexivity.
  - unfold INF. simpl. lia.
  - simpl. lia.
  - vm_compute. reflexivity.
  - vm_compute. reflexivity.
  - lia.
  - lia.
  - lia.
  - reflexivity.
  - vm_compute. auto.
Defined.

(** ** [checkDegree7] *)

Lemma in_int_set_insert (x y : Z) (s : list Z) :
  In y (int_set_insert x s) <-> y = x \/ In y s.
Proof.
  induction s as [|z s IH]; simpl.
  - intuition.
  - destruct (Z.ltb_spec x z); [simpl; intuition|].
    destruct (Z.eqb_spec x z) as [->|Hne]; simpl; [intuition|].
    rewrite IH. intuition.
Qed.

Lemma increasing_int_set_insert (x : Z) (s : list Z) :
  increasing Z.ltb s -> increasing Z.ltb (int_set_insert x s).
Proof.
  induction s as [|y s IH]; intros H; [exact I|]. cbn [int_set_insert].
  destruct (Z.ltb_spec x y) as [Hlt | Hge].
  - split; [apply Z.ltb_lt; assumption | assumption].
  - destruct (Z.eqb_spec x y) as [->|Hne]; [assumption|].
    assert (Hs : increasing Z.ltb s) by (destruct s; [exact I | apply H]).
    specialize (IH Hs).
    destruct s as [|z s]; cbn [int_set_insert] in *.
    + split; [apply Z.ltb_lt; lia | exact I].
    + destruct H as [Hyz H].
      destruct (Z.ltb_spec x z).
      * split; [apply Z.ltb_lt; lia | assumption].
      * destruct (Z.eqb_spec x z); [split; assumption|].
        split; assumption.
Qed.

Lemma increasing_Z_NoDup (s : list Z) : increasing Z.ltb s -> NoDup s.
Proof.
  apply increasing_NoDup.
  - intros x. apply Z.ltb_irrefl.
  - intros x y z H1 H2. apply Z.ltb_lt in H1, H2. apply Z.ltb_lt. lia.
Qed.

Lemma length_insert_at (sets : list (list Z)) (i x : Z) :
  length (insert_at sets i x) = length sets.
Proof.
  unfold insert_at. destruct (i <? 0)%Z; [reflexivity | apply length_vset].
Qed.

Lemma nth_insert_at (sets : list (list Z)) (j x : Z) (i : nat) :
  i < length sets ->
  nth i (insert_at sets j x) []
  = if (j =? Z.of_nat i)%Z then int_set_insert x (nth i sets [])
    else nth i sets [].
Proof.
  intros Hi. unfold insert_at.
  destruct (Z.ltb_spec j 0) as [Hneg | Hpos].
  - destruct (Z.eqb_spec j (Z.of_nat i)); [lia | reflexivity].
  - destruct (Z.eqb_spec j (Z.of_nat i)) as [->|Hne].
    + rewrite Nat2Z.id. apply nth_vset_eq. assumption.
    + apply nth_vset_neq. lia.
Qed.

(** Inserting the two directions of a list of pairs. *)
Lemma insert_pairs_spec (pairs : list (Z * Z)) :
  forall sets,
    let sets' :=
      fold_left (fun s '(a, b) => insert_at (insert_at s a b) b a)
        pairs sets in
    length sets' = length sets
    /\ forall i, i < length sets ->
         (increasing Z.ltb (nth i sets []) ->
          increasing Z.ltb (nth i sets' []))
         /\ forall x, In x (nth i sets' [])
                      <-> In x (nth i sets [])
                          \/ exists a b, In (a, b) pairs
                               /\ ((a = Z.of_nat i /\ x = b)
                                   \/ (b = Z.of_nat i /\ x = a)).
Proof.
  induction pairs as [|[a b] pairs IH]; intros sets; cbn [fold_left].
  - split; [reflexivity|]. intros i Hi. split; [auto|].
    intros x. split; [auto|]. intros [H | [a [b [[] _]]]]. assumption.
  - specialize (IH (insert_at (insert_at sets a b) b a)).
    cbv zeta in IH |- *. destruct IH as [Hlen IH].
    rewrite !length_insert_at in Hlen, IH.
    split; [assumption|]. intros i Hi. destruct (IH i Hi) as [Hinc Hin].
    assert (Hnth : forall x,
              In x (nth i (insert_at (insert_at sets a b) b a) [])
              <-> In x (nth i sets [])
                  \/ (a = Z.of_nat i /\ x = b) \/ (b = Z.of_nat i /\ x = a)).
    { intros x. rewrite nth_insert_at by (rewrite length_insert_at; assumption).
      rewrite nth_insert_at by assumption.
      destruct (Z.eqb_spec b (Z.of_nat i)); destruct (Z.eqb_spec a (Z.of_nat i));
        rewrite ?in_int_set_insert; intuition. }
    split.
    + intros H. apply Hinc.
      rewrite nth_insert_at by (rewrite length_insert_at; assumption).
      rewrite nth_insert_at by assumption.
      destruct (b =? Z.of_nat i)%Z; destruct (a =? Z.of_nat i)%Z;
        repeat apply increasing_int_set_insert; assumption.
    + intros x. rewrite Hin, Hnth. split.
      * intros [[H | H] | [a' [b' [H1 H2]]]].
        -- left. assumption.
        -- right. exists a, b. split; [left; reflexivity | assumption].
        -- right. exists a', b'. split; [right; assumption | assumption].
      * intros [H | [a' [b' [[E | H1] H2]]]].
        -- left. left. assumption.
        -- inversion E; subst. left. right. assumption.
        -- right. exists a', b'. split; assumption.
Qed.

(** The pairs of representatives that the first loop inserts. *)
Lemma contracted_adjacency_pairs (c : Configuration) :
  contracted_adjacency c
  = fold_left (fun s '(a, b) => insert_at (insert_at s a b) b a)
      (flat_map
         (fun v =>
            if removed7 c v then []
            else flat_map
                   (fun u =>
                      if removed7 c u then []
                      else [(nth v (representative_ c) (-1)%Z,
                             nth u (representative_ c) (-1)%Z)])
                   (adj (VtoV_ c) v))
         (seq 0 (n_ c)))
      (repeat [] (n_ c)).
Proof.
  unfold contracted_adjacency. rewrite fold_left_flat_map.
  apply fold_left_ext. intros sets v.
  destruct (removed7 c v); [reflexivity|].
  rewrite fold_left_flat_map. apply fold_left_ext. intros sets' u.
  destruct (removed7 c u); reflexivity.
Qed.

Lemma contracted_adjacency_spec (c : Configuration) (w : nat) :
  w < n_ c ->
  NoDup (nth w (contracted_adjacency c) [])
  /\ forall x,
       In x (nth w (contracted_adjacency c) [])
       <-> exists v u,
             v < n_ c /\ In u (adj (VtoV_ c) v)
             /\ removed7 c v = false /\ removed7 c u = false
             /\ ((nth v (representative_ c) (-1)%Z = Z.of_nat w
                  /\ nth u (representative_ c) (-1)%Z = x)
                 \/ (nth u (representative_ c) (-1)%Z = Z.of_nat w
                     /\ nth v (representative_ c) (-1)%Z = x)).
Proof.
  intros Hw. rewrite contracted_adjacency_pairs.
  match goal with
  | |- context [fold_left _ ?ps ?s0] =>
      destruct (insert_pairs_spec ps s0) as [_ H]
  end.
  cbv zeta in H. rewrite repeat_length in H.
  destruct (H w Hw) as [Hinc Hin]. clear H.
  rewrite nth_repeat_lt in Hinc, Hin by assumption.
  split; [apply increasing_Z_NoDup, Hinc; exact I|].
  intros x. rewrite Hin. split.
  - intros [[] | [a [b [Hab H]]]].
    apply in_flat_map in Hab. destruct Hab as [v [Hv Hab]].
    apply in_seq in Hv.
    destruct (removed7 c v) eqn:Ev; [destruct Hab|].
    apply in_flat_map in Hab. destruct Hab as [u [Hu Hab]].
    destruct (removed7 c u) eqn:Eu; [destruct Hab|].
    destruct Hab as [E | []]. inversion E; subst.
    exists v, u. split; [lia|]. split; [assumption|].
    split; [assumption|]. split; [assumption|].
    destruct H as [[H1 H2] | [H1 H2]]; [left | right]; auto.
  - intros [v [u [Hv [Hu [Ev [Eu H]]]]]]. right.
    exists (nth v (representative_ c) (-1)%Z),
      (nth u (representative_ c) (-1)%Z). split.
    + apply in_flat_map. exists v. split; [apply in_seq; lia|].
      rewrite Ev. apply in_flat_map. exists u. split; [assumption|].
      rewrite Eu. left. reflexivity.
    + destruct H as [[H1 H2] | [H1 H2]]; [left | right]; auto.
Qed.

Lemma removed7_counted (c : Configuration) (v : nat) :
  counted c 7 v
  = negb (removed7 c v)
    && (nth v (representative_ c) (-1) =? Z.of_nat v)%Z.
Proof. reflexivity. Qed.

(** The second loop, from any state it can be in before [break]. *)
Lemma degree_scan (c : Configuration) (sets : list (list Z)) (l : list nat) :
  forall n_ring n_conf not_deg7,
    exists n_ring' n_conf' not_deg7' stop',
      fold_left
        (fun '(n_ring, n_conf, not_deg7, stop) v =>
           if (stop : bool) then (n_ring, n_conf, not_deg7, stop)
           else if removed7 c v then (n_ring, n_conf, not_deg7, stop)
           else
             let own :=
               (nth v (representative_ c) (-1) =? Z.of_nat v)%Z in
             let n_ring :=
               if (v <? r_ c) && own then (n_ring + 1)%Z else n_ring in
             if (r_ c <=? v) && own then
               if negb (length (nth v sets []) =? 7)
               then (n_ring, (n_conf + 1)%Z, true, true)
               else (n_ring, (n_conf + 1)%Z, not_deg7, stop)
             else (n_ring, n_conf, not_deg7, stop))
        l (n_ring, n_conf, not_deg7, false)
      = (n_ring', n_conf', not_deg7', stop')
      /\ (2 <=? n_conf')%Z || not_deg7'
         = (2 <=? n_conf
                  + Z.of_nat (length (filter (inner_counted c) l)))%Z
           || not_deg7
           || existsb
                (fun v => inner_counted c v
                          && negb (length (nth v sets []) =? 7)) l.
Proof.
  match goal with
  | |- context [fold_left ?f _ _] => set (F := f)
  end.
  assert (Hstop : forall l a b d, fold_left F l (a, b, d, true) = (a, b, d, true)).
  { intros l0. induction l0 as [|u l0 IHl]; intros a b d; [reflexivity|].
    cbn [fold_left]. apply IHl. }
  induction l as [|v l IH]; intros n_ring n_conf not_deg7.
  - exists n_ring, n_conf, not_deg7, false. split; [reflexivity|].
    simpl. rewrite Z.add_0_r, orb_false_r. reflexivity.
  - cbn [fold_left filter existsb].
    destruct (removed7 c v) eqn:Er.
    { assert (HF : F (n_ring, n_conf, not_deg7, false) v
                   = (n_ring, n_conf, not_deg7, false))
        by (unfold F; rewrite Er; reflexivity).
      assert (Hc : inner_counted c v = false)
        by (unfold inner_counted; rewrite removed7_counted, Er; reflexivity).
      rewrite HF, Hc. cbn [andb orb]. apply IH. }
    destruct (nth v (representative_ c) (-1) =? Z.of_nat v)%Z eqn:Eo.
    2:{ assert (HF : F (n_ring, n_conf, not_deg7, false) v
                     = (n_ring, n_conf, not_deg7, false))
          by (unfold F; rewrite Er, Eo, !andb_false_r; reflexivity).
        assert (Hc : inner_counted c v = false)
          by (unfold inner_counted; rewrite removed7_counted, Er, Eo;
              reflexivity).
        rewrite HF, Hc. cbn [andb orb]. apply IH. }
    destruct (r_ c <=? v) eqn:Erv.
    2:{ assert (HF : exists z, F (n_ring, n_conf, not_deg7, false) v
                               = (z, n_conf, not_deg7, false))
          by (unfold F; rewrite Er, Eo, Erv; eexists; reflexivity).
        assert (Hc : inner_counted c v = false)
          by (unfold inner_counted; rewrite removed7_counted, Er, Eo, Erv;
              reflexivity).
        destruct HF as [z HF]. rewrite HF, Hc. cbn [andb orb]. apply IH. }
    assert (Hc : inner_counted c v = true)
      by (unfold inner_counted; rewrite removed7_counted, Er, Eo, Erv;
          reflexivity).
    rewrite Hc. cbn [andb orb length].
    destruct (negb (length (nth v sets []) =? 7)) eqn:Ed.
    + assert (HF : exists z, F (n_ring, n_conf, not_deg7, false) v
                             = (z, (n_conf + 1)%Z, true, true))
        by (unfold F; rewrite Er, Eo, Erv, Ed; eexists; reflexivity).
      destruct HF as [z HF]. rewrite HF, Hstop.
      exists z, (n_conf + 1)%Z, true, true. split; [reflexivity|].
      rewrite !orb_true_r. reflexivity.
    + assert (HF : exists z, F (n_ring, n_conf, not_deg7, false) v
                             = (z, (n_conf + 1)%Z, not_deg7, false))
        by (unfold F; rewrite Er, Eo, Erv, Ed; eexists; reflexivity).
      destruct HF as [z HF]. rewrite HF.
      destruct (IH z (n_conf + 1)%Z not_deg7) as [a [b [d [s [E H]]]]].
      exists a, b, d, s. split; [assumption|]. rewrite H.
      rewrite Nat2Z.inj_succ.
      replace (n_conf + Z.succ (Z.of_nat (length (filter (inner_counted c) l))))%Z
        with (n_conf + 1 + Z.of_nat (length (filter (inner_counted c) l)))%Z
        by lia.
      reflexivity.
Qed.

Lemma checkDegree7_value (c : Configuration) :
  checkDegree7 c
  = (2 <=? Z.of_nat (length (filter (inner_counted c) (seq 0 (n_ c)))))%Z
    || existsb
         (fun v => inner_counted c v
                   && negb (length (nth v (contracted_adjacency c) []) =? 7))
         (seq 0 (n_ c)).
Proof.
  unfold checkDegree7. cbv zeta.
  destruct (degree_scan c (contracted_adjacency c) (seq 0 (n_ c)) 0%Z 0%Z
              false) as [a [b [d [s [E H]]]]].
  cbv zeta in E. rewrite E. rewrite H. rewrite orb_false_r. reflexivity.
Qed.

(** X25: [checkDegree7] returns false exactly when at most one vertex
    outside the ring is counted (not marked reductable for cut size 7 and
    equal to its representative) and every counted vertex outside the ring
    has exactly seven entries in its set [VtoV_contracted]; leaving the
    loop at the first vertex with another degree does not change the
    answer.  For a vertex [w] the set [VtoV_contracted[w]] holds, each
    once, the representatives of the unmarked vertices that are adjacent
    to an unmarked vertex whose representative is [w]. *)
Theorem checkDegree7_spec (c : Configuration) :
  (checkDegree7 c = false
   <-> length (filter (inner_counted c) (seq 0 (n_ c))) <= 1
       /\ forall v, v < n_ c -> inner_counted c v = true ->
            length (nth v (contracted_adjacency c) []) = 7)
  /\ forall w, w < n_ c ->
       NoDup (nth w (contracted_adjacency c) [])
       /\ forall x,
            In x (nth w (contracted_adjacency c) [])
            <-> exists v u,
                  v < n_ c /\ In u (adj (VtoV_ c) v)
                  /\ removed7 c v = false /\ removed7 c u = false
                  /\ ((nth v (representative_ c) (-1)%Z = Z.of_nat w
                       /\ nth u (representative_ c) (-1)%Z = x)
                      \/ (nth u (representative_ c) (-1)%Z = Z.of_nat w
                          /\ nth v (representative_ c) (-1)%Z = x)).
Proof.
  split; [|apply contracted_adjacency_spec].
  rewrite checkDegree7_value, orb_false_iff, Z.leb_gt.
  split.
  - intros [H1 H2]. split; [lia|]. intros v Hv Hc.
    destruct (Nat.eqb_spec (length (nth v (contracted_adjacency c) [])) 7)
      as [E | E]; [assumption|]. exfalso.
    assert (Hex : existsb
              (fun v => inner_counted c v
                        && negb (length (nth v (contracted_adjacency c) [])
                                 =? 7))
              (seq 0 (n_ c)) = true).
    { apply existsb_exists. exists v. split; [apply in_seq; lia|].
      rewrite Hc. apply Nat.eqb_neq in E. rewrite E. reflexivity. }
    congruence.
  - intros [H1 H2]. split; [lia|].
    destruct (existsb _ (seq 0 (n_ c))) eqn:E; [|reflexivity]. exfalso.
    apply existsb_exists in E. destruct E as [v [Hv E]].
    apply in_seq in Hv. apply andb_true_iff in E. destruct E as [E1 E2].
    rewrite (H2 v ltac:(lia) E1) in E2. discriminate.
Qed.

Example checkDegree7_wheel :
  checkDegree7 wheel_conf = true
  /\ nth 6 (contracted_adjacency wheel_conf) [] = [0; 1; 2; 3; 4; 5; 7]%Z
  /\ match setContract wheel_conf [(7, 6)] with
     | Ok c' => checkDegree7 c' = false
                /\ nth 6 (contracted_adjacency c') [] = [0; 1; 2; 3; 4; 5; 6]%Z
     | _ => False
     end.
Proof. vm_compute. repeat split. Qed.

(** ** [isValid] and the tables of lower bounds *)

Lemma exists_res_false {A : Type} (f : A -> res bool) (xs : list A) :
  exists_res f xs = Ok false -> forall x, In x xs -> f x = Ok false.
Proof.
  induction xs as [|y xs IH]; intros E x Hx; [destruct Hx|].
  cbn [exists_res] in E. apply bind_ok in E. destruct E as [b [Eb E]].
  destruct b; [discriminate|].
  destruct Hx as [<- | Hx]; [assumption | apply IH; assumption].
Qed.

Lemma least_allowed_le (forbidden : Z -> res bool) (k0 C len k : Z) :
  least_allowed forbidden k0 C len ->
  forbidden k = Ok false -> (k0 <= k)%Z -> (len <= k)%Z.
Proof.
  intros [_ [_ Hmin]] Hk Hk0.
  destruct (Z_le_gt_dec len k) as [H | H]; [assumption|].
  exfalso. apply (Hmin k); [lia | right; assumption].
Qed.

Lemma forbiddenCycle_asserts (n r : nat) (VtoV : list (list nat))
  (paths : list (list (list (list nat)))) (a b : nat) (k C : Z) (f : bool) :
  forbiddenCycle n r VtoV paths a b k C = Ok f -> (k <= C)%Z.
Proof.
  unfold forbiddenCycle. intros E.
  apply bind_ok in E. destruct E as [[] [_ E]].
  apply bind_ok in E. destruct E as [[] [E _]].
  apply assert_ok in E. apply Z.leb_le. assumption.
Qed.

Lemma forbiddenCycleOneEdge_asserts (n r : nat) (VtoV : list (list nat))
  (paths : list (list (list (list nat)))) (a b : nat) (k C : Z) (f : bool) :
  forbiddenCycleOneEdge n r VtoV paths a b k C = Ok f -> (k <= C)%Z.
Proof.
  unfold forbiddenCycleOneEdge. intros E.
  apply bind_ok in E. destruct E as [[] [_ E]].
  apply bind_ok in E. destruct E as [[] [E _]].
  apply assert_ok in E. apply Z.leb_le. assumption.
Qed.

(** The entries that the constructor stores, as least allowed lengths. *)
Lemma constructor_tables (n r : nat) (VtoV : list (list nat))
  (c0 : Configuration) :
  length VtoV = n -> newConfiguration n r VtoV = Ok c0 ->
  n_ c0 = n /\ r_ c0 = r /\ VtoV_ c0 = VtoV
  /\ all_paths_ c0 = build_all_paths r VtoV
  /\ forall C p q,
       C = 6%Z \/ C = 7%Z -> p < r -> q < r -> p <> q ->
       q <> (p + 1) mod r ->
       least_allowed
         (fun k => forbiddenCycle n r VtoV (build_all_paths r VtoV) p q k C)
         0 C (mget (table_of C (length6_ c0) (length7_ c0)) p q)
       /\ least_allowed
            (fun k => forbiddenCycleOneEdge n r VtoV (build_all_paths r VtoV)
                        p q k C)
            1 C
            (mget (table_of C (length_oneedge6_ c0) (length_oneedge7_ c0))
               p q).
Proof.
  intros Hn E.
  destruct (newConfiguration_total n r VtoV Hn)
    as [c [Ec [Hn1 [Hr1 [HV1 [HP1 [_ [_ [_ [_ [_ [_ [_ Htab]]]]]]]]]]]]].
  rewrite E in Ec. injection Ec as <-.
  split; [assumption|]. split; [assumption|]. split; [assumption|].
  split; [assumption|].
  intros C p q HC Hp Hq Hpq Hsucc.
  destruct (Htab C HC) as [E1 F1].
  destruct (length_table_total n r VtoV C Hn HC) as [tbl [E' Hent]].
  destruct (length_oneedge_table_total n r VtoV C Hn HC)
    as [tbl1 [F' Hent1]].
  rewrite E1 in E'. injection E' as <-. rewrite F1 in F'. injection F' as <-.
  split.
  - apply (table_entry_meaning r
             (forbiddenCycle n r VtoV (build_all_paths r VtoV))
             0 C p q _ Hp Hq HC); [lia | | apply Hent; auto | assumption].
    intros j Hj. apply forbiddenCycle_total; auto.
  - apply (table_entry_meaning r
             (forbiddenCycleOneEdge n r VtoV (build_all_paths r VtoV))
             1 C p q _ Hp Hq HC); [lia | | apply Hent1; auto | assumption].
    intros j Hj. apply forbiddenCycleOneEdge_total; auto.
Qed.

Lemma is6or7_cases (C : Z) : is6or7 C = true -> C = 6%Z \/ C = 7%Z.
Proof.
  unfold is6or7. intros H. apply orb_true_iff in H.
  destruct H as [H | H]; apply Z.eqb_eq in H; auto.
Qed.

(** X26: in a configuration built by the constructor and contracted by
    [setContract], an [isValid(vs, lens, onedge)] that returns true
    respects the tables of lower bounds.  The three vectors have the same
    size and [lens] sums to a cut size [C] of 6 or 7.  For consecutive
    (cyclically) and distinct ring vertices [a = vs[i]], [b = vs[i + 1]]
    that are not both flagged in [onedge], [0 <= lens[i] <= C]; if neither
    is flagged then [length_C[a][b] <= lens[i]] and
    [length_C[b][a] <= C - lens[i]], and if one is flagged the same holds
    for the table [length_oneedge_C] and lengths of 1 or more.  The bound
    on an entry is stated when its second vertex is not the ring successor
    of its first, where the table holds a 1 that no search produced. *)
Theorem isValid_respects_tables (n r : nat) (VtoV : list (list nat))
  (c0 : Configuration) (contract : list (nat * nat)) (c : Configuration)
  (vs : list nat) (lens : list Z) (onedge : list bool) :
  length VtoV = n ->
  newConfiguration n r VtoV = Ok c0 ->
  setContract c0 contract = Ok c ->
  isValid c vs lens onedge = Ok true ->
  let C := fold_left Z.add lens 0%Z in
  (C = 6%Z \/ C = 7%Z)
  /\ length lens = length vs /\ length onedge = length vs
  /\ forall i, i < length vs ->
       let j := (i + 1) mod length vs in
       let a := nth i vs 0 in
       let b := nth j vs 0 in
       let k := nth i lens 0%Z in
       a < r -> b < r -> a <> b ->
       (nth i onedge false = false -> nth j onedge false = false ->
        (0 <= k <= C)%Z
        /\ (b <> (a + 1) mod r ->
            (mget (table_of C (length6_ c) (length7_ c)) a b <= k)%Z)
        /\ (a <> (b + 1) mod r ->
            (mget (table_of C (length6_ c) (length7_ c)) b a <= C - k)%Z))
       /\ (nth i onedge false <> nth j onedge false ->
           (0 <= k <= C)%Z
           /\ (b <> (a + 1) mod r -> (1 <= k)%Z ->
               (mget (table_of C (length_oneedge6_ c) (length_oneedge7_ c))
                  a b <= k)%Z)
           /\ (a <> (b + 1) mod r -> (1 <= C - k)%Z ->
               (mget (table_of C (length_oneedge6_ c) (length_oneedge7_ c))
                  b a <= C - k)%Z)).
Proof.
  intros Hn E0 Eset E C.
  destruct (constructor_tables n r VtoV c0 Hn E0)
    as [Hn0 [Hr0 [HV0 [HP0 Htab]]]].
  apply setContract_assigns in Eset.
  destruct Eset as [[S1 [S2 [S3 [_ [S5 [S6 [S7 [S8 S9]]]]]]]] _].
  unfold isValid in E. rewrite S1, S2, S3, S5, Hn0, Hr0, HV0, HP0 in E.
  rewrite S6, S7, S8, S9.
  apply bind_ok in E. destruct E as [[] [A1 E]].
  apply bind_ok in E. destruct E as [[] [A2 E]].
  apply bind_ok in E. destruct E as [[] [A3 E]].
  apply bind_ok in E. destruct E as [found [Ef E]].
  apply assert_ok, Nat.eqb_eq in A1. apply assert_ok, Nat.eqb_eq in A2.
  apply assert_ok in A3. fold C in A3, Ef.
  pose proof (is6or7_cases C A3) as HC.
  assert (found = false) by (destruct found; [discriminate | reflexivity]).
  subst found. clear E.
  split; [assumption|]. split; [auto|]. split; [auto|].
  intros i Hi j a b k Ha Hb Hab.
  pose proof (exists_res_false _ _ Ef i ltac:(apply in_seq; lia)) as Ei.
  cbv beta zeta in Ei. fold j a b k in Ei.
  assert (Hba : b <> a) by congruence.
  split.
  - intros Oi Oj. rewrite Oi, Oj in Ei. cbn [andb orb] in Ei.
    apply bind_ok in Ei. destruct Ei as [f [F1 F2]].
    destruct f; [discriminate|].
    pose proof (forbiddenCycle_asserts _ _ _ _ _ _ _ _ _ F1).
    pose proof (forbiddenCycle_asserts _ _ _ _ _ _ _ _ _ F2).
    split; [lia|]. split; intros Hs.
    + destruct (Htab C a b HC Ha Hb Hab Hs) as [L _].
      apply (least_allowed_le _ 0 C _ k L F1). lia.
    + destruct (Htab C b a HC Hb Ha Hba Hs) as [L _].
      apply (least_allowed_le _ 0 C _ (C - k)%Z L F2). lia.
  - intros Oij.
    assert (Hor : nth i onedge false && nth j onedge false = false
                  /\ nth i onedge false || nth j onedge false = true)
      by (destruct (nth i onedge false); destruct (nth j onedge false);
          auto; congruence).
    destruct Hor as [O1 O2]. rewrite O1, O2 in Ei.
    apply bind_ok in Ei. destruct Ei as [f [F1 F2]].
    destruct f; [discriminate|].
    pose proof (forbiddenCycleOneEdge_asserts _ _ _ _ _ _ _ _ _ F1).
    pose proof (forbiddenCycleOneEdge_asserts _ _ _ _ _ _ _ _ _ F2).
    split; [lia|]. split; intros Hs Hk.
    + destruct (Htab C a b HC Ha Hb Hab Hs) as [_ L].
      apply (least_allowed_le _ 1 C _ k L F1). assumption.
    + destruct (Htab C b a HC Hb Ha Hba Hs) as [_ L].
      apply (least_allowed_le _ 1 C _ (C - k)%Z L F2). assumption.
Qed.

Lemma isValid_respects_tables_witness :
  exists c,
    setContract wheel_conf [(6, 0)] = Ok c
    /\ isValid c [0; 3] [3; 3]%Z [false; false] = Ok true
    /\ (mget (length6_ c) 0 3 <= 3)%Z /\ (mget (length6_ c) 3 0 <= 6 - 3)%Z.
Proof.
  eexists. split; [vm_compute; reflexivity|].
  split; [vm_compute; reflexivity|].
  match goal with
  | |- context [length6_ ?c] =>
      assert (Eset : setContract wheel_conf [(6, 0)] = Ok c)
        by (vm_compute; reflexivity);
      assert (Ev : isValid c [0; 3] [3; 3]%Z [false; false] = Ok true)
        by (vm_compute; reflexivity);
      destruct (isValid_respects_tables 8 6 wheel_adj wheel_conf [(6, 0)]
                  c [0; 3] [3; 3]%Z [false; false] eq_refl wheel_conf_built
                  Eset Ev) as [_ [_ [_ H]]]
  end.
  destruct (H 0 ltac:(simpl; lia) ltac:(simpl; lia) ltac:(simpl; lia)
              ltac:(simpl; lia)) as [H1 _].
  destruct (H1 eq_refl eq_refl) as [_ [H2 H3]].
  split; [apply H2 | apply H3]; simpl; lia.
Defined.

(** ** The two-path variants of [canBeAlmostMinimal] *)

(** X27: the two-path [canBeAlmostMinimal] and [canBeAlmostMinimal2] make
    the same two assertions, so on the same paths both abort or both
    return.  On paths that are not empty they return the same value when
    [k1 = 0], and for [k1 >= 0] the first returns true whenever the second
    does: [canBeAlmostMinimal2] counts the [k1] outer edges among the edges
    off the ring. *)
Theorem canBeAlmostMinimal2_stricter (r : nat) (path1 path2 : list nat)
  (k1 k2 cutSize : Z) :
  path1 <> [] -> path2 <> [] ->
  (canBeAlmostMinimal_pair r path1 path2 k1 k2 cutSize = AssertFail
   /\ canBeAlmostMinimal2 r path1 path2 k1 k2 cutSize = AssertFail)
  \/ exists b b2,
       canBeAlmostMinimal_pair r path1 path2 k1 k2 cutSize = Ok b
       /\ canBeAlmostMinimal2 r path1 path2 k1 k2 cutSize = Ok b2
       /\ (k1 = 0%Z -> b2 = b)
       /\ ((0 <= k1)%Z -> b2 = true -> b = true).
Proof.
  intros Hne1 Hne2. unfold canBeAlmostMinimal_pair, canBeAlmostMinimal2.
  destruct ((front path1 <? r) && (back path1 <? r)); cbn [assert bind];
    [|left; auto].
  destruct ((front path2 <? r) && (back path2 <? r)); cbn [assert bind];
    [|left; auto].
  right. eexists. eexists. split; [reflexivity|]. split; [reflexivity|].
  pose proof (number_in_ring_split r path1 Hne1) as S1.
  pose proof (number_in_ring_split r path2 Hne2) as S2.
  pose proof (non_ring_edges_nonneg r path1) as N1.
  pose proof (non_ring_edges_nonneg r path2) as N2.
  pose proof (number_in_ring_nonneg r path1) as M1.
  pose proof (number_in_ring_nonneg r path2) as M2.
  revert S1 S2 N1 N2 M1 M2.
  generalize (number_in_ring r path1) (number_in_ring r path2)
    (non_ring_edges r path1) (non_ring_edges r path2)
    (pathlen_of path1) (pathlen_of path2).
  intros n1 n2 o1 o2 l1 l2 S1 S2 N1 N2 M1 M2. cbv zeta.
  split.
  - intros ->.
    apply eq_true_iff_eq.
    rewrite !orb_true_iff, !andb_true_iff, !orb_true_iff, !Z.eqb_eq,
      !Z.leb_le. lia.
  - intros Hk H.
    rewrite !orb_true_iff, !andb_true_iff, !Z.eqb_eq, !Z.leb_le in H.
    rewrite !orb_true_iff, !andb_true_iff, !orb_true_iff, !Z.eqb_eq,
      !Z.leb_le. lia.
Qed.

Lemma canBeAlmostMinimal2_stricter_witness :
  (canBeAlmostMinimal_pair 6 [0; 6; 2] [3; 4] 1 1 6 = AssertFail
   /\ canBeAlmostMinimal2 6 [0; 6; 2] [3; 4] 1 1 6 = AssertFail)
  \/ exists b b2,
       canBeAlmostMinimal_pair 6 [0; 6; 2] [3; 4] 1 1 6 = Ok b
       /\ canBeAlmostMinimal2 6 [0; 6; 2] [3; 4] 1 1 6 = Ok b2
       /\ (1%Z = 0%Z -> b2 = b)
       /\ ((0 <= 1)%Z -> b2 = true -> b = true).
Proof.
  apply (canBeAlmostMinimal2_stricter 6 [0; 6; 2] [3; 4] 1 1 6);
    discriminate.
Defined.

Example canBeAlmostMinimal_variants :
  canBeAlmostMinimal_pair 6 [0; 6; 7; 2] [3; 4] 1 2 6 = Ok true
  /\ canBeAlmostMinimal2 6 [0; 6; 7; 2] [3; 4] 1 2 6 = Ok false.
Proof. split; reflexivity. Qed.

(** ** [setContract] aborts at the assertion of [WF] only *)

Lemma fold_res_returns {St A : Type} (body : St -> A -> res St)
  (xs : list A) :
  (forall st x, In x xs -> exists st', body st x = Ok st') ->
  forall st, exists st', fold_res body xs st = Ok st'.
Proof.
  intros H st.
  destruct (fold_res_total (fun _ => True) body xs) with (st := st)
    as [st' [E _]]; [|exact I | eauto].
  intros st0 x _ Hx. destruct (H st0 x Hx) as [st1 E]. eauto.
Qed.

Lemma exists_res_returns {A : Type} (f : A -> res bool) (xs : list A) :
  (forall x, In x xs -> exists b, f x = Ok b) ->
  exists b, exists_res f xs = Ok b.
Proof.
  intros H. destruct (exists_res_total f xs H) as [b [E _]]. eauto.
Qed.

Lemma in_zrange (lo hi k : Z) : In k (zrange lo hi) -> (lo <= k <= hi)%Z.
Proof.
  unfold zrange. intros H. apply in_map_iff in H.
  destruct H as [i [<- Hi]]. apply in_seq in Hi. lia.
Qed.

Lemma ring_ends_rev (r : nat) (path : list nat) :
  ring_ends r path -> ring_ends r (rev path).
Proof.
  unfold ring_ends. rewrite front_rev, back_rev. intuition.
Qed.

Lemma ring_ends_between (VtoV : list (list nat)) (r s t : nat)
  (path : list nat) :
  path_from_to VtoV s t path -> s <> t -> s < r -> t < r ->
  ring_ends r path.
Proof.
  intros [_ [Hf [Hb _]]] Hst Hs Ht. unfold ring_ends. rewrite Hf, Hb. auto.
Qed.

Lemma ring_ends_cached (r : nat) (VtoV : list (list nat)) (a b : nat)
  (R : list nat) :
  a < r -> b < r -> a <> b ->
  In R (all_paths (build_all_paths r VtoV) a b) -> ring_ends r R.
Proof.
  intros Ha Hb Hab HR. rewrite all_paths_build in HR by assumption.
  pose proof (calculatePaths_ends VtoV a b R HR) as [Hfr Hbk].
  unfold ring_ends. rewrite Hfr, Hbk. auto.
Qed.

Lemma shortestPaths_returns (n : nat) (VtoV : list (list nat))
  (contract : list (nat * nat)) (s t : nat) (flag : bool) :
  wf_graph n VtoV -> s < n -> t < n ->
  exists ps,
    shortestPaths n VtoV contract s t flag = Ok ps
    /\ forall p, In p ps -> path_from_to VtoV s t p.
Proof.
  intros Hwf Hs Ht.
  destruct (shortestPaths_internals n VtoV contract s t flag Hwf Hs Ht)
    as [D [paths [_ [HP E]]]].
  exists (nth t paths []). split; [assumption|].
  intros p Hp. destruct HP as [[_ [Hall _]] _]. cbn [fst] in Hall.
  apply (Hall t p Ht Hp).
Qed.

Section Returns.

Variables (n r : nat) (VtoV : list (list nat)).
Hypothesis Hn : length VtoV = n.

Lemma getComponent_ring (path : list nat) :
  ring_ends r path -> exists comp, getComponent n r VtoV path = Ok comp.
Proof.
  intros [H1 [H2 H3]]. apply getComponent_total; assumption.
Qed.

Lemma getComponent_pair_ring (path1 path2 : list nat) :
  ring_ends r path1 -> ring_ends r path2 ->
  exists comp, getComponent_pair n r VtoV path1 path2 = Ok comp.
Proof.
  intros H1 H2. unfold getComponent_pair.
  destruct (getComponent_ring path1 H1) as [c1 E1]. rewrite E1.
  destruct (getComponent_ring (rev path2) (ring_ends_rev r path2 H2))
    as [c2 E2].
  cbn [bind]. rewrite E2. cbn [bind]. eauto.
Qed.

Lemma getComponent2_ring (path1 path2 : list nat) :
  ring_ends r path1 -> ring_ends r path2 ->
  exists comp, getComponent2 n r VtoV path1 path2 = Ok comp.
Proof.
  intros H1 H2. unfold getComponent2.
  destruct (getComponent_ring path1 H1) as [c1 E1]. rewrite E1.
  destruct (getComponent_ring path2 H2) as [c2 E2].
  cbn [bind]. rewrite E2. cbn [bind].
  destruct (fold_left _ c2 _). eauto.
Qed.

Lemma sizeOfVertices_pair_ring (path1 path2 : list nat) :
  ring_ends r path1 -> ring_ends r path2 ->
  exists st, sizeOfVertices_pair n r VtoV path1 path2 = Ok st.
Proof.
  intros H1 H2. unfold sizeOfVertices_pair.
  destruct (getComponent_pair_ring path1 path2 H1 H2) as [c E].
  rewrite E. cbn [bind]. eauto.
Qed.

Lemma sizeOfVertices2_ring (path1 path2 : list nat) :
  ring_ends r path1 -> ring_ends r path2 ->
  exists st, sizeOfVertices2 n r VtoV path1 path2 = Ok st.
Proof.
  intros H1 H2. unfold sizeOfVertices2.
  destruct (getComponent2_ring path1 path2 H1 H2) as [c E].
  rewrite E. cbn [bind]. eauto.
Qed.

Lemma canBeAlmostMinimal_pair_ring (path1 path2 : list nat) (k1 k2 C : Z) :
  ring_ends r path1 -> ring_ends r path2 ->
  exists b, canBeAlmostMinimal_pair r path1 path2 k1 k2 C = Ok b.
Proof.
  intros [_ [A1 B1]] [_ [A2 B2]]. unfold canBeAlmostMinimal_pair.
  apply Nat.ltb_lt in A1, B1, A2, B2. rewrite A1, B1, A2, B2.
  cbn [andb assert bind]. eauto.
Qed.

Lemma canBeAlmostMinimal2_ring (path1 path2 : list nat) (k1 k2 C : Z) :
  ring_ends r path1 -> ring_ends r path2 ->
  exists b, canBeAlmostMinimal2 r path1 path2 k1 k2 C = Ok b.
Proof.
  intros [_ [A1 B1]] [_ [A2 B2]]. unfold canBeAlmostMinimal2.
  apply Nat.ltb_lt in A1, B1, A2, B2. rewrite A1, B1, A2, B2.
  cbn [andb assert bind]. eauto.
Qed.

End Returns.

Lemma mod_window (r a x : nat) :
  a < r -> a < x -> x < a + r -> x mod r < r /\ x mod r <> a.
Proof.
  intros Ha Hax Hx. destruct (Nat.lt_ge_cases x r) as [H | H].
  - rewrite Nat.mod_small by assumption. lia.
  - rewrite mod_once by lia. lia.
Qed.

Lemma mod_window_distinct (r a x y : nat) :
  a < r -> a < x -> x < y -> y < a + r -> x mod r <> y mod r.
Proof.
  intros Ha Hax Hxy Hy.
  destruct (Nat.lt_ge_cases x r); destruct (Nat.lt_ge_cases y r);
    rewrite ?(Nat.mod_small x r), ?(Nat.mod_small y r), ?(mod_once x r),
      ?(mod_once y r) by lia; lia.
Qed.

Lemma in_ring_quadruples (r p1 q1_ p2_ q2_ : nat) :
  In (p1, q1_, p2_, q2_) (ring_quadruples r) ->
  p1 < r /\ p1 < q1_ /\ q1_ < p2_ /\ p2_ < q2_ /\ q2_ < p1 + r.
Proof.
  unfold ring_quadruples. intros H.
  apply in_flat_map in H. destruct H as [a [Ha H]]. apply in_seq in Ha.
  apply in_flat_map in H. destruct H as [b [Hb H]]. apply in_range in Hb.
  apply in_flat_map in H. destruct H as [c [Hc H]]. apply in_range in Hc.
  apply in_map_iff in H. destruct H as [d [E Hd]]. apply in_range in Hd.
  inversion E; subst. lia.
Qed.

Section Passes.

Variables (n r : nat) (VtoV : list (list nat)).
Variable contract : list (nat * nat).
Variables dist dc : matrix.
Hypothesis Hwf : wf_graph n VtoV.
Hypothesis Hrn : r <= n.

Lemma calcReductableVertices1_returns (C : Z) (mask : list bool) :
  exists mask',
    calcReductableVertices1 n r VtoV (build_all_paths r VtoV) contract dist
      dc C mask = Ok mask'.
Proof.
  unfold calcReductableVertices1.
  apply fold_res_returns. intros st p Hp. apply in_seq in Hp.
  apply fold_res_returns. intros st1 q Hq. apply in_seq in Hq.
  destruct (Nat.eqb_spec p q) as [Hpq | Hpq]; [eauto|].
  destruct (_ <? _)%Z; [eauto|].
  destruct (shortestPaths_returns n VtoV contract p q true Hwf
              ltac:(lia) ltac:(lia)) as [ps [E Hps]].
  rewrite E. cbn [bind].
  apply fold_res_returns. intros st2 pathlen _.
  destruct (checkShortCycle_total n r VtoV p q pathlen C (proj1 Hwf)
              ltac:(lia) ltac:(lia) Hpq) as [b Eb].
  rewrite Eb. cbn [bind]. destruct b; [eauto|].
  apply fold_res_returns. intros st3 cp Hcp.
  destruct (_ =? _)%Z; [eauto|].
  destruct (getComponent_ring n r VtoV (proj1 Hwf) cp) as [comp Ec].
  { apply (ring_ends_between VtoV r p q); [apply Hps; assumption | | |];
      lia. }
  rewrite Ec. cbn [bind]. eauto.
Qed.

Lemma mark_pairs_returns
  (component : list nat -> list nat -> res (list nat)) (q1 p2 q2 p1 : nat)
  (paths1 paths2 : list (list nat)) (mask : list bool) :
  (forall path1 path2, In path1 paths1 -> In path2 paths2 ->
     exists comp, component path1 path2 = Ok comp) ->
  exists mask',
    mark_pairs dist dc component q1 p2 q2 p1 paths1 paths2 mask = Ok mask'.
Proof.
  intros H. unfold mark_pairs.
  apply fold_res_returns. intros st path1 H1.
  apply fold_res_returns. intros st1 path2 H2.
  destruct (_ && _); [eauto|].
  destruct (H path1 path2 H1 H2) as [comp E]. rewrite E. cbn [bind]. eauto.
Qed.

Lemma two_outer_paths_returns (flipped : bool)
  (almost_minimal : list nat -> list nat -> Z -> Z -> Z -> res bool)
  (size_of : list nat -> list nat -> res (Z * Z))
  (component : list nat -> list nat -> res (list nat))
  (C : Z) (mask : list bool) :
  (forall path1 path2 k1 k2 C', ring_ends r path1 -> ring_ends r path2 ->
     exists b, almost_minimal path1 path2 k1 k2 C' = Ok b) ->
  (forall path1 path2, ring_ends r path1 -> ring_ends r path2 ->
     exists st, size_of path1 path2 = Ok st) ->
  (forall path1 path2, ring_ends r path1 -> ring_ends r path2 ->
     exists comp, component path1 path2 = Ok comp) ->
  exists mask',
    two_outer_paths n r VtoV (build_all_paths r VtoV) contract dist dc
      flipped almost_minimal size_of component C mask = Ok mask'.
Proof.
  intros Hmin Hsize Hcomp. unfold two_outer_paths.
  apply fold_res_returns. intros st [[[p1 q1_] p2_] q2_] Hq.
  apply in_ring_quadruples in Hq. destruct Hq as [Hp1 [H1 [H2 [H3 H4]]]].
  cbv zeta.
  destruct (mod_window r p1 q1_) as [Q1 Q1']; try lia.
  destruct (mod_window r p1 p2_) as [P2 P2']; try lia.
  destruct (mod_window r p1 q2_) as [Q2 Q2']; try lia.
  pose proof (mod_window_distinct r p1 q1_ p2_ Hp1 H1 H2 ltac:(lia)) as D1.
  pose proof (mod_window_distinct r p1 p2_ q2_ Hp1 ltac:(lia) H3 H4) as D2.
  set (q1 := q1_ mod r) in *. set (p2 := p2_ mod r) in *.
  set (q2 := q2_ mod r) in *.
  destruct (_ || _); [eauto|].
  destruct (shortestPaths_returns n VtoV contract q1 p2 false Hwf
              ltac:(lia) ltac:(lia)) as [sp1 [E1 Hsp1]].
  destruct (shortestPaths_returns n VtoV contract q2 p1 false Hwf
              ltac:(lia) ltac:(lia)) as [sp2 [E2 Hsp2]].
  destruct (shortestPaths_returns n VtoV contract q1 p2 true Hwf
              ltac:(lia) ltac:(lia)) as [cp1 [E3 Hcp1]].
  destruct (shortestPaths_returns n VtoV contract q2 p1 true Hwf
              ltac:(lia) ltac:(lia)) as [cp2 [E4 Hcp2]].
  rewrite E1. cbn [bind]. rewrite E2. cbn [bind].
  rewrite E3. cbn [bind]. rewrite E4. cbn [bind].
  assert (R1 : forall p, In p sp1 -> ring_ends r p).
  { intros p Hp. apply (ring_ends_between VtoV r q1 p2); auto. }
  assert (R2 : forall p, In p sp2 -> ring_ends r p).
  { intros p Hp. apply (ring_ends_between VtoV r q2 p1); auto. }
  assert (R3 : forall p, In p cp1 -> ring_ends r p).
  { intros p Hp. apply (ring_ends_between VtoV r q1 p2); auto. }
  assert (R4 : forall p, In p cp2 -> ring_ends r p).
  { intros p Hp. apply (ring_ends_between VtoV r q2 p1); auto. }
  apply fold_res_returns. intros st1 pathlen1 _.
  apply fold_res_returns. intros st2 pathlen2 _.
  destruct (_ <? _)%Z; [eauto|].
  destruct (checkShortCycle_total n r VtoV p1 q1 pathlen1 C (proj1 Hwf)
              Hp1 Q1 ltac:(congruence)) as [b1 Eb1].
  rewrite Eb1. cbn [bind]. destruct b1; [eauto|].
  assert (Eb2 : exists b2,
             (if flipped
              then checkShortCycle n r VtoV (build_all_paths r VtoV) q2 p2
                     pathlen2 C
              else checkShortCycle n r VtoV (build_all_paths r VtoV) p2 q2
                     pathlen2 C) = Ok b2).
  { destruct flipped;
      apply (checkShortCycle_total n r VtoV _ _ pathlen2 C (proj1 Hwf));
      auto. }
  destruct Eb2 as [b2 Eb2]. rewrite Eb2. cbn [bind]. destruct b2; [eauto|].
  match goal with
  | |- exists _, bind (exists_res ?f ?xs) _ = _ =>
      destruct (exists_res_returns f xs) as [found Ef]
  end.
  { intros path1 Hpath1. apply exists_res_returns. intros path2 Hpath2.
    destruct (Hmin path1 path2 pathlen1 pathlen2 C (R1 _ Hpath1)
                (R2 _ Hpath2)) as [cm Ecm].
    rewrite Ecm. cbn [bind]. destruct cm; [eauto|].
    destruct (Hsize path1 path2 (R1 _ Hpath1) (R2 _ Hpath2))
      as [[s t] Est].
    rewrite Est. cbn [bind]. eauto. }
  rewrite Ef. cbn [bind]. destruct found; [eauto|].
  apply mark_pairs_returns. intros path1 path2 Hpath1 Hpath2.
  apply Hcomp; auto.
Qed.

Lemma calcLowerBoundCycle_returns (l6 o6 l7 o7 : matrix)
  (p1 q1 p2 q2 : nat) (pathlen1 pathlen2 C : Z) :
  (pathlen1 + pathlen2 <= 3)%Z ->
  exists L, calcLowerBoundCycle l6 o6 l7 o7 p1 q1 p2 q2 pathlen1 pathlen2 C
            = Ok L.
Proof.
  intros H. unfold calcLowerBoundCycle.
  apply Z.leb_le in H. rewrite H. cbn [assert bind]. eauto.
Qed.

Lemma calcReductableVertices3_returns (l6 o6 l7 o7 : matrix) (C : Z)
  (mask : list bool) :
  nonneg n dc ->
  exists mask',
    calcReductableVertices3 n r VtoV (build_all_paths r VtoV) contract dist
      dc l6 o6 l7 o7 C mask = Ok mask'.
Proof.
  intros Hnn. unfold calcReductableVertices3.
  apply fold_res_returns. intros st [[[p1 q1_] p2_] q2_] Hq.
  apply in_ring_quadruples in Hq. destruct Hq as [Hp1 [H1 [H2 [H3 H4]]]].
  destruct (_ && _); [eauto|]. cbv zeta.
  destruct (mod_window r p1 q1_) as [Q1 Q1']; try lia.
  destruct (mod_window r p1 p2_) as [P2 P2']; try lia.
  destruct (mod_window r p1 q2_) as [Q2 Q2']; try lia.
  pose proof (mod_window_distinct r p1 q1_ p2_ Hp1 H1 H2 ltac:(lia)) as D1.
  pose proof (mod_window_distinct r p1 p2_ q2_ Hp1 ltac:(lia) H3 H4) as D2.
  set (q1 := q1_ mod r) in *. set (p2 := p2_ mod r) in *.
  set (q2 := q2_ mod r) in *.
  destruct (_ || _); [eauto|].
  rewrite (proj2 (Nat.eqb_neq q1 p2) D1), (proj2 (Nat.eqb_neq q2 p1) Q2').
  cbn [negb assert bind].
  destruct (shortestPaths_returns n VtoV contract q1 p2 true Hwf
              ltac:(lia) ltac:(lia)) as [cp1 [E3 Hcp1]].
  destruct (shortestPaths_returns n VtoV contract q2 p1 true Hwf
              ltac:(lia) ltac:(lia)) as [cp2 [E4 Hcp2]].
  rewrite E3. cbn [bind]. rewrite E4. cbn [bind].
  apply fold_res_returns. intros st1 pathlen1 _.
  apply fold_res_returns. intros st2 pathlen2 _.
  destruct (Z.ltb_spec 3 (pathlen1 + pathlen2 + mget dc q1 p2
                          + mget dc q2 p1)) as [Hbig | Hsmall]; [eauto|].
  pose proof (Hnn q1 p2 ltac:(lia) ltac:(lia)).
  pose proof (Hnn q2 p1 ltac:(lia) ltac:(lia)).
  destruct (calcLowerBoundCycle_returns l6 o6 l7 o7 p1 q1 p2 q2 pathlen1
              pathlen2 C ltac:(lia)) as [L EL].
  rewrite EL. cbn [bind]. destruct (_ <? _)%Z; [eauto|].
  match goal with
  | |- exists _, bind (fold_res ?f ?xs ?st0) _ = _ =>
      destruct (fold_res_returns f xs) with (st := st0) as [found Ef]
  end.
  { intros hs path1 Hpath1.
    match goal with
    | |- exists _, bind (exists_res ?f ?xs) _ = _ =>
        destruct (exists_res_returns f xs) as [found Ef]
    end.
    - intros path2 Hpath2. destruct (_ <? _)%Z; [eauto|].
      destruct (sizeOfVertices2_ring n r VtoV (proj1 Hwf) path1 path2)
        as [[s t] Est].
      + apply (ring_ends_cached r VtoV q1 p2); auto.
      + apply (ring_ends_cached r VtoV q2 p1); auto.
      + rewrite Est. cbn [bind]. eauto.
    - rewrite Ef. cbn [bind]. eauto. }
  rewrite Ef. cbn [bind]. destruct found; [eauto|].
  apply mark_pairs_returns. intros path1 path2 Hpath1 Hpath2.
  apply (getComponent2_ring n r VtoV (proj1 Hwf)).
  - apply (ring_ends_between VtoV r q1 p2); auto.
  - apply (ring_ends_between VtoV r q2 p1); auto.
Qed.

Lemma calcReductableVertices_returns (l6 o6 l7 o7 : matrix) (C : Z) :
  nonneg n dc -> is6or7 C = true ->
  exists mask,
    calcReductableVertices n r VtoV (build_all_paths r VtoV) contract dist
      dc l6 o6 l7 o7 C = Ok mask.
Proof.
  intros Hnn HC. unfold calcReductableVertices. rewrite HC.
  cbn [assert bind].
  destruct (calcReductableVertices1_returns C (repeat false n)) as [m1 E1].
  rewrite E1. cbn [bind].
  destruct (two_outer_paths_returns false (canBeAlmostMinimal_pair r)
              (sizeOfVertices_pair n r VtoV) (getComponent_pair n r VtoV)
              C m1) as [m2 E2].
  { intros. apply canBeAlmostMinimal_pair_ring; assumption. }
  { intros. apply sizeOfVertices_pair_ring; [apply Hwf | |]; assumption. }
  { intros. apply getComponent_pair_ring; [apply Hwf | |]; assumption. }
  unfold calcReductableVertices2. rewrite E2. cbn [bind].
  destruct (calcReductableVertices3_returns l6 o6 l7 o7 C m2 Hnn)
    as [m3 E3].
  rewrite E3. cbn [bind].
  unfold calcReductableVertices4.
  apply two_outer_paths_returns.
  - intros. apply canBeAlmostMinimal2_ring; assumption.
  - intros. apply sizeOfVertices2_ring; [apply Hwf | |]; assumption.
  - intros. apply getComponent2_ring; [apply Hwf | |]; assumption.
Qed.

Lemma calcCutReduction_returns :
  exists mask, calcCutReduction n r VtoV dc = Ok mask.
Proof.
  unfold calcCutReduction.
  apply fold_res_returns. intros st v0 _.
  destruct (componentIdEquivalence_total n r VtoV dc [v0] Hwf) as [c0 E0].
  rewrite E0. cbn [bind].
  apply fold_res_returns. intros st1 v1 _.
  destruct (componentIdEquivalence_total n r VtoV dc [v0; v1] Hwf)
    as [c1 E1].
  rewrite E1. cbn [bind].
  apply fold_res_returns. intros st2 v2 _.
  destruct (componentIdEquivalence_total n r VtoV dc [v0; v1; v2] Hwf)
    as [c2 E2].
  rewrite E2. cbn [bind]. eauto.
Qed.

End Passes.

(** X28: in a configuration whose graph is well formed, whose ring is
    part of its vertices and whose path cache is the one the constructor
    builds, [setContract(contract)] returns exactly when every pair of the
    list names an edge that no earlier pair names: the assertion of [WF]
    is the only one that can fail.  The assertions met later, in
    [calcReductableVertices], [checkShortCycle], [canBeAlmostMinimal],
    [getComponent] and [calcLowerBoundCycle], always pass, and the searches
    end. *)
Theorem setContract_returns (c : Configuration)
  (contract : list (nat * nat)) :
  wf_graph (n_ c) (VtoV_ c) -> r_ c <= n_ c ->
  all_paths_ c = build_all_paths (r_ c) (VtoV_ c) ->
  (fresh_edges (VtoV_ c) [] contract
   <-> exists c', setContract c contract = Ok c')
  /\ (~ fresh_edges (VtoV_ c) [] contract ->
      setContract c contract = AssertFail).
Proof.
  intros Hwf Hrn Hpaths.
  destruct (WF_true_spec (n_ c) (VtoV_ c) contract Hwf)
    as [[Hf [d Ed]] | [Hf Ef]].
  - split; [|intros H; contradiction].
    split; [intros _ | intros _; assumption].
    pose proof (WF_nonneg (n_ c) (VtoV_ c) contract true d Hwf Ed) as Hnn.
    unfold setContract. rewrite Ed, Hpaths. cbn [bind].
    destruct (calcCutReduction_returns (n_ c) (r_ c) (VtoV_ c) d Hwf)
      as [inside Ei].
    rewrite Ei. cbn [bind].
    destruct (calcReductableVertices_returns (n_ c) (r_ c) (VtoV_ c)
                contract (dist_ c) d Hwf Hrn (length6_ c)
                (length_oneedge6_ c) (length7_ c) (length_oneedge7_ c) 6
                Hnn eq_refl) as [out6 E6].
    rewrite E6. cbn [bind].
    destruct (calcReductableVertices_returns (n_ c) (r_ c) (VtoV_ c)
                contract (dist_ c) d Hwf Hrn (length6_ c)
                (length_oneedge6_ c) (length7_ c) (length_oneedge7_ c) 7
                Hnn eq_refl) as [out7 E7].
    rewrite E7. cbn [bind]. eauto.
  - assert (Ea : setContract c contract = AssertFail)
      by (unfold setContract; rewrite Ef; reflexivity).
    split; [|intros _; assumption].
    split; [intros H; contradiction|].
    intros [c' E]. rewrite Ea in E. discriminate.
Qed.

Lemma setContract_returns_witness :
  fresh_edges (VtoV_ wheel_conf) [] [(6, 0); (7, 1)]
  /\ exists c', setContract wheel_conf [(6, 0); (7, 1)] = Ok c'.
Proof.
  assert (Hf : fresh_edges (VtoV_ wheel_conf) [] [(6, 0); (7, 1)])
    by (vm_compute; intuition discriminate).
  split; [exact Hf|].
  apply (proj1 (setContract_returns wheel_conf [(6, 0); (7, 1)]
                  ltac:(apply wf_graphb_sound; reflexivity)
                  ltac:(simpl; lia) eq_refl)).
  exact Hf.
Defined.

(** ** When [isValid] returns *)

Lemma fold_left_add_shift (l : list Z) (a : Z) :
  fold_left Z.add l a = (a + fold_left Z.add l 0)%Z.
Proof.
  revert a. induction l as [|x l IH]; intros a; simpl; [lia|].
  rewrite (IH (a + x)%Z), (IH x). lia.
Qed.

Lemma sum_nonneg (l : list Z) :
  (forall x, In x l -> (0 <= x)%Z) -> (0 <= fold_left Z.add l 0)%Z.
Proof.
  induction l as [|y l IH]; intros H; simpl; [lia|].
  rewrite fold_left_add_shift.
  assert (0 <= y)%Z by (apply H; left; reflexivity).
  assert (0 <= fold_left Z.add l 0)%Z by (apply IH; intros; apply H; right; assumption).
  lia.
Qed.

Lemma member_le_sum (l : list Z) (x : Z) :
  (forall y, In y l -> (0 <= y)%Z) -> In x l ->
  (x <= fold_left Z.add l 0)%Z.
Proof.
  induction l as [|y l IH]; intros H Hx; [destruct Hx|].
  simpl. rewrite fold_left_add_shift.
  assert (0 <= y)%Z by (apply H; left; reflexivity).
  assert (Hl : forall z, In z l -> (0 <= z)%Z)
    by (intros; apply H; right; assumption).
  pose proof (sum_nonneg l Hl).
  destruct Hx as [-> | Hx]; [lia|].
  pose proof (IH Hl Hx). lia.
Qed.

Lemma isValid_shaped (c : Configuration) (vs : list nat) (lens : list Z)
  (onedge : list bool) :
  length (VtoV_ c) = n_ c ->
  all_paths_ c = build_all_paths (r_ c) (VtoV_ c) ->
  (forall i, i < length vs ->
     nth i vs 0 < r_ c /\ nth i vs 0 <> nth ((i + 1) mod length vs) vs 0) ->
  (forall k, In k lens -> (0 <= k)%Z) ->
  length vs = length lens -> length vs = length onedge ->
  is6or7 (fold_left Z.add lens 0%Z) = true ->
  exists valid, isValid c vs lens onedge = Ok valid.
Proof.
  intros Hn Hp Hvs Hlens El Eo EC. unfold isValid.
  rewrite <- El, <- Eo, Nat.eqb_refl, EC.
  cbn [assert bind]. apply is6or7_cases in EC.
  match goal with
  | |- exists _, bind (exists_res ?f ?xs) _ = _ =>
      destruct (exists_res_total f xs) as [found [E _]];
        [|rewrite E; cbn [bind]; eauto]
  end.
  intros i Hi. apply in_seq in Hi. cbv zeta.
  assert (Hm : (i + 1) mod length vs < length vs)
    by (apply Nat.mod_upper_bound; lia).
  destruct (Hvs i) as [Ha Hab]; [lia|].
  destruct (Hvs ((i + 1) mod length vs) Hm) as [Hb _].
  assert (Hk : (0 <= nth i lens 0 <= fold_left Z.add lens 0)%Z).
  { assert (Hin : In (nth i lens 0%Z) lens) by (apply nth_In; lia).
    split; [apply Hlens | apply member_le_sum]; assumption. }
  rewrite Hp.
  destruct (nth i onedge false && nth _ onedge false); [eauto|].
  destruct (nth i onedge false || nth _ onedge false).
  - destruct (forbiddenCycleOneEdge_total (n_ c) (r_ c) (VtoV_ c)
                (nth i vs 0) (nth ((i + 1) mod length vs) vs 0)
                (nth i lens 0%Z) (fold_left Z.add lens 0%Z))
      as [f Ef]; try assumption; try lia.
    rewrite Ef. cbn [bind]. destruct f; [eauto|].
    apply forbiddenCycleOneEdge_total; auto; lia.
  - destruct (forbiddenCycle_total (n_ c) (r_ c) (VtoV_ c)
                (nth i vs 0) (nth ((i + 1) mod length vs) vs 0)
                (nth i lens 0%Z) (fold_left Z.add lens 0%Z))
      as [f Ef]; try assumption; try lia.
    rewrite Ef. cbn [bind]. destruct f; [eauto|].
    apply forbiddenCycle_total; auto; lia.
Qed.

(** X29: [isValid(vs, lens, onedge)] on a configuration whose paths the
    constructor computed, for ring vertices [vs] of which each differs
    from the next one (cyclically) and lengths [lens] none of which is
    negative: the call returns a value when the three vectors have the
    same size and [lens] sums to 6 or 7, and otherwise it aborts at one of
    its first three assertions.  No assertion of [forbiddenCycle],
    [forbiddenCycleOneEdge], [checkShortCycle] or [getComponent] fails
    below it. *)
Theorem isValid_returns (c : Configuration) (vs : list nat) (lens : list Z)
  (onedge : list bool) :
  length (VtoV_ c) = n_ c ->
  all_paths_ c = build_all_paths (r_ c) (VtoV_ c) ->
  (forall i, i < length vs ->
     nth i vs 0 < r_ c /\ nth i vs 0 <> nth ((i + 1) mod length vs) vs 0) ->
  (forall k, In k lens -> (0 <= k)%Z) ->
  if (length vs =? length lens) && (length vs =? length onedge)
     && is6or7 (fold_left Z.add lens 0%Z)
  then exists valid, isValid c vs lens onedge = Ok valid
  else isValid c vs lens onedge = AssertFail.
Proof.
  intros Hn Hp Hvs Hlens.
  destruct (Nat.eqb_spec (length vs) (length lens)) as [El | El].
  - destruct (Nat.eqb_spec (length vs) (length onedge)) as [Eo | Eo].
    + destruct (is6or7 (fold_left Z.add lens 0%Z)) eqn:EC; cbn [andb].
      * apply isValid_shaped; assumption.
      * unfold isValid.
        rewrite <- El, <- Eo, Nat.eqb_refl, EC. reflexivity.
    + cbn [andb]. unfold isValid. rewrite <- El, Nat.eqb_refl.
      apply Nat.eqb_neq in Eo. rewrite Eo. reflexivity.
  - cbn [andb]. unfold isValid. apply Nat.eqb_neq in El. rewrite El.
    reflexivity.
Qed.

Lemma isValid_returns_witness :
  (exists valid, isValid wheel_conf [0; 3] [3; 3]%Z [false; true] = Ok valid)
  /\ isValid wheel_conf [0; 3] [3; 2]%Z [false; true] = AssertFail.
Proof.
  assert (Hvs : forall i, i < 2 ->
            nth i [0; 3] 0 < r_ wheel_conf
            /\ nth i [0; 3] 0 <> nth ((i + 1) mod 2) [0; 3] 0).
  { intros [|[|i]] Hi; [vm_compute | vm_compute | lia]; split; lia. }
  split.
  - apply (isValid_returns wheel_conf [0; 3] [3; 3]%Z [false; true]
             eq_refl eq_refl Hvs).
    intros k [<- | [<- | []]]; lia.
  - apply (isValid_returns wheel_conf [0; 3] [3; 2]%Z [false; true]
             eq_refl eq_refl Hvs).
    intros k [<- | [<- | []]]; lia.
Defined.

(** ** The calls of [isValid] in [check] *)

Lemma NoDup_swap {A : Type} (l1 l2 : list A) :
  NoDup (l1 ++ l2) -> NoDup (l2 ++ l1).
Proof.
  intros H. apply NoDup_app.
  - apply (NoDup_app_remove_l _ _ H).
  - apply (NoDup_app_remove_r _ _ H).
  - intros a H2 H1. revert H. clear -H1 H2.
    induction l1 as [|x l1 IH]; [destruct H1|].
    simpl. intros H. inversion H as [|? ? Hx Hl]; subst.
    destruct H1 as [-> | H1].
    + apply Hx. apply in_or_app. right. assumption.
    + apply IH; assumption.
Qed.

Lemma NoDup_rotation {A : Type} (k : nat) (l : list A) :
  NoDup (skipn k l ++ firstn k l) <-> NoDup l.
Proof.
  rewrite <- (firstn_skipn k l) at 3.
  split; apply NoDup_swap.
Qed.

Lemma ring_order_NoDup (l : list nat) : ring_order l -> NoDup l.
Proof.
  intros [k H]. apply (NoDup_rotation k). apply ascending_NoDup. assumption.
Qed.

Lemma in_rotation {A : Type} (k : nat) (l : list A) (x : A) :
  In x (skipn k l ++ firstn k l) <-> In x l.
Proof.
  rewrite <- (firstn_skipn k l) at 3. rewrite !in_app_iff. tauto.
Qed.

Lemma length_rotation {A : Type} (k : nat) (l : list A) :
  length (skipn k l ++ firstn k l) = length l.
Proof.
  rewrite <- (firstn_skipn k l) at 3. rewrite !length_app. lia.
Qed.

Lemma NoDup_next (vs : list nat) (i : nat) :
  NoDup vs -> 2 <= length vs -> i < length vs ->
  nth i vs 0 <> nth ((i + 1) mod length vs) vs 0.
Proof.
  intros Hnd Hm Hi E.
  assert (Hj : (i + 1) mod length vs < length vs)
    by (apply Nat.mod_upper_bound; lia).
  apply (proj1 (NoDup_nth vs 0) Hnd i _ Hi Hj) in E.
  destruct (Nat.eq_dec (i + 1) (length vs)) as [Em | Em].
  - rewrite Em, Nat.Div0.mod_same in E. lia.
  - rewrite Nat.mod_small in E by lia. lia.
Qed.

Section Valid.

Variable c : Configuration.
Hypothesis Hn : length (VtoV_ c) = n_ c.
Hypothesis Hp : all_paths_ c = build_all_paths (r_ c) (VtoV_ c).

Variables (lens : list Z) (onedge : list bool).
Hypothesis Hlens : forall x, In x lens -> (0 <= x)%Z.
Hypothesis Hcut : is6or7 (fold_left Z.add lens 0%Z) = true.

Lemma rotation_valid (k : nat) (vs : list nat) :
  NoDup vs -> 2 <= length vs -> (forall v, In v vs -> v < r_ c) ->
  length lens = length vs -> length onedge = length vs ->
  exists valid,
    isValid c (skipn k vs ++ firstn k vs) lens onedge = Ok valid.
Proof.
  intros Hnd Hm Hr El Eo.
  apply isValid_shaped; try assumption;
    try (rewrite length_rotation; congruence).
  intros i Hi. split.
  - apply Hr. apply (in_rotation k). apply nth_In. assumption.
  - apply NoDup_next; [apply NoDup_rotation; assumption | | assumption].
    rewrite length_rotation. assumption.
Qed.

End Valid.

(** Gives [isValid] the vertices of one tuple of a search. *)
Ltac tuple_valid :=
  intros El Eo; apply rotation_valid; try assumption; try congruence;
  [ | simpl; lia
    | intros v Hv; simpl in Hv; intuition (subst; assumption) ].

(** X30: [check] calls [isValid] on the tuples that its searches return,
    as they are or rotated, with literal vectors [lens] and [onedge] of
    the size of the tuple, where [lens] has no negative entry and sums to
    6 or 7.  On a configuration whose paths the constructor computed every
    such call returns a value, for the pairs of [find_ab], the triples of
    [find_ab_bc] and [find_ab_ac_bc], the quadruples of [find_ab_cd] and
    [find_ab_bc_cd] and the quintuples of [find_ab_bc_de], in each
    rotation [k] and for every distance matrix searched: the vertices of a
    tuple are distinct ring vertices, so no assertion below [isValid]
    fails. *)
Theorem check_validity_calls_return (c : Configuration) (d : matrix)
  (d0 d1 d2 : Z) (lens : list Z) (onedge : list bool) (k : nat) :
  length (VtoV_ c) = n_ c ->
  all_paths_ c = build_all_paths (r_ c) (VtoV_ c) ->
  (forall x, In x lens -> (0 <= x)%Z) ->
  is6or7 (fold_left Z.add lens 0%Z) = true ->
  let valid_call vs :=
    length lens = length vs -> length onedge = length vs ->
    exists valid,
      isValid c (skipn k vs ++ firstn k vs) lens onedge = Ok valid in
  (forall a b, In (a, b) (find_ab d0 (n_ c) (r_ c) d) -> valid_call [a; b])
  /\ (forall a b e, In (a, b, e) (find_ab_bc d0 d1 (n_ c) (r_ c) d) ->
        valid_call [a; b; e])
  /\ (forall a b e, In (a, b, e) (find_ab_ac_bc d0 d1 d2 (n_ c) (r_ c) d) ->
        valid_call [a; b; e])
  /\ (forall a b e f, In (a, b, e, f) (find_ab_cd d0 d1 (n_ c) (r_ c) d) ->
        valid_call [a; b; e; f])
  /\ (forall a b e f,
        In (a, b, e, f) (find_ab_bc_cd d0 d1 d2 (n_ c) (r_ c) d) ->
        valid_call [a; b; e; f])
  /\ (forall a b e f g,
        In (a, b, e, f, g) (find_ab_bc_de d0 d1 d2 (n_ c) (r_ c) d) ->
        valid_call [a; b; e; f; g]).
Proof.
  intros Hn Hp Hlens Hcut valid_call. unfold valid_call. clear valid_call.
  split; [|split; [|split; [|split; [|split]]]].
  - intros a b H.
    apply (proj2 (find_ab_members d0 (n_ c) (r_ c) d)) in H.
    destruct H as [Hab [Hb _]]. assert (Ha : a < r_ c) by lia.
    tuple_valid.
    apply (ring_order_NoDup [a; b]). exists 0. simpl. lia.
  - intros a b e H.
    apply (proj2 (proj2 (find_ab_bc_members d0 d1 (n_ c) (r_ c) d))) in H.
    destruct H as [Ha [Hb [He [_ H]]]].
    tuple_valid.
    apply ring_order_NoDup, ring_order3. lia.
  - intros a b e H.
    apply (proj2 (proj2 (find_ab_ac_bc_members d0 d1 d2 (n_ c) (r_ c) d)))
      in H.
    destruct H as [Ha [Hb [He [_ [_ H]]]]].
    tuple_valid.
    apply ring_order_NoDup, ring_order3. lia.
  - intros a b e f H.
    apply (proj2 (proj2 (find_ab_cd_members d0 d1 (n_ c) (r_ c) d))) in H.
    destruct H as [Ha [Hb [He [Hf [H _]]]]].
    tuple_valid.
    apply ring_order_NoDup. assumption.
  - intros a b e f H.
    apply (proj2 (proj2 (find_ab_bc_cd_members d0 d1 d2 (n_ c) (r_ c) d)))
      in H.
    destruct H as [Ha [Hb [He [Hf [H _]]]]].
    tuple_valid.
    apply ring_order_NoDup. assumption.
  - intros a b e f g H.
    apply (proj2 (proj2 (find_ab_bc_de_members d0 d1 d2 (n_ c) (r_ c) d)))
      in H.
    destruct H as [Ha [Hb [He [Hf [Hg [H _]]]]]].
    tuple_valid.
    apply ring_order_NoDup. assumption.
Qed.

Lemma check_validity_calls_return_witness :
  In (0, 3, 4) (find_ab_bc 2 1 (n_ wheel_conf) (r_ wheel_conf)
                  (dist_ wheel_conf))
  /\ exists valid,
       isValid wheel_conf [4; 0; 3] [2; 3; 1]%Z [false; true; false]
       = Ok valid.
Proof.
  assert (Hin : In (0, 3, 4) (find_ab_bc 2 1 (n_ wheel_conf) (r_ wheel_conf)
                                (dist_ wheel_conf)))
    by (vm_compute; auto).
  split; [exact Hin|].
  refine (proj1 (proj2 (check_validity_calls_return wheel_conf
                          (dist_ wheel_conf) 2 1 0 [2; 3; 1]%Z
                          [false; true; false] 2 eq_refl eq_refl _ eq_refl))
            0 3 4 Hin eq_refl eq_refl).
  intros x [<- | [<- | [<- | []]]]; lia.
Defined.

Example isValid_wheel :
  isValid wheel_conf [4; 0; 3] [2; 3; 1]%Z [false; true; false] = Ok true
  /\ isValid wheel_conf [0; 3] [3; 3]%Z [false; true] = Ok true
  /\ isValid wheel_conf [0; 0] [3; 3]%Z [false; false] = AssertFail.
Proof. vm_compute. auto. Qed.

(** ** The outside masks under the empty contraction *)

(** A loop whose body leaves the state as it is. *)
Lemma fold_res_fixed {St A : Type} (body : St -> A -> res St) (xs : list A)
  (st : St) :
  (forall x, In x xs -> body st x = Ok st) -> fold_res body xs st = Ok st.
Proof.
  induction xs as [|x xs IH]; intros H; [reflexivity|].
  cbn [fold_res]. rewrite H by (left; reflexivity). cbn [bind].
  apply IH. intros y Hy. apply H. right. assumption.
Qed.

Lemma WF_empty_flag (n : nat) (VtoV : list (list nat)) (flag : bool) :
  WF n VtoV [] flag = WF n VtoV [] true.
Proof. destruct flag; reflexivity. Qed.

(** With no contracted edge every edge weighs 1. *)
Lemma path_weight_uncontracted (flag : bool) (p : list nat) :
  p <> [] -> path_weight (contract_set [] flag) p = pathlen_of p.
Proof.
  assert (E : contract_set [] flag = []) by (destruct flag; reflexivity).
  rewrite E. unfold pathlen_of.
  induction p as [|a [|b p] IH]; intros Hne; [congruence | reflexivity |].
  change (path_weight [] (a :: b :: p))
    with (edge_weight [] a b + path_weight [] (b :: p))%Z.
  rewrite IH by discriminate. unfold edge_weight. cbn [mem_pair existsb].
  cbn [length]. lia.
Qed.

Section Empty.

Variables (n r : nat) (VtoV : list (list nat)).
Variable paths : list (list (list (list nat))).
Variable d : matrix.
Hypothesis Hwf : wf_graph n VtoV.
Hypothesis Hund : undirected VtoV.
Hypothesis Hloop : loop_free VtoV.
Hypothesis Hn : (Z.of_nat n + 1 <= INF)%Z.
Hypothesis Hrn : r <= n.
Hypothesis Hd : WF n VtoV [] true = Ok d.

(** Every shortest path has as many edges as the distance of [WF]. *)
Lemma shortest_lengths (s t : nat) (flag : bool) (ps : list (list nat)) :
  s < n -> t < n ->
  shortestPaths n VtoV [] s t flag = Ok ps ->
  forall p, In p ps -> pathlen_of p = mget d s t.
Proof.
  intros Hs Ht E p Hp.
  destruct (shortestPaths_agree_WF n VtoV [] flag s t d Hwf Hund Hloop Hn
              Hs Ht) as [ps' [E' [Hft [Hw _]]]];
    [rewrite WF_empty_flag; assumption|].
  rewrite E in E'. injection E' as <-.
  rewrite <- (Hw p Hp). symmetry. apply path_weight_uncontracted.
  apply (Hft p Hp).
Qed.

(** No pair of shortest paths is shorter after the empty contraction, so
    the marking loops skip every pair. *)
Lemma mark_pairs_unmoved (component : list nat -> list nat -> res (list nat))
  (q1 p2 q2 p1 : nat) (path1s path2s : list (list nat)) (mask : list bool) :
  (forall p, In p path1s -> pathlen_of p = mget d q1 p2) ->
  (forall p, In p path2s -> pathlen_of p = mget d q2 p1) ->
  mark_pairs d d component q1 p2 q2 p1 path1s path2s mask = Ok mask.
Proof.
  intros H1 H2. unfold mark_pairs.
  apply fold_res_fixed. intros path1 Hp1.
  apply fold_res_fixed. intros path2 Hp2.
  rewrite (H1 path1 Hp1), (H2 path2 Hp2), !Z.eqb_refl. reflexivity.
Qed.

Lemma calcReductableVertices1_unmoved (C : Z) (mask : list bool) :
  calcReductableVertices1 n r VtoV paths [] d d C mask = Ok mask.
Proof.
  unfold calcReductableVertices1.
  apply fold_res_fixed. intros p _. apply fold_res_fixed. intros q _.
  destruct (p =? q); [reflexivity|]. cbv zeta.
  assert (E : (3 - mget d p q <? Z.max 0 (5 - mget d p q))%Z = true)
    by (apply Z.ltb_lt; lia).
  rewrite E. reflexivity.
Qed.

(** What a step of the passes over the quadruples reads of the ring. *)
Lemma quadruple_vertices (p1 q1_ p2_ q2_ : nat) :
  In (p1, q1_, p2_, q2_) (ring_quadruples r) ->
  q1_ mod r < n /\ p2_ mod r < n /\ q2_ mod r < n /\ p1 < n.
Proof.
  intros H. apply in_ring_quadruples in H.
  assert (Hr : r <> 0) by lia.
  pose proof (Nat.mod_upper_bound q1_ r Hr).
  pose proof (Nat.mod_upper_bound p2_ r Hr).
  pose proof (Nat.mod_upper_bound q2_ r Hr). lia.
Qed.

Ltac unmoved_step :=
  match goal with
  | H : Ok _ = Ok _ |- _ => injection H as <-
  | H : bind _ _ = Ok _ |- _ =>
      apply bind_ok in H; let a := fresh "a" in let E := fresh "E" in
      destruct H as [a [E H]]
  | H : (if ?b then _ else _) = Ok _ |- _ => destruct b
  | H : fold_res _ _ ?st = Ok _ |- _ = ?st =>
      apply (fold_res_keeps (fun m => m = st)) in H;
      [exact H | reflexivity
       | let st0 := fresh "st" in let x := fresh "x" in
         let st' := fresh "st'" in let Hst := fresh "Hst" in
         let Hin := fresh "Hin" in let Hb := fresh "Hb" in
         clear H; intros st0 x st' Hst Hin Hb; subst st0]
  | H : mark_pairs _ _ _ ?q1 ?p2 ?q2 ?p1 ?l1 ?l2 ?st = Ok _,
    E1 : shortestPaths _ _ _ ?q1 ?p2 true = Ok ?l1,
    E2 : shortestPaths _ _ _ ?q2 ?p1 true = Ok ?l2 |- _ = ?st =>
      rewrite mark_pairs_unmoved in H;
      [injection H as <-; reflexivity
      | apply (shortest_lengths q1 p2 true l1); assumption
      | apply (shortest_lengths q2 p1 true l2); assumption]
  end.

Lemma two_outer_paths_unmoved (flipped : bool)
  (almost_minimal : list nat -> list nat -> Z -> Z -> Z -> res bool)
  (size_of : list nat -> list nat -> res (Z * Z))
  (component : list nat -> list nat -> res (list nat))
  (C : Z) (mask mask' : list bool) :
  two_outer_paths n r VtoV paths [] d d flipped almost_minimal size_of
    component C mask = Ok mask' ->
  mask' = mask.
Proof.
  unfold two_outer_paths. intros H.
  apply (fold_res_keeps (fun m => m = mask)) in H; [exact H | reflexivity |].
  clear H. intros st [[[p1 q1_] p2_] q2_] st' -> Hin Hb.
  destruct (quadruple_vertices p1 q1_ p2_ q2_ Hin) as [Q1 [P2 [Q2 P1]]].
  cbv zeta in Hb.
  set (q1 := q1_ mod r) in *. set (p2 := p2_ mod r) in *.
  set (q2 := q2_ mod r) in *.
  repeat unmoved_step; reflexivity.
Qed.

Lemma calcReductableVertices3_unmoved (l6 o6 l7 o7 : matrix) (C : Z)
  (mask mask' : list bool) :
  calcReductableVertices3 n r VtoV paths [] d d l6 o6 l7 o7 C mask
  = Ok mask' ->
  mask' = mask.
Proof.
  unfold calcReductableVertices3. intros H.
  apply (fold_res_keeps (fun m => m = mask)) in H; [exact H | reflexivity |].
  clear H. intros st [[[p1 q1_] p2_] q2_] st' -> Hin Hb.
  destruct (quadruple_vertices p1 q1_ p2_ q2_ Hin) as [Q1 [P2 [Q2 P1]]].
  cbv zeta in Hb.
  set (q1 := q1_ mod r) in *. set (p2 := p2_ mod r) in *.
  set (q2 := q2_ mod r) in *.
  repeat unmoved_step; reflexivity.
Qed.

(** After the empty contraction the four passes mark nothing. *)
Lemma calcReductableVertices_unmoved (l6 o6 l7 o7 : matrix) (C : Z)
  (mask : list bool) :
  calcReductableVertices n r VtoV paths [] d d l6 o6 l7 o7 C = Ok mask ->
  mask = repeat false n.
Proof.
  unfold calcReductableVertices. intros H.
  apply bind_ok in H. destruct H as [[] [_ H]].
  rewrite calcReductableVertices1_unmoved in H. cbn [bind] in H.
  apply bind_ok in H. destruct H as [m2 [E2 H]].
  apply two_outer_paths_unmoved in E2. subst m2.
  apply bind_ok in H. destruct H as [m3 [E3 H]].
  apply calcReductableVertices3_unmoved in E3. subst m3.
  apply two_outer_paths_unmoved in H. assumption.
Qed.

End Empty.

(** ** [setContract] with the empty list, after another contraction *)

(** C5 (amended): on a well-formed adjacency without loops, after
    [setContract(C)] and then [setContract([])] the state is the one that
    [setContract([])] gives on the freshly constructed configuration:
    [setContract] depends only on the graph, the cached tables and its
    argument.  In that state [distContracted] and [representative] are
    those of the freshly constructed configuration and every vertex is its
    own representative; on an undirected adjacency with [n + 1 <= INF] and
    [r <= n] the masks [reductableOutside6] and [reductableOutside7] are
    those of the freshly constructed configuration too, all-false.  Only
    [reductableInside] is not reset: it is recomputed by the cut analysis,
    which the constructor does not run. *)
Theorem setContract_empty_resets (n r : nat) (VtoV : list (list nat))
  (c0 : Configuration) (contract : list (nat * nat)) (c1 : Configuration) :
  wf_graph n VtoV -> loop_free VtoV ->
  newConfiguration n r VtoV = Ok c0 ->
  setContract c0 contract = Ok c1 ->
  setContract c1 [] = setContract c0 []
  /\ forall c2,
       setContract c1 [] = Ok c2 ->
       same_graph c0 c2
       /\ contract_ c2 = []
       /\ dist_contracted_ c2 = dist_contracted_ c0
       /\ representative_ c2 = representative_ c0
       /\ (forall v, v < n ->
             nth v (representative_ c2) (-1)%Z = Z.of_nat v)
       /\ (undirected VtoV -> (Z.of_nat n + 1 <= INF)%Z -> r <= n ->
           is_reductable_outside6_ c2 = is_reductable_outside6_ c0
           /\ is_reductable_outside7_ c2 = is_reductable_outside7_ c0
           /\ is_reductable_outside6_ c2 = repeat false n
           /\ is_reductable_outside7_ c2 = repeat false n).
Proof.
  intros Hwf Hl E0 E1.
  pose proof (setContract_assigns c0 contract c1 E1) as [Hsame _].
  split; [apply setContract_same_graph; assumption|].
  intros c2 E2. rewrite (setContract_same_graph c0 c1 [] Hsame) in E2.
  destruct (newConfiguration_total n r VtoV (proj1 Hwf))
    as [c [Ec [Hn [Hr [HV [_ [Ed [Edc [_ [Erep [_ [Eo6 [Eo7 _]]]]]]]]]]]]].
  rewrite E0 in Ec. injection Ec as <-.
  pose proof (setContract_assigns c0 [] c2 E2)
    as [Hsame2 [Hc [Hwf2 [Hrep2 _]]]].
  rewrite Hn, HV in Hwf2.
  assert (Hdc2 : dist_contracted_ c2 = dist_ c0).
  { unfold WF in Hwf2. cbn in Hwf2. injection Hwf2 as Hdc2.
    rewrite Ed. symmetry. assumption. }
  assert (Hdc : dist_contracted_ c2 = dist_contracted_ c0)
    by (rewrite Edc; assumption).
  split; [assumption|]. split; [assumption|]. split; [assumption|].
  assert (Hrep : representative_ c2 = representative_ c0).
  { rewrite Hrep2, Erep, Hn, Hdc, Edc. reflexivity. }
  split; [assumption|].
  split; [intros v Hv; rewrite Hrep, Erep, Ed;
          apply self_representative; assumption|].
  intros Hund Hinf Hrn.
  unfold setContract in E2.
  apply bind_ok in E2. destruct E2 as [dc [Edc2 E2]].
  apply bind_ok in E2. destruct E2 as [inside [_ E2]].
  apply bind_ok in E2. destruct E2 as [out6 [E6 E2]].
  apply bind_ok in E2. destruct E2 as [out7 [E7 E2]].
  injection E2 as <-.
  cbn [is_reductable_outside6_ is_reductable_outside7_ dist_contracted_]
    in *.
  clear Edc2. rewrite Hn, Hr, HV, Hdc2 in E6, E7. rewrite Hdc2 in Hwf2.
  apply (calcReductableVertices_unmoved n r VtoV _ (dist_ c0) Hwf Hund Hl
           Hinf Hrn Hwf2) in E6.
  apply (calcReductableVertices_unmoved n r VtoV _ (dist_ c0) Hwf Hund Hl
           Hinf Hrn Hwf2) in E7.
  rewrite Eo6, Eo7. repeat split; assumption.
Qed.

Lemma setContract_empty_resets_witness :
  exists c0 c1 c2,
    newConfiguration 8 6 wheel_adj = Ok c0
    /\ setContract c0 [(7, 0)] = Ok c1
    /\ setContract c1 [] = Ok c2
    /\ setContract c1 [] = setContract c0 []
    /\ same_graph c0 c2
    /\ contract_ c2 = []
    /\ dist_contracted_ c2 = dist_contracted_ c0
    /\ representative_ c2 = representative_ c0
    /\ (forall v, v < 8 -> nth v (representative_ c2) (-1)%Z = Z.of_nat v)
    /\ is_reductable_outside6_ c2 = is_reductable_outside6_ c0
    /\ is_reductable_outside7_ c2 = is_reductable_outside7_ c0
    /\ is_reductable_outside6_ c2 = repeat false 8
    /\ is_reductable_outside7_ c2 = repeat false 8.
Proof.
  do 3 eexists.
  assert (H1 : wf_graph 8 wheel_adj)
    by (apply wf_graphb_sound; vm_compute; reflexivity).
  assert (H2 : loop_free wheel_adj)
    by (apply loop_freeb_sound; vm_compute; reflexivity).
  assert (H3 : undirected wheel_adj)
    by (apply undirectedb_sound; vm_compute; reflexivity).
  split; [vm_compute; reflexivity|].
  split; [vm_compute; reflexivity|].
  split; [vm_compute; reflexivity|].
  match goal with
  | |- setContract ?c1 [] = setContract ?c0 [] /\ _ =>
      destruct (setContract_empty_resets 8 6 wheel_adj c0 [(7, 0)] c1 H1 H2)
        as [Hsame Hall];
        [vm_compute; reflexivity | vm_compute; reflexivity |]
  end.
  split; [exact Hsame|].
  match type of Hall with
  | forall c2, setContract ?c1 [] = Ok c2 -> _ =>
      destruct (Hall _ ltac:(vm_compute; reflexivity))
        as [S1 [S2 [S3 [S4 [S5 S6]]]]]
  end.
  destruct (S6 H3 ltac:(unfold INF; simpl; lia) ltac:(lia))
    as [O1 [O2 [O3 O4]]].
  repeat (split; [assumption|]). assumption.
Defined.

(** ** [checkShortCycle] and the region a path encloses *)







